(** * A two-pass assembler for a 10-bit educational machine

    Shallow embedding of the assembler's C sources and the properties of its
    specification that are settled against them.

    Conventions of the embedding.
    - A C string is the list of its characters up to (not including) the
      terminating NUL; a [char *] that may be [NULL] is an [option].
      Reading [str[i]] is [nth_char str i], which yields NUL at the
      terminator.
    - A signed [int] is a [Z].  Signed overflow is undefined in C, so no
      wrap-around is written for it; [unsigned int] fields of the memory
      words wrap modulo 2^32 ([to_unsigned]).
    - The append-only tables (data image, symbol table, error log, external
      uses) are the lists of their entries in use, the counters [dc], [lac],
      [ec], [exc] being their lengths.  The instruction image is an array
      that is written at arbitrary positions by the second pass: it is the
      list of all its allocated cells together with the counter [ic].
    - Allocation and file operations are taken to succeed; the sentinel
      returned on their failure (EXIT, declared in a header that is not part
      of the sources at hand) is therefore never produced, and is distinct
      from every regular return code.
    - A library call on a [NULL] pointer ([strtol], [atoi], [memmove],
      [strcmp]) has no defined behaviour: functions that can reach one
      return an [option], [None] standing for the undefined run. *)

From Stdlib Require Import ZArith Ascii String Lia.
From stdpp Require Import base list.

Open Scope Z_scope.

(** ** Characters and C strings *)

Abbreviation cstring := (list ascii).

Definition cstr (s : string) : cstring := list_ascii_of_string s.

Definition NUL : ascii := "000"%char.

Definition TAB : ascii := "009"%char.

Definition nth_char (s : cstring) (i : nat) : ascii := nth i s NUL.

Definition code (c : ascii) : Z := Z.of_N (N_of_ascii c).

Definition ascii_eqb (a b : ascii) : bool := Ascii.eqb a b.

(** [isspace] in the "C" locale: space, \t, \n, \v, \f, \r. *)
Definition isspace (c : ascii) : bool :=
  (code c =? 32) || ((9 <=? code c) && (code c <=? 13)).

Definition isdigit (c : ascii) : bool := (48 <=? code c) && (code c <=? 57).

Definition isalpha (c : ascii) : bool :=
  ((65 <=? code c) && (code c <=? 90)) || ((97 <=? code c) && (code c <=? 122)).

Definition isalnum (c : ascii) : bool := isalpha c || isdigit c.

(** ** second_pass.c: the base-4 encoder *)

(** [digit_to_char_special_base4]: the switch on 0..3, NUL by default. *)
Definition digit_to_char_special_base4 (digit : Z) : ascii :=
  if digit =? 0 then "a"%char
  else if digit =? 1 then "b"%char
  else if digit =? 2 then "c"%char
  else if digit =? 3 then "d"%char
  else NUL.

(** The switch that reads a character back inside the loops of the encoder:
    [digit = 0] first, then the four cases, no default. *)
Definition char_digit (c : ascii) : Z :=
  if ascii_eqb c "a" then 0
  else if ascii_eqb c "b" then 1
  else if ascii_eqb c "c" then 2
  else if ascii_eqb c "d" then 3
  else 0.

(** The loop of [add_one_to_special_base4]:
    [for (i = len - 1; i >= 0 && carry > 0; i--)].  The argument [n] is
    [i + 1]. *)
Fixpoint add_one_loop (n : nat) (carry : Z) (base4_str : cstring) : cstring :=
  match n with
  | O => base4_str
  | S i =>
      if carry >? 0 then
        let digit := char_digit (nth_char base4_str i) + carry in
        add_one_loop i (Z.quot digit 4)
          (<[i := digit_to_char_special_base4 (Z.rem digit 4)]> base4_str)
      else base4_str
  end.

Definition add_one_to_special_base4 (base4_str : cstring) (len : Z) : cstring :=
  add_one_loop (Z.to_nat len) 1 base4_str.

(** The loop shared by both branches of [int_to_special_base4]:
    [while (current_num > 0 && i >= 0) { base4_str[i--] = ...; current_num /= 4; }].
    The argument [n] is [i + 1]. *)
Fixpoint fill_digits (n : nat) (current_num : Z) (base4_str : cstring) : cstring :=
  match n with
  | O => base4_str
  | S i =>
      if current_num >? 0 then
        fill_digits i (Z.quot current_num 4)
          (<[i := digit_to_char_special_base4 (Z.rem current_num 4)]> base4_str)
      else base4_str
  end.

(** The inversion loop [base4_str[k] = digit_to_char(3 - digit)] over all
    positions. *)
Definition invert_digits (base4_str : cstring) : cstring :=
  map (fun c => digit_to_char_special_base4 (3 - char_digit c)) base4_str.

Definition int_to_special_base4 (num num_digits : Z) : cstring :=
  let base4_str := replicate (Z.to_nat num_digits) "a"%char in
  if num <? 0 then
    let current_num := Z.abs num in
    let filled := fill_digits (Z.to_nat num_digits) current_num base4_str in
    add_one_to_special_base4 (invert_digits filled) num_digits
  else if num =? 0 then base4_str
  else fill_digits (Z.to_nat num_digits) num base4_str.

(** *** Reading a string of the alphabet back *)

(** The value of a string read as an unsigned base-4 numeral, most
    significant digit first. *)
Definition base4_value (s : cstring) : Z :=
  fold_left (fun acc c => 4 * acc + char_digit c) s 0.

(** The same string read as a two's-complement numeral of [width] base-4
    digits: values from half the range upwards stand for negatives. *)
Definition decode_twos_complement (width : Z) (s : cstring) : Z :=
  let u := base4_value s in
  if 2 * u >=? 4 ^ width then u - 4 ^ width else u.

Definition in_alphabet (c : ascii) : Prop :=
  c = "a"%char \/ c = "b"%char \/ c = "c"%char \/ c = "d"%char.

(** The [n] low base-4 digits of [v], most significant first, as characters:
    the numeral of [v mod 4^n]. *)
Fixpoint numeral (n : nat) (v : Z) : cstring :=
  match n with
  | O => []
  | S i => numeral i (v / 4) ++ [digit_to_char_special_base4 (v mod 4)]
  end.


(** ** C library functions on strings *)

Fixpoint strcmp_eq (a b : cstring) : bool :=
  match a, b with
  | [], [] => true
  | x :: a', y :: b' => ascii_eqb x y && strcmp_eq a' b'
  | _, _ => false
  end.

(** [strchr(delims, c) != NULL] for a character [c] of a string. *)
Definition is_delim (delims : cstring) (c : ascii) : bool :=
  existsb (ascii_eqb c) delims.

(** The longest prefix whose characters satisfy [p], and what follows it. *)
Fixpoint take_while (p : ascii -> bool) (s : cstring) : cstring :=
  match s with
  | c :: s' => if p c then c :: take_while p s' else []
  | [] => []
  end.

Fixpoint drop_while (p : ascii -> bool) (s : cstring) : cstring :=
  match s with
  | c :: s' => if p c then drop_while p s' else s
  | [] => []
  end.

(** [strtok]: the token found (or [NULL]), the position saved for the next
    call with a [NULL] argument, and the contents of the scanned buffer
    after the call (a NUL is written over the delimiter that ends the
    token, which cuts the buffer there). *)
Record strtok_result := {
  token : option cstring;
  saved : cstring;
  buffer : cstring
}.

Definition strtok (s delims : cstring) : strtok_result :=
  let lead := take_while (is_delim delims) s in
  let body := drop_while (is_delim delims) s in
  match body with
  | [] => {| token := None; saved := []; buffer := s |}
  | _ =>
      let tok := take_while (fun c => negb (is_delim delims c)) body in
      match drop_while (fun c => negb (is_delim delims c)) body with
      | [] => {| token := Some tok; saved := []; buffer := s |}
      | _ :: rest => {| token := Some tok; saved := rest; buffer := lead ++ tok |}
      end
  end.

(** Conversion of a [long] or an [unsigned int] to [int] (two's complement,
    32 bits), and of an [int] to [unsigned int]. *)
Definition to_int (z : Z) : Z := (z + 2 ^ 31) mod 2 ^ 32 - 2 ^ 31.

Definition to_unsigned (z : Z) : Z := z mod 2 ^ 32.

Definition LONG_MAX : Z := 2 ^ 63 - 1.
Definition LONG_MIN : Z := - 2 ^ 63.

Definition digits_value (ds : cstring) : Z :=
  fold_left (fun acc c => 10 * acc + (code c - 48)) ds 0.

(** [strtol(str, &endptr, 10)]: optional white space, optional sign, decimal
    digits; the value is clamped to the range of [long]; [endptr] is what
    follows the digits, or [str] itself when there is no digit. *)
Definition strtol (str : cstring) : Z * cstring :=
  let s1 := drop_while isspace str in
  let '(negative, s2) :=
    match s1 with
    | c :: s' =>
        if ascii_eqb c "-" then (true, s')
        else if ascii_eqb c "+" then (false, s')
        else (false, s1)
    | [] => (false, s1)
    end in
  let ds := take_while isdigit s2 in
  match ds with
  | [] => (0, str)
  | _ =>
      let v := if negative then - digits_value ds else digits_value ds in
      (Z.max LONG_MIN (Z.min LONG_MAX v), drop_while isdigit s2)
  end.

Definition atoi (str : cstring) : Z := to_int (fst (strtol str)).

(** ** directive.c: helpers on lines *)

Definition only_spaces_and_tabs (str : cstring) : bool := forallb isspace str.

Definition is_blank (c : ascii) : bool :=
  ascii_eqb c " " || ascii_eqb c TAB.

Definition begin_of_string (str : cstring) : Z :=
  if only_spaces_and_tabs str then 0
  else Z.of_nat (length (take_while is_blank str)).

Definition end_of_string (str : cstring) : Z :=
  if only_spaces_and_tabs str then 0
  else Z.of_nat (length (rev (drop_while is_blank (rev str)))).

(** [str[end] = '\0'] for [0 <= end <= strlen(str)]. *)
Definition truncate_at (str : cstring) (e : Z) : cstring := take (Z.to_nat e) str.

(** [i] advanced while [i < len && p(str[i])]. *)
Definition skip_from (p : ascii -> bool) (str : cstring) (i : nat) : nat :=
  (i + length (take_while p (drop i str)))%nat.

(** ** code.c: [string_without_first_word] *)

Definition EXIT_C : cstring := cstr "EXIT".

Definition string_without_first_word (str delims : cstring) : option cstring :=
  let p := drop_while (is_delim delims) str in
  match drop_while (fun c => negb (is_delim delims c)) p with
  | [] => None
  | rest =>
      match drop_while (is_delim delims) rest with
      | [] => None
      | rest' => Some rest'
      end
  end.


(** ** data.h, code.h, instruction.h, directive.h, second_pass.h: constants *)

Definition MAX_SIZE_MEMORY : Z := 156.

Definition INSTRUCTION : Z := 0.
Definition DIRECTIVE : Z := 1.
Definition ENTRY : Z := 3.
Definition EXTERN : Z := 4.

(** The addressing modes are written [00], [01], [10], [11] in the header:
    the first two are octal literals, the last two decimal. *)
Definition IMMEDIATE : Z := 0.
Definition DIRECT : Z := 1.
Definition MATRIX : Z := 10.
Definition REGISTER : Z := 11.

Definition ABSOLUTE : Z := 0.
Definition EXTERNAL : Z := 1.
Definition RELOCATABLE : Z := 2.

Definition NO_OPERAND : Z := - 1.
Definition NO_KNEWN : Z := - 4.

Definition MOV : Z := 0.
Definition CMP : Z := 1.
Definition ADD : Z := 2.
Definition SUB : Z := 3.
Definition LEA : Z := 4.
Definition CLR : Z := 5.
Definition NOT : Z := 6.
Definition INC : Z := 7.
Definition DEC : Z := 8.
Definition JMP : Z := 9.
Definition BNE : Z := 10.
Definition JSR : Z := 11.
Definition RED : Z := 12.
Definition PRN : Z := 13.
Definition RTS : Z := 14.
Definition STOP : Z := 15.

Definition MAX_VAL : Z := 511.
Definition MIN_VAL : Z := - 512.

Definition MEMORY_START : Z := 100.

(** ** data.h: the tables *)

(** [struct instructionsMemory]: the record type tag with the member of the
    union it selects.  All fields are [unsigned int]. *)
Inductive instructionsMemory :=
| RECORD_TYPE_COMMAND (opcode operand1 operand2 ARE : Z)
| RECORD_TYPE_ADDRESS (address ARE : Z)
| RECORD_TYPE_REGISTER (operand1 operand2 ARE : Z).

(** A cell as [calloc] leaves it: tag 0 and zero fields. *)
Definition zero_cell : instructionsMemory := RECORD_TYPE_COMMAND 0 0 0 0.

Record labelMemory := {
  l_name : cstring;
  l_type : Z;
  l_index : Z;
  l_en : Z
}.

Record error := {
  e_error : cstring;
  e_line : Z
}.

Record external := {
  ex_name : cstring;
  ex_index : Z
}.

(** What the passes work on: the tables, and the counters that are not the
    length of a table. *)
Record tables := {
  instable : list instructionsMemory;
  ic : Z;
  ic2 : Z;
  datatable : list Z;
  labeltable : list labelMemory;
  errortable : list error;
  extable : list external
}.

Definition dc (t : tables) : Z := Z.of_nat (length (datatable t)).
Definition ec (t : tables) : Z := Z.of_nat (length (errortable t)).
Definition lac (t : tables) : Z := Z.of_nat (length (labeltable t)).
Definition exc (t : tables) : Z := Z.of_nat (length (extable t)).

Definition set_instable (t : tables) (i : list instructionsMemory) (n : Z) : tables :=
  {| instable := i; ic := n; ic2 := ic2 t; datatable := datatable t;
     labeltable := labeltable t; errortable := errortable t;
     extable := extable t |}.

Definition set_ic2 (t : tables) (n : Z) : tables :=
  {| instable := instable t; ic := ic t; ic2 := n; datatable := datatable t;
     labeltable := labeltable t; errortable := errortable t;
     extable := extable t |}.

Definition set_cells (t : tables) (i : list instructionsMemory) : tables :=
  set_instable t i (ic t).

Definition set_datatable (t : tables) (d : list Z) : tables :=
  {| instable := instable t; ic := ic t; ic2 := ic2 t; datatable := d;
     labeltable := labeltable t; errortable := errortable t;
     extable := extable t |}.

Definition set_labeltable (t : tables) (l : list labelMemory) : tables :=
  {| instable := instable t; ic := ic t; ic2 := ic2 t; datatable := datatable t;
     labeltable := l; errortable := errortable t; extable := extable t |}.

Definition set_errortable (t : tables) (e : list error) : tables :=
  {| instable := instable t; ic := ic t; ic2 := ic2 t; datatable := datatable t;
     labeltable := labeltable t; errortable := e; extable := extable t |}.

Definition set_extable (t : tables) (x : list external) : tables :=
  {| instable := instable t; ic := ic t; ic2 := ic2 t; datatable := datatable t;
     labeltable := labeltable t; errortable := errortable t; extable := x |}.

(** The tables at the start of a file, as [main] allocates them. *)
Definition initial_tables : tables :=
  {| instable := replicate (Z.to_nat MAX_SIZE_MEMORY) zero_cell;
     ic := 0; ic2 := 0; datatable := []; labeltable := [];
     errortable := []; extable := [] |}.

(** ** How a call ends *)

(** A function of the assembler returns a code and leaves the tables in a
    new state, or returns the sentinel EXIT (the run of the file is then
    abandoned), or reaches an operation that C leaves undefined. *)
Inductive outcome (A : Type) :=
| Returns (a : A) (t : tables)
| Exits
| Undefined.

Arguments Returns {A} a t.
Arguments Exits {A}.
Arguments Undefined {A}.

Definition M (A : Type) : Type := tables -> outcome A.

Definition ret {A} (a : A) : M A := fun t => Returns a t.

Definition bind {A B} (m : M A) (k : A -> M B) : M B :=
  fun t =>
    match m t with
    | Returns a t' => k a t'
    | Exits => Exits
    | Undefined => Undefined
    end.

Definition exit_ {A} : M A := fun _ => Exits.

Definition undefined {A} : M A := fun _ => Undefined.

Definition get : M tables := fun t => Returns t t.

Definition put (t : tables) : M unit := fun _ => Returns tt t.

Declare Scope asm_scope.
Delimit Scope asm_scope with asm.
Notation "x <- m ;; k" := (bind m (fun x => k))
  (at level 100, m at next level, right associativity) : asm_scope.
Notation "m ;;; k" := (bind m (fun _ => k))
  (at level 100, right associativity) : asm_scope.
Open Scope asm_scope.

(** ** data.c: appending to the tables *)

(** [add_error]: every message of the sources is shorter than
    MAX_SIZE_MASAGE = 200, so it is always copied. *)
Definition add_error (line_number : Z) (error_message : string) : M Z :=
  fun t =>
    Returns 1
      (set_errortable t
         (errortable t ++ [{| e_error := cstr error_message; e_line := line_number |}])).

Definition add_data (val : Z) : M Z :=
  fun t => Returns 1 (set_datatable t (datatable t ++ [to_unsigned val])).

(** [add_ins]: when the table is full it is doubled by [realloc] (the
    contents of the new half are indeterminate in C; the model takes zero
    cells); then the cell at [ic] is written and [ic] advances. *)
Definition add_ins (w : instructionsMemory) : M Z :=
  fun t =>
    let cells :=
      if Z.of_nat (length (instable t)) <=? ic t
      then instable t ++ replicate (length (instable t)) zero_cell
      else instable t in
    if (0 <=? ic t) && (ic t <? Z.of_nat (length cells))
    then Returns 1 (set_instable t (<[Z.to_nat (ic t) := w]> cells) (ic t + 1))
    else Undefined.

Definition add_extern (str : cstring) (index : Z) : M Z :=
  fun t =>
    Returns 1 (set_extable t (extable t ++ [{| ex_name := str; ex_index := index |}])).

(** The loop of [search_label] over the entries in use. *)
Fixpoint search_label_loop (l : list labelMemory) (str : cstring) (type ic_ dc_ : Z)
  : list labelMemory * Z :=
  match l with
  | [] => ([], 0)
  | x :: l' =>
      if strcmp_eq (l_name x) str then
        if type =? EXTERN then
          ({| l_name := l_name x; l_type := l_type x; l_index := l_index x;
              l_en := EXTERN |} :: l', 1)
        else if type =? ENTRY then
          ({| l_name := l_name x; l_type := l_type x; l_index := l_index x;
              l_en := ENTRY |} :: l', 1)
        else if ((type =? INSTRUCTION) || (type =? DIRECTIVE)) && (l_en x =? ENTRY) then
          if type =? DIRECTIVE then
            ({| l_name := l_name x; l_type := type; l_index := dc_;
                l_en := l_en x |} :: l', 1)
          else
            ({| l_name := l_name x; l_type := type; l_index := ic_;
                l_en := l_en x |} :: l', 1)
        else
          let '(r, found) := search_label_loop l' str type ic_ dc_ in (x :: r, found)
      else
        let '(r, found) := search_label_loop l' str type ic_ dc_ in (x :: r, found)
  end.

Definition search_label (str : cstring) (type ic_ dc_ : Z) : M Z :=
  fun t =>
    let '(l, found) := search_label_loop (labeltable t) str type ic_ dc_ in
    Returns found (set_labeltable t l).

(** [add_label]: the new entry is written over a cell that [calloc] zeroed,
    so the fields that are not assigned are 0. *)
Definition add_label (str : cstring) (type ic_ dc_ : Z) : M Z :=
  found <- search_label str type ic_ dc_ ;;
  if found =? 0 then
    fun t =>
      let new :=
        {| l_name := str;
           l_type := if type =? INSTRUCTION then type
                     else if type =? DIRECTIVE then type else 0;
           l_index := if type =? INSTRUCTION then ic_
                      else if type =? DIRECTIVE then dc_ else 0;
           l_en := if type =? ENTRY then ENTRY
                   else if type =? EXTERN then EXTERN else 0 |} in
      Returns 1 (set_labeltable t (labeltable t ++ [new]))
  else ret 1.

Definition have_entry (l : list labelMemory) : Z :=
  if existsb (fun x => l_en x =? ENTRY) l then 1 else 0.


(** ** instruction.c *)

(** [is_matrix]: 0 when the string holds a bracket, 1 otherwise. *)
Definition is_matrix (str : cstring) : Z :=
  let begin_ := length (filter (fun c => ascii_eqb c "[" = true) str) in
  let end_ := length (filter (fun c => ascii_eqb c "]" = true) str) in
  if (0 <? Z.of_nat begin_) || (0 <? Z.of_nat end_) then 0 else 1.

Definition is_register_digit (c : ascii) : bool :=
  (48 <=? code c) && (code c <=? 55).

Definition which_type_operand (str : option cstring) : Z :=
  match str with
  | None => NO_OPERAND
  | Some s =>
      if only_spaces_and_tabs s then NO_OPERAND
      else
        let i := skip_from isspace s 0 in
        if ascii_eqb (nth_char s i) "#" then IMMEDIATE
        else if ascii_eqb (nth_char s i) "r" && is_register_digit (nth_char s (i + 1))
        then REGISTER
        else if is_matrix s =? 0 then MATRIX
        else DIRECT
  end.

(** The test on a register inside brackets, at position [i]:
    [i >= len || str[i] != 'r' || i + 1 >= len || !isdigit(str[i+1])
     || str[i+1] < '0' || str[i+1] > '7']. *)
Definition no_register_at (str : cstring) (i : nat) : bool :=
  (length str <=? i)%nat
  || negb (ascii_eqb (nth_char str i) "r")
  || (length str <=? i + 1)%nat
  || negb (isdigit (nth_char str (i + 1)))
  || negb (is_register_digit (nth_char str (i + 1))).

Definition is_valid_matrix (str : cstring) (lc : Z) : M Z :=
  let len := length str in
  let i := skip_from isspace str 0 in
  if negb (isalpha (nth_char str i)) then
    add_error lc ": error! Invalid matrix. Matrix name must appear and begin with a letter" ;;;
    ret 0
  else
  let i := skip_from isalnum str (i + 1) in
  if (len <=? i)%nat || negb (ascii_eqb (nth_char str i) "[") then
    add_error lc ": error! Invalid matrix" ;;; ret 0
  else
  let i := skip_from isspace str (i + 1) in
  if no_register_at str i then
    add_error lc ": error! Invalid matrix a valid register must appear" ;;; ret 0
  else
  let i := skip_from isspace str (i + 2) in
  if (len <=? i)%nat || negb (ascii_eqb (nth_char str i) "]") then
    add_error lc ": error! Invalid matrix" ;;; ret 0
  else
  let i := (i + 1)%nat in
  if (len <=? i)%nat || negb (ascii_eqb (nth_char str i) "[") then
    add_error lc ": error! Invalid matrix" ;;; ret 1
  else
  let i := skip_from isspace str (i + 1) in
  if no_register_at str i then
    add_error lc ": error! Invalid matrix a valid register must appear" ;;; ret 0
  else
  let i := skip_from isspace str (i + 2) in
  if (len <=? i)%nat || negb (ascii_eqb (nth_char str i) "]") then
    add_error lc ": error! Invalid matrix" ;;; ret 0
  else
  let i := (i + 1)%nat in
  if forallb (fun c => isspace c || ascii_eqb c ",") (drop i str) then ret 1
  else add_error lc ": error! Invalid matrix" ;;; ret 0.

Definition is_comma (c : ascii) : bool := ascii_eqb c ",".

(** Position of the first, and of the last, occurrence of a character
    ([strchr], [strrchr]). *)
Fixpoint first_index (c : ascii) (s : cstring) : option nat :=
  match s with
  | [] => None
  | x :: s' => if ascii_eqb x c then Some O else S <$> first_index c s'
  end.

Definition last_index (c : ascii) (s : cstring) : option nat :=
  (fun k => (length s - 1 - k)%nat) <$> first_index c (rev s).

Definition trim_right (s : cstring) : cstring := rev (drop_while isspace (rev s)).

Definition parse_ops (ops_str : option cstring) (lc : Z) : M Z :=
  match ops_str with
  | None => ret 1
  | Some s0 =>
      let str := trim_right (drop_while isspace s0) in
      let op1 := take_while (fun c => negb (is_comma c)) str in
      match drop_while (fun c => negb (is_comma c)) str with
      | _comma :: rest =>
          if existsb is_comma rest then
            add_error lc ": error! there must be only one comma between operands." ;;;
            ret 0
          else
            let op1_start := drop_while isspace op1 in
            if (length (trim_right op1_start) =? 0)%nat then
              add_error lc ": error! a comma cannot be placed at the start or end of the line." ;;;
              ret 0
            else
              let op2_start := drop_while isspace rest in
              if (length op2_start =? 0)%nat then
                add_error lc ": error! a comma cannot be placed at the start or end of the line." ;;;
                ret 0
              else ret 1
      | [] =>
          if (length str =? 0)%nat then ret 1
          else
            match first_index " " str with
            | Some space_ptr =>
                match last_index "]" str with
                | Some last_bracket =>
                    if (last_bracket <? space_ptr)%nat then
                      add_error lc ": error! there must be a comma between operands." ;;;
                      ret 0
                    else ret 1
                | None =>
                    add_error lc ": error! there must be a comma between operands." ;;;
                    ret 0
                end
            | None => ret 1
            end
      end
  end.

(** The macros of instruction.h.  Each one may leave the function it is
    expanded in; what follows it in the function is the argument [k]. *)
Definition OPERAND_2_CHECK (cl operand1 operand2 : Z) (k : M Z) : M Z :=
  if (operand1 =? NO_OPERAND) || (operand2 =? NO_OPERAND) then
    add_error cl ": error! there must be 2 operands" ;;; ret 0
  else k.

Definition OPERAND_1_CHECK (cl operand1 operand2 : Z) (k : M Z) : M Z :=
  if ((operand1 =? NO_OPERAND) && (operand2 =? NO_OPERAND))
     || (negb (operand1 =? NO_OPERAND) && negb (operand2 =? NO_OPERAND)) then
    add_error cl ": error! there must be 1 operand" ;;; ret 0
  else k.

Definition OPERAND_0_CHECK (cl operand1 operand2 : Z) (k : M Z) : M Z :=
  if negb (operand1 =? NO_OPERAND) || negb (operand2 =? NO_OPERAND) then
    add_error cl ": error! there must be 0 operands" ;;; ret 0
  else k.

Definition IMMEDIATE_IS_ERROR (cl operand_p : Z) (k : M Z) : M Z :=
  if operand_p =? IMMEDIATE then
    add_error cl ": error! illegal address in operand" ;;; ret 0
  else k.

(** The three SET_OPCODE macros end with [return 1]. *)
Definition SET_OPCODE_2_AND_TYPE2 (val operand1 operand2 : Z) : M Z :=
  add_ins (RECORD_TYPE_COMMAND (to_unsigned val) (to_unsigned operand1)
             (to_unsigned operand2) 0) ;;;
  ret 1.

Definition SET_OPCODE_1_AND_TYPE1 (val operand : Z) : M Z :=
  add_ins (RECORD_TYPE_COMMAND (to_unsigned val) (to_unsigned 0)
             (to_unsigned operand) 0) ;;;
  ret 1.

Definition SET_OPCODE_0_AND_TYPE0 (val : Z) : M Z :=
  add_ins (RECORD_TYPE_COMMAND (to_unsigned val) (to_unsigned 0)
             (to_unsigned 0) 0) ;;;
  ret 1.

Definition SET_REGISTE_AND_TYPE (reg1 reg2 are : Z) : M Z :=
  add_ins (RECORD_TYPE_REGISTER (to_unsigned reg1) (to_unsigned reg2)
             (to_unsigned are)).

Definition SET_ADDRESS_AND_TYPE (add are : Z) : M Z :=
  add_ins (RECORD_TYPE_ADDRESS (to_unsigned add) (to_unsigned are)).

Definition is_opcode (str : cstring) (name : string) : bool :=
  strcmp_eq str (cstr name).

(** [word]: the dispatch on the opcode name.  In the [lea] branch the
    condition [if (...);] governs an empty statement, so the block after it
    runs whatever the operands are; that block ends with the [return 1] of
    the macro, and the [add_error] that follows it in the source is never
    reached. *)
Definition word (str : cstring) (operand1 operand2 cl : Z) : M Z :=
  if is_opcode str "mov" then
    OPERAND_2_CHECK cl operand1 operand2
      (IMMEDIATE_IS_ERROR cl operand2
         (SET_OPCODE_2_AND_TYPE2 MOV operand1 operand2))
  else if is_opcode str "cmp" then
    OPERAND_2_CHECK cl operand1 operand2
      (SET_OPCODE_2_AND_TYPE2 CMP operand1 operand2)
  else if is_opcode str "add" then
    OPERAND_2_CHECK cl operand1 operand2
      (IMMEDIATE_IS_ERROR cl operand2
         (SET_OPCODE_2_AND_TYPE2 ADD operand1 operand2))
  else if is_opcode str "sub" then
    OPERAND_2_CHECK cl operand1 operand2
      (IMMEDIATE_IS_ERROR cl operand2
         (SET_OPCODE_2_AND_TYPE2 SUB operand1 operand2))
  else if is_opcode str "lea" then
    OPERAND_2_CHECK cl operand1 operand2
      (SET_OPCODE_2_AND_TYPE2 LEA operand1 operand2)
  else if is_opcode str "not" then
    OPERAND_1_CHECK cl operand1 operand2
      (IMMEDIATE_IS_ERROR cl operand1
         (SET_OPCODE_1_AND_TYPE1 NOT operand1))
  else if is_opcode str "clr" then
    OPERAND_1_CHECK cl operand1 operand2
      (IMMEDIATE_IS_ERROR cl operand1
         (SET_OPCODE_1_AND_TYPE1 CLR operand1))
  else if is_opcode str "inc" then
    OPERAND_1_CHECK cl operand1 operand2
      (IMMEDIATE_IS_ERROR cl operand1
         (SET_OPCODE_1_AND_TYPE1 INC operand1))
  else if is_opcode str "dec" then
    OPERAND_1_CHECK cl operand1 operand2
      (IMMEDIATE_IS_ERROR cl operand1
         (SET_OPCODE_1_AND_TYPE1 DEC operand1))
  else if is_opcode str "jmp" then
    OPERAND_1_CHECK cl operand1 operand2
      (IMMEDIATE_IS_ERROR cl operand1
         (SET_OPCODE_1_AND_TYPE1 JMP operand1))
  else if is_opcode str "bne" then
    OPERAND_1_CHECK cl operand1 operand2
      (IMMEDIATE_IS_ERROR cl operand1
         (SET_OPCODE_1_AND_TYPE1 BNE operand1))
  else if is_opcode str "red" then
    OPERAND_1_CHECK cl operand1 operand2
      (IMMEDIATE_IS_ERROR cl operand1
         (SET_OPCODE_1_AND_TYPE1 RED operand1))
  else if is_opcode str "prn" then
    OPERAND_1_CHECK cl operand1 operand2
      (SET_OPCODE_1_AND_TYPE1 PRN operand1)
  else if is_opcode str "jsr" then
    OPERAND_1_CHECK cl operand1 operand2
      (IMMEDIATE_IS_ERROR cl operand1
         (SET_OPCODE_1_AND_TYPE1 JSR operand1))
  else if is_opcode str "rts" then
    OPERAND_0_CHECK cl operand1 operand2 (SET_OPCODE_0_AND_TYPE0 RTS)
  else if is_opcode str "stop" then
    OPERAND_0_CHECK cl operand1 operand2 (SET_OPCODE_0_AND_TYPE0 STOP)
  else ret 0.


(** [atoi] on a pointer that may be [NULL]. *)
Definition atoi_ptr (p : option cstring) (k : Z -> M Z) : M Z :=
  match p with
  | Some str => k (atoi str)
  | None => undefined
  end.

(** [update]: the words of one operand.  [str_p1] and [str_p2] are the
    first tokens of the operands with blanks, ['r'] and ['#'] as
    delimiters. *)
Definition update (word1 : cstring) (word2 : option cstring)
    (operand1 operand2 lc : Z) : M Z :=
  let delimitersMat := cstr " []" ++ [TAB] in
  let delim := [" "%char; TAB; "r"%char; "#"%char] in
  let str := word1 in
  let str_p1 := token (strtok word1 delim) in
  let str_p2 :=
    match word2 with
    | Some w2 => token (strtok w2 delim)
    | None => None
    end in
  if operand1 =? IMMEDIATE then
    match str_p1 with
    | None => undefined
    | Some p1 =>
        let '(num, ptr) := strtol p1 in
        match ptr with
        | _ :: _ =>
            add_error lc ": error! an immediate operand must contain a number." ;;;
            ret 0
        | [] =>
            SET_ADDRESS_AND_TYPE (to_int num) ABSOLUTE ;;; ret 1
        end
    end
  else if operand1 =? DIRECT then
    SET_ADDRESS_AND_TYPE NO_KNEWN NO_KNEWN ;;; ret 1
  else if operand1 =? MATRIX then
    valid <- is_valid_matrix str lc ;;
    if valid =? 0 then ret 0
    else
      let t1 := strtok str delimitersMat in
      let t2 := strtok (saved t1) delimitersMat in
      let t3 := strtok (saved t2) delimitersMat in
      match token t2, token t3 with
      | Some reg1mat, Some reg2mat =>
          (* memmove(reg, reg + 1, strlen(reg)) drops the first character *)
          SET_ADDRESS_AND_TYPE NO_KNEWN NO_KNEWN ;;;
          SET_REGISTE_AND_TYPE (atoi (drop 1 reg1mat)) (atoi (drop 1 reg2mat)) ABSOLUTE ;;;
          ret 1
      | _, _ => undefined
      end
  else if operand1 =? REGISTER then
    if operand2 =? REGISTER then
      atoi_ptr str_p1 (fun r1 =>
      atoi_ptr str_p2 (fun r2 =>
        SET_REGISTE_AND_TYPE r1 r2 ABSOLUTE ;;; ret 1))
    else
      match word2 with
      | None =>
          atoi_ptr str_p1 (fun r1 => SET_REGISTE_AND_TYPE 0 r1 ABSOLUTE ;;; ret 1)
      | Some _ =>
          atoi_ptr str_p1 (fun r1 => SET_REGISTE_AND_TYPE r1 0 ABSOLUTE ;;; ret 1)
      end
  else
    add_error lc ": error! unknown operand" ;;; ret 0.

Definition is_some {A} (o : option A) : bool :=
  match o with Some _ => true | None => false end.

(** [instruction]: one instruction line of the first pass, the line being
    what follows the label, if any. *)
Definition instruction (str : cstring) (lc : Z) : M Z :=
  let delimiters := cstr " ," ++ [TAB] in
  let delimiters2 := cstr "," in
  let t1 := strtok str delimiters in
  let t2 := strtok (saved t1) delimiters2 in
  let t3 := strtok (saved t2) delimiters2 in
  let t4 := strtok (saved t3) delimiters in
  let word1 := token t1 in
  let word2 := token t2 in
  let word3 := token t3 in
  let word4 := token t4 in
  let operand1 := which_type_operand word2 in
  let operand2 := which_type_operand word3 in
  let tmp := string_without_first_word str delimiters in
  if match tmp with Some s => strcmp_eq s EXIT_C | None => false end then exit_
  else
  let operand1 := if is_some word2 then operand1 else NO_OPERAND in
  let operand2 := if is_some word3 then operand2 else NO_OPERAND in
  if is_some word4 then
    add_error lc ": error! More operands than allowed" ;;; ret 0
  else
    temp <- parse_ops tmp lc ;;
    if temp =? 0 then ret 0
    else
      match word1 with
      | None => undefined
      | Some w1 =>
          temp <- word w1 operand1 operand2 lc ;;
          (if temp =? 0 then ret 1
           else
             match word2 with
             | Some w2 =>
                 if negb (operand1 =? NO_OPERAND)
                 then update w2 word3 operand1 operand2 lc
                 else ret 1
             | None => ret 1
             end ;;;
             if (operand1 =? REGISTER) && (operand2 =? REGISTER) then ret 1
             else
               match word3 with
               | Some w3 =>
                   if negb (operand1 =? NO_OPERAND)
                   then update w3 None operand2 0 lc ;;; ret 1
                   else ret 1
               | None => ret 1
               end)
      end.


(** ** directive.c: the [.mat] directive *)

(** [endptr == str || *endptr != '\0'], then the range test.  [endptr]
    points into [str], so the two pointers are equal exactly when what is
    left has the length of [str]. *)
Definition is_conversion_successful (str endptr : cstring) (val cl : Z) : M Z :=
  if (length endptr =? length str)%nat || negb (length endptr =? 0)%nat then
    add_error cl ": error! invalid characters" ;;; ret 0
  else if (val >? MAX_VAL) || (val <? MIN_VAL) then
    add_error cl ": error! the value is too large or too small" ;;; ret 0
  else ret 1.

Fixpoint has_double_comma (str : cstring) : bool :=
  match str with
  | c :: s' =>
      (is_comma c && match s' with d :: _ => is_comma d | [] => false end)
      || has_double_comma s'
  | [] => false
  end.

Definition is_valid_numbers (str : cstring) : Z :=
  if has_double_comma str then 0
  else if is_comma (nth_char str 0) || is_comma (nth_char str (length str - 1))
  then 0
  else 1.

Definition matrix_definition_valid (str : cstring) : Z :=
  let len := length str in
  let i := skip_from isspace str 0 in
  if (len <=? i)%nat || negb (ascii_eqb (nth_char str i) "[") then 0 else
  let i := skip_from isspace str (i + 1) in
  if (len <=? i)%nat || negb (isdigit (nth_char str i)) then 0 else
  let i := skip_from isdigit str i in
  let i := skip_from isspace str i in
  if (len <=? i)%nat || negb (ascii_eqb (nth_char str i) "]") then 0 else
  let i := (i + 1)%nat in
  if (len <=? i)%nat || negb (ascii_eqb (nth_char str i) "[") then 0 else
  let i := skip_from isspace str (i + 1) in
  if (len <=? i)%nat || negb (isdigit (nth_char str i)) then 0 else
  let i := skip_from isdigit str i in
  let i := skip_from isspace str i in
  if (len <=? i)%nat || negb (ascii_eqb (nth_char str i) "]") then 0 else
  let i := (i + 1)%nat in
  if negb (isspace (nth_char str i)) then 0 else 1.

(** All the tokens that successive calls [strtok(s, d)], [strtok(NULL, d)],
    ... return before [NULL].  Every call that returns a token consumes at
    least one character, so [length s] calls suffice. *)
Fixpoint tokens_fuel (fuel : nat) (s delims : cstring) : list cstring :=
  match fuel with
  | O => []
  | S f =>
      match token (strtok s delims) with
      | Some tok => tok :: tokens_fuel f (saved (strtok s delims)) delims
      | None => []
      end
  end.

Definition tokens (s delims : cstring) : list cstring :=
  tokens_fuel (length s) s delims.

(** [while (num != val1 * val2) { add_data(0); num++; }], the loop of the
    branch without initializers. *)
Fixpoint mat_fill_zeros (fuel : nat) (num total : Z) : M Z :=
  match fuel with
  | O => ret num
  | S f =>
      if negb (num =? total) then add_data 0 ;;; mat_fill_zeros f (num + 1) total
      else ret num
  end.

(** [while (str1 != NULL && num < val1 * val2)]: the values given.  The
    result is what is left of the tokens ([str1] and its successors) with
    [num], or nothing when a value is refused ([goto clean]). *)
Fixpoint mat_values (strs : list cstring) (num total cl : Z)
  : M (option (list cstring * Z)) :=
  match strs with
  | str1 :: rest =>
      if num <? total then
        let '(v, endptr) := strtol str1 in
        let val := to_int v in
        tmp <- is_conversion_successful str1 endptr val cl ;;
        if tmp =? 0 then ret None
        else add_data val ;;; mat_values rest (num + 1) total cl
      else ret (Some (strs, num))
  | [] => ret (Some ([], num))
  end.

(** [while (num <= val1 * val2) { add_data(0); num++; }], the padding after
    the values given. *)
Fixpoint mat_pad_zeros (fuel : nat) (num total : Z) : M Z :=
  match fuel with
  | O => ret num
  | S f =>
      if num <=? total then add_data 0 ;;; mat_pad_zeros f (num + 1) total
      else ret num
  end.

(** What [mat_update] does once the loop on the values is over: the test
    on values in excess, then the padding when [num < val1 * val2]. *)
Definition mat_after_values (r : option (list cstring * Z)) (total cl : Z) : M Z :=
  match r with
  | None => ret 0
  | Some (remaining, num) =>
      if negb (length remaining =? 0)%nat && (num >? total) then
        add_error cl ": error! more values than specified" ;;; ret 0
      else
        (if num <? total then
           mat_pad_zeros (Z.to_nat (total + 1 - num)) num total
         else ret num) ;;;
        ret 1
  end.

Definition mat_update (word : cstring) (cl : Z) : M Z :=
  let delimiters := TAB :: cstr " ,[]" in
  match string_without_first_word word delimiters with
  | None => undefined (* string_without_first_word(NULL, ...) *)
  | Some str3 =>
      let str4 := string_without_first_word str3 delimiters in
      let t1 := strtok word delimiters in
      if strcmp_eq str3 EXIT_C then exit_
      else
      match str4 with
      | None => undefined (* strcmp(NULL, EXIT_C) *)
      | Some s4 => if strcmp_eq s4 EXIT_C then exit_ else ret 1
      end ;;;
      match token t1 with
      | None => add_error cl ": error! invalid data matrix" ;;; ret 0
      | Some str1 =>
          let str2 := token (strtok (saved t1) delimiters) in
          if negb (matrix_definition_valid word =? 0) then
            match str2 with
            | None => undefined (* strtol(NULL, ...) *)
            | Some str2 =>
                let '(v1, endptr1) := strtol str1 in
                let '(v2, endptr2) := strtol str2 in
                let val1 := to_int v1 in
                let val2 := to_int v2 in
                succ1 <- is_conversion_successful str1 endptr1 val1 cl ;;
                succ2 <- is_conversion_successful str2 endptr2 val2 cl ;;
                if (succ1 =? 1) && (succ2 =? 1) then
                  match str4 with
                  | None =>
                      mat_fill_zeros (Z.to_nat (val1 * val2)) 0 (val1 * val2) ;;;
                      ret 0
                  | Some s4 =>
                      let s4 := truncate_at s4 (end_of_string s4) in
                      if is_valid_numbers s4 =? 0 then
                        add_error cl ": error! invalid numbers string" ;;; ret 0
                      else
                        r <- mat_values (tokens s4 delimiters) 0 (val1 * val2) cl ;;
                        mat_after_values r (val1 * val2) cl
                  end
                else ret 0
            end
          else
            add_error cl ": error! an ill-defined matrix" ;;; ret 0
      end
  end.

(** ** code.c: the [.entry] declaration *)

(** The loop of [search_entery_and_update]: every entry with the name is
    visited; one that is neither ENTRY nor EXTERN becomes ENTRY and raises
    the flag, any other one is reported. *)
Fixpoint search_entery_loop (l : list labelMemory) (str : cstring) cl
  : M (list labelMemory * Z) :=
  match l with
  | [] => ret ([], 0)
  | x :: l' =>
      if strcmp_eq (l_name x) str then
        if negb (l_en x =? ENTRY) && negb (l_en x =? EXTERN) then
          r <- search_entery_loop l' str cl ;;
          ret ({| l_name := l_name x; l_type := l_type x; l_index := l_index x;
                  l_en := ENTRY |} :: fst r, 1)
        else
          add_error cl ": error! invalid enternal label" ;;;
          r <- search_entery_loop l' str cl ;;
          ret (x :: fst r, snd r)
      else
        r <- search_entery_loop l' str cl ;;
        ret (x :: fst r, snd r)
  end.

Definition search_entery_and_update (str : cstring) (cl : Z) : M Z :=
  t <- get ;;
  r <- search_entery_loop (labeltable t) str cl ;;
  t' <- get ;;
  put (set_labeltable t' (fst r)) ;;;
  if snd r =? 0 then add_label str ENTRY 0 0 ;;; ret 1
  else ret 1.

(** ** second_pass.c *)

Definition index_update_label (ic_ : Z) (x : labelMemory) : labelMemory :=
  if l_type x =? DIRECTIVE then
    {| l_name := l_name x; l_type := l_type x;
       l_index := l_index x + ic_ + MEMORY_START; l_en := l_en x |}
  else if l_type x =? INSTRUCTION then
    {| l_name := l_name x; l_type := l_type x;
       l_index := l_index x + MEMORY_START; l_en := l_en x |}
  else x.

Definition index_update (labeltable : list labelMemory) (ic_ : Z) : list labelMemory :=
  map (index_update_label ic_) labeltable.

(** The first entry of the symbol table with the name: where the loop of
    [search_and_update] stops. *)
Fixpoint find_label (l : list labelMemory) (str : cstring) : option labelMemory :=
  match l with
  | [] => None
  | x :: l' => if strcmp_eq (l_name x) str then Some x else find_label l' str
  end.

(** [instable[i] = w]; outside the allocated cells the write is undefined. *)
Definition write_cell (i : Z) (w : instructionsMemory) : M Z :=
  fun t =>
    if (0 <=? i) && (i <? Z.of_nat (length (instable t)))
    then Returns 1 (set_cells t (<[Z.to_nat i := w]> (instable t)))
    else Undefined.

Definition search_and_update (str : option cstring) (cl_pass2 : Z) : M Z :=
  t <- get ;;
  match str with
  | None =>
      match labeltable t with
      | [] => add_error cl_pass2 ": error! Label name is not defined" ;;; ret 0
      | _ :: _ => undefined (* strcmp(name, NULL) *)
      end
  | Some s =>
      match find_label (labeltable t) s with
      | Some x =>
          if l_en x =? EXTERN then
            write_cell (ic2 t) (RECORD_TYPE_ADDRESS 0 EXTERNAL) ;;;
            add_extern s (ic2 t + MEMORY_START) ;;;
            ret 1
          else
            write_cell (ic2 t)
              (RECORD_TYPE_ADDRESS (to_unsigned (l_index x)) RELOCATABLE) ;;;
            ret 1
      | None =>
          add_error cl_pass2 ": error! Label name is not defined" ;;; ret 0
      end
  end.

Definition add_ic2 (n : Z) : M Z :=
  fun t => Returns 1 (set_ic2 t (ic2 t + n)).

(** The chain on the second operand, which the source has twice in
    [instruction_uptade_address].  It returns the operand as the calls leave
    it: [strtok] cuts a matrix operand after its name. *)
Definition update_address_word2 (word2 : option cstring) (cl_pass2 : Z)
  : M (option cstring) :=
  let delimiters_mat := cstr " []" ++ [TAB] in
  match word2 with
  | Some w2 =>
      if which_type_operand word2 =? MATRIX then
        let r := strtok w2 delimiters_mat in
        search_and_update (token r) cl_pass2 ;;;
        add_ic2 2 ;;;
        ret (Some (buffer r))
      else if which_type_operand word2 =? DIRECT then
        search_and_update word2 cl_pass2 ;;;
        add_ic2 1 ;;;
        ret word2
      else add_ic2 1 ;;; ret word2
  | None => ret None
  end.

Definition instruction_uptade_address (str : cstring) (cl_pass2 : Z) : M Z :=
  let delimiters := cstr "," in
  let delimiters_mat := cstr " []" ++ [TAB] in
  let t1 := strtok str delimiters in
  let t2 := strtok (saved t1) delimiters in
  let word1 := (fun w => truncate_at w (end_of_string w)) <$> token t1 in
  let word2 := (fun w => truncate_at w (end_of_string w)) <$> token t2 in
  add_ic2 1 ;;;
  words <-
    match word1 with
    | Some w1 =>
        if (which_type_operand word1 =? MATRIX) || (which_type_operand word1 =? DIRECT) then
          w1' <-
            (if which_type_operand word1 =? MATRIX then
               let r := strtok w1 delimiters_mat in
               search_and_update (token r) cl_pass2 ;;;
               add_ic2 2 ;;;
               ret (Some (buffer r))
             else
               search_and_update word1 cl_pass2 ;;;
               add_ic2 1 ;;;
               ret word1) ;;
          w2' <- update_address_word2 word2 cl_pass2 ;;
          ret (w1', w2')
        else
          add_ic2 1 ;;;
          w2' <- update_address_word2 word2 cl_pass2 ;;
          ret (word1, w2')
    | None => ret (word1, word2)
    end ;;
  if (which_type_operand (fst words) =? REGISTER)
     && (which_type_operand (snd words) =? REGISTER)
  then add_ic2 (- 1) ;;; ret 1
  else ret 1.

(** ** assembler.c: what [main] does with a file once the passes are over *)

(** Modelled from the spec: the header assembler.h, which names the
    suffixes of the files, is not among the sources; the files of an input
    are told apart by their kind, the expanded source (.am), the object
    file (.ob), the entry file (.ent) and the externals file (.ext). *)
Inductive file_kind := AM | OB | ENT | EXT.

(** What [main] does to the outside world for one input. *)
Inductive effect :=
| Print_error (ec_ : Z)
| Remove (f : file_kind)
| Write_file (f : file_kind).

(** How the handling of one input ends: the loop goes on to the next input,
    or [main] jumps to [cleanup] and the program exits with status 1. *)
Inductive file_end :=
| Next_file (effects : list effect)
| Cleanup
| Undefined_run.

(** The part of the loop body of [main] that follows the call of [passes],
    given how that call ended. *)
Definition main_after_passes (passes_result : outcome Z) : file_end :=
  match passes_result with
  | Exits => Cleanup
  | Undefined => Undefined_run
  | Returns _ t =>
      let checked :=
        if ic t + dc t >? 156 then add_error 0 ": the memory is over" t
        else Returns 1 t in
      match checked with
      | Returns _ t1 =>
          if ec t1 >? 0 then
            Next_file [Print_error (ec t1); Remove AM]
          else
            Next_file
              ((if exc t1 >? 0 then [Write_file EXT] else [])
               ++ (if negb (have_entry (labeltable t1) =? 0) then [Write_file ENT] else [])
               ++ [Write_file OB])
      | Exits => Cleanup
      | Undefined => Undefined_run
      end
  end.

Definition writes (e : effect) : bool :=
  match e with Write_file _ => true | _ => false end.


(** ** Notions used by the statements *)

(** An external use is resolved in the image [cells] below the position
    [bound] when its address is the absolute address of a cell before
    [bound], and that cell is an Address word tagged External. *)
Definition use_resolved (cells : list instructionsMemory) (bound : Z) (u : external) : Prop :=
  MEMORY_START <= ex_index u < MEMORY_START + bound /\
  exists a,
    cells !! Z.to_nat (ex_index u - MEMORY_START)
    = Some (RECORD_TYPE_ADDRESS a EXTERNAL).

(** All the external uses recorded so far are resolved below the counter
    of the second pass. *)
Definition external_uses_resolved (t : tables) : Prop :=
  Forall (use_resolved (instable t) (ic2 t)) (extable t).

(** The count of diagnostics, as a natural number. *)
Definition errs (t : tables) : nat := length (errortable t).

(** Words that the first pass emits for an operand of a given mode. *)
Definition words_for (operand : Z) : Z :=
  if operand =? IMMEDIATE then 1
  else if operand =? DIRECT then 1
  else if operand =? MATRIX then 2
  else if operand =? REGISTER then 1
  else 0.

(** The two operands share one word when both are registers. *)
Definition shared_register_adjustment (operand1 operand2 : Z) : Z :=
  if (operand1 =? REGISTER) && (operand2 =? REGISTER) then 1 else 0.

(** The modes that [instruction] finds for the two operand fields of a
    line: the classification of the second and third tokens. *)
Definition operand_modes (str : cstring) : Z * Z :=
  let delimiters := cstr " ," ++ [TAB] in
  let t1 := strtok str delimiters in
  let t2 := strtok (saved t1) (cstr ",") in
  let t3 := strtok (saved t2) (cstr ",") in
  (which_type_operand (token t2), which_type_operand (token t3)).

(** The names that [which_type] takes for instructions. *)
Definition is_instruction_name (w : cstring) : bool :=
  existsb (is_opcode w)
    ["mov"; "cmp"; "add"; "sub"; "not"; "clr"; "lea"; "inc"; "dec"; "jmp";
     "bne"; "red"; "prn"; "jsr"; "rts"; "stop"]%string.

(** A symbol table with two Code symbols and a Data symbol, before
    relocation. *)
Definition relocation_sample : list labelMemory :=
  [ {| l_name := cstr "MAIN"; l_type := INSTRUCTION; l_index := 0; l_en := 0 |};
    {| l_name := cstr "LOOP"; l_type := INSTRUCTION; l_index := 2; l_en := ENTRY |};
    {| l_name := cstr "STR"; l_type := DIRECTIVE; l_index := 1; l_en := 0 |} ].

(** A symbol whose attribute has been turned into Entry, and the diagnostic
    of [search_entery_and_update]. *)
Definition mark_entry (x : labelMemory) : labelMemory :=
  {| l_name := l_name x; l_type := l_type x; l_index := l_index x; l_en := ENTRY |}.

Definition entry_error (cl : Z) : error :=
  {| e_error := cstr ": error! invalid enternal label"; e_line := cl |}.

(** Tables of a second pass about to resolve an operand: an external
    symbol [X] and a data symbol [STR] at address 105. *)
Definition second_pass_sample : tables :=
  set_ic2
    (set_labeltable initial_tables
       [ {| l_name := cstr "X"; l_type := 0; l_index := 100; l_en := EXTERN |};
         {| l_name := cstr "STR"; l_type := DIRECTIVE; l_index := 105; l_en := 0 |} ])
    1.

(** * The rest of the two passes *)

(** ** pre_assembler.c: reserved words, macro names and tokens *)

Definition RESERVED_WORDS : list string :=
  ["mov"; "cmp"; "add"; "sub"; "not"; "clr"; "lea"; "inc"; "dec"; "jmp";
   "bne"; "red"; "prn"; "jsr"; "rts"; "stop"; "data"; "string"; "mat"; "entry"; "extern";
   ".data"; ".string"; ".mat"; ".entry"; ".extern"; "mcro"; "mcroend";
   "r0"; "r1"; "r2"; "r3"; "r4"; "r5"; "r6"; "r7"]%string.

Definition is_reserved_word (tok : cstring) : Z :=
  if existsb (fun w => strcmp_eq tok (cstr w)) RESERVED_WORDS then 1 else 0.

(** A character of a name after the first one: [isalnum] or ['_']. *)
Definition is_name_char (c : ascii) : bool := isalnum c || ascii_eqb c "_".

Definition is_valid_macro_name (name : cstring) : Z :=
  if negb (isalpha (nth_char name 0)) then 0
  else if forallb is_name_char (drop 1 name) then 1
  else 0.

(** A macro: its name and the lines of its body.  The linked list of the
    macros is a list, its head first. *)
Record MacroDefinition := {
  m_name : cstring;
  m_lines : list cstring
}.

Definition add_macro_definition (macros_list_head : list MacroDefinition)
    (macro_def : MacroDefinition) : list MacroDefinition :=
  macro_def :: macros_list_head.

Fixpoint find_macro_definition (macros_list_head : list MacroDefinition)
    (name : cstring) : option MacroDefinition :=
  match macros_list_head with
  | [] => None
  | current :: next =>
      if strcmp_eq (m_name current) name then Some current
      else find_macro_definition next name
  end.

Definition same_name_as_macro (macros_list_head : list MacroDefinition)
    (w : cstring) : Z :=
  if is_some (find_macro_definition macros_list_head w) then 1 else 0.

(** [trim_whitespace_and_comments]: the line is cut at the first [';'],
    then the white space on both sides is dropped; [NULL] when nothing is
    left. *)
Definition trim_whitespace_and_comments (str : cstring) : option cstring :=
  let str := take_while (fun c => negb (ascii_eqb c ";")) str in
  match drop_while isspace str with
  | [] => None
  | s => Some (trim_right s)
  end.

(** [get_next_token]: the token, or [NULL], and where [*line_ptr] is left.
    A token ends at white space or at a colon; the colon is consumed, and
    so is the white space that follows a token ended by white space. *)
Definition is_token_char (c : ascii) : bool :=
  negb (isspace c) && negb (ascii_eqb c ":").

Definition get_next_token (line_ptr : cstring) : option cstring * cstring :=
  match drop_while isspace line_ptr with
  | [] => (None, [])
  | start =>
      let tok := take_while is_token_char start in
      match drop_while is_token_char start with
      | c :: rest =>
          if ascii_eqb c ":" then (Some tok, rest)
          else (Some tok, drop_while isspace (c :: rest))
      | [] => (Some tok, [])
      end
  end.

(** ** code.c: the kind of a line and the validity of a label *)

Definition UPDATE : Z := 100.
Definition NOT_UPDATE : Z := 110.
Definition MAX_SIZE_LABEL : Z := 30.

(** [is_label]: the last character is a colon.  The callers pass [NULL] or
    a token of [strtok], which is never empty. *)
Definition is_label (str : option cstring) : Z :=
  match str with
  | None => 0
  | Some s => if ascii_eqb (nth_char s (length s - 1)) ":" then 1 else 0
  end.

Definition which_type (str : option cstring) (cl check_for_valid : Z) : M Z :=
  match str with
  | None => add_error cl ": error! Unrecognized command name" ;;; ret (- 1)
  | Some s =>
      if is_opcode s ".data" || is_opcode s ".string" || is_opcode s ".mat" then
        ret DIRECTIVE
      else if is_instruction_name s then ret INSTRUCTION
      else if is_opcode s ".entry" then ret ENTRY
      else if is_opcode s ".extern" then ret EXTERN
      else if check_for_valid =? UPDATE then
        add_error cl ": error! Unrecognized command name" ;;; ret (- 1)
      else ret (- 1)
  end.

(** The loop of [valid_label] over the symbol table: 0 when it leaves the
    function with a diagnostic, 1 when it runs to its end.  An entry of the
    name that is marked ENTRY with type 0 and index 0 is passed over. *)
Fixpoint valid_label_loop (l : list labelMemory) (str : cstring) (cl : Z) : M Z :=
  match l with
  | [] => ret 1
  | x :: l' =>
      if strcmp_eq (l_name x) str then
        if l_en x =? ENTRY then
          if negb (l_type x =? 0) || negb (l_index x =? 0) then
            add_error cl ": error! Label name already defined" ;;; ret 0
          else valid_label_loop l' str cl
        else if l_en x =? EXTERN then
          add_error cl ": error! Label name already defined as external" ;;; ret 0
        else
          add_error cl ": error! Label name already defined" ;;; ret 0
      else valid_label_loop l' str cl
  end.

(** [valid_label]; its parameter [word2] is not used by the source.  The
    characters are taken to be ASCII, as [isalnum] needs. *)
Definition valid_label (str : cstring) (cl : Z) (macrostable : list MacroDefinition)
  : M Z :=
  let begin_ := begin_of_string str in
  let c := nth_char str (Z.to_nat begin_) in
  if isdigit c || ascii_eqb c "_" then
    add_error cl ": error! Label starts with a digit or an underscore" ;;; ret 0
  else if Z.of_nat (length str) - begin_ >? MAX_SIZE_LABEL then
    add_error cl ": error! Label too long (max 30 characters)" ;;; ret 0
  else if negb (forallb is_name_char str) then
    add_error cl ": error! Label with non-alphanumeric characters" ;;; ret 0
  else
    t <- get ;;
    through <- valid_label_loop (labeltable t) str cl ;;
    if through =? 0 then ret 0
    else if is_reserved_word str =? 1 then
      add_error cl ": error! The label name is a reserved word" ;;; ret 0
    else if same_name_as_macro macrostable str =? 1 then
      add_error cl ": error! The label name has already been defined as a macro" ;;;
      ret 0
    else ret 1.

(** ** directive.c: [.string] and [.data] *)

Definition QUOTE : ascii := "034"%char.

(** [is_valid_string]: the first test reads [str[end - 1]] only when
    [str[begin]] is a quote, and then [end] is positive. *)
Definition is_valid_string (str : cstring) (cl : Z) : M Z :=
  let end_ := Z.to_nat (end_of_string str) in
  let begin_ := Z.to_nat (begin_of_string str) in
  if negb (ascii_eqb (nth_char str begin_) QUOTE)
     || negb (ascii_eqb (nth_char str (end_ - 1)) QUOTE) then
    add_error cl ": error! String must start and end with quotes" ;;; ret 0
  else if existsb (fun c => (code c >? 126) || (code c <? 32))
            (take (end_ - (begin_ + 1)) (drop (begin_ + 1) str)) then
    add_error cl ": error! illegal characters in a string" ;;; ret 0
  else ret 1.

(** [while (i < end - 1) { add_data((int)word[i]); i++; }] over the
    characters [word[1]], ..., [word[end - 2]]: they are ASCII when the
    string is valid. *)
Fixpoint string_chars (cs : cstring) : M Z :=
  match cs with
  | [] => ret 1
  | c :: cs' => add_data (code c) ;;; string_chars cs'
  end.

Definition string_update (w : cstring) (cl : Z) : M Z :=
  let end_ := Z.to_nat (end_of_string w) in
  valid <- is_valid_string w cl ;;
  if valid =? 1 then
    string_chars (take (end_ - 1 - 1) (drop 1 w)) ;;;
    add_data 0 ;;;
    ret 1
  else ret 1.

(** The loop of [data_update] over the tokens: it stops at the first one
    that is refused. *)
Fixpoint data_values (strs : list cstring) (cl : Z) : M Z :=
  match strs with
  | [] => ret 1
  | str :: rest =>
      let '(v, endptr) := strtol str in
      let val := to_int v in
      tmp <- is_conversion_successful str endptr val cl ;;
      if tmp =? 0 then ret 1
      else add_data val ;;; data_values rest cl
  end.

Definition data_update (w : option cstring) (cl : Z) : M Z :=
  match w with
  | Some w =>
      if negb (only_spaces_and_tabs w) then
        let str_cpy := truncate_at w (end_of_string w) in
        if is_valid_numbers str_cpy =? 0 then
          add_error cl ": error! invalid data string" ;;; ret 1
        else data_values (tokens str_cpy (TAB :: cstr " ,")) cl
      else
        add_error cl ": error! invalid data string, data string should have values" ;;;
        ret 1
  | None =>
      add_error cl ": error! invalid data string, data string should have values" ;;;
      ret 1
  end.

(** [directive]: a line with nothing after its first word reaches
    [strcmp(NULL, EXIT_C)]. *)
Definition directive (str : cstring) (cl : Z) : M Z :=
  let delimiters := [" "%char; TAB] in
  let word1 := token (strtok str delimiters) in
  let word2 := string_without_first_word str delimiters in
  match word2, word1 with
  | Some w2, Some w1 =>
      if strcmp_eq w2 EXIT_C then exit_
      else if is_opcode w1 ".data" then data_update word2 cl ;;; ret 1
      else if is_opcode w1 ".string" then string_update w2 cl ;;; ret 1
      else if is_opcode w1 ".mat" then mat_update w2 cl ;;; ret 1
      else add_error cl ": error! unknown directive command name" ;;; ret 1
  | _, _ => undefined
  end.

(** ** code.c: the first pass over a line *)

(** What [first_pass] does with a line of kind [type] once the label, if
    any, has been dealt with; [strptr] is the line without its label.  The
    operand of [.extern] and [.entry] is the second word of [strptr]; when
    it is missing, [add_label] and [search_entery_and_update] receive
    [NULL]. *)
Definition first_pass_dispatch (type : Z) (strptr : cstring) (cl : Z) : M Z :=
  let delims := [" "%char; TAB] in
  let t1 := strtok strptr delims in
  let t2 := strtok (saved t1) delims in
  let t3 := strtok (saved t2) delims in
  if type =? DIRECTIVE then directive strptr cl ;;; ret 1
  else if type =? INSTRUCTION then instruction strptr cl ;;; ret 1
  else if type =? EXTERN then
    match token t3, token t2 with
    | Some _, _ => add_error cl ": error! invalid external label" ;;; ret 1
    | None, Some word2 => add_label word2 EXTERN 0 0 ;;; ret 1
    | None, None => undefined
    end
  else if type =? ENTRY then
    match token t3, token t2 with
    | Some _, _ => add_error cl ": error! invalid enternal label" ;;; ret 1
    | None, Some word2 => search_entery_and_update word2 cl ;;; ret 1
    | None, None => undefined
    end
  else ret 1.

Definition first_pass (str : cstring) (cl : Z) (macrostable : list MacroDefinition)
  : M Z :=
  let delimiters := cstr " ," ++ [TAB] in
  let t1 := strtok str delimiters in
  let word1 := token t1 in
  let word2 := token (strtok (saved t1) delimiters) in
  let i := length (take_while (fun c => negb (ascii_eqb c ":")) str) in
  if negb (length str =? i)%nat
     && ascii_eqb (nth_char str i) ":"
     && negb (ascii_eqb (nth_char str (i + 1)) " ")
     && negb (ascii_eqb (nth_char str (i + 1)) TAB) then
    add_error cl ": error! there must be a space or tab after a label" ;;; ret 0
  else
    match word1 with
    | Some w1 =>
        if negb (is_label word1 =? 0) then
          let name := take (length w1 - 1) w1 in
          type <- which_type word2 cl UPDATE ;;
          valid <- valid_label name cl macrostable ;;
          if (valid =? 0) || (type =? - 1) then ret 0
          else
            (if negb (type =? EXTERN) && negb (type =? ENTRY) then
               t <- get ;; add_label name type (ic t) (dc t)
             else ret 1) ;;;
            type <- which_type word2 cl UPDATE ;;
            match string_without_first_word str delimiters with
            | None => undefined (* strcmp(NULL, EXIT_C) *)
            | Some strptr =>
                if strcmp_eq strptr EXIT_C then exit_
                else first_pass_dispatch type strptr cl
            end
        else
          type <- which_type word1 cl UPDATE ;;
          first_pass_dispatch type str cl
    | None =>
        type <- which_type word1 cl UPDATE ;;
        first_pass_dispatch type str cl
    end.

(** ** second_pass.c: the second pass over a line *)

Definition second_pass (str : cstring) (cl_pass2 : Z) : M Z :=
  let delimiters := cstr " ," ++ [TAB] in
  let t1 := strtok str delimiters in
  let word1 := token t1 in
  let word2 := token (strtok (saved t1) delimiters) in
  type <- which_type word1 cl_pass2 NOT_UPDATE ;;
  type2 <- (if is_some word2 then which_type word2 cl_pass2 NOT_UPDATE else ret 0) ;;
  let type := if type =? - 1 then type2 else type in
  if type =? INSTRUCTION then
    if negb (is_label word1 =? 0) then
      match string_without_first_word str delimiters with
      | None => undefined (* string_without_first_word(NULL, ...) *)
      | Some w1 =>
          match string_without_first_word w1 delimiters with
          | Some str1 =>
              if strcmp_eq str1 EXIT_C then exit_
              else instruction_uptade_address str1 cl_pass2 ;;; ret 1
          | None => ret 1
          end
      end
    else
      match string_without_first_word str [" "%char; TAB] with
      | Some str1 =>
          if strcmp_eq str1 EXIT_C then exit_
          else instruction_uptade_address str1 cl_pass2 ;;; ret 1
      | None => ret 1
      end
  else if (type =? DIRECTIVE) && (is_label word1 =? 0) then
    match word1 with
    | Some w1 =>
        (* word1[strlen(word1) - 1] = '\0' *)
        search_and_update (Some (take (length w1 - 1) w1)) cl_pass2 ;;; ret 1
    | None => undefined
    end
  else if (type =? EXTERN) || (type =? ENTRY) then ret 1
  else ret 0.

(** ** code.c: [passes] on the lines that [read_file] returns *)

(** A line that the loops of [passes] skip: blank, or a comment. *)
Definition skipped_line (line : cstring) : bool :=
  only_spaces_and_tabs line || ascii_eqb (nth_char line 0) ";".

(** [for (; i < numline; i++)] of the first pass: [command] is what is
    left of the lines, [i] the index of its first one. *)
Fixpoint first_pass_loop (command : list cstring) (i : Z)
    (macrostable : list MacroDefinition) : M Z :=
  match command with
  | [] => ret 1
  | line :: rest =>
      (if skipped_line line then ret 1 else first_pass line i macrostable) ;;;
      first_pass_loop rest (i + 1) macrostable
  end.

Fixpoint second_pass_loop (command : list cstring) (i : Z) : M Z :=
  match command with
  | [] => ret 1
  | line :: rest =>
      (if skipped_line line then ret 1 else second_pass line i) ;;;
      second_pass_loop rest (i + 1)
  end.

(** [passes], once [read_file] has returned the lines [command]; it returns
    EXIT when there is no line at all.  [ic2] is a local variable of
    [passes] that starts at 0. *)
Definition passes (command : list cstring) (macrostable : list MacroDefinition)
  : M Z :=
  match command with
  | [] => exit_
  | _ =>
      t0 <- get ;;
      put (set_ic2 t0 0) ;;;
      first_pass_loop command 0 macrostable ;;;
      t <- get ;;
      put (set_labeltable t (index_update (labeltable t) (ic t))) ;;;
      second_pass_loop command 0 ;;;
      ret 1
  end.

(** ** data.c: the lines of the output files *)

(** [print_entry]: one line, name TAB address, for each symbol marked
    ENTRY. *)
Definition print_entry (labeltable : list labelMemory) : list cstring :=
  map (fun x => l_name x ++ [TAB] ++ int_to_special_base4 (l_index x) 4)
      (filter (fun x => l_en x = ENTRY) labeltable).

Definition print_extern (extable : list external) : list cstring :=
  map (fun x => ex_name x ++ [TAB] ++ int_to_special_base4 (ex_index x) 4) extable.

(** [while (word[c] == 'a') c++;] then [word + c]. *)
Definition strip_leading_a (w : cstring) : cstring :=
  drop_while (fun c => ascii_eqb c "a") w.

(** The text of a cell; an [unsigned int] field is passed to the [int]
    parameter of the encoder. *)
Definition print_cell (c : instructionsMemory) : cstring :=
  match c with
  | RECORD_TYPE_COMMAND opcode operand1 operand2 ARE =>
      int_to_special_base4 (to_int opcode) 2
      ++ int_to_special_base4 (to_int operand1) 1
      ++ int_to_special_base4 (to_int operand2) 1
      ++ int_to_special_base4 (to_int ARE) 1
  | RECORD_TYPE_REGISTER operand1 operand2 ARE =>
      int_to_special_base4 (to_int operand1) 2
      ++ int_to_special_base4 (to_int operand2) 2
      ++ int_to_special_base4 (to_int ARE) 1
  | RECORD_TYPE_ADDRESS address ARE =>
      int_to_special_base4 (to_int address) 4
      ++ int_to_special_base4 (to_int ARE) 1
  end.

(** The lines of the instruction image, from the cell [i] on. *)
Fixpoint print_cells (cells : list instructionsMemory) (i : Z) : list cstring :=
  match cells with
  | [] => []
  | c :: cells' =>
      (int_to_special_base4 (i + MEMORY_START) 4 ++ [TAB] ++ print_cell c)
      :: print_cells cells' (i + 1)
  end.

Fixpoint print_data (data : list Z) (i : Z) : list cstring :=
  match data with
  | [] => []
  | d :: data' =>
      (int_to_special_base4 (i + MEMORY_START) 4 ++ [TAB]
       ++ int_to_special_base4 (to_int d) 5)
      :: print_data data' (i + 1)
  end.

(** [print_object]: the header, the [ic] first cells of the instruction
    image, then the data image.  Reading a cell that was never allocated
    is undefined. *)
Definition print_object (instable : list instructionsMemory) (datatable : list Z)
    (ic_ : Z) : option (list cstring) :=
  let dc_ := Z.of_nat (length datatable) in
  let header :=
    cstr " " ++ strip_leading_a (int_to_special_base4 ic_ 8)
    ++ cstr " " ++ strip_leading_a (int_to_special_base4 dc_ 8) in
  if Z.of_nat (length instable) <? ic_ then None
  else
    Some (header :: print_cells (take (Z.to_nat ic_) instable) 0
                 ++ print_data datatable (Z.max 0 ic_)).


(** ** file.c: the lines of a file *)

Definition NEWLINE : ascii := "010"%char.

(** A file open for reading: the characters that have not been read yet,
    and the end-of-file indicator, which a read sets when it finds no
    character left. *)
Record stream := {
  unread : cstring;
  at_eof : bool
}.

(** [fgets(buf, n, fp)] once the first character is known to be there: at
    most [k = n - 1] characters are read, up to and including the first
    newline; the indicator is set only if the end of the file is met before
    that. *)
Fixpoint fgets_chars (k : nat) (s : cstring) : cstring * stream :=
  match k with
  | O => ([], {| unread := s; at_eof := false |})
  | S k' =>
      match s with
      | [] => ([], {| unread := []; at_eof := true |})
      | c :: s' =>
          if ascii_eqb c NEWLINE then ([c], {| unread := s'; at_eof := false |})
          else let '(l, st) := fgets_chars k' s' in (c :: l, st)
      end
  end.

(** [fgets] returns [NULL] when no character is left. *)
Definition fgets (n : Z) (s : cstring) : option (cstring * stream) :=
  match s with
  | [] => None
  | _ => Some (fgets_chars (Z.to_nat (n - 1)) s)
  end.

(** [while ((c = fgetc(fp)) != '\n' && c != EOF);] *)
Definition skip_rest_of_line (s : cstring) : cstring :=
  drop 1 (drop_while (fun c => negb (ascii_eqb c NEWLINE)) s).



(** ** pre_assembler.c: [pre_assemble] *)

Definition MAX_LINE_LENGTH : Z := 80.
Definition MAX_LABEL_LENGTH : Z := 30.

(** What is left of the file after
    [if (strchr(line, '\n') == NULL && !feof(fp)) while (fgetc ...);]. *)
Definition after_partial_line (line : cstring) (st : stream) : cstring :=
  if negb (existsb (fun c => ascii_eqb c NEWLINE) line) && negb (at_eof st)
  then skip_rest_of_line (unread st)
  else unread st.

(** The test on [first_char]: the line holds white space only, or its
    first character that is not white space is a semicolon. *)
Definition blank_or_comment (line : cstring) : bool :=
  match drop_while isspace line with
  | [] => true
  | c :: _ => ascii_eqb c ";"
  end.

(** The label, the first token after it and the position in the line, as
    both passes compute them. *)
Record line_tokens := {
  label_name : option cstring;
  actual_first_token : option cstring;
  current_line_ptr : cstring
}.

Definition tokens_of_line (line : cstring) : line_tokens :=
  let '(first_token_candidate, p) := get_next_token line in
  match first_token_candidate with
  | Some tok =>
      if existsb (fun c => ascii_eqb c ":") tok then
        let '(tok2, p2) := get_next_token p in
        {| label_name := Some tok; actual_first_token := tok2; current_line_ptr := p2 |}
      else
        {| label_name := None; actual_first_token := Some tok; current_line_ptr := p |}
  | None =>
      {| label_name := None; actual_first_token := None; current_line_ptr := p |}
  end.

(** The variables of the first pass of the pre-assembler. *)
Record macro_pass := {
  in_macro_definition : Z;
  current_macro : option MacroDefinition;
  macros : list MacroDefinition
}.

Definition add_macro_line (macro_def : MacroDefinition) (line_content : cstring)
  : MacroDefinition :=
  {| m_name := m_name macro_def; m_lines := m_lines macro_def ++ [line_content] |}.

(** One line of the first pass that is neither blank nor a comment. *)
Definition collect_macro_line (line : cstring) (line_num : Z) (p : macro_pass)
  : M macro_pass :=
  let tk := tokens_of_line line in
  let trimmed_line_no_comments := trim_whitespace_and_comments line in
  match actual_first_token tk with
  | Some tok =>
      if is_opcode tok "mcro" then
        match fst (get_next_token (current_line_ptr tk)) with
        | None =>
            add_error line_num ": Invalid or missing macro name for 'mcro' directive." ;;;
            ret p
        | Some macro_name_candidate =>
            if (length macro_name_candidate =? 0)%nat
               || (MAX_LABEL_LENGTH <? Z.of_nat (length macro_name_candidate)) then
              add_error line_num ": Invalid or missing macro name for 'mcro' directive." ;;;
              ret p
            else if is_valid_macro_name macro_name_candidate =? 0 then
              add_error line_num
                ": Macro name contains invalid characters. Must start with a letter and be alphanumeric." ;;;
              ret p
            else if negb (is_reserved_word macro_name_candidate =? 0) then
              add_error line_num
                ": Macro name cannot be a reserved word (instruction, directive, or register)." ;;;
              ret p
            else if is_some (find_macro_definition (macros p) macro_name_candidate) then
              add_error line_num ": Macro with this name already defined (redefinition)." ;;;
              ret p
            else
              ret {| in_macro_definition := 1;
                     current_macro := Some {| m_name := macro_name_candidate;
                                              m_lines := [] |};
                     macros := macros p |}
        end
      else if is_opcode tok "mcroend" then
        (match drop_while isspace (current_line_ptr tk) with
         | [] => ret 1
         | _ :: _ => add_error line_num ": Unexpected text after 'endmcro'."
         end) ;;;
        if in_macro_definition p =? 0 then
          add_error line_num ": endmcro directive without a preceding mcro definition." ;;;
          ret p
        else
          match current_macro p with
          | Some m =>
              ret {| in_macro_definition := 0;
                     current_macro := None;
                     macros := add_macro_definition (macros p) m |}
          | None => undefined (* macro_def->next with macro_def == NULL *)
          end
      else if in_macro_definition p =? 1 then
        match trimmed_line_no_comments, current_macro p with
        | Some content, Some m =>
            ret {| in_macro_definition := in_macro_definition p;
                   current_macro := Some (add_macro_line m content);
                   macros := macros p |}
        | Some _, None => undefined (* macro_def->head with macro_def == NULL *)
        | None, _ => ret p
        end
      else ret p
  | None => ret p
  end.

(** The loop of the first pass over the file: the result is the number of
    the last line read and the variables of the pass. *)
Fixpoint collect_macros (fuel : nat) (s : cstring) (line_num : Z) (p : macro_pass)
  : M (Z * macro_pass) :=
  match fuel with
  | O => ret (line_num, p)
  | S f =>
      match fgets (MAX_LINE_LENGTH + 2) s with
      | None => ret (line_num, p)
      | Some (line, st) =>
          let line_num := line_num + 1 in
          if MAX_LINE_LENGTH + 1 <? Z.of_nat (length line) then
            add_error line_num ": Line exceeds the maximum length of 80 characters." ;;;
            collect_macros f (after_partial_line line st) line_num p
          else if blank_or_comment line then
            collect_macros f (after_partial_line line st) line_num p
          else
            p' <- collect_macro_line line line_num p ;;
            collect_macros f (unread st) line_num p'
      end
  end.

(** The text that the second pass writes for a call of a macro.  Each line
    of the body is trimmed again and the pointer that the trimming returns
    is passed to [free]: that is defined only when the line does not start
    with white space.  A line that trims to nothing ends the pass. *)
Inductive expansion :=
| Expanded (text : cstring)
| Interrupted (text : cstring)
| Undefined_free.

Fixpoint expand_lines (ml : list cstring) (out : cstring) : expansion :=
  match ml with
  | [] => Expanded out
  | content :: next =>
      match trim_whitespace_and_comments content with
      | None => Interrupted out
      | Some trimmed_content =>
          if isspace (nth_char content 0) then Undefined_free
          else expand_lines next (out ++ [TAB] ++ trimmed_content ++ [NEWLINE])
      end
  end.

(** The second pass over the file: [out] is what has been written to the
    [.am] file so far. *)
Fixpoint expand_macros (fuel : nat) (s : cstring) (in_definition : Z)
    (macros_list_head : list MacroDefinition) (out : cstring) : option cstring :=
  match fuel with
  | O => Some out
  | S f =>
      match fgets (MAX_LINE_LENGTH + 2) s with
      | None => Some out
      | Some (line, st) =>
          if blank_or_comment line then
            expand_macros f (after_partial_line line st) in_definition macros_list_head out
          else
            let tk := tokens_of_line line in
            match actual_first_token tk with
            | Some tok =>
                if is_opcode tok "mcro" then
                  expand_macros f (unread st) 1 macros_list_head out
                else if is_opcode tok "mcroend" then
                  expand_macros f (unread st) 0 macros_list_head out
                else if in_definition =? 1 then
                  expand_macros f (unread st) in_definition macros_list_head out
                else
                  match find_macro_definition macros_list_head tok with
                  | Some called_macro =>
                      let started :=
                        match label_name tk, m_lines called_macro with
                        | Some label, content :: next =>
                            match trim_whitespace_and_comments content with
                            | Some trimmed_content =>
                                if isspace (nth_char content 0) then None
                                else Some (next,
                                           out ++ label ++ cstr ":" ++ [TAB]
                                           ++ trimmed_content ++ [NEWLINE])
                            | None => None (* fprintf("%s", NULL) *)
                            end
                        | Some _, [] => None (* ml->content with ml == NULL *)
                        | None, ml => Some (ml, out)
                        end in
                      match started with
                      | None => None
                      | Some (ml, out) =>
                          match expand_lines ml out with
                          | Expanded out =>
                              expand_macros f (unread st) in_definition macros_list_head out
                          | Interrupted out => Some out
                          | Undefined_free => None
                          end
                      end
                  | None =>
                      match label_name tk with
                      | Some label =>
                          expand_macros f (unread st) in_definition macros_list_head
                            (out ++ label ++ cstr ":" ++ [TAB]
                             ++ current_line_ptr tk ++ [NEWLINE])
                      | None =>
                          expand_macros f (unread st) in_definition macros_list_head
                            (out ++ line)
                      end
                  end
            | None =>
                match label_name tk with
                | Some _ =>
                    expand_macros f (unread st) in_definition macros_list_head (out ++ line)
                | None =>
                    expand_macros f (unread st) in_definition macros_list_head out
                end
            end
      end
  end.

(** [pre_assemble] on a file that can be opened, given by its contents:
    the macros it leaves and, when no diagnostic has been recorded, the
    contents of the [.am] file ([None] there when the second pass is
    undefined). *)
Definition pre_assemble (contents : cstring)
  : M (list MacroDefinition * option (option cstring)) :=
  r <- collect_macros (S (length contents)) contents 0
         {| in_macro_definition := 0; current_macro := None; macros := [] |} ;;
  (if in_macro_definition (snd r) =? 1
   then add_error (fst r) ": Unclosed macro definition (missing endmcro)."
   else ret 1) ;;;
  t <- get ;;
  if 0 <? ec t then ret (macros (snd r), None)
  else
    ret (macros (snd r),
         Some (expand_macros (S (length contents)) contents 0 (macros (snd r)) [])).

(** ** Notions used by the further properties *)

(** Every call of [m] that returns relates the tables it started from to
    the tables it leaves, by [R]. *)
Definition keeps {A} (R : tables -> tables -> Prop) (m : M A) : Prop :=
  forall t a t', m t = Returns a t' -> R t t'.

Definition symbol_names (l : list labelMemory) : list cstring := map l_name l.

(** What a step of the first pass may do to the tables: append diagnostics
    and data words, write cells at or after [ic] and advance [ic], and
    change the symbol table as [L] allows; the table of external uses and
    the counter of the second pass stay as they are. *)
Record first_pass_step (L : list labelMemory -> list labelMemory -> Prop)
    (t t' : tables) : Prop := {
  step_errors : errortable t `prefix_of` errortable t';
  step_data : datatable t `prefix_of` datatable t';
  step_ic : ic t <= ic t';
  step_cells : forall (i : nat) c,
      Z.of_nat i < ic t -> instable t !! i = Some c -> instable t' !! i = Some c;
  step_length : (length (instable t) <= length (instable t'))%nat;
  step_labels : L (labeltable t) (labeltable t');
  step_extable : extable t' = extable t;
  step_ic2 : ic2 t' = ic2 t
}.

(** The symbol table keeps its names in their order, may gain names at its
    end, and keeps them pairwise distinct when they were. *)
Definition names_grow (l l' : list labelMemory) : Prop :=
  symbol_names l `prefix_of` symbol_names l'
  /\ (NoDup (symbol_names l) -> NoDup (symbol_names l')).

(** An external use names a symbol that the table [l] marks EXTERN. *)
Definition declared_extern (l : list labelMemory) (u : external) : Prop :=
  exists x, find_label l (ex_name u) = Some x /\ l_en x = EXTERN.

(** What a step of the second pass may do: append diagnostics and external
    uses of symbols declared EXTERN, and overwrite cells that exist. *)
Record second_pass_step (t t' : tables) : Prop := {
  step2_errors : errortable t `prefix_of` errortable t';
  step2_extable : exists k, extable t' = extable t ++ k
                            /\ Forall (declared_extern (labeltable t)) k;
  step2_length : length (instable t') = length (instable t);
  step2_labels : labeltable t' = labeltable t;
  step2_data : datatable t' = datatable t;
  step2_ic : ic t' = ic t
}.

(** An entry of the symbol table that [valid_label] passes over: marked
    ENTRY with type 0 and index 0, as [.entry] leaves a name that is not
    defined yet. *)
Definition unresolved_entry (x : labelMemory) : Prop :=
  l_en x = ENTRY /\ l_type x = 0 /\ l_index x = 0.

(** The names that [valid_label] accepts as labels, given the macros and
    the symbol table. *)
Definition label_acceptable (str : cstring) (macrostable : list MacroDefinition)
    (l : list labelMemory) : Prop :=
  forallb is_name_char str = true
  /\ isdigit (nth_char str 0) = false
  /\ nth_char str 0 <> "_"%char
  /\ (length str <= 30)%nat
  /\ is_reserved_word str = 0
  /\ find_macro_definition macrostable str = None
  /\ Forall (fun x => l_name x = str -> unresolved_entry x) l.

(** The tables with one more diagnostic, for the line [cl]. *)
Definition with_error (t : tables) (cl : Z) (msg : string) : tables :=
  set_errortable t (errortable t ++ [{| e_error := cstr msg; e_line := cl |}]).


(** A program of four lines that declares an external symbol and uses it,
    and the tables once the first pass is over and the symbols are
    relocated. *)
Definition extern_program : list cstring :=
  map cstr [".extern X"; "MAIN: mov X, r3"; "jmp MAIN"; "stop"]%string.

(** A file whose second instruction uses an external symbol, after an
    instruction without operands. *)
Definition use_after_stop_program : list cstring :=
  map cstr [".extern X"; "stop"; "jmp X"]%string.

(** A file without any instruction: an external name and a directive
    without a label. *)
Definition directive_use_program : list cstring :=
  map cstr [".extern .dat"; ".data 5"]%string.

(** A source with one macro, a call of it, and a call after a label. *)
Definition macro_sample_file : cstring :=
  cstr "mcro m1" ++ NEWLINE :: cstr " inc r1" ++ NEWLINE :: cstr "mcroend" ++ NEWLINE
  :: cstr "m1" ++ NEWLINE :: cstr "L: m1" ++ NEWLINE :: cstr "stop" ++ [NEWLINE].

Definition after_first_pass (command : list cstring) : tables :=
  match first_pass_loop command 0 [] initial_tables with
  | Returns _ t => set_labeltable t (index_update (labeltable t) (ic t))
  | _ => initial_tables
  end.


(** The two operands that [instruction_uptade_address] finds in what
    follows the name of the instruction: the first two tokens between
    commas, cut after their last character that is not blank. *)
Definition second_pass_operands (str : cstring) : option cstring * option cstring :=
  let delimiters := cstr "," in
  let t1 := strtok str delimiters in
  let t2 := strtok (saved t1) delimiters in
  ((fun w => truncate_at w (end_of_string w)) <$> token t1,
   (fun w => truncate_at w (end_of_string w)) <$> token t2).

(** The words that the second pass counts for an operand: 2 for a matrix,
    1 for any other operand that is there, blank or not. *)
Definition words_in_second_pass (w : option cstring) : Z :=
  match w with
  | None => 0
  | Some _ => if which_type_operand w =? MATRIX then 2 else 1
  end.


(** The value that the loops of [data_update] and [mat_update] store for a
    token: what [strtol] reads, as an [int], when [is_conversion_successful]
    accepts it. *)
Definition accepted_value (str : cstring) : option Z :=
  let '(v, endptr) := strtol str in
  let val := to_int v in
  if (length endptr =? length str)%nat || negb (length endptr =? 0)%nat then None
  else if (val >? MAX_VAL) || (val <? MIN_VAL) then None
  else Some val.


(** A macro as the first pass of the pre-assembler stores it: a valid name
    of at most 30 characters that is not reserved, and lines that are
    already trimmed. *)
Definition well_formed_macro (m : MacroDefinition) : Prop :=
  is_valid_macro_name (m_name m) = 1
  /\ is_reserved_word (m_name m) = 0
  /\ (1 <= length (m_name m) <= 30)%nat
  /\ Forall (fun l => trim_whitespace_and_comments l = Some l) (m_lines m).

(** The variables of the first pass are consistent: the macros stored are
    well formed and have distinct names, and a macro is being defined
    exactly when the flag is 1, under a name that no stored macro has. *)
Definition macro_pass_consistent (p : macro_pass) : Prop :=
  Forall well_formed_macro (macros p)
  /\ NoDup (map m_name (macros p))
  /\ ((in_macro_definition p = 0 /\ current_macro p = None)
      \/ (in_macro_definition p = 1
          /\ exists m, current_macro p = Some m /\ well_formed_macro m
                       /\ ~ In (m_name m) (map m_name (macros p)))).

(** The text written for the lines of a macro: each one after a tab and
    followed by a newline. *)
Definition expansion_text (ml : list cstring) : cstring :=
  concat (map (fun l => [TAB] ++ l ++ [NEWLINE]) ml).

(** The diagnostics recorded from [t] to [t'] are appended to those of [t]
    and none of them has the text [msg]. *)
Definition never_reports (msg : string) (t t' : tables) : Prop :=
  exists k, errortable t' = errortable t ++ k
            /\ Forall (fun e => e_error e <> cstr msg) k.


(** An operand field that is there and holds white space only. *)
Definition blank_operand (w : option cstring) : bool :=
  match w with
  | Some s => only_spaces_and_tabs s
  | None => false
  end.

(** ** Operands as they are written *)

(** The operands of a line as the language writes them: a label, a matrix
    (a label followed by two registers between brackets) and a register;
    their text and their addressing mode. *)
Inductive operand_text :=
| Label_operand (name : cstring)
| Matrix_operand (name : cstring) (d1 d2 : ascii)
| Register_operand (d : ascii).

Definition text_of (o : operand_text) : cstring :=
  match o with
  | Label_operand name => name
  | Matrix_operand name d1 d2 =>
      name ++ "["%char :: "r"%char :: d1 :: "]"%char
           :: "["%char :: "r"%char :: d2 :: "]"%char :: []
  | Register_operand d => ["r"%char; d]
  end.

Definition mode_of (o : operand_text) : Z :=
  match o with
  | Label_operand _ => DIRECT
  | Matrix_operand _ _ _ => MATRIX
  | Register_operand _ => REGISTER
  end.

(** A label as an operand: a letter followed by letters, digits and
    underscores, that does not start with the name of a register (which
    [which_type_operand] takes for a register, whatever follows it). *)
Definition label_text (name : cstring) : bool :=
  isalpha (nth_char name 0) && forallb is_name_char name
  && negb (ascii_eqb (nth_char name 0) "r" && is_register_digit (nth_char name 1)).

(** A well-formed operand.  The name of a matrix holds letters and digits
    only ([is_valid_matrix] stops at an underscore) and the registers are
    r0 to r7. *)
Definition well_formed_operand (o : operand_text) : bool :=
  match o with
  | Label_operand name => label_text name
  | Matrix_operand name d1 d2 =>
      label_text name && forallb isalnum name
      && is_register_digit d1 && is_register_digit d2
  | Register_operand d => is_register_digit d
  end.

(** A [lea] line: the name, the source, a comma and the destination, with
    the text (blanks, in the statements) before the name, after it, on both
    sides of the comma and at the end of the line. *)
Definition lea_line (lead sep : cstring) (src : operand_text) (before after : cstring)
    (dst : operand_text) (trail : cstring) : cstring :=
  lead ++ cstr "lea" ++ sep ++ text_of src ++ before
       ++ ","%char :: after ++ text_of dst ++ trail.

(** A character that is neither white space, nor a comma, nor a colon. *)
Definition operand_char (c : ascii) : bool :=
  negb (isspace c) && negb (ascii_eqb c ",") && negb (ascii_eqb c ":").

(** From [t] to [t'], [n] words were appended to the instruction image
    within the cells allocated, and nothing else has changed. *)
Definition appended (n : Z) (t t' : tables) : Prop :=
  ic t' = ic t + n
  /\ length (instable t') = length (instable t)
  /\ (forall i : nat, Z.of_nat i < ic t -> instable t' !! i = instable t !! i)
  /\ errortable t' = errortable t /\ labeltable t' = labeltable t
  /\ datatable t' = datatable t /\ extable t' = extable t /\ ic2 t' = ic2 t.

(** ** The room in the tables *)

(** [main] allocates every table with MAX_SIZE_MEMORY entries, zeroed, and
    the functions below it receive the tables by value: when one of them
    enlarges a table with [realloc], the function that called it keeps the
    old block.  The symbols and the external uses hold their names in
    [char name[MAX_SIZE_LABEL + 1]], filled by [strcpy].  The definitions
    above keep one copy of each table and names of any length: they are what
    the code does as long as no table is enlarged and every name fits.  The
    tables are within capacity when the instruction image has the cells it
    was allocated with, no counter has passed MAX_SIZE_MEMORY ([add_label]
    enlarges the symbol table before it searches it, hence the strict bound
    there) and no name has more than MAX_SIZE_LABEL characters.  The tables
    only grow during a pass, so a pass that leaves them within capacity has
    enlarged none of them. *)
Definition within_capacity (t : tables) : Prop :=
  Z.of_nat (length (instable t)) = MAX_SIZE_MEMORY
  /\ ic t <= MAX_SIZE_MEMORY
  /\ dc t <= MAX_SIZE_MEMORY
  /\ ec t <= MAX_SIZE_MEMORY
  /\ exc t <= MAX_SIZE_MEMORY
  /\ lac t < MAX_SIZE_MEMORY
  /\ Forall (fun x => Z.of_nat (length (l_name x)) <= MAX_SIZE_LABEL) (labeltable t)
  /\ Forall (fun u => Z.of_nat (length (ex_name u)) <= MAX_SIZE_LABEL) (extable t).

(** * Properties *)

(** ** Running the model *)

Lemma add_ins_room w t :
  0 <= ic t < Z.of_nat (length (instable t)) ->
  add_ins w t
  = Returns 1 (set_instable t (<[Z.to_nat (ic t) := w]> (instable t)) (ic t + 1)).
Proof.
  intros H. unfold add_ins.
  destruct (Z.of_nat (length (instable t)) <=? ic t) eqn:E1;
    [apply Z.leb_le in E1; lia|].
  destruct (0 <=? ic t) eqn:E2; [|apply Z.leb_gt in E2; lia].
  destruct (ic t <? Z.of_nat (length (instable t))) eqn:E3;
    [|apply Z.ltb_ge in E3; lia].
  reflexivity.
Qed.

(** ** C1: emission and the diagnostic count *)

(** C1.  When both passes have returned, [main] adds one diagnostic if
    [ic + dc > 156]; if the count of diagnostics is then positive, no
    artifact (.ob, .ent, .ext) is written and the expanded source (.am) is
    removed; an artifact is written only when the count is zero, in which
    case the object file is written and nothing is removed. *)
Theorem no_emission_on_error r t :
  exists effects,
    main_after_passes (Returns r t) = Next_file effects /\
    let count := ec t + (if ic t + dc t >? 156 then 1 else 0) in
    (0 < count ->
       effects = [Print_error count; Remove AM] /\
       Forall (fun e => writes e = false) effects) /\
    (count = 0 ->
       In (Write_file OB) effects /\
       Forall (fun e => writes e = true) effects) /\
    (forall f, In (Write_file f) effects -> count = 0).
Proof.
  unfold main_after_passes.
  assert (Hec : 0 <= ec t) by (unfold ec; lia).
  destruct (ic t + dc t >? 156) eqn:Hcap.
  - unfold add_error.
    set (t1 := set_errortable t _).
    assert (H1 : ec t1 = ec t + 1).
    { unfold t1, ec, set_errortable; cbn. rewrite length_app; cbn. lia. }
    destruct (ec t1 >? 0) eqn:Hpos; [|rewrite Z.gtb_ltb in Hpos; apply Z.ltb_ge in Hpos; lia].
    eexists; split; [reflexivity|]. cbn zeta. rewrite <- H1.
    repeat split.
    + repeat constructor.
    + lia.
    + lia.
    + intros f [Hf|[Hf|[]]]; discriminate.
  - destruct (ec t >? 0) eqn:Hpos.
    + eexists; split; [reflexivity|]. cbn zeta. rewrite Z.add_0_r.
      rewrite Z.gtb_ltb in Hpos; apply Z.ltb_lt in Hpos.
      repeat split.
      * repeat constructor.
      * lia.
      * lia.
      * intros f [Hf|[Hf|[]]]; discriminate.
    + eexists; split; [reflexivity|]. cbn zeta. rewrite Z.add_0_r.
      rewrite Z.gtb_ltb in Hpos; apply Z.ltb_ge in Hpos.
      repeat split.
      * lia.
      * lia.
      * apply in_or_app; right. apply in_or_app; right. left; reflexivity.
      * apply Forall_app; split; [destruct (exc t >? 0); repeat constructor|].
        apply Forall_app; split;
          [destruct (negb (have_entry (labeltable t) =? 0)); repeat constructor|].
        repeat constructor.
      * intros; lia.
Qed.

(** A fatal end of the passes writes nothing either: [main] leaves through
    [cleanup]. *)
Lemma no_emission_on_exit : main_after_passes Exits = Cleanup.
Proof. reflexivity. Qed.

(** ** C2: relocation of the symbol table *)

Lemma index_update_label_spec ic_ dc_ x :
  (l_type x = INSTRUCTION -> 0 <= l_index x < ic_) ->
  (l_type x = DIRECTIVE -> 0 <= l_index x < dc_) ->
  let y := index_update_label ic_ x in
  l_name y = l_name x /\ l_type y = l_type x /\ l_en y = l_en x /\
  (l_type x = INSTRUCTION ->
     l_index y = l_index x + MEMORY_START /\
     100 <= l_index y < 100 + ic_) /\
  (l_type x = DIRECTIVE ->
     l_index y = l_index x + ic_ + MEMORY_START /\
     100 + ic_ <= l_index y < 100 + ic_ + dc_).
Proof.
  intros Hc Hd. unfold index_update_label, INSTRUCTION, DIRECTIVE, MEMORY_START in *.
  destruct (l_type x =? 1) eqn:E1; [apply Z.eqb_eq in E1|apply Z.eqb_neq in E1].
  - cbn. repeat split; try lia.
  - destruct (l_type x =? 0) eqn:E0; [apply Z.eqb_eq in E0|apply Z.eqb_neq in E0].
    + cbn. repeat split; try lia.
    + cbn. repeat split; try lia.
Qed.

(** C2.  If before the fix-up every Code symbol has its index in [0, IC)
    and every Data symbol in [0, DC), then [index_update] changes nothing
    but the addresses, adds MEMORY_START = 100 to the address of each Code
    symbol and IC + MEMORY_START to that of each Data symbol; afterwards
    every Code symbol lies in [100, 100 + IC) and every Data symbol in
    [100 + IC, 100 + IC + DC). *)
Theorem index_update_ranges (labeltable : list labelMemory) (ic_ dc_ : Z) :
  Forall (fun x => l_type x = INSTRUCTION -> 0 <= l_index x < ic_) labeltable ->
  Forall (fun x => l_type x = DIRECTIVE -> 0 <= l_index x < dc_) labeltable ->
  Forall2
    (fun x y =>
       l_name y = l_name x /\ l_type y = l_type x /\ l_en y = l_en x /\
       (l_type x = INSTRUCTION -> l_index y = l_index x + MEMORY_START) /\
       (l_type x = DIRECTIVE -> l_index y = l_index x + ic_ + MEMORY_START))
    labeltable (index_update labeltable ic_) /\
  Forall
    (fun y =>
       (l_type y = INSTRUCTION -> 100 <= l_index y < 100 + ic_) /\
       (l_type y = DIRECTIVE -> 100 + ic_ <= l_index y < 100 + ic_ + dc_))
    (index_update labeltable ic_).
Proof.
  intros Hc Hd. unfold index_update.
  induction labeltable as [|x l IH]; cbn [map].
  - split; constructor.
  - inversion Hc as [|? ? Hcx Hcl]; subst. inversion Hd as [|? ? Hdx Hdl]; subst.
    destruct (IH Hcl Hdl) as [IH1 IH2].
    destruct (index_update_label_spec ic_ dc_ x Hcx Hdx) as (Hn & Ht & He & Hi & Hj).
    split; constructor; try assumption.
    + repeat split; try assumption; intros Hx; [apply Hi|apply Hj]; exact Hx.
    + rewrite Ht. split; intros Hx; [apply Hi|apply Hj]; exact Hx.
Qed.

Lemma index_update_ranges_witness :
  Forall
    (fun y =>
       (l_type y = INSTRUCTION -> 100 <= l_index y < 100 + 3) /\
       (l_type y = DIRECTIVE -> 100 + 3 <= l_index y < 100 + 3 + 2))
    (index_update relocation_sample 3).
Proof.
  apply (index_update_ranges relocation_sample 3 2).
  - unfold relocation_sample.
    repeat (apply List.Forall_cons; [cbn; unfold INSTRUCTION, DIRECTIVE; intros; lia|]). apply List.Forall_nil.
  - unfold relocation_sample.
    repeat (apply List.Forall_cons; [cbn; unfold INSTRUCTION, DIRECTIVE; intros; lia|]). apply List.Forall_nil.
Defined.

Example index_update_sample :
  map l_index (index_update relocation_sample 3) = [100; 102; 104].
Proof. reflexivity. Qed.

(** ** C3: resolution of symbolic operands in the second pass *)

Lemma to_unsigned_small z : 0 <= z < 2 ^ 32 -> to_unsigned z = z.
Proof. intros H. unfold to_unsigned. apply Z.mod_small. exact H. Qed.

Lemma write_cell_room i w t :
  0 <= i < Z.of_nat (length (instable t)) ->
  write_cell i w t = Returns 1 (set_cells t (<[Z.to_nat i := w]> (instable t))).
Proof.
  intros H. unfold write_cell.
  destruct (0 <=? i) eqn:E1; [|apply Z.leb_gt in E1; lia].
  destruct (i <? Z.of_nat (length (instable t))) eqn:E2;
    [|apply Z.ltb_ge in E2; lia].
  reflexivity.
Qed.

Lemma write_cell_returns i w t r t' :
  write_cell i w t = Returns r t' ->
  0 <= i < Z.of_nat (length (instable t)) /\
  t' = set_cells t (<[Z.to_nat i := w]> (instable t)).
Proof.
  unfold write_cell.
  destruct (0 <=? i) eqn:E1; [|discriminate].
  destruct (i <? Z.of_nat (length (instable t))) eqn:E2; [|discriminate].
  apply Z.leb_le in E1. apply Z.ltb_lt in E2.
  intros [= _ <-]. split; [lia|reflexivity].
Qed.

(** What a found label makes of the cell at the counter. *)
Lemma search_and_update_found s cl t x :
  find_label (labeltable t) s = Some x ->
  0 <= ic2 t < Z.of_nat (length (instable t)) ->
  exists t',
    search_and_update (Some s) cl t = Returns 1 t' /\
    ic2 t' = ic2 t /\ ic t' = ic t /\
    labeltable t' = labeltable t /\ errortable t' = errortable t /\
    (l_en x = EXTERN ->
       instable t'
       = <[Z.to_nat (ic2 t) := RECORD_TYPE_ADDRESS 0 EXTERNAL]> (instable t) /\
       extable t'
       = extable t ++ [{| ex_name := s; ex_index := ic2 t + MEMORY_START |}]) /\
    (l_en x <> EXTERN ->
       instable t'
       = <[Z.to_nat (ic2 t) :=
             RECORD_TYPE_ADDRESS (to_unsigned (l_index x)) RELOCATABLE]>
           (instable t) /\
       extable t' = extable t).
Proof.
  intros Hf Hr. unfold search_and_update, bind, get. rewrite Hf.
  destruct (l_en x =? EXTERN) eqn:E.
  - apply Z.eqb_eq in E. rewrite write_cell_room by assumption.
    eexists. split; [reflexivity|].
    do 4 (split; [reflexivity|]).
    split; [intros _; split; reflexivity | intros Hne; contradiction].
  - apply Z.eqb_neq in E. rewrite write_cell_room by assumption.
    eexists. split; [reflexivity|].
    do 4 (split; [reflexivity|]).
    split; [intros He; contradiction | intros _; split; reflexivity].
Qed.

Lemma use_resolved_mono cells b b' u :
  b <= b' -> use_resolved cells b u -> use_resolved cells b' u.
Proof. intros Hb [Hr Hc]. split; [lia|exact Hc]. Qed.

Lemma use_resolved_insert cells b i w u :
  0 <= b <= i ->
  use_resolved cells b u -> use_resolved (<[Z.to_nat i := w]> cells) b u.
Proof.
  intros Hb [Hr [a Ha]]. split; [exact Hr|]. exists a.
  rewrite list_lookup_insert_ne by lia. exact Ha.
Qed.

Lemma uses_resolved_after_write cells b i w (ext : list external) :
  0 <= b <= i ->
  Forall (use_resolved cells b) ext ->
  Forall (use_resolved (<[Z.to_nat i := w]> cells) (i + 1)) ext.
Proof.
  intros Hb Hinv. eapply Forall_impl; [exact Hinv|].
  intros u Hu. apply (use_resolved_mono _ b); [lia|].
  apply use_resolved_insert; assumption.
Qed.

(** One call of [search_and_update] at the counter keeps the uses below
    [b <= ic2] resolved, and a use that it adds is resolved at [ic2]. *)
Lemma search_and_update_step str cl t r t' b :
  search_and_update str cl t = Returns r t' ->
  0 <= b <= ic2 t ->
  Forall (use_resolved (instable t) b) (extable t) ->
  ic2 t' = ic2 t /\
  Forall (use_resolved (instable t') (ic2 t + 1)) (extable t').
Proof.
  intros Hrun Hb Hinv.
  assert (Hweak : Forall (use_resolved (instable t) (ic2 t + 1)) (extable t)).
  { eapply Forall_impl; [exact Hinv|].
    intros u Hu. eapply use_resolved_mono; [|exact Hu]. lia. }
  unfold search_and_update, bind, get in Hrun.
  destruct str as [s|].
  - destruct (find_label (labeltable t) s) as [x|].
    + destruct (l_en x =? EXTERN).
      * destruct (write_cell (ic2 t) (RECORD_TYPE_ADDRESS 0 EXTERNAL) t)
          as [r1 t1| |] eqn:Hw; try discriminate.
        apply write_cell_returns in Hw as [Hrange ->].
        cbn in Hrun. injection Hrun as _ <-. cbn.
        split; [reflexivity|].
        apply Forall_app. split.
        -- apply (uses_resolved_after_write _ b); assumption.
        -- apply List.Forall_cons; [|apply List.Forall_nil].
           split; cbn; [lia|].
           exists 0.
           replace (ic2 t + MEMORY_START - MEMORY_START) with (ic2 t) by lia.
           apply list_lookup_insert_eq. lia.
      * destruct (write_cell (ic2 t) _ t) as [r1 t1| |] eqn:Hw; try discriminate.
        apply write_cell_returns in Hw as [Hrange ->].
        cbn in Hrun. injection Hrun as _ <-. cbn.
        split; [reflexivity|].
        apply (uses_resolved_after_write _ b); assumption.
    + cbn in Hrun. injection Hrun as _ <-. cbn. split; [reflexivity|exact Hweak].
  - destruct (labeltable t); [|discriminate].
    cbn in Hrun. injection Hrun as _ <-. cbn. split; [reflexivity|exact Hweak].
Qed.

(** The chain on the second operand. *)
Lemma update_address_word2_step word2 cl t w t' b :
  update_address_word2 word2 cl t = Returns w t' ->
  0 <= b <= ic2 t ->
  Forall (use_resolved (instable t) b) (extable t) ->
  exists b',
    0 <= b' <= ic2 t' /\
    Forall (use_resolved (instable t') b') (extable t') /\
    (which_type_operand w = REGISTER -> b' + 1 <= ic2 t').
Proof.
  intros Hrun Hb Hinv. unfold update_address_word2 in Hrun.
  destruct word2 as [w2|].
  - destruct (which_type_operand (Some w2) =? MATRIX) eqn:Em.
    + unfold bind at 1 in Hrun.
      destruct (search_and_update _ cl t) as [r1 t1| |] eqn:Hs; try discriminate.
      destruct (search_and_update_step _ _ _ _ _ _ Hs Hb Hinv) as [Hic Hall].
      unfold bind, add_ic2, ret in Hrun. injection Hrun as _ <-. cbn [ic2 instable extable set_ic2].
      exists (ic2 t + 1). split; [lia|]. split; [assumption|]. intros; lia.
    + destruct (which_type_operand (Some w2) =? DIRECT) eqn:Ed.
      * unfold bind at 1 in Hrun.
        destruct (search_and_update _ cl t) as [r1 t1| |] eqn:Hs; try discriminate.
        destruct (search_and_update_step _ _ _ _ _ _ Hs Hb Hinv) as [Hic Hall].
        unfold bind, add_ic2, ret in Hrun. injection Hrun as <- <-. cbn [ic2 instable extable set_ic2].
        exists (ic2 t + 1). split; [lia|]. split; [assumption|].
        intros Hreg. apply Z.eqb_eq in Ed. rewrite Ed in Hreg. discriminate.
      * unfold bind, add_ic2, ret in Hrun. injection Hrun as _ <-. cbn [ic2 instable extable set_ic2].
        exists b. split; [lia|]. split; [assumption|]. intros; lia.
  - unfold ret in Hrun. injection Hrun as <- <-.
    exists b. split; [lia|]. split; [assumption|].
    cbn [which_type_operand]. discriminate.
Qed.

(** The operand resolution of an instruction line keeps every recorded
    external use resolved. *)
Lemma instruction_uptade_address_keeps_uses str cl t r t' :
  instruction_uptade_address str cl t = Returns r t' ->
  0 <= ic2 t ->
  external_uses_resolved t ->
  external_uses_resolved t'.
Proof.
  unfold external_uses_resolved, instruction_uptade_address.
  set (word1 := _ <$> token (strtok str (cstr ","))).
  set (word2 := _ <$> token (strtok (saved (strtok str (cstr ","))) (cstr ","))).
  intros Hrun Hic Hinv.
  unfold bind at 1 in Hrun. unfold add_ic2 at 1 in Hrun.
  set (t0 := set_ic2 t (ic2 t + 1)) in Hrun.
  assert (Hinv0 : Forall (use_resolved (instable t0) (ic2 t)) (extable t0)) by exact Hinv.
  assert (Hic0 : ic2 t0 = ic2 t + 1) by reflexivity.
  unfold bind at 1 in Hrun.
  match type of Hrun with
  | match ?m t0 with _ => _ end = _ =>
      destruct (m t0) as [[w1' w2'] t1| |] eqn:Hwords; try discriminate
  end.
  assert (Hfin : exists b',
             0 <= b' <= ic2 t1 /\
             Forall (use_resolved (instable t1) b') (extable t1) /\
             (which_type_operand w1' = REGISTER ->
              which_type_operand w2' = REGISTER -> b' + 1 <= ic2 t1)).
  { destruct word1 as [w1|].
    - destruct ((which_type_operand (Some w1) =? MATRIX)
                || (which_type_operand (Some w1) =? DIRECT)) eqn:Emd.
      + unfold bind at 1 in Hwords.
        destruct (which_type_operand (Some w1) =? MATRIX) eqn:Em.
        * unfold bind at 1 in Hwords.
          destruct (search_and_update _ cl t0) as [r2 t1'| |] eqn:Hs;
            try discriminate.
          destruct (search_and_update_step _ _ _ _ _ (ic2 t) Hs ltac:(lia) Hinv0)
            as [Hic2 Hall2].
          unfold bind at 1 in Hwords. unfold add_ic2 at 1 in Hwords.
          set (t2 := set_ic2 t1' (ic2 t1' + 2)) in Hwords.
          unfold ret at 1 in Hwords. unfold bind at 1 in Hwords.
          destruct (update_address_word2 word2 cl t2) as [w t3| |] eqn:Hu;
            try discriminate.
          destruct (update_address_word2_step _ _ _ _ _ (ic2 t0 + 1) Hu
                      ltac:(unfold t2; cbn; lia) Hall2)
            as (b' & Hb' & Hall3 & Hreg).
          unfold ret in Hwords. injection Hwords as <- <- <-.
          exists b'. split; [lia|]. split; [assumption|].
          intros _ H2. apply Hreg. exact H2.
        * cbn [orb] in Emd. unfold bind at 1 in Hwords.
          destruct (search_and_update _ cl t0) as [r2 t1'| |] eqn:Hs;
            try discriminate.
          destruct (search_and_update_step _ _ _ _ _ (ic2 t) Hs ltac:(lia) Hinv0)
            as [Hic2 Hall2].
          unfold bind at 1 in Hwords. unfold add_ic2 at 1 in Hwords.
          set (t2 := set_ic2 t1' (ic2 t1' + 1)) in Hwords.
          unfold ret at 1 in Hwords. unfold bind at 1 in Hwords.
          destruct (update_address_word2 word2 cl t2) as [w t3| |] eqn:Hu;
            try discriminate.
          destruct (update_address_word2_step _ _ _ _ _ (ic2 t0 + 1) Hu
                      ltac:(unfold t2; cbn; lia) Hall2)
            as (b' & Hb' & Hall3 & Hreg).
          unfold ret in Hwords. injection Hwords as <- <- <-.
          exists b'. split; [lia|]. split; [assumption|].
          intros H1 _. apply Z.eqb_eq in Emd. rewrite Emd in H1. discriminate.
      + unfold bind at 1 in Hwords. unfold add_ic2 at 1 in Hwords.
        unfold bind at 1 in Hwords.
        set (t2 := set_ic2 t0 (ic2 t0 + 1)) in Hwords.
        destruct (update_address_word2 word2 cl t2) as [w t3| |] eqn:Hu;
          try discriminate.
        assert (Hall2 : Forall (use_resolved (instable t2) (ic2 t)) (extable t2))
          by exact Hinv.
        destruct (update_address_word2_step _ _ _ _ _ (ic2 t) Hu
                    ltac:(unfold t2; cbn; lia) Hall2)
          as (b' & Hb' & Hall3 & Hreg).
        unfold ret in Hwords. injection Hwords as <- <- <-.
        exists b'. split; [lia|]. split; [assumption|].
        intros _ H2. apply Hreg. exact H2.
    - unfold ret in Hwords. injection Hwords as <- <- <-.
      exists (ic2 t). split; [lia|]. split; [assumption|].
      cbn [which_type_operand]. discriminate. }
  destruct Hfin as (b' & Hb' & Hall & Hreg).
  cbn [fst snd] in Hrun.
  destruct (which_type_operand w1' =? REGISTER) eqn:E1;
    destruct (which_type_operand w2' =? REGISTER) eqn:E2;
    cbn [andb] in Hrun.
  - apply Z.eqb_eq in E1. apply Z.eqb_eq in E2.
    specialize (Hreg E1 E2).
    unfold bind, add_ic2, ret in Hrun. injection Hrun as _ <-. cbn [ic2 instable extable set_ic2].
    eapply Forall_impl; [exact Hall|].
    intros u Hu. eapply use_resolved_mono; [|exact Hu]. lia.
  - unfold ret in Hrun. injection Hrun as _ <-.
    eapply Forall_impl; [exact Hall|].
    intros u Hu. eapply use_resolved_mono; [|exact Hu]. lia.
  - unfold ret in Hrun. injection Hrun as _ <-.
    eapply Forall_impl; [exact Hall|].
    intros u Hu. eapply use_resolved_mono; [|exact Hu]. lia.
  - unfold ret in Hrun. injection Hrun as _ <-.
    eapply Forall_impl; [exact Hall|].
    intros u Hu. eapply use_resolved_mono; [|exact Hu]. lia.
Qed.

(** What the two functions do at the counter of the second pass.
    (1) When the label of a Direct operand, or of the name part of a
    Matrix operand, is found in the symbol table, [search_and_update]
    overwrites the cell at the counter of the second pass: for an Extern
    label with address 0 and ARE = External, and one external use (the
    name, the position of the cell plus MEMORY_START) is appended; for any
    other label with the address of the label and ARE = Relocatable, and
    no external use is appended.  No diagnostic is recorded.
    (2) The resolution of the operands of an instruction line keeps the
    property that every recorded external use holds the absolute address of
    an Address word whose ARE is External.  Whether the cell at the counter
    is the placeholder of the operand depends on the caller, [second_pass],
    which the statement on the file [.extern X], [stop], [jmp X] below is
    about. *)
Theorem external_use_resolution :
  (forall s cl t x,
     find_label (labeltable t) s = Some x ->
     0 <= ic2 t < Z.of_nat (length (instable t)) ->
     exists t',
       search_and_update (Some s) cl t = Returns 1 t' /\
       ic2 t' = ic2 t /\
       errortable t' = errortable t /\
       (l_en x = EXTERN ->
          instable t'
          = <[Z.to_nat (ic2 t) := RECORD_TYPE_ADDRESS 0 EXTERNAL]> (instable t) /\
          extable t'
          = extable t ++ [{| ex_name := s; ex_index := ic2 t + MEMORY_START |}]) /\
       (l_en x <> EXTERN ->
          instable t'
          = <[Z.to_nat (ic2 t) :=
                RECORD_TYPE_ADDRESS (to_unsigned (l_index x)) RELOCATABLE]>
              (instable t) /\
          extable t' = extable t)) /\
  (forall str cl t r t',
     instruction_uptade_address str cl t = Returns r t' ->
     0 <= ic2 t ->
     external_uses_resolved t ->
     external_uses_resolved t').
Proof.
  split.
  - intros s cl t x Hf Hr.
    destruct (search_and_update_found s cl t x Hf Hr)
      as (t' & Hrun & Hic2 & _ & _ & Herr & Hext & Hrel).
    exists t'. repeat (split; [assumption|]). assumption.
  - exact instruction_uptade_address_keeps_uses.
Qed.

Lemma external_use_resolution_witness :
  (exists t',
     search_and_update (Some (cstr "X")) 0 second_pass_sample = Returns 1 t' /\
     instable t' !! 1%nat = Some (RECORD_TYPE_ADDRESS 0 EXTERNAL) /\
     extable t' = [{| ex_name := cstr "X"; ex_index := 101 |}]) /\
  (exists t',
     instruction_uptade_address (cstr "STR,X") 0 second_pass_sample = Returns 1 t' /\
     external_uses_resolved t').
Proof.
  split.
  - destruct (proj1 external_use_resolution (cstr "X") 0 second_pass_sample
                {| l_name := cstr "X"; l_type := 0; l_index := 100; l_en := EXTERN |})
      as (t' & Hrun & _ & _ & Hext & _).
    + reflexivity.
    + vm_compute. split; [discriminate | reflexivity].
    + exists t'. split; [exact Hrun|].
      destruct (Hext eq_refl) as [Hi He]. rewrite Hi, He. split; reflexivity.
  - eexists. split; [vm_compute; reflexivity|].
    eapply (proj2 external_use_resolution (cstr "STR,X") 0 second_pass_sample).
    + vm_compute. reflexivity.
    + vm_compute. discriminate.
    + apply List.Forall_nil.
Defined.

(** C3.  The word that [search_and_update] overwrites is the one at the
    counter IC2, and [second_pass] does not advance IC2 on an instruction
    without operands.  On the file [.extern X], [stop], [jmp X] the first
    pass writes the Command word of [stop] at position 0, the Command word
    of [jmp] at position 1 and the placeholder of [X] at position 2, and
    records no diagnostic.  The second pass skips [stop] with IC2 = 0, so
    that on [jmp X] it takes position 1 for the operand: it overwrites the
    Command word of [jmp] with address 0 and ARE = External and records the
    use of [X] at address 101, while the placeholder at position 2 (address
    102) stays as the first pass left it.  No diagnostic is recorded: the
    file is assembled. *)
Theorem external_use_after_stop :
  exists t1 t',
    first_pass_loop use_after_stop_program 0 [] (set_ic2 initial_tables 0) = Returns 1 t1
    /\ passes use_after_stop_program [] initial_tables = Returns 1 t'
    /\ errortable t' = []
    /\ ic t' = 3
    /\ instable t1 !! 1%nat = Some (RECORD_TYPE_COMMAND JMP 0 DIRECT ABSOLUTE)
    /\ instable t1 !! 2%nat
       = Some (RECORD_TYPE_ADDRESS (to_unsigned NO_KNEWN) (to_unsigned NO_KNEWN))
    /\ extable t' = [{| ex_name := cstr "X"; ex_index := 101 |}]
    /\ instable t' !! 1%nat = Some (RECORD_TYPE_ADDRESS 0 EXTERNAL)
    /\ instable t' !! 2%nat
       = Some (RECORD_TYPE_ADDRESS (to_unsigned NO_KNEWN) (to_unsigned NO_KNEWN)).
Proof.
  eexists _, _. split; [vm_compute; reflexivity|].
  split; [vm_compute; reflexivity|].
  repeat split; reflexivity.
Qed.

(** A directive line without a label reaches [search_and_update] too, with
    the directive less its last character as the name.  On the file
    [.extern .dat], [.data 5] both passes record no diagnostic, no
    instruction word is written (IC = 0), and yet a use of [.dat] is
    recorded at address 100. *)
Example external_use_of_directive :
  exists t',
    passes directive_use_program [] initial_tables = Returns 1 t'
    /\ errortable t' = [] /\ ic t' = 0 /\ datatable t' = [5]
    /\ extable t' = [{| ex_name := cstr ".dat"; ex_index := 100 |}].
Proof. eexists. split; [vm_compute; reflexivity|]. repeat split; reflexivity. Qed.

(** The stored address is the address of the label as long as it fits the
    unsigned field. *)
Example search_and_update_relocatable :
  exists t',
    search_and_update (Some (cstr "STR")) 0 second_pass_sample = Returns 1 t' /\
    instable t' !! 1%nat = Some (RECORD_TYPE_ADDRESS 105 RELOCATABLE) /\
    extable t' = [].
Proof. eexists. split; [vm_compute; reflexivity|]. split; reflexivity. Qed.

(** ** C4: the words of an instruction line *)

Lemma add_error_returns line msg t r t' :
  add_error line msg t = Returns r t' ->
  errs t' = S (errs t) /\ ic t' = ic t /\ instable t' = instable t.
Proof.
  unfold add_error. intros [= _ <-]. unfold errs. cbn.
  rewrite length_app. cbn. repeat split. lia.
Qed.

Lemma add_ins_returns w t r t' :
  add_ins w t = Returns r t' ->
  errortable t' = errortable t /\ ic t' = ic t + 1.
Proof.
  unfold add_ins.
  destruct ((0 <=? ic t) && _); [|discriminate].
  intros [= _ <-]. split; reflexivity.
Qed.

(** A step that reports (one diagnostic, return 0) or goes on. *)
Ltac report_or_go H :=
  unfold bind, ret in H;
  match type of H with
  | match add_error ?l ?m ?t with _ => _ end = _ =>
      let E := fresh "E" in
      destruct (add_error l m t) eqn:E; try discriminate;
      apply add_error_returns in E; destruct E as (? & ? & ?)
  end.

Lemma is_valid_matrix_returns str lc t r t' :
  is_valid_matrix str lc t = Returns r t' ->
  ic t' = ic t /\ (errs t <= errs t')%nat /\
  (errs t' = errs t -> r = 1 /\ errortable t' = errortable t).
Proof.
  unfold is_valid_matrix.
  repeat match goal with
  | |- context [if ?c then _ else _] => destruct c
  end;
  intros H;
  first [ injection H as <- <-; repeat split; lia
        | report_or_go H; injection H as <- <-; repeat split; lia ].
Qed.

Lemma parse_ops_returns ops lc t r t' :
  parse_ops ops lc t = Returns r t' ->
  ic t' = ic t /\ (errs t <= errs t')%nat /\
  (errs t' = errs t -> r = 1 /\ errortable t' = errortable t).
Proof.
  unfold parse_ops.
  destruct ops as [s0|]; [|intros [= <- <-]; repeat split; lia].
  repeat match goal with
  | |- context [match ?c with _ => _ end] => destruct c
  end;
  intros H;
  first [ injection H as <- <-; repeat split; lia
        | report_or_go H; injection H as <- <-; repeat split; lia ].
Qed.

(** A recognised opcode either reports, or appends the Command word and
    returns 1. *)
Lemma word_returns str operand1 operand2 cl t r t' :
  is_instruction_name str = true ->
  word str operand1 operand2 cl t = Returns r t' ->
  (errs t <= errs t')%nat /\
  (errs t' = errs t ->
   r = 1 /\ ic t' = ic t + 1 /\ errortable t' = errortable t).
Proof.
  unfold is_instruction_name, word. cbn [existsb].
  unfold OPERAND_2_CHECK, OPERAND_1_CHECK, OPERAND_0_CHECK, IMMEDIATE_IS_ERROR,
    SET_OPCODE_2_AND_TYPE2, SET_OPCODE_1_AND_TYPE1, SET_OPCODE_0_AND_TYPE0.
  intros Hname.
  repeat match goal with
  | |- context [if is_opcode str ?n then _ else _] =>
      destruct (is_opcode str n)
  end;
  try discriminate Hname;
  repeat match goal with
  | |- context [if ?c then _ else _] => destruct c
  end;
  intros H;
  first [ report_or_go H; injection H as <- <-; repeat split; lia
        | unfold bind, ret in H;
          match type of H with
          | match add_ins ?w ?t with _ => _ end = _ =>
              let E := fresh "E" in
              destruct (add_ins w t) eqn:E; try discriminate;
              apply add_ins_returns in E; destruct E as [E1 E2];
              injection H as <- <-; unfold errs; rewrite E1;
              repeat split; (lia || assumption)
          end ].
Qed.

Ltac run_add_ins H :=
  unfold bind, ret, SET_ADDRESS_AND_TYPE, SET_REGISTE_AND_TYPE in H;
  repeat match type of H with
  | match add_ins ?w ?t with _ => _ end = _ =>
      let E := fresh "E" in
      destruct (add_ins w t) eqn:E; try discriminate;
      apply add_ins_returns in E; destruct E as [? ?]
  end.

Ltac no_error_step :=
  unfold errs in *;
  split;
  [ apply Nat.eq_le_incl; congruence
  | intros _; split; [lia | congruence] ].

(** The words of one operand: as many as its mode asks for, unless a
    diagnostic is recorded. *)
Lemma update_returns word1 word2 operand1 operand2 lc t r t' :
  update word1 word2 operand1 operand2 lc t = Returns r t' ->
  (errs t <= errs t')%nat /\
  (errs t' = errs t ->
   ic t' = ic t + words_for operand1 /\ errortable t' = errortable t).
Proof.
  unfold update, words_for, atoi_ptr.
  destruct (operand1 =? IMMEDIATE).
  { destruct (token (strtok word1 _)) as [p1|]; [|discriminate].
    destruct (strtol p1) as [num ptr]. destruct ptr.
    - intros H. run_add_ins H. injection H as _ <-.
      no_error_step.
    - intros H. report_or_go H. injection H as _ <-. split; lia. }
  destruct (operand1 =? DIRECT).
  { intros H. run_add_ins H. injection H as _ <-.
    no_error_step. }
  destruct (operand1 =? MATRIX).
  { intros H. unfold bind at 1 in H.
    destruct (is_valid_matrix word1 lc t) as [valid t1| |] eqn:Hv; try discriminate.
    apply is_valid_matrix_returns in Hv as (Hic & Hle & Hok).
    destruct (valid =? 0) eqn:Hz.
    - injection H as _ <-. split; [exact Hle|].
      intros He. destruct (Hok He) as [-> _]. discriminate.
    - destruct (token (strtok (saved (strtok word1 _)) _)); [|discriminate].
      destruct (token (strtok (saved (strtok (saved (strtok word1 _)) _)) _));
        [|discriminate].
      run_add_ins H. injection H as _ <-.
      unfold errs in *.
      split; [congruence|]. intros He.
      assert (He1 : length (errortable t1) = length (errortable t)) by congruence.
      destruct (Hok He1) as [_ Hsame].
      split; [lia|congruence]. }
  destruct (operand1 =? REGISTER).
  { destruct (token (strtok word1 _)) as [p1|].
    2:{ destruct (operand2 =? REGISTER); [discriminate|].
        destruct word2; discriminate. }
    destruct (operand2 =? REGISTER).
    - destruct (match word2 with Some w2 => _ | None => None end);
        [|discriminate].
      intros H. run_add_ins H. injection H as _ <-.
      no_error_step.
    - destruct word2; intros H; run_add_ins H; injection H as _ <-;
        no_error_step. }
  intros H. report_or_go H. injection H as _ <-. split; lia.
Qed.

Lemma which_type_operand_is_some w :
  (if is_some w then which_type_operand w else NO_OPERAND) = which_type_operand w.
Proof. destruct w; reflexivity. Qed.

(** The count of words of an accepted line.  The modes are those of the
    second and third tokens of the line; the words of the second operand
    are emitted only when the first one is present. *)
Lemma instruction_word_count str lc t r t' w1 :
  token (strtok str (cstr " ," ++ [TAB])) = Some w1 ->
  is_instruction_name w1 = true ->
  instruction str lc t = Returns r t' ->
  errortable t' = errortable t ->
  r = 1 /\
  ic t' = ic t + 1
          + words_for (fst (operand_modes str))
          + (if fst (operand_modes str) =? NO_OPERAND then 0
             else words_for (snd (operand_modes str)))
          - shared_register_adjustment (fst (operand_modes str))
              (snd (operand_modes str)).
Proof.
  intros Hw1 Hname Hrun Hsame.
  assert (Herrs : errs t' = errs t) by (unfold errs; congruence).
  clear Hsame.
  unfold instruction in Hrun. unfold operand_modes. cbn [fst snd].
  rewrite Hw1 in Hrun.
  set (t1 := strtok str (cstr " ," ++ [TAB])) in *.
  set (word2 := token (strtok (saved t1) (cstr ","))) in *.
  set (word3 := token (strtok (saved (strtok (saved t1) (cstr ","))) (cstr ","))) in *.
  rewrite !which_type_operand_is_some in Hrun.
  set (operand1 := which_type_operand word2) in *.
  set (operand2 := which_type_operand word3) in *.
  destruct (match string_without_first_word str _ with
            | Some s => strcmp_eq s EXIT_C | None => false end);
    [discriminate|].
  destruct (is_some (token (strtok _ _))).
  { report_or_go Hrun. injection Hrun as _ <-. lia. }
  unfold bind at 1 in Hrun.
  destruct (parse_ops _ lc t) as [temp ta| |] eqn:Hp; try discriminate.
  apply parse_ops_returns in Hp as (Hica & Hlea & Hoka).
  destruct (temp =? 0) eqn:Htemp.
  { injection Hrun as _ <-. destruct (Hoka Herrs) as [-> _]. discriminate. }
  unfold bind at 1 in Hrun.
  destruct (word w1 operand1 operand2 lc ta) as [temp2 tb| |] eqn:Hw; try discriminate.
  apply (word_returns _ _ _ _ _ _ _ Hname) in Hw as (Hleb & Hokb).
  assert (Hmono : forall tc, (errs tb <= errs tc)%nat -> (errs tc <= errs t')%nat ->
                  errs tc = errs t /\ errs tb = errs ta /\ errs ta = errs t)
    by (intros; lia).
  destruct (temp2 =? 0) eqn:Htemp2.
  { injection Hrun as _ <-.
    destruct (Hmono tb ltac:(lia) ltac:(lia)) as (_ & Hb & _).
    destruct (Hokb Hb) as [-> _]. discriminate. }
  (* the first operand *)
  unfold bind at 1 in Hrun.
  match type of Hrun with
  | match ?m tb with _ => _ end = _ =>
      destruct (m tb) as [r1 tc| |] eqn:H1; try discriminate
  end.
  assert (Hfirst : (errs tb <= errs tc)%nat /\
                   (errs tc = errs tb ->
                    ic tc = ic tb + words_for operand1)).
  { destruct word2 as [w2|].
    - destruct (operand1 =? NO_OPERAND) eqn:Eno.
      + cbn [negb] in H1. injection H1 as _ <-. split; [lia|]. intros _.
        apply Z.eqb_eq in Eno. rewrite Eno.
        change (words_for NO_OPERAND) with 0. lia.
      + cbn [negb] in H1. apply update_returns in H1 as [Hle1 Hok1].
        split; [exact Hle1|]. intros He. apply Hok1. exact He.
    - injection H1 as _ <-. split; [lia|]. intros _.
      change (words_for operand1) with 0. lia. }
  destruct Hfirst as [Hlec Hokc].
  (* the second operand *)
  assert (Hsecond : (errs tc <= errs t')%nat /\
                    (errs t' = errs tc ->
                     r = 1 /\
                     ic t' = ic tc
                             + (if operand1 =? NO_OPERAND then 0 else words_for operand2)
                             - shared_register_adjustment operand1 operand2)).
  { unfold shared_register_adjustment.
    destruct ((operand1 =? REGISTER) && (operand2 =? REGISTER)) eqn:Ereg.
    - injection Hrun as <- <-. split; [lia|]. intros _. split; [reflexivity|].
      apply andb_prop in Ereg as [E1 E2].
      apply Z.eqb_eq in E1. apply Z.eqb_eq in E2. rewrite E1, E2.
      change (if REGISTER =? NO_OPERAND then 0 else words_for REGISTER) with 1.
      lia.
    - destruct word3 as [w3|].
      + destruct (operand1 =? NO_OPERAND) eqn:Eno.
        * cbn [negb] in Hrun. injection Hrun as <- <-.
          split; [lia|]. intros _. split; [reflexivity|lia].
        * cbn [negb] in Hrun. unfold bind at 1 in Hrun.
          destruct (update w3 None operand2 0 lc tc) as [r2 td| |] eqn:H2;
            try discriminate.
          apply update_returns in H2 as [Hle2 Hok2].
          injection Hrun as <- <-. split; [exact Hle2|].
          intros He. split; [reflexivity|]. destruct (Hok2 He) as [-> _]. lia.
      + injection Hrun as <- <-. split; [lia|]. intros _.
        split; [reflexivity|].
        change (words_for operand2) with 0.
        destruct (operand1 =? NO_OPERAND); lia. }
  destruct Hsecond as [Hled Hokd].
  destruct (Hmono tc Hlec Hled) as (Hc & Hb & Ha).
  destruct (Hokb Hb) as (_ & Hicb & _).
  specialize (Hokc ltac:(lia)).
  destruct (Hokd ltac:(lia)) as [Hr Hic].
  split; [exact Hr|]. lia.
Qed.

(** The count that the specification gives holds on every accepted line
    whose first operand field is not empty when the second one is not. *)
Corollary instruction_word_count_regular str lc t r t' w1 :
  token (strtok str (cstr " ," ++ [TAB])) = Some w1 ->
  is_instruction_name w1 = true ->
  instruction str lc t = Returns r t' ->
  errortable t' = errortable t ->
  (fst (operand_modes str) = NO_OPERAND -> snd (operand_modes str) = NO_OPERAND) ->
  ic t' = ic t + 1
          + words_for (fst (operand_modes str))
          + words_for (snd (operand_modes str))
          - shared_register_adjustment (fst (operand_modes str))
              (snd (operand_modes str)).
Proof.
  intros Hw1 Hname Hrun Hsame Hreg.
  destruct (instruction_word_count _ _ _ _ _ _ Hw1 Hname Hrun Hsame) as [_ Hic].
  rewrite Hic.
  destruct (fst (operand_modes str) =? NO_OPERAND) eqn:E; [|reflexivity].
  apply Z.eqb_eq in E. rewrite (Hreg E).
  change (words_for NO_OPERAND) with 0. lia.
Qed.

Example instruction_word_count_samples :
  map (fun line =>
         match instruction (cstr line) 0 initial_tables with
         | Returns r t => (r, ic t, length (errortable t))
         | _ => (- 1, 0, O)
         end)
    ["stop"; "inc r1"; "mov r1, r2"; "mov #-1, r3"; "cmp A, #3";
     "lea M[r1][r2], r3"; "mov M[r1][r2], N[r3][r4]"]%string
  = [(1, 1, O); (1, 2, O); (1, 2, O); (1, 3, O); (1, 3, O); (1, 4, O); (1, 5, O)].
Proof. vm_compute. reflexivity. Qed.

(** C4, at the input on which the code departs from it.  On the line
    [inc  , r1] (two blanks before the comma) the operand fields are
    classified as absent and Register.  The first pass accepts the line,
    no diagnostic being recorded, and appends the Command word only: IC
    grows by 1, where the count of the claim is 1 + 0 + 1 = 2.  The second
    pass advances its counter by 2 on the same line. *)
Theorem instruction_comma_before_single_operand :
  operand_modes (cstr "inc  , r1") = (NO_OPERAND, REGISTER) /\
  1 + words_for NO_OPERAND + words_for REGISTER
  - shared_register_adjustment NO_OPERAND REGISTER = 2 /\
  (exists t',
     instruction (cstr "inc  , r1") 0 initial_tables = Returns 1 t' /\
     errortable t' = [] /\
     ic t' = ic initial_tables + 1) /\
  string_without_first_word (cstr "inc  , r1") (cstr " " ++ [TAB])
  = Some (cstr ", r1") /\
  (exists t',
     instruction_uptade_address (cstr ", r1") 0 initial_tables = Returns 1 t' /\
     ic2 t' = ic2 initial_tables + 2).
Proof.
  split; [reflexivity|].
  split; [reflexivity|].
  split; [eexists; split; [vm_compute; reflexivity|]; split; reflexivity|].
  split; [reflexivity|].
  eexists; split; [vm_compute; reflexivity|]. reflexivity.
Qed.

(** ** The encoder writes the numeral of its argument modulo 4^width *)

Section Encoder.

Local Open Scope Z_scope.

Lemma length_numeral n v : length (numeral n v) = n.
Proof.
  revert v; induction n as [|n IH]; intros v; simpl; [reflexivity|].
  rewrite length_app, IH; simpl; lia.
Qed.

Lemma numeral_zero n : numeral n 0 = replicate n "a"%char.
Proof.
  induction n as [|n IH]; [reflexivity|].
  cbn [numeral]. change (0 / 4) with 0; rewrite IH.
  change (digit_to_char_special_base4 (0 mod 4)) with "a"%char.
  rewrite replicate_S_end; reflexivity.
Qed.

Lemma numeral_mod n v : numeral n (v mod 4 ^ Z.of_nat n) = numeral n v.
Proof.
  revert v; induction n as [|n IH]; intros v; [reflexivity|].
  cbn [numeral].
  replace (Z.of_nat (S n)) with (1 + Z.of_nat n) by lia.
  rewrite Z.pow_add_r, Z.pow_1_r by lia.
  assert (Hp : 0 < 4 ^ Z.of_nat n) by (apply Z.pow_pos_nonneg; lia).
  rewrite Z.rem_mul_r by lia.
  pose proof (Z.mod_pos_bound v 4 ltac:(lia)) as B.
  set (a := v mod 4) in *. set (b := (v / 4) mod 4 ^ Z.of_nat n).
  assert (Hd : (a + 4 * b) / 4 = b)
    by (symmetry; apply (Z.div_unique _ 4 _ a); lia).
  assert (Hm : (a + 4 * b) mod 4 = a)
    by (symmetry; apply (Z.mod_unique _ 4 b); lia).
  rewrite Hd, Hm. unfold b.
  rewrite IH; reflexivity.
Qed.

Lemma digit_char_digit d :
  0 <= d < 4 -> char_digit (digit_to_char_special_base4 d) = d.
Proof.
  intros H.
  assert (d = 0 \/ d = 1 \/ d = 2 \/ d = 3) as [->|[->|[->| ->]]] by lia;
    reflexivity.
Qed.

Lemma digit_in_alphabet d :
  0 <= d < 4 -> in_alphabet (digit_to_char_special_base4 d).
Proof.
  intros H. unfold in_alphabet.
  assert (d = 0 \/ d = 1 \/ d = 2 \/ d = 3) as [->|[->|[->| ->]]] by lia;
    cbn; auto.
Qed.

Lemma numeral_alphabet n v : Forall in_alphabet (numeral n v).
Proof.
  revert v; induction n as [|n IH]; intros v; simpl; [constructor|].
  apply Forall_app; split; [apply IH|].
  constructor; [|constructor].
  apply digit_in_alphabet, Z.mod_pos_bound; lia.
Qed.

Lemma base4_value_app s c :
  base4_value (s ++ [c]) = 4 * base4_value s + char_digit c.
Proof. unfold base4_value. rewrite fold_left_app. reflexivity. Qed.

Lemma base4_value_numeral n v :
  base4_value (numeral n v) = v mod 4 ^ Z.of_nat n.
Proof.
  revert v; induction n as [|n IH]; intros v.
  - simpl. rewrite Z.mod_1_r. reflexivity.
  - cbn [numeral]. rewrite base4_value_app, IH.
    rewrite digit_char_digit by (apply Z.mod_pos_bound; lia).
    replace (Z.of_nat (S n)) with (1 + Z.of_nat n) by lia.
    rewrite Z.pow_add_r, Z.pow_1_r by lia.
    assert (Hp : 0 < 4 ^ Z.of_nat n) by (apply Z.pow_pos_nonneg; lia).
    rewrite Z.rem_mul_r by lia. lia.
Qed.

(** The digit loop on a field of ['a']'s writes the numeral of a
    non-negative number; whatever follows the field is left alone. *)
Lemma fill_digits_numeral n v tl :
  0 <= v ->
  fill_digits n v (replicate n "a"%char ++ tl) = numeral n v ++ tl.
Proof.
  revert v tl; induction n as [|n IH]; intros v tl Hv; [reflexivity|].
  cbn [fill_digits numeral].
  destruct (v >? 0) eqn:Hpos.
  - apply Z.gtb_lt in Hpos.
    rewrite Z.quot_div_nonneg, Z.rem_mod_nonneg by lia.
    rewrite replicate_S_end, <- app_assoc.
    rewrite insert_app_r_alt by (rewrite length_replicate; lia).
    rewrite length_replicate, Nat.sub_diag. cbn [app].
    change (<[0%nat:=?x]> (?y :: ?l)) with (x :: l).
    rewrite IH by (apply Z.div_pos; lia).
    rewrite <- app_assoc. reflexivity.
  - assert (v = 0) as -> by (rewrite Z.gtb_ltb in Hpos; apply Z.ltb_ge in Hpos; lia).
    change (0 / 4) with 0.
    change (digit_to_char_special_base4 (0 mod 4)) with "a"%char.
    rewrite numeral_zero, replicate_S_end. reflexivity.
Qed.

Lemma invert_digits_numeral n v :
  invert_digits (numeral n v) = numeral n (- 1 - v).
Proof.
  revert v; induction n as [|n IH]; intros v; [reflexivity|].
  cbn [numeral]. unfold invert_digits in *.
  rewrite map_app, IH. cbn [map].
  rewrite digit_char_digit by (apply Z.mod_pos_bound; lia).
  assert (Hd : (- 1 - v) / 4 = - 1 - v / 4).
  { pose proof (Z.div_mod v 4 ltac:(lia)) as E.
    pose proof (Z.mod_pos_bound v 4 ltac:(lia)) as B.
    symmetry. apply (Z.div_unique _ 4 _ (3 - v mod 4)); lia. }
  assert (Hm : (- 1 - v) mod 4 = 3 - v mod 4).
  { pose proof (Z.div_mod v 4 ltac:(lia)) as E.
    pose proof (Z.mod_pos_bound v 4 ltac:(lia)) as B.
    symmetry. apply (Z.mod_unique _ 4 (- 1 - v / 4)); lia. }
  rewrite Hd, Hm. reflexivity.
Qed.

Lemma nth_char_app_middle (s : cstring) c tl :
  nth_char (s ++ c :: tl) (length s) = c.
Proof.
  unfold nth_char. rewrite app_nth2 by lia.
  rewrite Nat.sub_diag. reflexivity.
Qed.

(** The carry loop adds its carry to the numeral in the field. *)
Lemma add_one_loop_numeral n v carry tl :
  0 <= carry <= 1 ->
  add_one_loop n carry (numeral n v ++ tl) = numeral n (v + carry) ++ tl.
Proof.
  revert v carry tl; induction n as [|n IH]; intros v carry tl Hc;
    [reflexivity|].
  cbn [add_one_loop numeral].
  pose proof (Z.div_mod v 4 ltac:(lia)) as E.
  pose proof (Z.mod_pos_bound v 4 ltac:(lia)) as B.
  destruct (carry >? 0) eqn:Hpos.
  - assert (carry = 1) as -> by (apply Z.gtb_lt in Hpos; lia).
    rewrite <- !app_assoc. cbn [app].
    pose proof (nth_char_app_middle (numeral n (v / 4))
                  (digit_to_char_special_base4 (v mod 4)) tl) as Hn.
    rewrite length_numeral in Hn. rewrite Hn.
    rewrite digit_char_digit by lia.
    rewrite Z.quot_div_nonneg, Z.rem_mod_nonneg by lia.
    rewrite insert_app_r_alt by (rewrite length_numeral; lia).
    rewrite length_numeral, Nat.sub_diag.
    change (<[0%nat:=?x]> (?y :: ?l)) with (x :: l).
    rewrite IH.
    2:{ split; [apply Z.div_pos; lia|].
        apply Z.div_le_upper_bound; lia. }
    assert (Hd : (v + 1) / 4 = v / 4 + (v mod 4 + 1) / 4).
    { rewrite E at 1. rewrite <- Z.add_assoc, Z.mul_comm, Z.div_add_l by lia.
      reflexivity. }
    assert (Hm : (v + 1) mod 4 = (v mod 4 + 1) mod 4).
    { rewrite Z.add_mod by lia. rewrite (Z.mod_small 1 4) by lia. reflexivity. }
    rewrite Hd, Hm. reflexivity.
  - assert (carry = 0) as -> by (rewrite Z.gtb_ltb in Hpos; apply Z.ltb_ge in Hpos; lia).
    rewrite Z.add_0_r. reflexivity.
Qed.

(** Whatever the sign of [num], the encoder returns the numeral of
    [num mod 4^num_digits]. *)
Lemma int_to_special_base4_numeral num num_digits :
  int_to_special_base4 num num_digits = numeral (Z.to_nat num_digits) num.
Proof.
  unfold int_to_special_base4.
  set (n := Z.to_nat num_digits).
  destruct (num <? 0) eqn:Hneg.
  - apply Z.ltb_lt in Hneg.
    pose proof (fill_digits_numeral n (Z.abs num) [] ltac:(lia)) as Hf.
    rewrite !app_nil_r in Hf. rewrite Hf, invert_digits_numeral.
    unfold add_one_to_special_base4. fold n.
    pose proof (add_one_loop_numeral n (- 1 - Z.abs num) 1 [] ltac:(lia)) as Ha.
    rewrite !app_nil_r in Ha. rewrite Ha.
    f_equal. lia.
  - apply Z.ltb_ge in Hneg.
    destruct (num =? 0) eqn:Hz.
    + apply Z.eqb_eq in Hz. subst num. symmetry. apply numeral_zero.
    + pose proof (fill_digits_numeral n num [] Hneg) as Hf.
      rewrite !app_nil_r in Hf. exact Hf.
Qed.


End Encoder.

(** ** C5: reading the encoding back *)

Lemma pow4_half width :
  0 < width -> 4 ^ width = 2 * (4 ^ width / 2) /\ 0 < 4 ^ width / 2.
Proof.
  intros Hw.
  replace width with (1 + (width - 1)) by lia.
  rewrite Z.pow_add_r, Z.pow_1_r by lia.
  assert (Hp : 0 < 4 ^ (width - 1)) by (apply Z.pow_pos_nonneg; lia).
  replace (4 * 4 ^ (width - 1)) with ((2 * 4 ^ (width - 1)) * 2) by lia.
  rewrite Z.div_mul by lia. lia.
Qed.

(** C5, as the code has it.  For every width [w > 0]: a value [v] with
    [-4^w/2 <= v < 4^w/2] is reproduced when the string that the encoder
    writes at width [w] is read as a two's-complement numeral of [w] base-4
    digits; a value [v] with [0 <= v < 4^w] is reproduced when the string is
    read as an unsigned numeral.  (Negative values go through the digit
    inversion [3 - d] and the add-one-with-carry loop.) *)
Theorem base4_round_trip num width :
  0 < width ->
  (- (4 ^ width / 2) <= num < 4 ^ width / 2 ->
   decode_twos_complement width (int_to_special_base4 num width) = num) /\
  (0 <= num < 4 ^ width ->
   base4_value (int_to_special_base4 num width) = num).
Proof.
  intros Hw.
  destruct (pow4_half width Hw) as [Hhalf Hpos].
  assert (Hval : base4_value (int_to_special_base4 num width)
                 = num mod 4 ^ width).
  { rewrite int_to_special_base4_numeral, base4_value_numeral.
    rewrite Z2Nat.id by lia. reflexivity. }
  split; intros Hr.
  - unfold decode_twos_complement. rewrite Hval.
    destruct (Z_lt_le_dec num 0) as [Hneg|Hnn].
    + assert (Hm : num mod 4 ^ width = num + 4 ^ width).
      { symmetry. apply (Z.mod_unique _ _ (- 1)); lia. }
      rewrite Hm.
      destruct (2 * (num + 4 ^ width) >=? 4 ^ width) eqn:E; [lia|].
      rewrite Z.geb_leb in E. apply Z.leb_gt in E. lia.
    + rewrite Z.mod_small by lia.
      destruct (2 * num >=? 4 ^ width) eqn:E; [|reflexivity].
      rewrite Z.geb_leb in E. apply Z.leb_le in E. lia.
  - rewrite Hval. apply Z.mod_small. lia.
Qed.

Lemma base4_round_trip_witness :
  decode_twos_complement 4 (int_to_special_base4 (- 1) 4) = - 1 /\
  base4_value (int_to_special_base4 200 4) = 200.
Proof.
  split.
  - apply (base4_round_trip (- 1) 4); [lia | vm_compute; split; [discriminate | reflexivity]].
  - apply (base4_round_trip 200 4); [lia | vm_compute; split; [discriminate | reflexivity]].
Defined.

(** C5 as stated fails: 200 is a non-negative value below 4^4, the encoder
    writes it at width 4 as "daca", and that string read as a
    two's-complement numeral of 4 digits is -56. *)
Lemma twos_complement_round_trip_fails :
  0 <= 200 < 4 ^ 4 /\
  int_to_special_base4 200 4 = cstr "daca" /\
  decode_twos_complement 4 (int_to_special_base4 200 4) = - 56 /\
  decode_twos_complement 4 (int_to_special_base4 200 4) <> 200.
Proof.
  split; [vm_compute; split; [discriminate | reflexivity]|].
  split; [reflexivity|].
  split; [reflexivity|].
  vm_compute. discriminate.
Qed.

(** ** C6: [lea] in the opcode dispatch *)

(** The dispatch of [word].  For a [lea] whose source mode is Direct or
    Matrix and whose destination mode is Direct, Matrix or Register, the
    validation of the modes accepts the operands: [word] returns 1, appends the Command
    word with the LEA opcode and the two modes, and records no diagnostic.
    (The [add_error] written after the block in the source is not reached:
    the macro in the block returns.) *)
Theorem lea_accepts_legal_modes operand1 operand2 cl t :
  operand1 = DIRECT \/ operand1 = MATRIX ->
  operand2 = DIRECT \/ operand2 = MATRIX \/ operand2 = REGISTER ->
  0 <= ic t < Z.of_nat (length (instable t)) ->
  exists t',
    word (cstr "lea") operand1 operand2 cl t = Returns 1 t' /\
    instable t'
    = <[Z.to_nat (ic t) := RECORD_TYPE_COMMAND LEA operand1 operand2 ABSOLUTE]>
        (instable t) /\
    ic t' = ic t + 1 /\
    errortable t' = errortable t /\
    labeltable t' = labeltable t /\
    datatable t' = datatable t.
Proof.
  intros H1 H2 Hic.
  assert (Hw : word (cstr "lea") operand1 operand2 cl t
               = OPERAND_2_CHECK cl operand1 operand2
                   (SET_OPCODE_2_AND_TYPE2 LEA operand1 operand2) t)
    by reflexivity.
  rewrite Hw. unfold OPERAND_2_CHECK, SET_OPCODE_2_AND_TYPE2, bind, ret.
  destruct H1 as [-> | ->]; destruct H2 as [-> | [-> | ->]];
    (cbn [Z.eqb orb NO_OPERAND DIRECT MATRIX REGISTER]; cbv iota;
     rewrite add_ins_room by assumption;
     eexists; split; [reflexivity|]; repeat split; reflexivity).
Qed.

Lemma lea_accepts_legal_modes_witness :
  exists t',
    word (cstr "lea") DIRECT REGISTER 0 initial_tables = Returns 1 t' /\
    instable t'
    = <[Z.to_nat (ic initial_tables) := RECORD_TYPE_COMMAND LEA DIRECT REGISTER ABSOLUTE]>
        (instable initial_tables) /\
    ic t' = ic initial_tables + 1 /\
    errortable t' = errortable initial_tables /\
    labeltable t' = labeltable initial_tables /\
    datatable t' = datatable initial_tables.
Proof.
  apply (lea_accepts_legal_modes DIRECT REGISTER 0 initial_tables).
  - left; reflexivity.
  - right; right; reflexivity.
  - vm_compute. split; [discriminate | reflexivity].
Defined.

(** The dispatch checks only that both operands are present: whatever the
    two modes, the Command word is appended and nothing is reported. *)
Lemma lea_checks_presence_only operand1 operand2 cl t :
  operand1 <> NO_OPERAND -> operand2 <> NO_OPERAND ->
  0 <= ic t < Z.of_nat (length (instable t)) ->
  word (cstr "lea") operand1 operand2 cl t
  = Returns 1
      (set_instable t
         (<[Z.to_nat (ic t) :=
              RECORD_TYPE_COMMAND LEA (to_unsigned operand1)
                (to_unsigned operand2) ABSOLUTE]> (instable t))
         (ic t + 1)).
Proof.
  intros H1 H2 Hic.
  assert (Hw : word (cstr "lea") operand1 operand2 cl t
               = OPERAND_2_CHECK cl operand1 operand2
                   (SET_OPCODE_2_AND_TYPE2 LEA operand1 operand2) t)
    by reflexivity.
  rewrite Hw. unfold OPERAND_2_CHECK, SET_OPCODE_2_AND_TYPE2, bind, ret.
  destruct (operand1 =? NO_OPERAND) eqn:E1; [apply Z.eqb_eq in E1; contradiction|].
  destruct (operand2 =? NO_OPERAND) eqn:E2; [apply Z.eqb_eq in E2; contradiction|].
  cbn [orb]. rewrite add_ins_room by assumption. reflexivity.
Qed.

(** Six [lea] lines, one for each legal pair of modes, go through
    [instruction] without a diagnostic. *)
Example lea_lines_accepted :
  Forall
    (fun line =>
       exists t', instruction (cstr line) 0 initial_tables = Returns 1 t' /\
                  errortable t' = [] /\
                  exists m1 m2, instable t' !! 0%nat
                                = Some (RECORD_TYPE_COMMAND LEA m1 m2 ABSOLUTE))
    ["lea STR, LEN"; "lea STR, M[r1][r2]"; "lea STR, r6";
     "lea M[r1][r2], LEN"; "lea M[r1][r2], M[r3][r4]"; "lea M[r1][r2], r6"]%string.
Proof.
  repeat (apply List.Forall_cons;
          [eexists; split; [vm_compute; reflexivity|];
           split; [reflexivity|]; eexists; eexists; reflexivity|]).
  apply List.Forall_nil.
Qed.

(** The modes are not checked at all for [lea]: an immediate source is
    accepted as well. *)
Example lea_immediate_source_accepted :
  exists t', instruction (cstr "lea #5, r1") 0 initial_tables = Returns 1 t' /\
             errortable t' = [] /\ ic t' = 3.
Proof. eexists. split; [vm_compute; reflexivity|]. split; reflexivity. Qed.

(** ** C7: padding of a [.mat] directive *)

Lemma add_data_zero t :
  add_data 0 t = Returns 1 (set_datatable t (datatable t ++ [0])).
Proof. reflexivity. Qed.

(** The padding loop runs while [num <= total]: started at [num], it
    appends [total + 1 - num] zero words, one more than the cells left. *)
Lemma mat_pad_zeros_count (n : nat) num total t :
  Z.of_nat n = total + 1 - num ->
  mat_pad_zeros n num total t
  = Returns (total + 1) (set_datatable t (datatable t ++ replicate n 0)).
Proof.
  revert num t; induction n as [|n IH]; intros num t Hn.
  - cbn. unfold ret. rewrite app_nil_r.
    replace num with (total + 1) by lia. destruct t; reflexivity.
  - cbn [mat_pad_zeros].
    destruct (num <=? total) eqn:E; [|apply Z.leb_gt in E; lia].
    unfold bind. rewrite add_data_zero. rewrite IH by lia.
    cbn [datatable set_datatable]. rewrite <- app_assoc. reflexivity.
Qed.

(** The loop of the branch without initializers stops at [num == total]. *)
Lemma mat_fill_zeros_count (n : nat) num total t :
  Z.of_nat n = total - num ->
  mat_fill_zeros n num total t
  = Returns total (set_datatable t (datatable t ++ replicate n 0)).
Proof.
  revert num t; induction n as [|n IH]; intros num t Hn.
  - cbn. unfold ret. rewrite app_nil_r.
    replace num with total by lia. destruct t; reflexivity.
  - cbn [mat_fill_zeros].
    destruct (num =? total) eqn:E; [apply Z.eqb_eq in E; lia|].
    cbn [negb]. unfold bind. rewrite add_data_zero. rewrite IH by lia.
    cbn [datatable set_datatable]. rewrite <- app_assoc. reflexivity.
Qed.

(** Whatever the values given, as soon as fewer than [total = rows * cols]
    of them were stored the padding brings the count to [total + 1]. *)
Lemma mat_after_values_pads remaining num total cl t :
  0 <= num < total ->
  mat_after_values (Some (remaining, num)) total cl t
  = Returns 1
      (set_datatable t
         (datatable t ++ replicate (Z.to_nat (total + 1 - num)) 0)).
Proof.
  intros H. unfold mat_after_values.
  destruct (num >? total) eqn:E1;
    [rewrite Z.gtb_ltb in E1; apply Z.ltb_lt in E1; lia|].
  rewrite andb_false_r.
  destruct (num <? total) eqn:E2; [|apply Z.ltb_ge in E2; lia].
  unfold bind. rewrite mat_pad_zeros_count by lia. reflexivity.
Qed.

(** C7, at an input on which the code departs from it.  [.mat [2][2] 1]
    has 2*2 = 4 cells and one initializer; the directive is accepted without
    a diagnostic and appends five words, the value and four zeros, so DC
    grows by [rows*cols + 1].  With all four initializers exactly four
    words are appended. *)
Theorem mat_update_pads_one_word_too_many :
  (exists t',
     mat_update (cstr "[2][2] 1") 0 initial_tables = Returns 1 t' /\
     errortable t' = [] /\
     datatable t' = [1; 0; 0; 0; 0] /\
     dc t' = dc initial_tables + 2 * 2 + 1) /\
  (exists t',
     mat_update (cstr "[2][3] 4,5") 0 initial_tables = Returns 1 t' /\
     errortable t' = [] /\
     datatable t' = [4; 5; 0; 0; 0; 0; 0] /\
     dc t' = dc initial_tables + 2 * 3 + 1) /\
  (exists t',
     mat_update (cstr "[2][2] 1,2,3,4") 0 initial_tables = Returns 1 t' /\
     datatable t' = [1; 2; 3; 4]).
Proof.
  split; [|split].
  - eexists. split; [vm_compute; reflexivity|]. repeat split; reflexivity.
  - eexists. split; [vm_compute; reflexivity|]. repeat split; reflexivity.
  - eexists. split; [vm_compute; reflexivity|]. reflexivity.
Qed.

(** ** C8: [.entry] of an external symbol *)

Lemma search_entery_loop_absent l str cl t :
  Forall (fun y => strcmp_eq (l_name y) str = false) l ->
  search_entery_loop l str cl t = Returns (l, 0) t.
Proof.
  revert t; induction l as [|y l IH]; intros t Hl; [reflexivity|].
  inversion Hl as [|? ? Hy Hl']; subst.
  cbn [search_entery_loop]. rewrite Hy.
  unfold bind. rewrite IH by assumption. reflexivity.
Qed.

Lemma search_label_loop_absent l str type ic_ dc_ :
  Forall (fun y => strcmp_eq (l_name y) str = false) l ->
  search_label_loop l str type ic_ dc_ = (l, 0).
Proof.
  induction l as [|y l IH]; intros Hl; [reflexivity|].
  inversion Hl as [|? ? Hy Hl']; subst.
  cbn [search_label_loop]. rewrite Hy, IH by assumption. reflexivity.
Qed.

Lemma search_entery_loop_extern l1 x l2 str cl t :
  Forall (fun y => strcmp_eq (l_name y) str = false) l1 ->
  Forall (fun y => strcmp_eq (l_name y) str = false) l2 ->
  strcmp_eq (l_name x) str = true -> l_en x = EXTERN ->
  search_entery_loop (l1 ++ x :: l2) str cl t
  = Returns (l1 ++ x :: l2, 0)
      (set_errortable t (errortable t ++ [entry_error cl])).
Proof.
  intros H1 H2 Hx Hen. revert t.
  induction l1 as [|y l1 IH]; intros t.
  - cbn [app search_entery_loop]. rewrite Hx, Hen.
    change (negb (EXTERN =? ENTRY) && negb (EXTERN =? EXTERN)) with false.
    cbv iota. unfold bind, add_error.
    rewrite search_entery_loop_absent by assumption. reflexivity.
  - inversion H1 as [|? ? Hy H1']; subst.
    cbn [app search_entery_loop]. rewrite Hy.
    unfold bind. rewrite IH by assumption. reflexivity.
Qed.

Lemma search_label_loop_entry l1 x l2 str :
  Forall (fun y => strcmp_eq (l_name y) str = false) l1 ->
  strcmp_eq (l_name x) str = true ->
  search_label_loop (l1 ++ x :: l2) str ENTRY 0 0 = (l1 ++ mark_entry x :: l2, 1).
Proof.
  intros H1 Hx. induction l1 as [|y l1 IH].
  - cbn [app search_label_loop]. rewrite Hx. reflexivity.
  - inversion H1 as [|? ? Hy H1']; subst.
    cbn [app search_label_loop]. rewrite Hy, IH by assumption. reflexivity.
Qed.

(** What the code does on [.entry X] when the table holds one symbol [X]
    and it is Extern: the diagnostic is recorded, and then, the flag of the
    loop being still 0, [add_label] is called and [search_label] turns the
    attribute of the symbol into Entry. *)
Lemma search_entery_and_update_extern l1 x l2 str cl t :
  labeltable t = l1 ++ x :: l2 ->
  Forall (fun y => strcmp_eq (l_name y) str = false) l1 ->
  Forall (fun y => strcmp_eq (l_name y) str = false) l2 ->
  strcmp_eq (l_name x) str = true -> l_en x = EXTERN ->
  search_entery_and_update str cl t
  = Returns 1
      (set_labeltable
         (set_errortable t (errortable t ++ [entry_error cl]))
         (l1 ++ mark_entry x :: l2)).
Proof.
  intros Ht H1 H2 Hx Hen.
  unfold search_entery_and_update, bind, get, put. rewrite Ht.
  rewrite search_entery_loop_extern by assumption.
  cbn [fst snd]. change (0 =? 0) with true. cbv iota.
  unfold add_label, bind, search_label. cbn [labeltable set_labeltable set_errortable].
  rewrite search_label_loop_entry by assumption. reflexivity.
Qed.

(** C8, at the input on which the code departs from it.  With [X] declared
    [.extern], the line [.entry X] records a diagnostic, as claimed, but
    does not leave the symbol table unchanged: [X] loses the Extern
    attribute and carries Entry. *)
Theorem entry_of_extern_changes_symbol :
  let X := {| l_name := cstr "X"; l_type := 0; l_index := 0; l_en := EXTERN |} in
  let t := set_labeltable initial_tables [X] in
  exists t',
    search_entery_and_update (cstr "X") 3 t = Returns 1 t' /\
    errortable t' = [entry_error 3] /\
    labeltable t' = [mark_entry X] /\
    labeltable t' <> labeltable t /\
    find_label (labeltable t') (cstr "X")
    = Some {| l_name := cstr "X"; l_type := 0; l_index := 0; l_en := ENTRY |}.
Proof.
  intros X t. eexists. split.
  - apply (search_entery_and_update_extern [] X [] (cstr "X") 3 t);
      [reflexivity | constructor | constructor | reflexivity | reflexivity].
  - repeat split; try reflexivity. cbn. intros [=].
Qed.

(** ** C9: the addressing-mode classifier *)

Lemma take_while_app_stop (p : ascii -> bool) (pre : cstring) c rest :
  forallb p pre = true -> p c = false ->
  take_while p (pre ++ c :: rest) = pre.
Proof.
  intros Hpre Hc. induction pre as [|x pre IH]; cbn.
  - rewrite Hc. reflexivity.
  - cbn in Hpre. apply andb_prop in Hpre as [Hx Hpre].
    rewrite Hx, IH by assumption. reflexivity.
Qed.

Lemma take_drop_while (p : ascii -> bool) (s : cstring) :
  s = take_while p s ++ drop_while p s.
Proof.
  induction s as [|x s IH]; cbn; [reflexivity|].
  destruct (p x); cbn; [f_equal; exact IH|reflexivity].
Qed.

Lemma take_while_all (p : ascii -> bool) (s : cstring) :
  forallb p (take_while p s) = true.
Proof.
  induction s as [|x s IH]; cbn; [reflexivity|].
  destruct (p x) eqn:E; cbn; [rewrite E, IH|]; reflexivity.
Qed.

Lemma drop_while_head (p : ascii -> bool) (s : cstring) c rest :
  drop_while p s = c :: rest -> p c = false.
Proof.
  induction s as [|x s IH]; cbn; [discriminate|].
  destruct (p x) eqn:E; [exact IH|].
  intros [= <- _]. exact E.
Qed.

Lemma register_digit_not_space d : is_register_digit d = true -> isspace d = false.
Proof.
  unfold is_register_digit, isspace. intros H.
  apply andb_prop in H as [H1 H2].
  apply Z.leb_le in H1. apply Z.leb_le in H2.
  apply orb_false_intro.
  - apply Z.eqb_neq. lia.
  - apply andb_false_intro2. apply Z.leb_gt. lia.
Qed.

Lemma skip_from_0 (p : ascii -> bool) (s : cstring) :
  skip_from p s 0 = length (take_while p s).
Proof. unfold skip_from. rewrite drop_0. reflexivity. Qed.

(** The classifier looks at two characters only: after any white space, an
    ['r'] and a digit 0-7 make a Register, whatever follows them. *)
Lemma which_type_operand_register_prefix (pre : cstring) d rest :
  forallb isspace pre = true -> is_register_digit d = true ->
  which_type_operand (Some (pre ++ "r"%char :: d :: rest)) = REGISTER.
Proof.
  intros Hpre Hd. unfold which_type_operand, only_spaces_and_tabs.
  rewrite forallb_app. cbn [forallb].
  change (isspace "r") with false. rewrite andb_false_r.
  rewrite skip_from_0.
  rewrite take_while_app_stop by (assumption || reflexivity).
  unfold nth_char.
  rewrite app_nth2 by lia. rewrite Nat.sub_diag. cbn [nth].
  change (ascii_eqb "r" "#") with false. cbv iota.
  change (ascii_eqb "r" "r") with true.
  rewrite app_nth2 by lia.
  replace (length pre + 1 - length pre)%nat with 1%nat by lia. cbn [nth].
  rewrite Hd. reflexivity.
Qed.

(** Conversely, only such strings are classified Register. *)
Lemma which_type_operand_register_only (s : cstring) :
  which_type_operand (Some s) = REGISTER ->
  exists pre d rest,
    s = pre ++ "r"%char :: d :: rest /\
    forallb isspace pre = true /\ is_register_digit d = true.
Proof.
  unfold which_type_operand. destruct (only_spaces_and_tabs s); [discriminate|].
  rewrite skip_from_0.
  pose proof (take_drop_while isspace s) as Hs.
  pose proof (take_while_all isspace s) as Hall.
  set (pre := take_while isspace s) in *.
  assert (Hnth : forall k, nth_char s (length pre + k) = nth_char (drop_while isspace s) k).
  { intros k. unfold nth_char. rewrite Hs at 1. rewrite app_nth2 by lia.
    f_equal. lia. }
  pose proof (Hnth 0%nat) as Hn0. rewrite Nat.add_0_r in Hn0.
  rewrite Hn0, Hnth.
  destruct (ascii_eqb (nth_char (drop_while isspace s) 0) "#"); [discriminate|].
  destruct (ascii_eqb (nth_char (drop_while isspace s) 0) "r") eqn:Er.
  2:{ cbn. destruct (is_matrix s =? 0); discriminate. }
  destruct (is_register_digit (nth_char (drop_while isspace s) 1)) eqn:Ed.
  2:{ cbn. destruct (is_matrix s =? 0); discriminate. }
  intros _.
  destruct (drop_while isspace s) as [|c [|d rest]] eqn:Edrop.
  - cbn in Er. discriminate.
  - cbn in Ed. discriminate.
  - cbn in Er, Ed. apply Ascii.eqb_eq in Er. subst c.
    exists pre, d, rest. rewrite Hs at 1. auto.
Qed.

(** C9, at the input on which the code departs from it.  The operand
    [r1x], a legal label name, is classified Register (11), not Direct (1):
    the classifier does not look at what follows the digit.  The first
    pass then accepts [mov r1x, r2] without a diagnostic and encodes it as
    [mov r1, r2]. *)
Theorem which_type_operand_ignores_suffix :
  which_type_operand (Some (cstr "r1x")) = REGISTER /\
  which_type_operand (Some (cstr "r1x")) <> DIRECT /\
  which_type_operand (Some (cstr "r1[r2][r3]")) = REGISTER /\
  instruction (cstr "mov r1x, r2") 0 initial_tables
  = instruction (cstr "mov r1, r2") 0 initial_tables /\
  exists t',
    instruction (cstr "mov r1x, r2") 0 initial_tables = Returns 1 t' /\
    errortable t' = [] /\
    take 2 (instable t')
    = [RECORD_TYPE_COMMAND MOV REGISTER REGISTER ABSOLUTE;
       RECORD_TYPE_REGISTER 1 2 ABSOLUTE].
Proof.
  split; [reflexivity|].
  split; [vm_compute; discriminate|].
  split; [reflexivity|].
  split; [vm_compute; reflexivity|].
  eexists. split; [vm_compute; reflexivity|].
  split; reflexivity.
Qed.

(** The part of C9 that the code does: the eight register names, alone or
    after white space, are Registers; a name that does not start with ['r']
    and a digit 0-7 is Direct, or Matrix when it holds a bracket. *)
Example which_type_operand_samples :
  map (fun s => which_type_operand (Some (cstr s)))
    ["r0"; "r7"; " r3"; "r8"; "x1"; "LOOP"; "M[r1][r2]"; "#-5"; " "]%string
  = [REGISTER; REGISTER; REGISTER; DIRECT; DIRECT; DIRECT; MATRIX; IMMEDIATE;
     NO_OPERAND].
Proof. reflexivity. Qed.

(** ** C10: width, alphabet and truncation of the encoder *)



(** Truncation at work: 300 does not fit in four digits and is written as
    44; the register and matrix mode codes 11 and 10 are written in one
    digit as 3 and 2. *)
Example int_to_special_base4_truncates :
  int_to_special_base4 300 4 = cstr "acda" /\
  int_to_special_base4 11 1 = cstr "d" /\
  int_to_special_base4 10 1 = cstr "c" /\
  int_to_special_base4 (- 1) 4 = cstr "dddd".
Proof. repeat split; reflexivity. Qed.

(** * Further properties *)

(** ** What a step of the first pass may change *)

Section Keeps.
Context (R : relation tables) `{!PreOrder R}.

Lemma keeps_ret {A} (a : A) : keeps R (ret a).
Proof. intros t r t' H. injection H as _ <-. reflexivity. Qed.

Lemma keeps_get : keeps R get.
Proof. intros t r t' H. injection H as _ <-. reflexivity. Qed.

Lemma keeps_exit {A} : keeps R (@exit_ A).
Proof. intros t r t' H. discriminate. Qed.

Lemma keeps_undefined {A} : keeps R (@undefined A).
Proof. intros t r t' H. discriminate. Qed.

Lemma keeps_bind {A B} (m : M A) (k : A -> M B) :
  keeps R m -> (forall a, keeps R (k a)) -> keeps R (bind m k).
Proof.
  intros Hm Hk t r t' H. unfold bind in H.
  destruct (m t) as [a t1| |] eqn:E; try discriminate.
  etrans; [eapply Hm | eapply Hk]; eassumption.
Qed.
End Keeps.

Section Steps.
Context (L : relation (list labelMemory)) `{!PreOrder L}.

Lemma step_refl t : first_pass_step L t t.
Proof. constructor; auto; try reflexivity; lia. Qed.

Lemma step_trans t1 t2 t3 :
  first_pass_step L t1 t2 -> first_pass_step L t2 t3 -> first_pass_step L t1 t3.
Proof.
  intros [e1 d1 i1 c1 n1 l1 x1 k1] [e2 d2 i2 c2 n2 l2 x2 k2].
  constructor.
  - etrans; eassumption.
  - etrans; eassumption.
  - lia.
  - intros i c Hi Hc. apply c2; [lia | auto].
  - lia.
  - etrans; eassumption.
  - congruence.
  - congruence.
Qed.

Lemma keeps_add_error cl msg : keeps (first_pass_step L) (add_error cl msg).
Proof.
  intros t r t' H. injection H as _ <-.
  constructor; cbn; auto; try reflexivity; try lia.
  eexists; reflexivity.
Qed.

Lemma keeps_add_data v : keeps (first_pass_step L) (add_data v).
Proof.
  intros t r t' H. injection H as _ <-.
  constructor; cbn; auto; try reflexivity; try lia.
  eexists; reflexivity.
Qed.

Lemma keeps_add_ins w : keeps (first_pass_step L) (add_ins w).
Proof.
  intros t r t' H. unfold add_ins in H.
  destruct ((0 <=? ic t) && _) eqn:E; try discriminate.
  injection H as _ <-.
  apply andb_prop in E as [E1 E2]. apply Z.leb_le in E1. apply Z.ltb_lt in E2.
  constructor; cbn; auto; try reflexivity; try lia.
  - intros i c Hi Hc.
    rewrite list_lookup_insert_ne by lia.
    destruct (Z.of_nat (length (instable t)) <=? ic t); auto.
    apply lookup_app_l_Some; auto.
  - rewrite length_insert.
    destruct (Z.of_nat (length (instable t)) <=? ic t); auto.
    rewrite length_app. lia.
Qed.
End Steps.

#[local] Instance first_pass_step_preorder (L : relation (list labelMemory))
  `{!PreOrder L} : PreOrder (first_pass_step L).
Proof. split; [intros t; apply step_refl; exact _ | intros t1 t2 t3; apply step_trans; exact _]. Qed.

Lemma second_pass_step_refl t : second_pass_step t t.
Proof.
  constructor; auto. exists []. split; [now rewrite app_nil_r | constructor].
Qed.

Lemma second_pass_step_trans t1 t2 t3 :
  second_pass_step t1 t2 -> second_pass_step t2 t3 -> second_pass_step t1 t3.
Proof.
  intros [e1 (k1 & x1 & d1) n1 l1 a1 i1] [e2 (k2 & x2 & d2) n2 l2 a2 i2].
  constructor; try congruence.
  - etrans; eassumption.
  - exists (k1 ++ k2). split.
    + rewrite x2, x1. now rewrite app_assoc.
    + apply Forall_app. split; [auto|]. now rewrite <- l1.
Qed.

#[local] Instance second_pass_step_preorder : PreOrder second_pass_step.
Proof.
  split; [intros t; apply second_pass_step_refl | intros t1 t2 t3; apply second_pass_step_trans].
Qed.

Lemma keeps2_add_error cl msg : keeps second_pass_step (add_error cl msg).
Proof.
  intros t r t' H. injection H as _ <-.
  constructor; cbn; auto.
  - eexists; reflexivity.
  - exists []. split; [now rewrite app_nil_r | constructor].
Qed.

Lemma keeps2_add_ic2 n : keeps second_pass_step (add_ic2 n).
Proof.
  intros t r t' H. injection H as _ <-.
  constructor; cbn; auto.
  exists []. split; [now rewrite app_nil_r | constructor].
Qed.

Lemma keeps2_write_cell i w : keeps second_pass_step (write_cell i w).
Proof.
  intros t r t' H. unfold write_cell in H.
  destruct (_ && _); [|discriminate]. injection H as _ <-.
  constructor; cbn; auto.
  - exists []. split; [now rewrite app_nil_r | constructor].
  - apply length_insert.
Qed.

Ltac step_go :=
    repeat first
      [ assumption
      | match goal with H : forall _, _ |- keeps _ _ => simple apply H end
      | apply keeps_ret | apply keeps_get | apply keeps_exit | apply keeps_undefined
      | apply keeps_add_error | apply keeps_add_data | apply keeps_add_ins
      | apply keeps2_add_error | apply keeps2_add_ic2 | apply keeps2_write_cell
      | apply keeps_bind; [ idtac .. | intros ? ]
      | match goal with
        | |- PreOrder _ => exact _
        | |- keeps _ (if ?c then _ else _) => destruct c
        | |- keeps _ (match ?x with _ => _ end) => destruct x
        end ].

Section FirstPassSteps.
Context (L : relation (list labelMemory)) `{!PreOrder L}.

Lemma keeps_is_valid_matrix str lc : keeps (first_pass_step L) (is_valid_matrix str lc).
Proof. unfold is_valid_matrix. step_go. Qed.

Lemma keeps_parse_ops ops lc : keeps (first_pass_step L) (parse_ops ops lc).
Proof. unfold parse_ops. step_go. Qed.

Lemma keeps_word str operand1 operand2 cl :
  keeps (first_pass_step L) (word str operand1 operand2 cl).
Proof.
  unfold word, OPERAND_2_CHECK, OPERAND_1_CHECK, OPERAND_0_CHECK, IMMEDIATE_IS_ERROR,
    SET_OPCODE_2_AND_TYPE2, SET_OPCODE_1_AND_TYPE1, SET_OPCODE_0_AND_TYPE0.
  step_go.
Qed.

Lemma keeps_update word1 word2 operand1 operand2 lc :
  keeps (first_pass_step L) (update word1 word2 operand1 operand2 lc).
Proof.
  pose proof keeps_is_valid_matrix.
  unfold update, atoi_ptr, SET_ADDRESS_AND_TYPE, SET_REGISTE_AND_TYPE.
  step_go.
Qed.

Lemma keeps_instruction str lc : keeps (first_pass_step L) (instruction str lc).
Proof.
  pose proof keeps_parse_ops. pose proof keeps_word. pose proof keeps_update.
  unfold instruction. step_go.
Qed.

Lemma keeps_is_conversion_successful str endptr val cl :
  keeps (first_pass_step L) (is_conversion_successful str endptr val cl).
Proof. unfold is_conversion_successful. step_go. Qed.

Lemma keeps_mat_fill_zeros fuel num total :
  keeps (first_pass_step L) (mat_fill_zeros fuel num total).
Proof. revert num. induction fuel; intros num; cbn [mat_fill_zeros]; step_go. Qed.

Lemma keeps_mat_pad_zeros fuel num total :
  keeps (first_pass_step L) (mat_pad_zeros fuel num total).
Proof. revert num. induction fuel; intros num; cbn [mat_pad_zeros]; step_go. Qed.

Lemma keeps_mat_values strs num total cl :
  keeps (first_pass_step L) (mat_values strs num total cl).
Proof.
  pose proof keeps_is_conversion_successful.
  revert num. induction strs; intros num; cbn [mat_values]; step_go.
Qed.

Lemma keeps_mat_after_values r total cl :
  keeps (first_pass_step L) (mat_after_values r total cl).
Proof.
  pose proof keeps_mat_pad_zeros.
  unfold mat_after_values. step_go.
Qed.

Lemma keeps_mat_update w cl : keeps (first_pass_step L) (mat_update w cl).
Proof.
  pose proof keeps_is_conversion_successful. pose proof keeps_mat_fill_zeros.
  pose proof keeps_mat_values. pose proof keeps_mat_after_values.
  unfold mat_update. step_go.
Qed.

Lemma keeps_is_valid_string str cl : keeps (first_pass_step L) (is_valid_string str cl).
Proof. unfold is_valid_string. step_go. Qed.

Lemma keeps_string_chars cs : keeps (first_pass_step L) (string_chars cs).
Proof. induction cs; cbn [string_chars]; step_go. Qed.

Lemma keeps_string_update w cl : keeps (first_pass_step L) (string_update w cl).
Proof.
  pose proof keeps_is_valid_string. pose proof keeps_string_chars.
  unfold string_update. step_go.
Qed.

Lemma keeps_data_values strs cl : keeps (first_pass_step L) (data_values strs cl).
Proof.
  pose proof keeps_is_conversion_successful.
  induction strs; cbn [data_values]; step_go.
Qed.

Lemma keeps_data_update w cl : keeps (first_pass_step L) (data_update w cl).
Proof. pose proof keeps_data_values. unfold data_update. step_go. Qed.

Lemma keeps_directive str cl : keeps (first_pass_step L) (directive str cl).
Proof.
  pose proof keeps_data_update. pose proof keeps_string_update.
  pose proof keeps_mat_update.
  unfold directive. step_go.
Qed.

Lemma keeps_which_type str cl check : keeps (first_pass_step L) (which_type str cl check).
Proof. unfold which_type. step_go. Qed.

Lemma keeps_valid_label_loop l str cl :
  keeps (first_pass_step L) (valid_label_loop l str cl).
Proof. induction l; cbn [valid_label_loop]; step_go. Qed.

Lemma keeps_valid_label str cl macros :
  keeps (first_pass_step L) (valid_label str cl macros).
Proof. pose proof keeps_valid_label_loop. unfold valid_label. step_go. Qed.
End FirstPassSteps.

(** ** The symbol table in the first pass *)

Lemma bind_returns {A B} (m : M A) (k : A -> M B) t r t' :
  bind m k t = Returns r t' ->
  exists a t1, m t = Returns a t1 /\ k a t1 = Returns r t'.
Proof.
  unfold bind. destruct (m t) as [a t1| |]; try discriminate. eauto.
Qed.

Lemma strcmp_eq_true a b : strcmp_eq a b = true <-> a = b.
Proof.
  revert b. induction a as [|x a IH]; intros [|y b]; cbn; split; try easy.
  - intros H. apply andb_prop in H as [H1 H2].
    apply Ascii.eqb_eq in H1. apply IH in H2. congruence.
  - intros [= -> ->]. apply andb_true_intro. split.
    + apply Ascii.eqb_refl.
    + now apply IH.
Qed.

#[local] Instance names_grow_preorder : PreOrder names_grow.
Proof.
  split.
  - intros l. split; [reflexivity | auto].
  - intros l1 l2 l3 [p1 n1] [p2 n2]. split; [etrans; eassumption | auto].
Qed.

Lemma names_grow_same l l' : symbol_names l' = symbol_names l -> names_grow l l'.
Proof. intros E. split; rewrite E; [reflexivity | auto]. Qed.

Lemma names_grow_fresh l x :
  ~ In (l_name x) (symbol_names l) -> names_grow l (l ++ [x]).
Proof.
  intros Hx. unfold names_grow, symbol_names. rewrite map_app. cbn. split.
  - eexists; reflexivity.
  - intros Hl. apply NoDup_app. split; [auto|]. split.
    + intros y Hy Hy'. apply list_elem_of_singleton in Hy'. subst y.
      apply Hx. now apply list_elem_of_In.
    + apply NoDup_singleton.
Qed.

Lemma search_label_loop_names l str type ic_ dc_ :
  symbol_names (fst (search_label_loop l str type ic_ dc_)) = symbol_names l.
Proof.
  unfold symbol_names.
  induction l as [|x l IH]; cbn; auto.
  destruct (strcmp_eq (l_name x) str); [destruct (type =? EXTERN); [reflexivity|];
    destruct (type =? ENTRY); [reflexivity|];
    destruct (((type =? INSTRUCTION) || (type =? DIRECTIVE)) && (l_en x =? ENTRY));
      [destruct (type =? DIRECTIVE); reflexivity|] |];
  destruct (search_label_loop l str type ic_ dc_) as [r found]; cbn in *; congruence.
Qed.

(** When [search_label] does not find the name, no entry of the name is
    one that it would have updated. *)
Lemma search_label_loop_not_found l str type ic_ dc_ :
  snd (search_label_loop l str type ic_ dc_) = 0 ->
  Forall (fun x => l_name x = str ->
            type <> EXTERN /\ type <> ENTRY
            /\ ((type = INSTRUCTION \/ type = DIRECTIVE) -> l_en x <> ENTRY)) l.
Proof.
  induction l as [|x l IH]; cbn; intros H; constructor.
  - intros Hn. apply strcmp_eq_true in Hn. rewrite Hn in H.
    destruct (type =? EXTERN) eqn:E1; [discriminate|].
    destruct (type =? ENTRY) eqn:E2; [discriminate|].
    apply Z.eqb_neq in E1, E2. split; [auto|]. split; [auto|].
    intros Ht He.
    assert (((type =? INSTRUCTION) || (type =? DIRECTIVE)) && (l_en x =? ENTRY) = true) as E3.
    { apply andb_true_intro. split.
      - destruct Ht as [-> | ->]; reflexivity.
      - now apply Z.eqb_eq. }
    rewrite E3 in H. destruct (type =? DIRECTIVE); discriminate.
  - apply IH.
    destruct (strcmp_eq (l_name x) str); [destruct (type =? EXTERN); [discriminate|];
      destruct (type =? ENTRY); [discriminate|];
      destruct (((type =? INSTRUCTION) || (type =? DIRECTIVE)) && (l_en x =? ENTRY));
        [destruct (type =? DIRECTIVE); discriminate|] |];
    destruct (search_label_loop l str type ic_ dc_) as [r found]; cbn in *; congruence.
Qed.

Lemma add_label_step str type ic_ dc_ t r t' :
  add_label str type ic_ dc_ t = Returns r t' ->
  type = INSTRUCTION \/ type = DIRECTIVE \/ type = EXTERN \/ type = ENTRY ->
  (type = INSTRUCTION \/ type = DIRECTIVE ->
   Forall (fun x => l_name x = str -> l_en x = ENTRY) (labeltable t)) ->
  first_pass_step names_grow t t'.
Proof.
  intros H Ht Hv. unfold add_label, bind, search_label in H.
  pose proof (search_label_loop_names (labeltable t) str type ic_ dc_) as Hn.
  pose proof (search_label_loop_not_found (labeltable t) str type ic_ dc_) as Hf.
  destruct (search_label_loop (labeltable t) str type ic_ dc_) as [l found].
  cbn [fst snd] in Hn, Hf.
  destruct (found =? 0) eqn:E.
  - apply Z.eqb_eq in E. specialize (Hf E).
    injection H as _ <-.
    constructor; cbn; auto; try reflexivity; try lia.
    etrans; [apply names_grow_same; eassumption|].
    apply names_grow_fresh. cbn [l_name]. rewrite Hn.
    intros Hin. apply in_map_iff in Hin as (x & Hx & Hin).
    rewrite Forall_forall in Hf.
    destruct (Hf x (proj2 (list_elem_of_In _ _) Hin) Hx) as (H1 & H2 & H3).
    assert (type = INSTRUCTION \/ type = DIRECTIVE) as Hid by (destruct Ht as [?|[?|[?|?]]]; auto; contradiction).
    apply (H3 Hid).
    specialize (Hv Hid). rewrite Forall_forall in Hv.
    apply (Hv x (proj2 (list_elem_of_In _ _) Hin) Hx).
  - injection H as _ <-.
    constructor; cbn; auto; try reflexivity; try lia.
    now apply names_grow_same.
Qed.

Lemma which_type_returns str cl check t r t' :
  which_type str cl check t = Returns r t' ->
  (r = - 1 \/ r = DIRECTIVE \/ r = INSTRUCTION \/ r = ENTRY \/ r = EXTERN)
  /\ (r <> - 1 -> t' = t)
  /\ (r = - 1 -> check = UPDATE \/ str = None ->
      t' = with_error t cl ": error! Unrecognized command name")
  /\ (r = - 1 -> check <> UPDATE -> str <> None -> t' = t).
Proof.
  unfold which_type. destruct str as [s|].
  - destruct (is_opcode s ".data" || is_opcode s ".string" || is_opcode s ".mat");
      [intros [= <- <-]; repeat split; auto; try easy|].
    destruct (is_instruction_name s); [intros [= <- <-]; repeat split; auto; try easy|].
    destruct (is_opcode s ".entry"); [intros [= <- <-]; repeat split; auto; try easy|].
    destruct (is_opcode s ".extern"); [intros [= <- <-]; repeat split; auto; try easy|].
    destruct (check =? UPDATE) eqn:E; intros [= <- <-].
    + split; [auto|]. split; [easy|]. split; [reflexivity|].
      apply Z.eqb_eq in E. intros _ Hc. contradiction.
    + split; [auto|]. split; [easy|]. apply Z.eqb_neq in E. split.
      * intros _ [Hc|Hc]; [contradiction|discriminate].
      * reflexivity.
  - intros [= <- <-]. split; [auto|]. split; [easy|]. split; [reflexivity|].
    intros _ _ Hc. contradiction.
Qed.

Lemma begin_of_name str : forallb is_name_char str = true -> begin_of_string str = 0.
Proof.
  unfold begin_of_string. destruct str as [|c str]; [reflexivity|].
  cbn. intros H. apply andb_prop in H as [H _].
  destruct (isspace c && _); [reflexivity|].
  assert (is_blank c = false) as ->; [|reflexivity].
  unfold is_name_char, isalnum, isalpha, isdigit, ascii_eqb in H.
  unfold is_blank, ascii_eqb, TAB.
  destruct (Ascii.eqb_spec c " ") as [->|_]; [discriminate|].
  destruct (Ascii.eqb_spec c "009") as [->|_]; [discriminate|]. reflexivity.
Qed.

Lemma valid_label_loop_returns l str cl t :
  (valid_label_loop l str cl t = Returns 1 t
   /\ Forall (fun x => l_name x = str -> unresolved_entry x) l)
  \/ ((exists msg, valid_label_loop l str cl t = Returns 0 (with_error t cl msg))
      /\ ~ Forall (fun x => l_name x = str -> unresolved_entry x) l).
Proof.
  induction l as [|x l IH]; cbn [valid_label_loop].
  - left. split; [reflexivity | constructor].
  - destruct (strcmp_eq (l_name x) str) eqn:E.
    + apply strcmp_eq_true in E.
      destruct (l_en x =? ENTRY) eqn:E1.
      * apply Z.eqb_eq in E1.
        destruct (negb (l_type x =? 0) || negb (l_index x =? 0)) eqn:E2.
        -- right. split; [eexists; reflexivity|].
           intros H. inversion H as [|? ? Hx _].
           destruct (Hx E) as (_ & Hty & Hix). rewrite Hty, Hix in E2. discriminate.
        -- apply orb_false_elim in E2 as [E2 E3].
           apply negb_false_iff, Z.eqb_eq in E2, E3.
           destruct IH as [[IH1 IH2]|[IH1 IH2]].
           ++ left. split; [auto|]. constructor; [|auto]. intros _. now split.
           ++ right. split; [auto|]. intros H. inversion H. auto.
      * apply Z.eqb_neq in E1.
        right. split.
        -- destruct (l_en x =? EXTERN); eexists; reflexivity.
        -- intros H. inversion H as [|? ? Hx _]. destruct (Hx E). contradiction.
    + assert (l_name x <> str) as Hne.
      { intros H. apply strcmp_eq_true in H. congruence. }
      destruct IH as [[IH1 IH2]|[IH1 IH2]].
      * left. split; [auto|]. constructor; [|auto]. intros. contradiction.
      * right. split; [auto|]. intros H. inversion H. auto.
Qed.

Lemma valid_label_returns str cl macros t :
  exists r t', valid_label str cl macros t = Returns r t'
  /\ ((r = 1 /\ t' = t /\ label_acceptable str macros (labeltable t))
      \/ (r = 0 /\ (exists msg, t' = with_error t cl msg)
          /\ ~ label_acceptable str macros (labeltable t))).
Proof.
  unfold valid_label, label_acceptable.
  destruct (forallb is_name_char str) eqn:Hchars.
  - rewrite (begin_of_name _ Hchars). change (Z.to_nat 0) with 0%nat.
    rewrite Z.sub_0_r.
    destruct (isdigit (nth_char str 0)) eqn:Hd.
    { eexists _, _. split; [reflexivity|]. right. split; [reflexivity|].
      split; [eexists; reflexivity|]. intros (_ & H & _). discriminate. }
    destruct (ascii_eqb (nth_char str 0) "_") eqn:Hu.
    { eexists _, _. split; [reflexivity|]. right. split; [reflexivity|].
      split; [eexists; reflexivity|]. intros (_ & _ & H & _).
      apply Ascii.eqb_eq in Hu. contradiction. }
    apply Ascii.eqb_neq in Hu. cbn [orb].
    destruct (Z.of_nat (length str) >? MAX_SIZE_LABEL) eqn:Hl.
    { eexists _, _. split; [reflexivity|]. right. split; [reflexivity|].
      split; [eexists; reflexivity|]. intros (_ & _ & _ & H & _).
      rewrite Z.gtb_ltb in Hl. apply Z.ltb_lt in Hl. unfold MAX_SIZE_LABEL in Hl. lia. }
    rewrite Z.gtb_ltb in Hl. apply Z.ltb_ge in Hl. unfold MAX_SIZE_LABEL in Hl.
    cbn [negb]. unfold bind, get.
    destruct (valid_label_loop_returns (labeltable t) str cl t) as [[E Hall]|[[msg E] Hall]];
      rewrite E.
    + cbn [Z.eqb Pos.eqb].
      destruct (is_reserved_word str =? 1) eqn:Hr.
      { eexists _, _. split; [reflexivity|]. right. split; [reflexivity|].
        split; [eexists; reflexivity|]. intros (_ & _ & _ & _ & H & _).
        rewrite H in Hr. discriminate. }
      unfold same_name_as_macro.
      destruct (find_macro_definition macros str) eqn:Hm; cbn [is_some Z.eqb Pos.eqb].
      { eexists _, _. split; [reflexivity|]. right. split; [reflexivity|].
        split; [eexists; reflexivity|]. intros (_ & _ & _ & _ & _ & H & _).
        discriminate. }
      eexists _, _. split; [reflexivity|].
      left. split; [reflexivity|]. split; [reflexivity|].
      split; [reflexivity|]. split; [auto|]. split; [auto|]. split; [lia|].
      split; [|auto].
      unfold is_reserved_word in *. destruct (existsb _ RESERVED_WORDS); [discriminate|reflexivity].
    + cbn [Z.eqb]. eexists _, _. split; [reflexivity|]. right. split; [reflexivity|].
      split; [eexists; reflexivity|]. intros (_ & _ & _ & _ & _ & _ & H). auto.
  - cbn [negb].
    assert (~ (false = true /\ isdigit (nth_char str 0) = false /\ nth_char str 0 <> "_"%char
            /\ (length str <= 30)%nat /\ is_reserved_word str = 0
            /\ find_macro_definition macros str = None
            /\ Forall (fun x => l_name x = str -> unresolved_entry x) (labeltable t))) as Hn.
    { intros (H & _). discriminate. }
    destruct (isdigit _ || _).
    { eexists _, _. split; [reflexivity|]. right. split; [reflexivity|].
      split; [eexists; reflexivity|]. exact Hn. }
    destruct (_ >? _).
    { eexists _, _. split; [reflexivity|]. right. split; [reflexivity|].
      split; [eexists; reflexivity|]. exact Hn. }
    eexists _, _. split; [reflexivity|]. right. split; [reflexivity|].
    split; [eexists; reflexivity|]. exact Hn.
Qed.

Lemma search_entery_loop_step l str cl t r t' :
  search_entery_loop l str cl t = Returns r t' ->
  symbol_names (fst r) = symbol_names l /\ first_pass_step eq t t'.
Proof.
  unfold symbol_names.
  revert t r t'. induction l as [|x l IH]; cbn [search_entery_loop]; intros t r t' H.
  - injection H as <- <-. split; [reflexivity | exact (step_refl _ _)].
  - destruct (strcmp_eq (l_name x) str).
    + destruct (negb (l_en x =? ENTRY) && negb (l_en x =? EXTERN)).
      * apply bind_returns in H as (r1 & t1 & H1 & H).
        injection H as <- <-. apply IH in H1 as [H1 H2].
        split; [cbn; congruence | auto].
      * apply bind_returns in H as (r0 & t0 & H0 & H).
        apply bind_returns in H as (r1 & t1 & H1 & H).
        injection H as <- <-. apply IH in H1 as [H1 H2].
        split; [cbn; congruence|].
        refine (step_trans _ _ _ _ (keeps_add_error eq _ _ _ _ _ H0) H2).
    + apply bind_returns in H as (r1 & t1 & H1 & H).
      injection H as <- <-. apply IH in H1 as [H1 H2].
      split; [cbn; congruence | auto].
Qed.

Lemma step_weaken (L : relation (list labelMemory)) `{!PreOrder L} t t' :
  first_pass_step eq t t' -> first_pass_step L t t'.
Proof.
  intros [e d i c n l x k]. constructor; auto. rewrite l. reflexivity.
Qed.

Lemma search_entery_and_update_step str cl t r t' :
  search_entery_and_update str cl t = Returns r t' ->
  first_pass_step names_grow t t'.
Proof.
  unfold search_entery_and_update. intros H.
  apply bind_returns in H as (t0 & t1 & H0 & H). injection H0 as <- <-.
  apply bind_returns in H as (r1 & t1 & H1 & H).
  apply bind_returns in H as (t2 & t3 & H2 & H). injection H2 as <- <-.
  apply bind_returns in H as (u & t3 & H3 & H). injection H3 as _ <-.
  apply search_entery_loop_step in H1 as [Hn Hs].
  assert (first_pass_step names_grow t (set_labeltable t1 (fst r1))) as Hstep.
  { destruct Hs as [e d i c n l x k].
    constructor; cbn; auto. apply names_grow_same. exact Hn. }
  destruct (snd r1 =? 0).
  - apply bind_returns in H as (r4 & t4 & H4 & H). injection H as _ <-.
    refine (step_trans _ _ _ _ Hstep _).
    eapply add_label_step; [exact H4 | auto |].
    intros [Hc|Hc]; discriminate.
  - injection H as _ <-. exact Hstep.
Qed.

Lemma first_pass_dispatch_step type strptr cl :
  keeps (first_pass_step names_grow) (first_pass_dispatch type strptr cl).
Proof.
  pose proof (keeps_directive names_grow) as Hd.
  pose proof (keeps_instruction names_grow) as Hi.
  unfold first_pass_dispatch.
  destruct (type =? DIRECTIVE); [step_go|].
  destruct (type =? INSTRUCTION); [step_go|].
  destruct (type =? EXTERN).
  { destruct (token (strtok (saved (strtok (saved (strtok strptr _)) _)) _)); [step_go|].
    destruct (token (strtok (saved (strtok strptr _)) _)); [|step_go].
    intros t r t' H. apply bind_returns in H as (r1 & t1 & H1 & H).
    injection H as _ <-.
    eapply add_label_step; [exact H1 | auto |]. intros [Hc|Hc]; discriminate. }
  destruct (type =? ENTRY); [|step_go].
  destruct (token (strtok (saved (strtok (saved (strtok strptr _)) _)) _)); [step_go|].
  destruct (token (strtok (saved (strtok strptr _)) _)); [|step_go].
  intros t r t' H. apply bind_returns in H as (r1 & t1 & H1 & H).
  injection H as _ <-.
  eapply search_entery_and_update_step; exact H1.
Qed.

(** Every call of [first_pass] that returns is a step that only adds to
    the tables and keeps the names of the symbols distinct. *)
Lemma first_pass_is_step str cl macros :
  keeps (first_pass_step names_grow) (first_pass str cl macros).
Proof.
  pose proof first_pass_dispatch_step as Hd.
  pose proof (keeps_which_type names_grow) as Hw.
  unfold first_pass.
  destruct (_ && _); [step_go|].
  destruct (token (strtok str _)) as [w1|] eqn:Ew1; [|step_go].
  destruct (negb _); [|step_go].
  intros t r t' H.
  apply bind_returns in H as (type & t1 & H1 & H).
  apply bind_returns in H as (valid & t2 & H2 & H).
  pose proof (Hw _ _ _ _ _ _ H1) as S1.
  apply which_type_returns in H1 as (Hty & _).
  destruct (valid_label_returns (take (length w1 - 1) w1) cl macros t1)
    as (v & tv & Ev & Hv).
  rewrite Ev in H2. injection H2 as <- <-.
  destruct Hv as [(-> & -> & Hacc)|(-> & [msg ->] & _)].
  - cbn [Z.eqb Pos.eqb orb] in H.
    destruct (type =? - 1) eqn:Em; [injection H as _ <-; exact S1|].
    apply Z.eqb_neq in Em.
    apply bind_returns in H as (r3 & t3 & H3 & H).
    apply bind_returns in H as (type' & t4 & H4 & H).
    assert (first_pass_step names_grow t1 t3) as S3.
    { destruct (negb (type =? EXTERN) && negb (type =? ENTRY)) eqn:Et.
      - apply bind_returns in H3 as (t0 & t1' & H0 & H3). injection H0 as <- <-.
        apply andb_prop in Et as [Et1 Et2].
        apply negb_true_iff, Z.eqb_neq in Et1, Et2.
        assert (type = INSTRUCTION \/ type = DIRECTIVE) as Hid.
        { destruct Hty as [?|[?|[?|[?|?]]]]; auto; contradiction. }
        eapply add_label_step; [exact H3 | tauto |].
        intros _. destruct Hacc as (_ & _ & _ & _ & _ & _ & Hall).
        eapply Forall_impl; [exact Hall|]. intros x Hx Hn. apply (Hx Hn).
      - injection H3 as _ <-. exact (step_refl _ _). }
    pose proof (Hw _ _ _ _ _ _ H4) as S4.
    assert (first_pass_step names_grow t4 t') as S5.
    { destruct (string_without_first_word str _); [|discriminate].
      destruct (strcmp_eq _ EXIT_C); [discriminate|].
      eapply Hd; exact H. }
    exact (step_trans _ _ _ _ S1 (step_trans _ _ _ _ S3 (step_trans _ _ _ _ S4 S5))).
  - cbn [Z.eqb orb] in H. injection H as _ <-.
    refine (step_trans _ _ _ _ S1 _).
    eapply (keeps_add_error names_grow cl msg t1 1). reflexivity.
Qed.

(** ** What a step of the second pass may change *)

Lemma keeps2_which_type str cl check : keeps second_pass_step (which_type str cl check).
Proof. unfold which_type. step_go. Qed.

Lemma find_label_name l s x : find_label l s = Some x -> l_name x = s.
Proof.
  induction l as [|y l IH]; cbn; [discriminate|].
  destruct (strcmp_eq (l_name y) s) eqn:E; [|auto].
  intros [= <-]. now apply strcmp_eq_true.
Qed.

Lemma keeps2_search_and_update str cl : keeps second_pass_step (search_and_update str cl).
Proof.
  intros t r t' H. unfold search_and_update in H.
  apply bind_returns in H as (t0 & t1 & H0 & H). injection H0 as <- <-.
  destruct str as [s|].
  - destruct (find_label (labeltable t) s) as [x|] eqn:Ef.
    + destruct (l_en x =? EXTERN) eqn:Ee.
      * apply Z.eqb_eq in Ee.
        apply bind_returns in H as (r1 & t1 & H1 & H).
        apply bind_returns in H as (r2 & t2 & H2 & H).
        injection H as _ <-. injection H2 as _ <-.
        apply keeps2_write_cell in H1 as [e (k & xk & dk) n l a i].
        constructor; cbn; auto.
        exists (k ++ [{| ex_name := s; ex_index := ic2 t + MEMORY_START |}]). split.
        -- rewrite xk. now rewrite app_assoc.
        -- apply Forall_app. split; [auto|]. constructor; [|constructor].
           exists x. split; [exact Ef | exact Ee].
      * refine ((_ : keeps second_pass_step _) _ _ _ H). step_go.
    + refine ((_ : keeps second_pass_step _) _ _ _ H). step_go.
  - refine ((_ : keeps second_pass_step _) _ _ _ H). step_go.
Qed.

Lemma keeps2_update_address_word2 word2 cl :
  keeps second_pass_step (update_address_word2 word2 cl).
Proof.
  pose proof keeps2_search_and_update.
  unfold update_address_word2. step_go.
Qed.

Lemma keeps2_instruction_uptade_address str cl :
  keeps second_pass_step (instruction_uptade_address str cl).
Proof.
  pose proof keeps2_search_and_update. pose proof keeps2_update_address_word2.
  unfold instruction_uptade_address. step_go.
Qed.

Lemma second_pass_is_step str cl : keeps second_pass_step (second_pass str cl).
Proof.
  pose proof keeps2_search_and_update. pose proof keeps2_instruction_uptade_address.
  pose proof keeps2_which_type.
  unfold second_pass. step_go.
Qed.

Lemma first_pass_loop_is_step command i macros :
  keeps (first_pass_step names_grow) (first_pass_loop command i macros).
Proof.
  pose proof first_pass_is_step.
  revert i. induction command; intros i; cbn [first_pass_loop]; step_go.
Qed.

Lemma second_pass_loop_is_step command i :
  keeps second_pass_step (second_pass_loop command i).
Proof.
  pose proof second_pass_is_step.
  revert i. induction command; intros i; cbn [second_pass_loop]; step_go.
Qed.

(** ** The first pass only adds to the tables *)

(** Closed statements on the room in computed tables. *)
Ltac in_capacity :=
  vm_compute;
  repeat match goal with
         | |- _ /\ _ => split
         | |- Forall _ [] => apply List.Forall_nil
         | |- Forall _ (_ :: _) => apply List.Forall_cons
         | |- _ = _ => reflexivity
         | |- _ -> False => discriminate
         end.

(** X1 (code.c, [first_pass]): whatever the line is, a call of [first_pass]
    that returns and leaves the tables within capacity (no table was
    enlarged, every name fits) has only added to the tables.  The
    diagnostics and the
    data words recorded before are still there, in the same order, followed
    by the new ones; the names of the symbols are the same, in the same
    order, followed by the new ones; IC has not decreased and no cell below
    the old IC has changed; the external uses and the counter of the second
    pass are untouched. *)
Theorem first_pass_only_adds str cl macros t r t' :
  first_pass str cl macros t = Returns r t' ->
  within_capacity t' ->
  errortable t `prefix_of` errortable t'
  /\ datatable t `prefix_of` datatable t'
  /\ symbol_names (labeltable t) `prefix_of` symbol_names (labeltable t')
  /\ ic t <= ic t'
  /\ (forall (i : nat) c,
        Z.of_nat i < ic t -> instable t !! i = Some c -> instable t' !! i = Some c)
  /\ extable t' = extable t
  /\ ic2 t' = ic2 t.
Proof.
  intros H _. apply first_pass_is_step in H as [e d i c n [l _] x k]. auto 10.
Qed.

Lemma first_pass_only_adds_witness :
  exists r t',
    first_pass (cstr "MAIN: mov #-1, r3") 0 [] initial_tables = Returns r t'
    /\ within_capacity t'
    /\ errortable initial_tables `prefix_of` errortable t'
    /\ datatable initial_tables `prefix_of` datatable t'
    /\ symbol_names (labeltable initial_tables) `prefix_of` symbol_names (labeltable t')
    /\ ic initial_tables <= ic t'
    /\ (forall (i : nat) c,
          Z.of_nat i < ic initial_tables ->
          instable initial_tables !! i = Some c -> instable t' !! i = Some c)
    /\ extable t' = extable initial_tables
    /\ ic2 t' = ic2 initial_tables.
Proof.
  eexists _, _. split; [vm_compute; reflexivity|].
  split; [in_capacity|].
  apply (first_pass_only_adds (cstr "MAIN: mov #-1, r3") 0 [] initial_tables 1);
    [vm_compute; reflexivity | in_capacity].
Defined.

(** X2 (code.c, [first_pass], [valid_label]; data.c, [add_label],
    [search_label]): the first pass keeps the names of the symbol table
    pairwise distinct, as long as it leaves the tables within capacity (the
    symbol table was not enlarged and every name, also the operand of an
    [.extern] or [.entry], has at most 30 characters).  A label is added only after [valid_label] has found
    no entry of its name other than an unresolved [.entry] one, which
    [search_label] then completes in place; [.extern] and [.entry] update
    the entry of the name when there is one. *)
Theorem first_pass_keeps_names_distinct str cl macros t r t' :
  NoDup (symbol_names (labeltable t)) ->
  first_pass str cl macros t = Returns r t' ->
  within_capacity t' ->
  NoDup (symbol_names (labeltable t')).
Proof.
  intros Hn H _. apply first_pass_is_step in H as [_ _ _ _ _ [_ l] _ _]. auto.
Qed.

Lemma first_pass_keeps_names_distinct_witness :
  exists r t',
    first_pass (cstr "END: stop") 7 [] (set_labeltable initial_tables relocation_sample)
    = Returns r t'
    /\ within_capacity t'
    /\ NoDup (symbol_names (labeltable t')).
Proof.
  eexists _, _. split; [vm_compute; reflexivity|].
  split; [in_capacity|].
  apply (first_pass_keeps_names_distinct (cstr "END: stop") 7 []
           (set_labeltable initial_tables relocation_sample) 1).
  - vm_compute.
    repeat (apply NoDup_cons_2;
            [ rewrite ?not_elem_of_cons; repeat split; try discriminate; apply not_elem_of_nil | ]).
    apply NoDup_nil_2.
  - vm_compute. reflexivity.
  - in_capacity.
Defined.

(** ** The names that can be labels *)

(** X3 (code.c, [valid_label]): [valid_label] always returns, and it
    accepts exactly the names that are made of letters, digits and
    underscores, do not start with a digit or an underscore, have at most 30
    characters, are neither a reserved word nor the name of a macro, and
    whose entries in the symbol table, if any, are all marked ENTRY with
    type 0 and index 0.  When it accepts, it returns 1 and leaves the tables
    as they are; otherwise it returns 0 and records one diagnostic, for the
    current line.  (The empty name is accepted; so is the name of a code
    symbol at address 0 once it has been marked ENTRY.) *)
Theorem valid_label_accepts_exactly str cl macros t :
  exists r t',
    valid_label str cl macros t = Returns r t'
    /\ ((r = 1 /\ t' = t /\ label_acceptable str macros (labeltable t))
        \/ (r = 0 /\ (exists msg, t' = with_error t cl msg)
            /\ ~ label_acceptable str macros (labeltable t))).
Proof. apply valid_label_returns. Qed.

(** ** The second pass only resolves *)

(** X4 (second_pass.c, [second_pass], [instruction_uptade_address],
    [search_and_update]): a call of [second_pass] that returns and leaves
    the tables within capacity (neither the diagnostics nor the external
    uses were enlarged) leaves the
    symbol table, the data image, IC and the number of cells of the
    instruction image as they were; the diagnostics recorded before are
    still there, in the same order, and so are the external uses. *)
Theorem second_pass_only_resolves str cl t r t' :
  second_pass str cl t = Returns r t' ->
  within_capacity t' ->
  labeltable t' = labeltable t
  /\ datatable t' = datatable t
  /\ ic t' = ic t
  /\ length (instable t') = length (instable t)
  /\ errortable t `prefix_of` errortable t'
  /\ extable t `prefix_of` extable t'.
Proof.
  intros H _. apply second_pass_is_step in H as [e (k & x & _) n l d i].
  repeat split; auto. exists k. exact x.
Qed.

Lemma second_pass_only_resolves_witness :
  exists r t',
    second_pass (cstr "MAIN: mov X, r3") 1 (after_first_pass extern_program)
    = Returns r t'
    /\ within_capacity t'
    /\ labeltable t' = labeltable (after_first_pass extern_program)
    /\ datatable t' = datatable (after_first_pass extern_program)
    /\ ic t' = ic (after_first_pass extern_program)
    /\ length (instable t') = length (instable (after_first_pass extern_program))
    /\ errortable (after_first_pass extern_program) `prefix_of` errortable t'
    /\ extable (after_first_pass extern_program) `prefix_of` extable t'.
Proof.
  eexists _, _. split; [vm_compute; reflexivity|].
  split; [in_capacity|].
  apply (second_pass_only_resolves (cstr "MAIN: mov X, r3") 1
           (after_first_pass extern_program) 1);
    [vm_compute; reflexivity | in_capacity].
Defined.

(** X5 (second_pass.c, [second_pass], [search_and_update]; data.c,
    [add_extern]): the second pass records an external use only for a name
    that the symbol table marks EXTERN.  When every use recorded so far
    names such a symbol, so does every use recorded after a line of the
    second pass that leaves the tables within capacity (the external uses
    were not enlarged and every name has at most 30 characters): the
    [.ext] file then lists no symbol that was not declared with
    [.extern]. *)
Theorem second_pass_uses_declared_externals str cl t r t' :
  Forall (declared_extern (labeltable t)) (extable t) ->
  second_pass str cl t = Returns r t' ->
  within_capacity t' ->
  Forall (declared_extern (labeltable t')) (extable t').
Proof.
  intros Hd H _. apply second_pass_is_step in H as [_ (k & x & Hk) _ l _ _].
  rewrite x, l. apply Forall_app. split; assumption.
Qed.

Lemma second_pass_uses_declared_externals_witness :
  exists r t',
    second_pass (cstr "MAIN: mov X, r3") 1 (after_first_pass extern_program)
    = Returns r t'
    /\ extable t' = [{| ex_name := cstr "X"; ex_index := 101 |}]
    /\ within_capacity t'
    /\ Forall (declared_extern (labeltable t')) (extable t').
Proof.
  eexists _, _. split; [vm_compute; reflexivity|].
  split; [vm_compute; reflexivity|].
  split; [in_capacity|].
  apply (second_pass_uses_declared_externals (cstr "MAIN: mov X, r3") 1
           (after_first_pass extern_program) 1).
  - apply List.Forall_nil.
  - vm_compute. reflexivity.
  - in_capacity.
Defined.

(** ** The two passes together *)

Lemma index_update_names l ic_ : symbol_names (index_update l ic_) = symbol_names l.
Proof.
  unfold symbol_names, index_update. rewrite map_map. apply map_ext.
  intros x. unfold index_update_label.
  destruct (l_type x =? DIRECTIVE); [reflexivity|].
  destruct (l_type x =? INSTRUCTION); reflexivity.
Qed.

(** X6 (code.c, [passes], with [first_pass] and [second_pass]): when
    [passes] returns and leaves the tables within capacity (no table was
    enlarged during the passes, every name fits), it returns 1, and the
    tables it leaves are built in two stages.  The first loop only adds to the tables and keeps the names
    of the symbols distinct; the symbol table, IC and the data image that
    [passes] leaves are those at the end of the first loop, the symbols
    relocated once by [index_update]: the second loop changes none of them.
    No diagnostic recorded before the call or during the first loop is
    lost, and every external use added names a symbol marked EXTERN. *)
Theorem passes_stages command macros t r t' :
  passes command macros t = Returns r t' ->
  within_capacity t' ->
  r = 1
  /\ exists t1,
       first_pass_loop command 0 macros (set_ic2 t 0) = Returns 1 t1
       /\ labeltable t' = index_update (labeltable t1) (ic t1)
       /\ ic t' = ic t1
       /\ datatable t' = datatable t1
       /\ datatable t `prefix_of` datatable t1
       /\ errortable t `prefix_of` errortable t1
       /\ errortable t1 `prefix_of` errortable t'
       /\ symbol_names (labeltable t) `prefix_of` symbol_names (labeltable t')
       /\ (NoDup (symbol_names (labeltable t)) -> NoDup (symbol_names (labeltable t')))
       /\ exists k, extable t' = extable t ++ k
                    /\ Forall (declared_extern (labeltable t')) k.
Proof.
  unfold passes. destruct command as [|line rest]; [discriminate|].
  set (command := line :: rest). clearbody command. intros H _.
  apply bind_returns in H as (t0 & t0' & H0 & H). injection H0 as <- <-.
  apply bind_returns in H as (u & t0' & H0 & H). injection H0 as _ <-.
  apply bind_returns in H as (r1 & t1 & H1 & H).
  apply bind_returns in H as (t1a & t1b & H0 & H). injection H0 as <- <-.
  apply bind_returns in H as (u' & t2 & H0 & H). injection H0 as _ <-.
  apply bind_returns in H as (r2 & t3 & H2 & H). injection H as <- <-.
  split; [reflexivity|].
  assert (r1 = 1) as ->.
  { clear -H1. revert H1. generalize 0 at 1. generalize (set_ic2 t 0).
    induction command as [|l c IH]; cbn [first_pass_loop]; intros t0 i H1.
    - now injection H1 as <- _.
    - apply bind_returns in H1 as (? & ? & _ & H1). eapply IH. exact H1. }
  exists t1. split; [exact H1|].
  apply first_pass_loop_is_step in H1 as [e d i c n [l1 l2] x k].
  apply second_pass_loop_is_step in H2 as [e2 (k2 & x2 & d2) n2 l' a2 i2].
  cbn in *.
  rewrite l'. rewrite index_update_names.
  repeat split; auto.
  exists k2. split; [congruence | exact d2].
Qed.

Lemma passes_stages_witness :
  exists r t',
    passes extern_program [] initial_tables = Returns r t'
    /\ within_capacity t'
    /\ r = 1
    /\ exists t1,
         first_pass_loop extern_program 0 [] (set_ic2 initial_tables 0) = Returns 1 t1
         /\ labeltable t' = index_update (labeltable t1) (ic t1)
         /\ ic t' = ic t1
         /\ datatable t' = datatable t1
         /\ datatable initial_tables `prefix_of` datatable t1
         /\ errortable initial_tables `prefix_of` errortable t1
         /\ errortable t1 `prefix_of` errortable t'
         /\ symbol_names (labeltable initial_tables) `prefix_of` symbol_names (labeltable t')
         /\ (NoDup (symbol_names (labeltable initial_tables)) ->
             NoDup (symbol_names (labeltable t')))
         /\ exists k, extable t' = extable initial_tables ++ k
                      /\ Forall (declared_extern (labeltable t')) k.
Proof.
  eexists _, _. split; [vm_compute; reflexivity|].
  split; [in_capacity|].
  apply (passes_stages extern_program [] initial_tables);
    [vm_compute; reflexivity | in_capacity].
Defined.

(** ** Lines that the second pass does not treat as the first pass does *)

Lemma instruction_name_cases w :
  is_instruction_name w = true ->
  In w (map cstr ["mov"; "cmp"; "add"; "sub"; "not"; "clr"; "lea"; "inc"; "dec"; "jmp";
                  "bne"; "red"; "prn"; "jsr"; "rts"; "stop"]%string).
Proof.
  unfold is_instruction_name. intros H.
  apply existsb_exists in H as (name & Hin & H).
  apply strcmp_eq_true in H. subst w. now apply in_map.
Qed.

Lemma which_type_instruction w cl check t :
  is_instruction_name w = true ->
  which_type (Some w) cl check t = Returns INSTRUCTION t /\ is_label (Some w) = 0.
Proof.
  intros H. apply instruction_name_cases in H. cbn [map In] in H.
  repeat (destruct H as [<-|H]; [split; reflexivity|]). contradiction.
Qed.

Lemma which_type_not_update w cl t :
  exists r, which_type (Some w) cl NOT_UPDATE t = Returns r t.
Proof.
  unfold which_type. repeat (destruct (_ : bool); [eexists; reflexivity|]).
  eexists; reflexivity.
Qed.

Lemma second_word_type (word2 : option cstring) cl t :
  exists r2, (if is_some word2 then which_type word2 cl NOT_UPDATE else ret 0) t
             = Returns r2 t.
Proof.
  destruct word2 as [w2|]; cbn [is_some].
  - apply which_type_not_update.
  - eexists; reflexivity.
Qed.

(** The second token of a line and what is left after its first word are
    there together. *)
Lemma second_token_none s delims :
  token (strtok (saved (strtok s delims)) delims) = None
  <-> string_without_first_word s delims = None.
Proof.
  unfold strtok, string_without_first_word.
  destruct (drop_while (is_delim delims) s) as [|c body] eqn:Eb; cbn [saved token].
  - cbn. tauto.
  - destruct (drop_while (fun c => negb (is_delim delims c)) (c :: body)) as [|d rest] eqn:Er;
      cbn [saved token].
    + cbn. tauto.
    + apply drop_while_head in Er. apply negb_false_iff in Er.
      cbn [drop_while]. rewrite Er.
      destruct (drop_while (is_delim delims) rest) as [|e rest'] eqn:E2.
      * tauto.
      * destruct (drop_while _ (e :: rest')); split; discriminate.
Qed.

Lemma words_for_nonneg m : 0 <= words_for m.
Proof.
  unfold words_for.
  destruct (m =? IMMEDIATE); [lia|]. destruct (m =? DIRECT); [lia|].
  destruct (m =? MATRIX); [lia|]. destruct (m =? REGISTER); lia.
Qed.

Lemma words_after_command m1 m2 :
  0 <= words_for m1 + (if m1 =? NO_OPERAND then 0 else words_for m2)
       - shared_register_adjustment m1 m2.
Proof.
  pose proof (words_for_nonneg m1). pose proof (words_for_nonneg m2).
  unfold shared_register_adjustment.
  destruct (m1 =? REGISTER) eqn:E1; cbn [andb].
  - apply Z.eqb_eq in E1. subst m1.
    change (words_for REGISTER) with 1 in *.
    change (REGISTER =? NO_OPERAND) with false. cbn iota.
    destruct (m2 =? REGISTER); lia.
  - destruct (m1 =? NO_OPERAND); lia.
Qed.

(** X7 (second_pass.c, [second_pass]; instruction.c, [instruction]): on a
    line whose first word is an instruction name and that has nothing after
    it ([stop], [rts]), [second_pass] returns 1 and leaves every table and
    its counter IC2 as they are, although [instruction], whenever it
    accepts a line without a diagnostic, has advanced IC by at least one
    word for it.  After such a line the counter of the second pass is
    behind the address of the next instruction. *)
Theorem second_pass_skips_line_without_operands str cl t w1 :
  token (strtok str (cstr " ," ++ [TAB])) = Some w1 ->
  is_instruction_name w1 = true ->
  string_without_first_word str [" "%char; TAB] = None ->
  second_pass str cl t = Returns 1 t
  /\ forall r t', instruction str cl t = Returns r t' ->
                  errortable t' = errortable t -> ic t + 1 <= ic t'.
Proof.
  intros Hw Hn Hrest. split.
  - unfold second_pass. rewrite Hw.
    destruct (which_type_instruction w1 cl NOT_UPDATE t Hn) as [E1 E2].
    unfold bind at 1. rewrite E1.
    destruct (second_word_type (token (strtok (saved (strtok str (cstr " ," ++ [TAB])))
                                          (cstr " ," ++ [TAB]))) cl t) as [r2 E].
    unfold bind at 1. rewrite E.
    change (INSTRUCTION =? - 1) with false. cbn iota.
    change (INSTRUCTION =? INSTRUCTION) with true. cbn iota.
    rewrite E2. change (negb (0 =? 0)) with false. cbn iota.
    rewrite Hrest. reflexivity.
  - intros r t' H He.
    destruct (instruction_word_count str cl t r t' w1 Hw Hn H He) as [_ ->].
    pose proof (words_after_command (fst (operand_modes str)) (snd (operand_modes str))).
    lia.
Qed.

Lemma second_pass_skips_line_without_operands_witness :
  second_pass (cstr "stop") 0 initial_tables = Returns 1 initial_tables
  /\ forall r t', instruction (cstr "stop") 0 initial_tables = Returns r t' ->
                  errortable t' = errortable initial_tables ->
                  ic initial_tables + 1 <= ic t'.
Proof.
  apply (second_pass_skips_line_without_operands (cstr "stop") 0 initial_tables (cstr "stop"));
    reflexivity.
Defined.

(** X8 (second_pass.c, [second_pass], [search_and_update]): a directive
    line that has no label is looked up as if it were an operand.  When the
    first word of the line is [.data], [.string] or [.mat], [second_pass]
    cuts its last character and searches the symbol table for what is left
    ([.dat], [.strin], [.ma]); when no symbol has that name and the table
    of diagnostics has a free entry, it records the diagnostic "Label name
    is not defined" for the line and returns 1. *)
Theorem second_pass_reports_directive_without_label str cl t w1 :
  token (strtok str (cstr " ," ++ [TAB])) = Some w1 ->
  w1 = cstr ".data" \/ w1 = cstr ".string" \/ w1 = cstr ".mat" ->
  find_label (labeltable t) (take (length w1 - 1) w1) = None ->
  ec t < MAX_SIZE_MEMORY ->
  second_pass str cl t
  = Returns 1 (with_error t cl ": error! Label name is not defined").
Proof.
  intros Hw Hn Hf _. unfold second_pass. rewrite Hw.
  assert (which_type (Some w1) cl NOT_UPDATE t = Returns DIRECTIVE t
          /\ is_label (Some w1) = 0) as [E1 E2].
  { destruct Hn as [Hn|[Hn|Hn]]; subst w1; split; reflexivity. }
  unfold bind at 1. rewrite E1.
  destruct (second_word_type (token (strtok (saved (strtok str (cstr " ," ++ [TAB])))
                                        (cstr " ," ++ [TAB]))) cl t) as [r2 E].
  unfold bind at 1. rewrite E.
  change (DIRECTIVE =? - 1) with false. cbn iota.
  change (DIRECTIVE =? INSTRUCTION) with false. cbn iota.
  change (DIRECTIVE =? DIRECTIVE) with true. rewrite E2.
  change ((0 =? 0)) with true. cbn [andb].
  unfold search_and_update, bind, get. rewrite Hf. reflexivity.
Qed.

Lemma second_pass_reports_directive_without_label_witness :
  second_pass (cstr ".data 5, -7") 3 (after_first_pass extern_program)
  = Returns 1 (with_error (after_first_pass extern_program) 3
                 ": error! Label name is not defined").
Proof.
  apply (second_pass_reports_directive_without_label (cstr ".data 5, -7") 3
           (after_first_pass extern_program) (cstr ".data")).
  - reflexivity.
  - left. reflexivity.
  - vm_compute. reflexivity.
  - vm_compute. reflexivity.
Defined.

Lemma which_type_label w cl t :
  is_label (Some w) = 1 -> which_type (Some w) cl NOT_UPDATE t = Returns (- 1) t.
Proof.
  intros Hl.
  assert (forall name, In name [".data"; ".string"; ".mat"; ".entry"; ".extern"]%string ->
                       is_opcode w name = false) as Hd.
  { intros name Hin. destruct (is_opcode w name) eqn:E; [|reflexivity].
    apply strcmp_eq_true in E. subst w. cbn [In] in Hin.
    repeat (destruct Hin as [<-|Hin]; [discriminate Hl|]). contradiction. }
  assert (is_instruction_name w = false) as Hi.
  { destruct (is_instruction_name w) eqn:E; [|reflexivity].
    apply which_type_instruction with (cl := cl) (check := NOT_UPDATE) (t := t) in E as [_ E].
    rewrite E in Hl. discriminate. }
  unfold which_type. rewrite Hi, !Hd by (cbn; tauto). reflexivity.
Qed.

(** X9 (second_pass.c, [second_pass]; code.c, [passes]): a line that holds
    a label and nothing else makes the second pass undefined.  Its first
    word ends with a colon, so it is no command name and the kind of the
    line stays at the initial value 0 of [type2], which is INSTRUCTION;
    [string_without_first_word] then returns [NULL] for the line, and the
    second call receives that [NULL] and reads through it.  [passes] runs
    the second loop whatever the first one reported, so it does not return
    on a file with such a line. *)
Theorem second_pass_undefined_on_lone_label str cl t w1 :
  token (strtok str (cstr " ," ++ [TAB])) = Some w1 ->
  is_label (Some w1) = 1 ->
  string_without_first_word str (cstr " ," ++ [TAB]) = None ->
  second_pass str cl t = Undefined.
Proof.
  intros Hw Hl Hrest. unfold second_pass. rewrite Hw.
  unfold bind at 1. rewrite (which_type_label w1 cl t Hl).
  apply second_token_none in Hrest. rewrite Hrest. cbn [is_some].
  unfold bind at 1. cbn [ret].
  change (- 1 =? - 1) with true. cbn iota.
  change (0 =? INSTRUCTION) with true. cbn iota.
  rewrite Hl. change (negb (1 =? 0)) with true. cbn iota.
  apply second_token_none in Hrest. rewrite Hrest. reflexivity.
Qed.

Lemma second_pass_undefined_on_lone_label_witness :
  second_pass (cstr "LOOP:") 0 initial_tables = Undefined
  /\ passes [cstr "LOOP:"] [] initial_tables = Undefined.
Proof.
  split.
  - apply (second_pass_undefined_on_lone_label (cstr "LOOP:") 0 initial_tables (cstr "LOOP:"));
      reflexivity.
  - vm_compute. reflexivity.
Defined.

(** ** The words that the second pass counts *)

Lemma search_and_update_ic2 str cl t r t' :
  search_and_update str cl t = Returns r t' -> ic2 t' = ic2 t.
Proof.
  unfold search_and_update, bind, get, write_cell, add_extern, add_error, ret.
  destruct str as [s|].
  - destruct (find_label (labeltable t) s) as [x|].
    + destruct (l_en x =? EXTERN); destruct (_ && _); intros [= _ <-] || discriminate;
        reflexivity.
    + intros [= _ <-]. reflexivity.
  - destruct (labeltable t); [|discriminate]. intros [= _ <-]. reflexivity.
Qed.

Lemma strtok_buffer_prefix s delims : exists rest, s = buffer (strtok s delims) ++ rest.
Proof.
  unfold strtok.
  destruct (drop_while (is_delim delims) s) as [|c body] eqn:Eb; cbn [buffer].
  - exists []. now rewrite app_nil_r.
  - destruct (drop_while (fun c => negb (is_delim delims c)) (c :: body)) as [|d rest] eqn:Er;
      cbn [buffer].
    + exists []. now rewrite app_nil_r.
    + exists (d :: rest). rewrite <- app_assoc, <- Er, <- take_drop_while, <- Eb.
      apply take_drop_while.
Qed.

(** Cutting an operand after its first token cannot turn it into a
    register: a register is recognised by the two characters that follow
    the leading blanks. *)
Lemma register_of_prefix (s rest : cstring) :
  which_type_operand (Some s) = REGISTER ->
  which_type_operand (Some (s ++ rest)) = REGISTER.
Proof.
  intros H. apply which_type_operand_register_only in H as (pre & d & tl & -> & Hp & Hd).
  rewrite <- app_assoc. cbn [app].
  now apply which_type_operand_register_prefix.
Qed.

Lemma matrix_buffer_not_register s delims :
  which_type_operand (Some s) = MATRIX ->
  (which_type_operand (Some (buffer (strtok s delims))) =? REGISTER) = false.
Proof.
  intros Hm. apply Z.eqb_neq. intros Hr.
  destruct (strtok_buffer_prefix s delims) as [rest E].
  apply register_of_prefix with (rest := rest) in Hr. rewrite <- E in Hr.
  rewrite Hm in Hr. discriminate.
Qed.

(** One operand of [instruction_uptade_address]: what it adds to IC2, and
    whether what it leaves of the operand is a register. *)
Lemma update_address_word2_count word2 cl t w t' :
  update_address_word2 word2 cl t = Returns w t' ->
  ic2 t' = ic2 t + words_in_second_pass word2
  /\ (which_type_operand w =? REGISTER) = (which_type_operand word2 =? REGISTER).
Proof.
  unfold update_address_word2, words_in_second_pass.
  destruct word2 as [w2|]; [|intros [= <- <-]; split; [lia|reflexivity]].
  destruct (which_type_operand (Some w2) =? MATRIX) eqn:Em.
  - intros H.
    apply bind_returns in H as (r1 & t1 & H1 & H).
    apply bind_returns in H as (r2 & t2 & H2 & H).
    injection H as <- <-. injection H2 as _ <-.
    apply search_and_update_ic2 in H1. cbn [ic2 set_ic2]. split; [lia|].
    apply Z.eqb_eq in Em. rewrite Em.
    now apply matrix_buffer_not_register.
  - destruct (which_type_operand (Some w2) =? DIRECT).
    + intros H.
      apply bind_returns in H as (r1 & t1 & H1 & H).
      apply bind_returns in H as (r2 & t2 & H2 & H).
      injection H as <- <-. injection H2 as _ <-.
      apply search_and_update_ic2 in H1. cbn [ic2 set_ic2]. split; [lia|reflexivity].
    + intros H.
      apply bind_returns in H as (r2 & t2 & H2 & H).
      injection H as <- <-. injection H2 as _ <-.
      cbn [ic2 set_ic2]. split; [lia|reflexivity].
Qed.

Lemma second_operand_needs_first str :
  fst (second_pass_operands str) = None -> snd (second_pass_operands str) = None.
Proof.
  unfold second_pass_operands, strtok. cbn [fst snd].
  destruct (drop_while (is_delim (cstr ",")) str) as [|c body]; cbn [token saved].
  - reflexivity.
  - destruct (drop_while _ (c :: body)); discriminate.
Qed.

(** The words that a call of [instruction_uptade_address] counts. *)
Lemma instruction_uptade_address_words str cl t r t' :
  instruction_uptade_address str cl t = Returns r t' ->
  ic2 t' = ic2 t + 1
           + words_in_second_pass (fst (second_pass_operands str))
           + words_in_second_pass (snd (second_pass_operands str))
           - shared_register_adjustment
               (which_type_operand (fst (second_pass_operands str)))
               (which_type_operand (snd (second_pass_operands str))).
Proof.
  pose proof (second_operand_needs_first str) as Hnone.
  unfold instruction_uptade_address.
  change ((fun w => truncate_at w (end_of_string w))
            <$> token (strtok str (cstr ","))) with (fst (second_pass_operands str)).
  change ((fun w => truncate_at w (end_of_string w))
            <$> token (strtok (saved (strtok str (cstr ","))) (cstr ",")))
    with (snd (second_pass_operands str)).
  set (word2 := snd (second_pass_operands str)) in *. clearbody word2.
  destruct (fst (second_pass_operands str)) as [w1|].
  2: { rewrite (Hnone eq_refl). intros H.
       apply bind_returns in H as (r0 & t0 & H0 & H). injection H0 as _ <-.
       cbn in H. injection H as _ <-. cbn. lia. }
  clear Hnone. intros H.
  apply bind_returns in H as (r0 & t0 & H0 & H). injection H0 as _ <-.
  apply bind_returns in H as (ws & t1 & H1 & H).
  assert (ic2 t1 = ic2 t + 1 + words_in_second_pass (Some w1)
                   + words_in_second_pass word2
          /\ (which_type_operand (fst ws) =? REGISTER)
             = (which_type_operand (Some w1) =? REGISTER)
          /\ (which_type_operand (snd ws) =? REGISTER)
             = (which_type_operand word2 =? REGISTER)) as (Hc & Hr1 & Hr2).
  { unfold words_in_second_pass at 1.
    destruct (which_type_operand (Some w1) =? MATRIX) eqn:Em; cbn [orb] in H1.
    - apply bind_returns in H1 as (w1' & t2 & H2 & H1).
      apply bind_returns in H1 as (w2' & t3 & H3 & H1). injection H1 as <- <-.
      apply bind_returns in H2 as (r1 & t4 & H4 & H2).
      apply bind_returns in H2 as (r2 & t5 & H5 & H2).
      injection H2 as <- <-. injection H5 as _ <-.
      apply search_and_update_ic2 in H4.
      apply update_address_word2_count in H3 as [H3 H3'].
      cbn [ic2 set_ic2 fst snd] in *. split; [lia|]. split; [|exact H3'].
      apply Z.eqb_eq in Em. rewrite Em.
      now apply matrix_buffer_not_register.
    - destruct (which_type_operand (Some w1) =? DIRECT) eqn:Ed.
      + apply bind_returns in H1 as (w1' & t2 & H2 & H1).
        apply bind_returns in H1 as (w2' & t3 & H3 & H1). injection H1 as <- <-.
        apply bind_returns in H2 as (r1 & t4 & H4 & H2).
        apply bind_returns in H2 as (r2 & t5 & H5 & H2).
        injection H2 as <- <-. injection H5 as _ <-.
        apply search_and_update_ic2 in H4.
        apply update_address_word2_count in H3 as [H3 H3'].
        cbn [ic2 set_ic2 fst snd] in *. split; [lia|]. split; [reflexivity|exact H3'].
      + apply bind_returns in H1 as (r1 & t2 & H2 & H1). injection H2 as _ <-.
        apply bind_returns in H1 as (w2' & t3 & H3 & H1). injection H1 as <- <-.
        apply update_address_word2_count in H3 as [H3 H3'].
        cbn [ic2 set_ic2 fst snd] in *. split; [lia|]. split; [reflexivity|exact H3']. }
  unfold shared_register_adjustment. rewrite <- Hr1, <- Hr2.
  destruct ((which_type_operand (fst ws) =? REGISTER)
            && (which_type_operand (snd ws) =? REGISTER)).
  - apply bind_returns in H as (r1 & t2 & H2 & H). injection H as _ <-.
    injection H2 as _ <-. cbn [ic2 set_ic2]. lia.
  - injection H as _ <-. lia.
Qed.

(** X10 (second_pass.c, [instruction_uptade_address]): the number of words
    that the second pass counts for the operands of an instruction.  When
    the call returns, IC2 has advanced by one word for the instruction, two
    words for each operand that is a matrix and one word for each other
    operand that is there, less one word when both operands are registers.
    An operand that is there but blank counts for one word, whereas the
    first pass emits none for it. *)
Theorem instruction_uptade_address_count str cl t r t' :
  instruction_uptade_address str cl t = Returns r t' ->
  ic2 t' = ic2 t + 1
           + words_in_second_pass (fst (second_pass_operands str))
           + words_in_second_pass (snd (second_pass_operands str))
           - shared_register_adjustment
               (which_type_operand (fst (second_pass_operands str)))
               (which_type_operand (snd (second_pass_operands str))).
Proof. apply instruction_uptade_address_words. Qed.

Lemma instruction_uptade_address_count_witness :
  exists r t',
    instruction_uptade_address (cstr "M[r1][r2], r3") 0 (after_first_pass extern_program)
    = Returns r t'
    /\ ic2 t' = ic2 (after_first_pass extern_program) + 1 + 2 + 1 - 0.
Proof.
  eexists _, _. split; [vm_compute; reflexivity|].
  apply (instruction_uptade_address_count (cstr "M[r1][r2], r3") 0
           (after_first_pass extern_program) 1).
  vm_compute. reflexivity.
Defined.

(** ** The data image of [.string] and [.data] *)

Lemma drop_while_app_stop (p : ascii -> bool) (pre : cstring) c rest :
  forallb p pre = true -> p c = false -> drop_while p (pre ++ c :: rest) = c :: rest.
Proof.
  induction pre as [|x pre IH]; cbn; intros Hp Hc.
  - now rewrite Hc.
  - apply andb_prop in Hp as [Hx Hp]. rewrite Hx. auto.
Qed.

Lemma blank_is_space c : is_blank c = true -> isspace c = true.
Proof.
  unfold is_blank, ascii_eqb. intros H. apply orb_prop in H as [H|H];
    apply Ascii.eqb_eq in H; subst c; reflexivity.
Qed.

(** Where a quoted string ends: at its closing quote, whatever blanks
    follow it. *)
Lemma end_of_quoted (s pad : cstring) :
  forallb is_blank pad = true ->
  end_of_string (s ++ QUOTE :: pad) = Z.of_nat (length s + 1).
Proof.
  intros Hp. unfold end_of_string.
  assert (only_spaces_and_tabs (s ++ QUOTE :: pad) = false) as ->.
  { unfold only_spaces_and_tabs. rewrite forallb_app. cbn.
    now rewrite andb_false_r. }
  rewrite rev_app_distr. cbn [rev]. rewrite <- app_assoc. cbn [app].
  rewrite drop_while_app_stop.
  - rewrite List.length_rev. cbn [length]. rewrite List.length_rev. f_equal. lia.
  - rewrite forallb_forall in *. intros x Hx. apply Hp. now apply in_rev.
  - reflexivity.
Qed.

Lemma code_unsigned c : to_unsigned (code c) = code c.
Proof.
  unfold to_unsigned. apply Z.mod_small.
  unfold code. pose proof (N_ascii_bounded c). lia.
Qed.

Lemma string_chars_appends cs t :
  string_chars cs t = Returns 1 (set_datatable t (datatable t ++ map code cs)).
Proof.
  revert t. induction cs as [|c cs IH]; intros t.
  - destruct t. cbn. unfold ret, set_datatable. cbn. now rewrite app_nil_r.
  - cbn [string_chars]. unfold bind, add_data. rewrite IH.
    destruct t. unfold set_datatable. cbn.
    rewrite <- app_assoc. cbn. now rewrite code_unsigned.
Qed.

(** X11 (directive.c, [string_update], [is_valid_string]): a string
    between double quotes whose characters are printable ASCII, the quotes
    followed by blanks or by nothing, is stored as the codes of its
    characters, in order, followed by one word 0; no diagnostic is
    recorded and nothing else changes.  (A double quote inside the string
    is a character like the others: only the first and the last character
    that is not blank are taken as the quotes.) *)
Theorem string_update_appends_characters body pad cl t :
  forallb (fun c => (32 <=? code c) && (code c <=? 126)) body = true ->
  forallb is_blank pad = true ->
  string_update (QUOTE :: body ++ QUOTE :: pad) cl t
  = Returns 1 (set_datatable t (datatable t ++ map code body ++ [0])).
Proof.
  intros Hb Hp. unfold string_update, is_valid_string.
  change (QUOTE :: body ++ QUOTE :: pad) with ((QUOTE :: body) ++ QUOTE :: pad).
  rewrite end_of_quoted by assumption.
  assert (begin_of_string ((QUOTE :: body) ++ QUOTE :: pad) = 0) as ->
    by reflexivity.
  rewrite Nat2Z.id. change (Z.to_nat 0) with 0%nat.
  cbn [length app]. replace (S (length body) + 1 - 1)%nat with (S (length body)) by lia.
  replace (S (length body) - (0 + 1))%nat with (length body) by lia.
  replace (S (length body) - 1)%nat with (length body) by lia.
  cbn [nth_char nth drop Nat.add].
  assert (nth (length body) (body ++ QUOTE :: pad) NUL = QUOTE) as Hq.
  { rewrite app_nth2 by lia. now rewrite Nat.sub_diag. }
  unfold nth_char. cbn [nth]. rewrite Hq.
  change (ascii_eqb QUOTE QUOTE) with true. cbn [negb orb].
  rewrite !drop_0, take_app_length.
  replace (S (length body + 1) - 1)%nat with (length (body ++ [QUOTE]))
    by (rewrite length_app; cbn; lia).
  change (body ++ QUOTE :: pad) with (body ++ [QUOTE] ++ pad).
  rewrite app_assoc, take_app_length.
  assert (existsb (fun c => (code c >? 126) || (code c <? 32)) (body ++ [QUOTE]) = false)
    as ->.
  { apply not_true_is_false. intros H. apply existsb_exists in H as (c & Hc & H).
    apply in_app_or in Hc as [Hc|[<-|[]]]; [|discriminate H].
    rewrite forallb_forall in Hb. specialize (Hb c Hc).
    apply andb_prop in Hb as [H1 H2]. apply Z.leb_le in H1, H2.
    apply orb_prop in H as [H|H].
    - rewrite Z.gtb_ltb in H. apply Z.ltb_lt in H. lia.
    - apply Z.ltb_lt in H. lia. }
  unfold bind at 1. cbn [ret]. change (1 =? 1) with true. cbn iota.
  unfold bind at 1. rewrite string_chars_appends.
  unfold bind, add_data, ret. destruct t. unfold set_datatable. cbn.
  now rewrite <- app_assoc.
Qed.

Lemma string_update_appends_characters_witness :
  string_update (QUOTE :: cstr "ab cd" ++ QUOTE :: cstr " ") 4 initial_tables
  = Returns 1 (set_datatable initial_tables
                 (datatable initial_tables ++ map code (cstr "ab cd") ++ [0])).
Proof.
  apply (string_update_appends_characters (cstr "ab cd") (cstr " ") 4 initial_tables);
    reflexivity.
Defined.

Lemma conversion_accepted str cl t :
  match accepted_value str with
  | Some val =>
      is_conversion_successful str (snd (strtol str)) (to_int (fst (strtol str))) cl t
      = Returns 1 t
      /\ val = to_int (fst (strtol str)) /\ MIN_VAL <= val <= MAX_VAL
  | None =>
      exists msg,
        is_conversion_successful str (snd (strtol str)) (to_int (fst (strtol str))) cl t
        = Returns 0 (with_error t cl msg)
  end.
Proof.
  unfold accepted_value, is_conversion_successful.
  destruct (strtol str) as [v endptr]. cbn [fst snd].
  destruct ((length endptr =? length str)%nat || negb (length endptr =? 0)%nat).
  - eexists. reflexivity.
  - destruct ((to_int v >? MAX_VAL) || (to_int v <? MIN_VAL)) eqn:E.
    + eexists. reflexivity.
    + apply orb_false_elim in E as [E1 E2].
      rewrite Z.gtb_ltb in E1. apply Z.ltb_ge in E1. apply Z.ltb_ge in E2.
      split; [reflexivity|]. split; [reflexivity|]. lia.
Qed.

Lemma data_values_step str rest cl t :
  data_values (str :: rest) cl t
  = (tmp <- is_conversion_successful str (snd (strtol str)) (to_int (fst (strtol str))) cl ;;
     if tmp =? 0 then ret 1
     else add_data (to_int (fst (strtol str))) ;;; data_values rest cl) t.
Proof. cbn [data_values]. destruct (strtol str). reflexivity. Qed.

(** X12 (directive.c, [data_update], [is_conversion_successful]): the loop
    of [.data] over the tokens of a line stores the values one after the
    other and stops at the first token that is refused (not a number, or a
    number outside -512..511).  It then records one diagnostic for the
    line; the values stored before it stay in the data image, and what
    follows the refused token is not read.  When every token is accepted,
    all the values are stored and nothing is recorded.  This holds as long
    as the data image has room for the values and the table of diagnostics
    has a free entry. *)
Theorem data_values_until_refused good vals cl t :
  Forall2 (fun str val => accepted_value str = Some val) good vals ->
  dc t + Z.of_nat (length vals) <= MAX_SIZE_MEMORY ->
  ec t < MAX_SIZE_MEMORY ->
  data_values good cl t
  = Returns 1 (set_datatable t (datatable t ++ map to_unsigned vals))
  /\ forall bad rest,
       accepted_value bad = None ->
       exists msg,
         data_values (good ++ bad :: rest) cl t
         = Returns 1 (with_error (set_datatable t (datatable t ++ map to_unsigned vals))
                        cl msg).
Proof.
  intros H _ _. revert t. induction H as [|str val good vals Hv _ IH]; intros t.
  - split.
    + destruct t. cbn. unfold ret, set_datatable. cbn. now rewrite app_nil_r.
    + intros bad rest Hb. cbn [app]. rewrite data_values_step.
      pose proof (conversion_accepted bad cl t) as Hc. rewrite Hb in Hc.
      destruct Hc as [msg Hc]. exists msg. unfold bind. rewrite Hc.
      destruct t. cbn. unfold ret, with_error, set_datatable, set_errortable. cbn.
      now rewrite app_nil_r.
  - pose proof (conversion_accepted str cl t) as Hc. rewrite Hv in Hc.
    destruct Hc as (Hc & -> & _).
    assert (forall l, data_values (str :: l) cl t
                      = data_values l cl
                          (set_datatable t
                             (datatable t ++ [to_unsigned (to_int (fst (strtol str)))])))
      as Hstep.
    { intros l. rewrite data_values_step. unfold bind at 1. rewrite Hc.
      reflexivity. }
    split.
    + rewrite Hstep. rewrite (proj1 (IH _)).
      destruct t. unfold set_datatable. cbn. now rewrite <- app_assoc.
    + intros bad rest Hb. cbn [app]. rewrite Hstep.
      destruct (proj2 (IH (set_datatable t
                             (datatable t ++ [to_unsigned (to_int (fst (strtol str)))])))
                  bad rest Hb) as [msg E].
      exists msg. rewrite E.
      destruct t. unfold with_error, set_datatable, set_errortable. cbn.
      now rewrite <- app_assoc.
Qed.

Lemma data_values_until_refused_witness :
  data_values [cstr "7"; cstr "-9"] 2 initial_tables
  = Returns 1 (set_datatable initial_tables
                 (datatable initial_tables ++ map to_unsigned [7; - 9]))
  /\ forall bad rest,
       accepted_value bad = None ->
       exists msg,
         data_values ([cstr "7"; cstr "-9"] ++ bad :: rest) 2 initial_tables
         = Returns 1 (with_error
                        (set_datatable initial_tables
                           (datatable initial_tables ++ map to_unsigned [7; - 9]))
                        2 msg).
Proof.
  apply (data_values_until_refused [cstr "7"; cstr "-9"] [7; - 9] 2 initial_tables).
  - repeat constructor.
  - vm_compute. discriminate.
  - vm_compute. reflexivity.
Defined.

(** ** The object file *)

Lemma to_int_to_unsigned z :
  - 2 ^ 31 <= z < 2 ^ 31 -> to_int (to_unsigned z) = z.
Proof.
  intros Hz. unfold to_int, to_unsigned.
  rewrite Zplus_mod_idemp_l. rewrite Z.mod_small by lia. lia.
Qed.

(** The encoder writes exactly [num_digits] letters of the alphabet,
    whatever the number is. *)
Lemma encoder_shape num num_digits :
  0 <= num_digits ->
  length (int_to_special_base4 num num_digits) = Z.to_nat num_digits
  /\ Forall in_alphabet (int_to_special_base4 num num_digits).
Proof.
  intros _. rewrite int_to_special_base4_numeral. split.
  - apply length_numeral.
  - apply numeral_alphabet.
Qed.

Lemma print_cell_shape c : length (print_cell c) = 5%nat /\ Forall in_alphabet (print_cell c).
Proof.
  destruct c; cbn [print_cell]; rewrite !int_to_special_base4_numeral;
    rewrite !length_app, !length_numeral, !Forall_app;
    (split; [reflexivity | repeat split; apply numeral_alphabet]).
Qed.

Lemma print_cells_lookup cells i (k : nat) line :
  print_cells cells i !! k = Some line ->
  exists c, cells !! k = Some c
            /\ line = int_to_special_base4 (i + Z.of_nat k + MEMORY_START) 4
                      ++ [TAB] ++ print_cell c.
Proof.
  revert i k. induction cells as [|c cells IH]; intros i k; cbn [print_cells].
  - discriminate.
  - destruct k as [|k]; cbn.
    + intros [= <-]. exists c. split; [reflexivity|]. now rewrite Z.add_0_r.
    + intros H. apply IH in H as (c' & Hc & ->). exists c'. split; [exact Hc|].
      do 2 f_equal. lia.
Qed.

Lemma print_data_lookup data i (k : nat) line :
  print_data data i !! k = Some line ->
  exists d, data !! k = Some d
            /\ line = int_to_special_base4 (i + Z.of_nat k + MEMORY_START) 4
                      ++ [TAB] ++ int_to_special_base4 (to_int d) 5.
Proof.
  revert i k. induction data as [|d data IH]; intros i k; cbn [print_data].
  - discriminate.
  - destruct k as [|k]; cbn.
    + intros [= <-]. exists d. split; [reflexivity|]. now rewrite Z.add_0_r.
    + intros H. apply IH in H as (d' & Hd & ->). exists d'. split; [exact Hd|].
      do 2 f_equal. lia.
Qed.

Lemma length_print_cells cells i : length (print_cells cells i) = length cells.
Proof. revert i. induction cells; intros i; cbn; auto. Qed.

Lemma length_print_data data i : length (print_data data i) = length data.
Proof. revert i. induction data; intros i; cbn; auto. Qed.

(** X13 (data.c, [print_object]; second_pass.c, [int_to_special_base4]):
    the shape of the object file.  When IC is within the cells allocated,
    [print_object] writes one header line and then IC + DC lines, whatever
    the cells and the data words hold: the line of rank [k] is the address
    100 + [k] in four letters, a tab, and a word of exactly five letters of
    the alphabet a, b, c, d.  The words of the instruction image come
    first, the data words follow at the addresses after them. *)
Theorem print_object_shape instable datatable ic_ :
  0 <= ic_ <= Z.of_nat (length instable) ->
  exists header body,
    print_object instable datatable ic_ = Some (header :: body)
    /\ length body = (Z.to_nat ic_ + length datatable)%nat
    /\ forall (k : nat) line,
         body !! k = Some line ->
         exists w,
           line = int_to_special_base4 (Z.of_nat k + MEMORY_START) 4 ++ [TAB] ++ w
           /\ length w = 5%nat
           /\ Forall in_alphabet w
           /\ ((k < Z.to_nat ic_)%nat ->
               exists c, instable !! k = Some c /\ w = print_cell c)
           /\ ((Z.to_nat ic_ <= k)%nat ->
               exists d, datatable !! (k - Z.to_nat ic_)%nat = Some d
                         /\ w = int_to_special_base4 (to_int d) 5).
Proof.
  intros Hic. unfold print_object.
  destruct (Z.of_nat (length instable) <? ic_) eqn:E; [apply Z.ltb_lt in E; lia|].
  eexists _, _. split; [reflexivity|].
  split.
  { rewrite length_app, length_print_cells, length_print_data, length_take. lia. }
  intros k line Hk.
  assert (length (print_cells (take (Z.to_nat ic_) instable) 0) = Z.to_nat ic_) as Hlen.
  { rewrite length_print_cells, length_take. lia. }
  destruct (decide (k < Z.to_nat ic_)%nat) as [Hlt|Hge].
  - rewrite lookup_app_l in Hk by lia.
    apply print_cells_lookup in Hk as (c & Hc & ->).
    rewrite lookup_take_lt in Hc by lia.
    exists (print_cell c). split; [reflexivity|].
    destruct (print_cell_shape c) as [H1 H2].
    split; [exact H1|]. split; [exact H2|]. split.
    + intros _. exists c. split; [exact Hc | reflexivity].
    + intros H. lia.
  - rewrite lookup_app_r in Hk by lia. rewrite Hlen in Hk.
    apply print_data_lookup in Hk as (d & Hd & ->).
    exists (int_to_special_base4 (to_int d) 5). split.
    + do 2 f_equal. lia.
    + destruct (encoder_shape (to_int d) 5 ltac:(lia)) as [H1 H2].
      split; [exact H1|]. split; [exact H2|]. split.
      * intros H. lia.
      * intros _. exists d. split; [exact Hd | reflexivity].
Qed.

Lemma print_object_shape_witness :
  exists header body,
    print_object [RECORD_TYPE_COMMAND STOP 0 0 ABSOLUTE] [5] 1 = Some (header :: body)
    /\ length body = (Z.to_nat 1 + length [5])%nat
    /\ forall (k : nat) line,
         body !! k = Some line ->
         exists w,
           line = int_to_special_base4 (Z.of_nat k + MEMORY_START) 4 ++ [TAB] ++ w
           /\ length w = 5%nat
           /\ Forall in_alphabet w
           /\ ((k < Z.to_nat 1)%nat ->
               exists c, [RECORD_TYPE_COMMAND STOP 0 0 ABSOLUTE] !! k = Some c
                         /\ w = print_cell c)
           /\ ((Z.to_nat 1 <= k)%nat ->
               exists d, [5] !! (k - Z.to_nat 1)%nat = Some d
                         /\ w = int_to_special_base4 (to_int d) 5).
Proof.
  apply (print_object_shape [RECORD_TYPE_COMMAND STOP 0 0 ABSOLUTE] [5] 1).
  cbn. lia.
Defined.

Lemma base4_value_leading_a s : base4_value ("a"%char :: s) = base4_value s.
Proof. reflexivity. Qed.

Lemma strip_leading_a_value s : base4_value (strip_leading_a s) = base4_value s.
Proof.
  unfold strip_leading_a. induction s as [|c s IH]; [reflexivity|].
  cbn [drop_while]. destruct (ascii_eqb c "a") eqn:E; [|reflexivity].
  apply Ascii.eqb_eq in E. subst c. rewrite IH. reflexivity.
Qed.

Lemma strip_leading_a_head s c rest : strip_leading_a s = c :: rest -> c <> "a"%char.
Proof.
  intros H. apply drop_while_head in H. intros ->. discriminate.
Qed.

(** A count printed in the header: the eight letters of the encoder
    without the leading [a]s. *)
Lemma header_count n :
  0 <= n < 4 ^ 8 ->
  base4_value (strip_leading_a (int_to_special_base4 n 8)) = n
  /\ (n = 0 -> strip_leading_a (int_to_special_base4 n 8) = [])
  /\ (forall c rest, strip_leading_a (int_to_special_base4 n 8) = c :: rest ->
                     c <> "a"%char).
Proof.
  intros Hn. split; [|split].
  - rewrite strip_leading_a_value, int_to_special_base4_numeral, base4_value_numeral.
    apply Z.mod_small. exact Hn.
  - intros ->. reflexivity.
  - apply strip_leading_a_head.
Qed.

(** X14 (data.c, [print_object]): the header of the object file.  The first
    line is a blank, IC, a blank and DC, each count written by the encoder
    on eight letters and then stripped of its leading [a]s.  For counts
    below 4^8 what is left reads back as the count and does not start with
    [a]; a count of 0 is written as the empty string, so the header of a
    file without data ends with a blank. *)
Theorem print_object_header instable datatable ic_ :
  0 <= ic_ <= Z.of_nat (length instable) ->
  ic_ < 4 ^ 8 ->
  Z.of_nat (length datatable) < 4 ^ 8 ->
  exists h1 h2 body,
    print_object instable datatable ic_
    = Some ((" "%char :: h1 ++ " "%char :: h2) :: body)
    /\ base4_value h1 = ic_
    /\ base4_value h2 = Z.of_nat (length datatable)
    /\ (ic_ = 0 -> h1 = [])
    /\ (datatable = [] -> h2 = [])
    /\ (forall c rest, h1 = c :: rest -> c <> "a"%char)
    /\ (forall c rest, h2 = c :: rest -> c <> "a"%char).
Proof.
  intros Hic Hi Hd. unfold print_object.
  destruct (Z.of_nat (length instable) <? ic_) eqn:E; [apply Z.ltb_lt in E; lia|].
  destruct (header_count ic_ ltac:(lia)) as (A1 & A2 & A3).
  destruct (header_count (Z.of_nat (length datatable)) ltac:(lia)) as (B1 & B2 & B3).
  eexists _, _, _. split; [reflexivity|].
  split; [exact A1|]. split; [exact B1|]. split; [exact A2|]. split; [|split; assumption].
  intros ->. reflexivity.
Qed.

Lemma print_object_header_witness :
  exists h1 h2 body,
    print_object [RECORD_TYPE_COMMAND STOP 0 0 ABSOLUTE] [] 1
    = Some ((" "%char :: h1 ++ " "%char :: h2) :: body)
    /\ base4_value h1 = 1
    /\ base4_value h2 = Z.of_nat (length (@nil Z))
    /\ (1 = 0 -> h1 = [])
    /\ (@nil Z = [] -> h2 = [])
    /\ (forall c rest, h1 = c :: rest -> c <> "a"%char)
    /\ (forall c rest, h2 = c :: rest -> c <> "a"%char).
Proof.
  apply (print_object_header [RECORD_TYPE_COMMAND STOP 0 0 ABSOLUTE] [] 1).
  - cbn. lia.
  - reflexivity.
  - reflexivity.
Defined.

(** X15 (directive.c, [is_conversion_successful]; data.c, [add_data],
    [print_object]): the range that [.data] and [.mat] accept is the range
    of the word they are printed on.  A value that is accepted lies in
    -512..511; [add_data] stores it as an [unsigned int], and the five
    letters that [print_object] writes for the stored word read back, as a
    two's-complement numeral of five base-4 digits, as the value itself. *)
Theorem data_word_reads_back str val i :
  accepted_value str = Some val ->
  MIN_VAL <= val <= MAX_VAL
  /\ exists w,
       print_data [to_unsigned val] i
       = [int_to_special_base4 (i + MEMORY_START) 4 ++ [TAB] ++ w]
       /\ length w = 5%nat
       /\ decode_twos_complement 5 w = val.
Proof.
  intros H. pose proof (conversion_accepted str 0 initial_tables) as Hc.
  rewrite H in Hc. destruct Hc as (_ & _ & Hr). split; [exact Hr|].
  unfold MIN_VAL, MAX_VAL in Hr.
  exists (int_to_special_base4 val 5). cbn [print_data].
  rewrite to_int_to_unsigned by lia. split; [reflexivity|].
  rewrite int_to_special_base4_numeral. split; [apply length_numeral|].
  unfold decode_twos_complement. rewrite base4_value_numeral.
  change (4 ^ Z.of_nat (Z.to_nat 5)) with 1024. change (4 ^ 5) with 1024.
  destruct (Z_lt_le_dec val 0) as [Hneg|Hpos].
  - assert (val mod 1024 = val + 1024) as ->
        by (symmetry; apply (Z.mod_unique _ _ (- 1)); lia).
    destruct (2 * (val + 1024) >=? 1024) eqn:E; [lia|].
    rewrite Z.geb_leb in E. apply Z.leb_gt in E. lia.
  - rewrite Z.mod_small by lia.
    destruct (2 * val >=? 1024) eqn:E; [|reflexivity].
    rewrite Z.geb_leb in E. apply Z.leb_le in E. lia.
Qed.

Lemma data_word_reads_back_witness :
  MIN_VAL <= - 7 <= MAX_VAL
  /\ exists w,
       print_data [to_unsigned (- 7)] 3
       = [int_to_special_base4 (3 + MEMORY_START) 4 ++ [TAB] ++ w]
       /\ length w = 5%nat
       /\ decode_twos_complement 5 w = - 7.
Proof.
  apply (data_word_reads_back (cstr "-7") (- 7) 3). reflexivity.
Defined.

(** ** Immediate operands *)

Lemma to_int_range z : - 2 ^ 31 <= to_int z < 2 ^ 31.
Proof.
  unfold to_int. pose proof (Z.mod_pos_bound (z + 2 ^ 31) (2 ^ 32) ltac:(lia)). lia.
Qed.

(** X16 (instruction.c, [update]; data.c, [print_object]): an immediate
    operand is not checked against the width of the word that holds it.
    Whatever integer follows the [#], [update] accepts it without a
    diagnostic and appends an Address word with the value, as an [int],
    tagged Absolute.  [print_object] writes the value on four letters, so
    two immediates whose values differ by a multiple of 256 are printed as
    the same word. *)
Theorem immediate_is_not_range_checked word1 word2 operand2 lc t p1 num :
  token (strtok word1 [" "%char; TAB; "r"%char; "#"%char]) = Some p1 ->
  strtol p1 = (num, []) ->
  0 <= ic t < Z.of_nat (length (instable t)) ->
  update word1 word2 IMMEDIATE operand2 lc t
  = Returns 1
      (set_instable t
         (<[Z.to_nat (ic t) := RECORD_TYPE_ADDRESS (to_unsigned (to_int num)) ABSOLUTE]>
            (instable t))
         (ic t + 1))
  /\ print_cell (RECORD_TYPE_ADDRESS (to_unsigned (to_int num)) ABSOLUTE)
     = int_to_special_base4 (to_int num mod 256) 4 ++ cstr "a".
Proof.
  intros Hp Hn Hic. split.
  - unfold update. rewrite Hp. change (IMMEDIATE =? IMMEDIATE) with true. cbn iota.
    rewrite Hn. unfold SET_ADDRESS_AND_TYPE, bind.
    rewrite add_ins_room by exact Hic. reflexivity.
  - cbn [print_cell]. rewrite to_int_to_unsigned by apply to_int_range.
    rewrite !int_to_special_base4_numeral.
    change (Z.to_nat 4) with 4%nat.
    rewrite <- (numeral_mod 4 (to_int num)). reflexivity.
Qed.

Lemma immediate_is_not_range_checked_witness :
  update (cstr "#1000") None IMMEDIATE 0 0 initial_tables
  = Returns 1
      (set_instable initial_tables
         (<[Z.to_nat (ic initial_tables)
            := RECORD_TYPE_ADDRESS (to_unsigned (to_int 1000)) ABSOLUTE]>
            (instable initial_tables))
         (ic initial_tables + 1))
  /\ print_cell (RECORD_TYPE_ADDRESS (to_unsigned (to_int 1000)) ABSOLUTE)
     = int_to_special_base4 (to_int 1000 mod 256) 4 ++ cstr "a".
Proof.
  apply (immediate_is_not_range_checked (cstr "#1000") None 0 0 initial_tables
           (cstr "1000") 1000).
  - reflexivity.
  - reflexivity.
  - vm_compute. split; [discriminate | reflexivity].
Defined.

(** ** Symbols: definition, lookup and export *)

Lemma find_label_app_absent l1 l2 s :
  find_label l1 s = None -> find_label (l1 ++ l2) s = find_label l2 s.
Proof.
  induction l1 as [|x l1 IH]; cbn; [reflexivity|].
  destruct (strcmp_eq (l_name x) s); [discriminate | exact IH].
Qed.

Lemma find_label_app_other l x s :
  l_name x <> s -> find_label (l ++ [x]) s = find_label l s.
Proof.
  intros Hne. induction l as [|y l IH]; cbn.
  - destruct (strcmp_eq (l_name x) s) eqn:E; [|reflexivity].
    apply strcmp_eq_true in E. contradiction.
  - destruct (strcmp_eq (l_name y) s); [reflexivity | exact IH].
Qed.

Lemma find_label_absent l s :
  find_label l s = None -> Forall (fun y => strcmp_eq (l_name y) s = false) l.
Proof.
  induction l as [|x l IH]; cbn; [constructor|].
  destruct (strcmp_eq (l_name x) s) eqn:E; [discriminate|]. constructor; auto.
Qed.

(** X17 (data.c, [add_label], [search_label]; code.c, [first_pass]): the
    definition of a label and its lookup.  When the symbol table has no
    entry of the name, the name has at most 30 characters (it fits the
    field that [strcpy] fills) and the table has a free entry among those
    that [calloc] zeroed, [add_label] for a line of code records the name with
    the current IC, for a directive with the current DC, for [.extern] and
    [.entry] with type 0 and address 0 and the attribute; the lookup of the
    name then finds that entry, and the lookup of any other name finds what
    it found before. *)
Theorem add_label_then_find str type ic_ dc_ t :
  find_label (labeltable t) str = None ->
  Z.of_nat (length str) <= MAX_SIZE_LABEL ->
  lac t < MAX_SIZE_MEMORY ->
  exists t',
    add_label str type ic_ dc_ t = Returns 1 t'
    /\ find_label (labeltable t') str
       = Some {| l_name := str;
                 l_type := if type =? INSTRUCTION then type
                           else if type =? DIRECTIVE then type else 0;
                 l_index := if type =? INSTRUCTION then ic_
                            else if type =? DIRECTIVE then dc_ else 0;
                 l_en := if type =? ENTRY then ENTRY
                         else if type =? EXTERN then EXTERN else 0 |}
    /\ (forall s, s <> str -> find_label (labeltable t') s = find_label (labeltable t) s)
    /\ errortable t' = errortable t /\ datatable t' = datatable t
    /\ instable t' = instable t /\ ic t' = ic t.
Proof.
  intros Hf _ _. unfold add_label, bind, search_label.
  rewrite (search_label_loop_absent _ _ _ _ _ (find_label_absent _ _ Hf)).
  change (0 =? 0) with true. cbn iota.
  eexists. split; [reflexivity|]. cbn [labeltable set_labeltable].
  split.
  - rewrite find_label_app_absent by (destruct t; exact Hf).
    cbn. destruct t; cbn in *.
    assert (strcmp_eq str str = true) as -> by now apply strcmp_eq_true.
    reflexivity.
  - split.
    + intros s Hs. destruct t; cbn in *. apply find_label_app_other. cbn. congruence.
    + destruct t; cbn. repeat split; reflexivity.
Qed.

Lemma add_label_then_find_witness :
  exists t',
    add_label (cstr "LOOP") INSTRUCTION 3 5 initial_tables = Returns 1 t'
    /\ find_label (labeltable t') (cstr "LOOP")
       = Some {| l_name := cstr "LOOP";
                 l_type := if INSTRUCTION =? INSTRUCTION then INSTRUCTION
                           else if INSTRUCTION =? DIRECTIVE then INSTRUCTION else 0;
                 l_index := if INSTRUCTION =? INSTRUCTION then 3
                            else if INSTRUCTION =? DIRECTIVE then 5 else 0;
                 l_en := if INSTRUCTION =? ENTRY then ENTRY
                         else if INSTRUCTION =? EXTERN then EXTERN else 0 |}
    /\ (forall s, s <> cstr "LOOP" ->
                  find_label (labeltable t') s = find_label (labeltable initial_tables) s)
    /\ errortable t' = errortable initial_tables
    /\ datatable t' = datatable initial_tables
    /\ instable t' = instable initial_tables /\ ic t' = ic initial_tables.
Proof.
  apply (add_label_then_find (cstr "LOOP") INSTRUCTION 3 5 initial_tables).
  - reflexivity.
  - vm_compute. discriminate.
  - vm_compute. reflexivity.
Defined.

Lemma print_entry_app l1 l2 : print_entry (l1 ++ l2) = print_entry l1 ++ print_entry l2.
Proof. unfold print_entry. now rewrite filter_app, map_app. Qed.

(** X18 (code.c, [search_entery_and_update], [first_pass]; second_pass.c,
    [index_update], [second_pass]; data.c, [print_entry]): an [.entry] of a
    name that is never defined is not diagnosed.  For a name of at most 30
    characters and a symbol table with a free entry, in the first pass the
    name is appended to the symbol table with type 0, address 0 and the
    attribute ENTRY, and no diagnostic is recorded; [index_update] takes
    type 0 for code and moves the address to 100; [second_pass] returns 1 on
    a line whose first word is [.entry] without looking at its operand; and
    [print_entry] lists the name at address 100 ([bcba]). *)
Theorem undefined_entry_is_exported str cl t ic_ :
  find_label (labeltable t) str = None ->
  Z.of_nat (length str) <= MAX_SIZE_LABEL ->
  lac t < MAX_SIZE_MEMORY ->
  (exists t',
     search_entery_and_update str cl t = Returns 1 t'
     /\ errortable t' = errortable t
     /\ labeltable t'
        = labeltable t ++ [{| l_name := str; l_type := 0; l_index := 0; l_en := ENTRY |}]
     /\ In (str ++ [TAB] ++ cstr "bcba") (print_entry (index_update (labeltable t') ic_)))
  /\ (forall line cl2 t2,
        token (strtok line (cstr " ," ++ [TAB])) = Some (cstr ".entry") ->
        second_pass line cl2 t2 = Returns 1 t2).
Proof.
  intros Hf _ _. split.
  - unfold search_entery_and_update, bind, get, put.
    rewrite (search_entery_loop_absent _ _ _ _ (find_label_absent _ _ Hf)).
    cbn [fst snd]. change (0 =? 0) with true. cbn iota.
    unfold add_label, bind, search_label. cbn [labeltable set_labeltable].
    rewrite (search_label_loop_absent _ _ _ _ _ (find_label_absent _ _ Hf)).
    change (0 =? 0) with true. cbn iota.
    eexists. split; [reflexivity|]. cbn [labeltable set_labeltable errortable].
    split; [reflexivity|]. split; [reflexivity|].
    unfold index_update. rewrite map_app, print_entry_app.
    apply in_or_app. right. left. reflexivity.
  - intros line cl2 t2 Hw. unfold second_pass. rewrite Hw.
    unfold bind at 1. change (which_type (Some (cstr ".entry")) cl2 NOT_UPDATE t2)
      with (Returns ENTRY t2).
    destruct (second_word_type (token (strtok (saved (strtok line (cstr " ," ++ [TAB])))
                                          (cstr " ," ++ [TAB]))) cl2 t2) as [r2 E].
    unfold bind at 1. rewrite E. reflexivity.
Qed.

Lemma undefined_entry_is_exported_witness :
  (exists t',
     search_entery_and_update (cstr "NOWHERE") 0 initial_tables = Returns 1 t'
     /\ errortable t' = errortable initial_tables
     /\ labeltable t'
        = labeltable initial_tables
          ++ [{| l_name := cstr "NOWHERE"; l_type := 0; l_index := 0; l_en := ENTRY |}]
     /\ In (cstr "NOWHERE" ++ [TAB] ++ cstr "bcba")
          (print_entry (index_update (labeltable t') 0)))
  /\ (forall line cl2 t2,
        token (strtok line (cstr " ," ++ [TAB])) = Some (cstr ".entry") ->
        second_pass line cl2 t2 = Returns 1 t2).
Proof.
  apply (undefined_entry_is_exported (cstr "NOWHERE") 0 initial_tables 0).
  - reflexivity.
  - vm_compute. discriminate.
  - vm_compute. reflexivity.
Defined.

(** ** Names that are reserved *)

Lemma register_names_reserved d :
  is_register_digit d = true -> is_reserved_word ["r"%char; d] = 1.
Proof.
  unfold is_register_digit. intros H. apply andb_prop in H as [H1 H2].
  apply Z.leb_le in H1, H2.
  destruct d as [[] [] [] [] [] [] [] []]; vm_compute in H1, H2;
    try (exfalso; apply H1; reflexivity); try (exfalso; apply H2; reflexivity);
    reflexivity.
Qed.

(** X19 (code.c, [which_type], [valid_label]; pre_assembler.c,
    [is_reserved_word]): the words that [which_type] takes for an
    instruction, a directive, [.entry] or [.extern] are all in the table of
    reserved words, and so are the names [r0] to [r7] of the registers;
    [valid_label] therefore refuses each of them as a label, with one
    diagnostic, whatever the symbol table and the macros are. *)
Theorem command_names_are_not_labels s cl check t r t' :
  which_type (Some s) cl check t = Returns r t' ->
  r <> - 1 ->
  is_reserved_word s = 1
  /\ (forall d, is_register_digit d = true -> is_reserved_word ["r"%char; d] = 1)
  /\ forall cl' macros t0,
       exists msg, valid_label s cl' macros t0 = Returns 0 (with_error t0 cl' msg).
Proof.
  intros H Hr.
  assert (is_reserved_word s = 1) as Hres.
  { unfold which_type in H.
    assert (forall name, In name RESERVED_WORDS -> is_opcode s name = true ->
                         is_reserved_word s = 1) as Hin.
    { intros name Hn Ho. unfold is_reserved_word.
      assert (existsb (fun w => strcmp_eq s (cstr w)) RESERVED_WORDS = true) as ->;
        [|reflexivity].
      apply existsb_exists. exists name. split; assumption. }
    destruct (is_opcode s ".data") eqn:E1; [apply (Hin ".data"%string ltac:(cbn; tauto) E1)|].
    destruct (is_opcode s ".string") eqn:E2; [apply (Hin ".string"%string ltac:(cbn; tauto) E2)|].
    destruct (is_opcode s ".mat") eqn:E3; [apply (Hin ".mat"%string ltac:(cbn; tauto) E3)|].
    cbn [orb] in H.
    destruct (is_instruction_name s) eqn:E4.
    { apply instruction_name_cases in E4. cbn [map In] in E4.
      repeat (destruct E4 as [<-|E4]; [reflexivity|]). contradiction. }
    destruct (is_opcode s ".entry") eqn:E5; [apply (Hin ".entry"%string ltac:(cbn; tauto) E5)|].
    destruct (is_opcode s ".extern") eqn:E6; [apply (Hin ".extern"%string ltac:(cbn; tauto) E6)|].
    destruct (check =? UPDATE); injection H as <- _; contradiction. }
  split; [exact Hres|]. split; [exact register_names_reserved|].
  intros cl' macros t0.
  destruct (valid_label_returns s cl' macros t0) as (v & tv & Ev & Hv).
  destruct Hv as [(_ & _ & Hacc)|(-> & [msg ->] & _)].
  - destruct Hacc as (_ & _ & _ & _ & Hn & _). rewrite Hres in Hn. discriminate.
  - exists msg. exact Ev.
Qed.

Lemma command_names_are_not_labels_witness :
  is_reserved_word (cstr "stop") = 1
  /\ (forall d, is_register_digit d = true -> is_reserved_word ["r"%char; d] = 1)
  /\ forall cl' macros t0,
       exists msg,
         valid_label (cstr "stop") cl' macros t0 = Returns 0 (with_error t0 cl' msg).
Proof.
  apply (command_names_are_not_labels (cstr "stop") 0 UPDATE initial_tables
           INSTRUCTION initial_tables).
  - reflexivity.
  - discriminate.
Defined.

(** ** The tokens of the pre-assembler *)

Lemma not_token_char c :
  is_token_char c = false -> ascii_eqb c ":" = false -> isspace c = true.
Proof.
  unfold is_token_char. intros H Hc. rewrite Hc in H. cbn in H.
  rewrite andb_true_r in H. now apply negb_false_iff in H.
Qed.

Lemma length_drop_while (p : ascii -> bool) (s : cstring) :
  (length (drop_while p s) <= length s)%nat.
Proof. induction s as [|c s IH]; cbn; [lia|]. destruct (p c); cbn; lia. Qed.

(** What [get_next_token] returns, by cases. *)
Lemma get_next_token_cases line :
  match get_next_token line with
  | (Some tok, rest) =>
      forallb is_token_char tok = true
      /\ ~ In ":"%char tok
      /\ (length rest < length line)%nat
      /\ forallb isspace line = false
  | (None, rest) => rest = [] /\ forallb isspace line = true
  end.
Proof.
  unfold get_next_token.
  pose proof (take_drop_while isspace line) as Hline.
  pose proof (take_while_all isspace line) as Hlead.
  pose proof (length_drop_while isspace line) as Hlen.
  destruct (drop_while isspace line) as [|c start] eqn:Es.
  - split; [reflexivity|]. rewrite Hline, app_nil_r. exact Hlead.
  - pose proof (drop_while_head _ _ _ _ Es) as Hc.
    pose proof (take_drop_while is_token_char (c :: start)) as Hstart.
    pose proof (take_while_all is_token_char (c :: start)) as Htok.
    assert (~ In ":"%char (take_while is_token_char (c :: start))) as Hcolon.
    { intros Hin. rewrite forallb_forall in Htok. specialize (Htok _ Hin).
      discriminate Htok. }
    assert (forallb isspace line = false) as Hns.
    { rewrite Hline, forallb_app. cbn. rewrite Hc. now rewrite andb_false_r. }
    assert (length (take_while is_token_char (c :: start)
                    ++ drop_while is_token_char (c :: start)) = S (length start)) as Hl
      by (rewrite <- Hstart; reflexivity).
    rewrite length_app in Hl. cbn [length] in Hlen.
    destruct (drop_while is_token_char (c :: start)) as [|e rest] eqn:Ee.
    + repeat split; auto. cbn. lia.
    + cbn [length] in Hl.
      destruct (ascii_eqb e ":") eqn:E.
      * repeat split; auto. lia.
      * repeat split; auto.
        pose proof (drop_while_head _ _ _ _ Ee) as He.
        pose proof (not_token_char _ He E) as Hsp.
        cbn [drop_while]. rewrite Hsp.
        pose proof (length_drop_while isspace rest). lia.
Qed.

(** X20 (pre_assembler.c, [get_next_token]): a token of the pre-assembler
    holds no white space and no colon, since the colon that ends it is
    overwritten; every call that returns a token leaves less of the line
    than it was given; and [NULL] is returned exactly for a line of white
    space.  (The caller [pre_assemble] looks for a colon inside the first
    token to recognise a label: no token can pass that test.) *)
Theorem get_next_token_spec line :
  match get_next_token line with
  | (Some tok, rest) =>
      forallb is_token_char tok = true
      /\ ~ In ":"%char tok
      /\ (length rest < length line)%nat
      /\ forallb isspace line = false
  | (None, rest) => rest = [] /\ forallb isspace line = true
  end.
Proof. apply get_next_token_cases. Qed.

(** ** What follows the first word of a line *)

Lemma drop_while_all (p : ascii -> bool) (s : cstring) :
  forallb p s = true -> drop_while p s = [].
Proof.
  induction s as [|c s IH]; cbn; [reflexivity|].
  intros H. apply andb_prop in H as [-> H]. auto.
Qed.

Lemma drop_while_stop (p : ascii -> bool) c (s : cstring) :
  p c = false -> drop_while p (c :: s) = c :: s.
Proof. intros H. cbn. now rewrite H. Qed.

(** X21 (code.c, [string_without_first_word]): the function returns a
    string exactly when the line is made of delimiters (possibly none), a
    first word without delimiter, at least one delimiter, and then text that
    starts with a character that is no delimiter; what it returns is that
    text, up to the end of the line.  In every other case (an empty line,
    one word alone, one word followed by delimiters only) it returns
    [NULL]. *)
Theorem string_without_first_word_spec str delims r :
  string_without_first_word str delims = Some r
  <-> exists lead w sep c r',
        str = lead ++ w ++ sep ++ r
        /\ r = c :: r'
        /\ forallb (is_delim delims) lead = true
        /\ w <> [] /\ forallb (fun c => negb (is_delim delims c)) w = true
        /\ sep <> [] /\ forallb (is_delim delims) sep = true
        /\ is_delim delims c = false.
Proof.
  split.
  - unfold string_without_first_word. intros H.
    pose proof (take_drop_while (is_delim delims) str) as H1.
    pose proof (take_while_all (is_delim delims) str) as L1.
    assert (forall x p', drop_while (is_delim delims) str = x :: p' ->
                         is_delim delims x = false) as Hp
      by (intros x p' Hx; eapply drop_while_head; exact Hx).
    set (p := drop_while (is_delim delims) str) in *. clearbody p.
    pose proof (take_drop_while (fun c => negb (is_delim delims c)) p) as H2.
    pose proof (take_while_all (fun c => negb (is_delim delims c)) p) as L2.
    destruct (drop_while (fun c => negb (is_delim delims c)) p) as [|d rest] eqn:E2;
      [discriminate|].
    pose proof (drop_while_head _ _ _ _ E2) as Hd. apply negb_false_iff in Hd.
    pose proof (take_drop_while (is_delim delims) (d :: rest)) as H3.
    pose proof (take_while_all (is_delim delims) (d :: rest)) as L3.
    destruct (drop_while (is_delim delims) (d :: rest)) as [|c r'] eqn:E3;
      [discriminate|].
    injection H as <-.
    pose proof (drop_while_head _ _ _ _ E3) as Hc.
    exists (take_while (is_delim delims) str),
           (take_while (fun c => negb (is_delim delims c)) p),
           (take_while (is_delim delims) (d :: rest)), c, r'.
    split; [rewrite <- H3, <- H2; exact H1|].
    split; [reflexivity|]. split; [exact L1|]. split.
    { destruct p as [|x p']; [cbn in E2; discriminate E2|].
      cbn. rewrite (Hp x p' eq_refl). discriminate. }
    split; [exact L2|]. split; [|split; [exact L3 | exact Hc]].
    cbn. rewrite Hd. discriminate.
  - intros (lead & w & sep & c & r' & -> & -> & Hl & Hw & Hw' & Hs & Hs' & Hc).
    unfold string_without_first_word.
    destruct w as [|x w]; [contradiction|].
    destruct sep as [|d sep]; [contradiction|].
    cbn [forallb] in Hw', Hs'.
    apply andb_prop in Hw' as [Hx Hw']. apply andb_prop in Hs' as [Hd Hs'].
    apply negb_true_iff in Hx.
    cbn [app]. rewrite (drop_while_app_stop _ lead x _ Hl Hx).
    change (x :: w ++ d :: sep ++ c :: r') with ((x :: w) ++ d :: sep ++ c :: r').
    rewrite (drop_while_app_stop (fun c => negb (is_delim delims c)) (x :: w) d).
    + change (d :: sep ++ c :: r') with ((d :: sep) ++ c :: r').
      rewrite (drop_while_app_stop (is_delim delims) (d :: sep) c).
      * reflexivity.
      * cbn. now rewrite Hd.
      * exact Hc.
    + cbn. rewrite Hx. exact Hw'.
    + now rewrite Hd.
Qed.

(** ** The colon of a label *)

(** X22 (code.c, [first_pass]): the first colon of a line must be followed
    by a space or a tab.  When it is followed by anything else, or ends the
    line, [first_pass] records the diagnostic "there must be a space or tab
    after a label" for the line, returns 0 and does nothing else, whatever
    the rest of the line is; the test is made before the line is looked at
    in any other way, so the colon need not belong to a label. *)
Theorem first_pass_needs_blank_after_colon pre after cl macros t :
  forallb (fun c => negb (ascii_eqb c ":")) pre = true ->
  is_blank (nth_char after 0) = false ->
  first_pass (pre ++ ":"%char :: after) cl macros t
  = Returns 0 (with_error t cl ": error! there must be a space or tab after a label").
Proof.
  intros Hpre Hb. unfold first_pass.
  rewrite (take_while_app_stop _ pre ":" after Hpre eq_refl).
  assert ((length (pre ++ ":"%char :: after) =? length pre)%nat = false) as ->.
  { apply Nat.eqb_neq. rewrite length_app. cbn. lia. }
  rewrite nth_char_app_middle.
  assert (nth_char (pre ++ ":"%char :: after) (length pre + 1) = nth_char after 0) as ->.
  { unfold nth_char. rewrite app_nth2 by lia.
    replace (length pre + 1 - length pre)%nat with 1%nat by lia. reflexivity. }
  unfold is_blank in Hb. apply orb_false_elim in Hb as [-> ->]. reflexivity.
Qed.

Lemma first_pass_needs_blank_after_colon_witness :
  first_pass (cstr "LOOP" ++ ":"%char :: cstr "inc r1") 6 [] initial_tables
  = Returns 0 (with_error initial_tables 6
                 ": error! there must be a space or tab after a label").
Proof.
  apply (first_pass_needs_blank_after_colon (cstr "LOOP") (cstr "inc r1") 6 []
           initial_tables);
    reflexivity.
Defined.

(** ** Lines of a macro *)

Lemma take_while_idem (p : ascii -> bool) (s : cstring) :
  forallb p s = true -> take_while p s = s.
Proof.
  induction s as [|c s IH]; cbn; [reflexivity|].
  intros H. apply andb_prop in H as [-> H]. now rewrite IH.
Qed.

Lemma forallb_drop_while (p q : ascii -> bool) (s : cstring) :
  forallb p s = true -> forallb p (drop_while q s) = true.
Proof.
  induction s as [|c s IH]; cbn; [reflexivity|].
  intros H. apply andb_prop in H as [Hc H].
  destruct (q c); [auto|]. cbn. now rewrite Hc, H.
Qed.

Lemma forallb_rev (p : ascii -> bool) (s : cstring) :
  forallb p (rev s) = forallb p s.
Proof.
  induction s as [|c s IH]; cbn; [reflexivity|].
  rewrite forallb_app, IH. cbn. rewrite andb_true_r. apply andb_comm.
Qed.

(** The string without the white space at its end: it is a prefix of the
    string, what is cut is white space, and it does not end with white
    space. *)
Lemma trim_right_spec s :
  exists pad, s = trim_right s ++ pad /\ forallb isspace pad = true
              /\ (forall c r, rev (trim_right s) = c :: r -> isspace c = false).
Proof.
  unfold trim_right.
  pose proof (take_drop_while isspace (rev s)) as H.
  pose proof (take_while_all isspace (rev s)) as Hs.
  exists (rev (take_while isspace (rev s))). split; [|split].
  - rewrite <- rev_app_distr, <- H. now rewrite rev_involutive.
  - now rewrite forallb_rev.
  - intros c r Hc. rewrite rev_involutive in Hc. eapply drop_while_head. exact Hc.
Qed.

Lemma trim_right_fixed s c r :
  rev s = c :: r -> isspace c = false -> trim_right s = s.
Proof.
  intros Hr Hc. unfold trim_right. rewrite Hr. cbn. rewrite Hc.
  rewrite <- Hr. apply rev_involutive.
Qed.

(** What [trim_whitespace_and_comments] returns, by cases. *)
Lemma trim_whitespace_and_comments_cases str :
  match trim_whitespace_and_comments str with
  | None =>
      forallb isspace (take_while (fun c => negb (ascii_eqb c ";")) str) = true
  | Some r =>
      forallb (fun c => negb (ascii_eqb c ";")) r = true
      /\ (exists c r', r = c :: r' /\ isspace c = false)
      /\ (exists c r', rev r = c :: r' /\ isspace c = false)
      /\ trim_whitespace_and_comments r = Some r
  end.
Proof.
  unfold trim_whitespace_and_comments.
  set (code_part := take_while (fun c => negb (ascii_eqb c ";")) str).
  pose proof (take_while_all (fun c => negb (ascii_eqb c ";")) str) as Hsemi.
  fold code_part in Hsemi. clearbody code_part.
  pose proof (take_drop_while isspace code_part) as Hl.
  pose proof (take_while_all isspace code_part) as Hlead.
  destruct (drop_while isspace code_part) as [|c s] eqn:Es.
  - rewrite Hl, app_nil_r. exact Hlead.
  - pose proof (drop_while_head _ _ _ _ Es) as Hc.
    assert (forallb (fun c => negb (ascii_eqb c ";")) (c :: s) = true) as Hcs.
    { rewrite <- Es. now apply forallb_drop_while. }
    destruct (trim_right_spec (c :: s)) as (pad & Hpad & Hsp & Hend).
    set (r := trim_right (c :: s)) in *. clearbody r.
    assert (forallb (fun c => negb (ascii_eqb c ";")) r = true) as Hr.
    { rewrite Hpad, forallb_app in Hcs. now apply andb_prop in Hcs as [? _]. }
    assert (exists r', r = c :: r') as [r' ->].
    { destruct r as [|x r'].
      - cbn in Hpad. subst pad. cbn in Hsp. rewrite Hc in Hsp. discriminate.
      - injection Hpad as -> _. eauto. }
    assert (exists e r0, rev (c :: r') = e :: r0) as (e & r0 & He).
    { destruct (rev (c :: r')) as [|e r0] eqn:E; [|eauto].
      apply (f_equal (@length ascii)) in E. rewrite List.length_rev in E. discriminate. }
    split; [exact Hr|]. split; [eauto|]. split; [eauto|].
    rewrite (take_while_idem _ _ Hr). rewrite (drop_while_stop _ _ _ Hc).
    now rewrite (trim_right_fixed _ _ _ He (Hend _ _ He)).
Qed.

Lemma space_not_semicolon (s : cstring) :
  forallb isspace s = true -> forallb (fun c => negb (ascii_eqb c ";")) s = true.
Proof.
  induction s as [|c s IH]; cbn [forallb]; [reflexivity|].
  intros H. apply andb_prop in H as [Hc H]. rewrite IH by assumption.
  rewrite andb_true_r. apply negb_true_iff. unfold ascii_eqb.
  apply Ascii.eqb_neq. intros ->. discriminate Hc.
Qed.

(** X23 (pre_assembler.c, [trim_whitespace_and_comments]): the line that
    the pre-assembler stores for the body of a macro.  The function returns
    [NULL] exactly when the line has nothing but white space before its
    first semicolon.  It returns a string [r] exactly when the line is made
    of white space, then [r], then white space, then the end of the line or
    a semicolon and whatever follows it, where [r] holds no semicolon, is
    not empty and neither starts nor ends with white space: what is
    returned is the text of the line before the comment, without the white
    space around it.  A second call leaves such a string as it is. *)
Theorem trim_whitespace_and_comments_spec str :
  (trim_whitespace_and_comments str = None
   <-> forallb isspace (take_while (fun c => negb (ascii_eqb c ";")) str) = true)
  /\ (forall r,
        trim_whitespace_and_comments str = Some r
        <-> exists lead pad tail,
              str = lead ++ r ++ pad ++ tail
              /\ forallb isspace lead = true
              /\ forallb isspace pad = true
              /\ (tail = [] \/ exists x, tail = ";"%char :: x)
              /\ forallb (fun c => negb (ascii_eqb c ";")) r = true
              /\ (exists c r', r = c :: r' /\ isspace c = false)
              /\ (exists c r', rev r = c :: r' /\ isspace c = false))
  /\ (forall r, trim_whitespace_and_comments str = Some r ->
                trim_whitespace_and_comments r = Some r).
Proof.
  pose proof (trim_whitespace_and_comments_cases str) as Hcases.
  split; [|split].
  - split.
    + intros E. now rewrite E in Hcases.
    + intros E. unfold trim_whitespace_and_comments.
      now rewrite (drop_while_all _ _ E).
  - intros r. split.
    + intros E. rewrite E in Hcases. destruct Hcases as (Hr & Hfirst & Hlast & _).
      unfold trim_whitespace_and_comments in E.
      pose proof (take_drop_while (fun c => negb (ascii_eqb c ";")) str) as Hstr.
      set (code_part := take_while (fun c => negb (ascii_eqb c ";")) str) in *.
      pose proof (take_drop_while isspace code_part) as Hcode.
      pose proof (take_while_all isspace code_part) as Hlead.
      destruct (drop_while isspace code_part) as [|c s] eqn:Es; [discriminate|].
      injection E as E.
      destruct (trim_right_spec (c :: s)) as (pad & Hpad & Hsp & _).
      rewrite E in Hpad.
      exists (take_while isspace code_part), pad,
             (drop_while (fun c => negb (ascii_eqb c ";")) str).
      split.
      { rewrite Hstr at 1. rewrite Hcode at 1. rewrite Hpad.
        now rewrite <- !app_assoc. }
      split; [exact Hlead|]. split; [exact Hsp|]. split; [|auto].
      destruct (drop_while (fun c => negb (ascii_eqb c ";")) str) as [|x tail] eqn:Et;
        [now left|].
      right. exists tail. f_equal.
      apply drop_while_head in Et. apply negb_false_iff in Et.
      unfold ascii_eqb in Et. now apply Ascii.eqb_eq in Et.
    + intros (lead & pad & tail & -> & Hlead & Hpad & Htail & Hr
              & (c & r' & -> & Hc) & (e & r0 & He & Hesp)).
      unfold trim_whitespace_and_comments.
      assert (take_while (fun c => negb (ascii_eqb c ";"))
                (lead ++ (c :: r') ++ pad ++ tail)
              = lead ++ (c :: r') ++ pad) as ->.
      { assert (forallb (fun c => negb (ascii_eqb c ";")) (lead ++ (c :: r') ++ pad) = true)
          as Hall.
        { rewrite !forallb_app, Hr, !space_not_semicolon by assumption. reflexivity. }
        destruct Htail as [->|[x ->]].
        - rewrite app_nil_r. now apply take_while_idem.
        - rewrite 2!app_assoc. rewrite <- (app_assoc lead).
          now apply take_while_app_stop. }
      cbn [app]. rewrite (drop_while_app_stop _ lead c _ Hlead Hc).
      f_equal. change (c :: r' ++ pad) with ((c :: r') ++ pad).
      unfold trim_right. rewrite rev_app_distr, He.
      rewrite drop_while_app_stop by (rewrite ?forallb_rev; assumption).
      rewrite <- He. apply rev_involutive.
  - intros r E. rewrite E in Hcases. apply Hcases.
Qed.

(** ** A matrix operand with one index *)

Lemma nth_char_app_r (pre rest : cstring) k :
  nth_char (pre ++ rest) (length pre + k) = nth_char rest k.
Proof.
  unfold nth_char. rewrite app_nth2 by lia. f_equal. lia.
Qed.

Lemma skip_from_app_r (p : ascii -> bool) (pre rest : cstring) k :
  skip_from p (pre ++ rest) (length pre + k) = (length pre + skip_from p rest k)%nat.
Proof.
  unfold skip_from. rewrite drop_app_add'; [lia | reflexivity].
Qed.

Lemma alpha_not_space c : isalpha c = true -> isspace c = false.
Proof.
  unfold isalpha, isspace. intros H.
  destruct (code c =? 32) eqn:E1; [apply Z.eqb_eq in E1; rewrite E1 in H; discriminate|].
  destruct ((9 <=? code c) && (code c <=? 13)) eqn:E2; [|reflexivity].
  apply andb_prop in E2 as [E2 E3]. apply Z.leb_le in E2, E3.
  apply orb_prop in H as [H|H]; apply andb_prop in H as [H1 H2];
    apply Z.leb_le in H1, H2; lia.
Qed.

Lemma alnum_not_delimiter c :
  isalnum c = true -> is_delim (cstr " []" ++ [TAB]) c = false.
Proof.
  unfold isalnum, isalpha, isdigit. intros H.
  assert (code c <> 32 /\ code c <> 91 /\ code c <> 93 /\ code c <> 9) as (H1 & H2 & H3 & H4).
  { repeat split; intros E; rewrite E in H; discriminate. }
  unfold is_delim, ascii_eqb. cbn.
  destruct (Ascii.eqb_spec c " ") as [->|_]; [contradiction H1; reflexivity|].
  destruct (Ascii.eqb_spec c "[") as [->|_]; [contradiction H2; reflexivity|].
  destruct (Ascii.eqb_spec c "]") as [->|_]; [contradiction H3; reflexivity|].
  destruct (Ascii.eqb_spec c TAB) as [->|_]; [contradiction H4; reflexivity|].
  reflexivity.
Qed.

Lemma register_digit_cases d :
  is_register_digit d = true ->
  isdigit d = true /\ isspace d = false /\ is_delim (cstr " []" ++ [TAB]) d = false
  /\ isalnum d = true.
Proof.
  intros H. unfold is_register_digit in H. apply andb_prop in H as [H1 H2].
  apply Z.leb_le in H1, H2.
  assert (isdigit d = true) as Hd.
  { unfold isdigit. apply andb_true_intro. split; apply Z.leb_le; lia. }
  split; [exact Hd|]. split.
  - unfold isspace. destruct (code d =? 32) eqn:E; [apply Z.eqb_eq in E; lia|].
    destruct (9 <=? code d) eqn:E1; [|reflexivity].
    destruct (code d <=? 13) eqn:E2; [apply Z.leb_le in E2; lia | reflexivity].
  - assert (isalnum d = true) as Ha by (unfold isalnum; rewrite Hd; apply orb_true_r).
    split; [now apply alnum_not_delimiter | exact Ha].
Qed.

Lemma take_while_none (p : ascii -> bool) c (s : cstring) :
  p c = false -> take_while p (c :: s) = [].
Proof. intros H. cbn. now rewrite H. Qed.

(** The first token of a string that starts with it, and the only token of
    a string without delimiter. *)
Lemma strtok_first_token (w rest : cstring) d delims :
  w <> [] ->
  forallb (fun c => negb (is_delim delims c)) w = true ->
  is_delim delims d = true ->
  strtok (w ++ d :: rest) delims = {| token := Some w; saved := rest; buffer := w |}.
Proof.
  intros Hw Hall Hd. destruct w as [|x w]; [contradiction|].
  pose proof Hall as Hx. cbn [forallb] in Hx. apply andb_prop in Hx as [Hx _].
  apply negb_true_iff in Hx.
  unfold strtok. cbn [app].
  rewrite (drop_while_stop _ _ _ Hx), (take_while_none _ _ _ Hx).
  change (x :: w ++ d :: rest) with ((x :: w) ++ d :: rest).
  rewrite (take_while_app_stop _ (x :: w) d rest Hall) by now rewrite Hd.
  rewrite (drop_while_app_stop _ (x :: w) d rest Hall) by now rewrite Hd.
  reflexivity.
Qed.

Lemma strtok_last_token (w : cstring) delims :
  w <> [] ->
  forallb (fun c => negb (is_delim delims c)) w = true ->
  strtok w delims = {| token := Some w; saved := []; buffer := w |}.
Proof.
  intros Hw Hall. destruct w as [|x w]; [contradiction|].
  pose proof Hall as Hx. cbn [forallb] in Hx. apply andb_prop in Hx as [Hx _].
  apply negb_true_iff in Hx.
  unfold strtok.
  rewrite (drop_while_stop _ _ _ Hx), (take_while_none _ _ _ Hx).
  rewrite (drop_while_all _ _ Hall), (take_while_idem _ _ Hall).
  reflexivity.
Qed.

(** X24 (instruction.c, [is_valid_matrix], [update]): a matrix operand
    with one index only, such as [M[r1]], is reported and then makes
    [update] undefined.  For a name made of a letter and alphanumeric
    characters followed by one register between brackets,
    [is_valid_matrix] records the diagnostic "Invalid matrix" but returns 1,
    the code of a valid operand; [update] then goes on, [strtok] finds no
    second register, and the [NULL] it returns is passed to [strlen] and
    [memmove]. *)
Theorem update_undefined_on_matrix_with_one_index c name d word2 operand2 lc t :
  isalpha c = true ->
  forallb isalnum name = true ->
  is_register_digit d = true ->
  is_valid_matrix ((c :: name) ++ "["%char :: "r"%char :: d :: cstr "]") lc t
  = Returns 1 (with_error t lc ": error! Invalid matrix")
  /\ update ((c :: name) ++ "["%char :: "r"%char :: d :: cstr "]") word2
       MATRIX operand2 lc t
     = Undefined.
Proof.
  intros Hc Hname Hd.
  destruct (register_digit_cases d Hd) as (Hdig & Hdsp & Hddel & Hdal).
  set (pre := c :: name).
  set (rest := "["%char :: "r"%char :: d :: cstr "]").
  assert (is_valid_matrix (pre ++ rest) lc t
          = Returns 1 (with_error t lc ": error! Invalid matrix")) as Hvalid.
  { unfold is_valid_matrix.
    assert (skip_from isspace (pre ++ rest) 0 = 0%nat) as ->.
    { unfold skip_from. rewrite drop_0. cbn. now rewrite (alpha_not_space c Hc). }
    assert (nth_char (pre ++ rest) 0 = c) as -> by reflexivity.
    rewrite Hc. cbn [negb].
    assert (skip_from isalnum (pre ++ rest) (0 + 1) = (length pre + 0)%nat) as ->.
    { unfold skip_from. cbn [Nat.add drop app pre].
      rewrite drop_0. unfold rest.
      rewrite (take_while_app_stop isalnum name "[" _ Hname eq_refl). cbn. lia. }
    rewrite length_app. change (length rest) with 4%nat.
    assert ((length pre + 4 <=? length pre + 0)%nat = false) as ->
      by (apply Nat.leb_gt; lia).
    rewrite nth_char_app_r. cbn [nth_char nth rest orb negb ascii_eqb Ascii.eqb].
    change (Ascii.eqb "[" "[") with true. cbn [negb].
    replace (length pre + 0 + 1)%nat with (length pre + 1)%nat by lia.
    rewrite skip_from_app_r.
    assert (skip_from isspace rest 1 = 1%nat) as -> by reflexivity.
    unfold no_register_at.
    rewrite length_app. change (length rest) with 4%nat.
    assert ((length pre + 4 <=? length pre + 1)%nat = false) as ->
      by (apply Nat.leb_gt; lia).
    rewrite nth_char_app_r.
    assert ((length pre + 4 <=? length pre + 1 + 1)%nat = false) as ->
      by (apply Nat.leb_gt; lia).
    replace (length pre + 1 + 1)%nat with (length pre + 2)%nat by lia.
    rewrite nth_char_app_r.
    change (nth_char rest 1) with "r"%char. change (nth_char rest 2) with d.
    rewrite Hdig, Hd. change (ascii_eqb "r" "r") with true. cbn [negb orb].
    replace (length pre + 1 + 2)%nat with (length pre + 3)%nat by lia.
    rewrite skip_from_app_r.
    assert (skip_from isspace rest 3 = 3%nat) as -> by reflexivity.
    assert ((length pre + 4 <=? length pre + 3)%nat = false) as ->
      by (apply Nat.leb_gt; lia).
    rewrite nth_char_app_r. change (nth_char rest 3) with "]"%char.
    change (ascii_eqb "]" "]") with true. cbn [negb orb].
    assert ((length pre + 4 <=? length pre + 3 + 1)%nat = true) as ->
      by (apply Nat.leb_le; lia).
    reflexivity. }
  split; [exact Hvalid|].
  unfold update. change (MATRIX =? IMMEDIATE) with false.
  change (MATRIX =? DIRECT) with false. change (MATRIX =? MATRIX) with true.
  cbn iota. unfold bind at 1. fold pre rest. rewrite Hvalid.
  change (1 =? 0) with false. cbn iota.
  assert (forallb (fun x => negb (is_delim (cstr " []" ++ [TAB]) x)) pre = true) as Hpre.
  { apply forallb_forall. intros x Hx. apply negb_true_iff, alnum_not_delimiter.
    destruct Hx as [<-|Hx]; [unfold isalnum; now rewrite Hc|].
    rewrite forallb_forall in Hname. auto. }
  unfold rest.
  rewrite (strtok_first_token pre _ "[" _ ltac:(discriminate) Hpre eq_refl).
  cbn [saved token].
  change ("r"%char :: d :: cstr "]") with (["r"%char; d] ++ "]"%char :: []).
  rewrite (strtok_first_token ["r"%char; d] [] "]").
  - reflexivity.
  - discriminate.
  - cbn [forallb]. rewrite Hddel. reflexivity.
  - reflexivity.
Qed.

Lemma update_undefined_on_matrix_with_one_index_witness :
  (is_valid_matrix (cstr "M" ++ "["%char :: "r"%char :: "1"%char :: cstr "]") 0
     initial_tables
   = Returns 1 (with_error initial_tables 0 ": error! Invalid matrix")
   /\ update (cstr "M" ++ "["%char :: "r"%char :: "1"%char :: cstr "]") None
        MATRIX 0 0 initial_tables
      = Undefined)
  /\ instruction (cstr "mov M[r1], r2") 0 initial_tables = Undefined.
Proof.
  split.
  - apply (update_undefined_on_matrix_with_one_index "M" [] "1" None 0 0 initial_tables);
      reflexivity.
  - vm_compute. reflexivity.
Defined.

(** ** The lines that [read_file] keeps *)


Lemma fgets_chars_long k (line tail : cstring) :
  forallb (fun c => negb (ascii_eqb c NEWLINE)) line = true ->
  (k <= length line)%nat ->
  fgets_chars k (line ++ tail)
  = (take k line, {| unread := drop k line ++ tail; at_eof := false |}).
Proof.
  revert k. induction line as [|c line IH]; intros k Hl Hk.
  - destruct k; [reflexivity | cbn in Hk; lia].
  - destruct k; [reflexivity|]. cbn [forallb] in Hl.
    apply andb_prop in Hl as [Hc Hl]. apply negb_true_iff in Hc.
    cbn [app fgets_chars take drop]. rewrite Hc. rewrite IH by (cbn in Hk; auto; lia).
    reflexivity.
Qed.





(** ** The macros that the pre-assembler collects *)

Lemma find_macro_none macros name :
  find_macro_definition macros name = None -> ~ In name (map m_name macros).
Proof.
  induction macros as [|m macros IH]; cbn; [tauto|].
  destruct (strcmp_eq (m_name m) name) eqn:E; [discriminate|].
  intros H [Hn|Hn]; [|now apply IH].
  apply strcmp_eq_true in Hn. congruence.
Qed.

Lemma valid_macro_name_not_empty name :
  is_valid_macro_name name = 1 -> (1 <= length name)%nat.
Proof.
  unfold is_valid_macro_name. destruct name as [|c name]; [discriminate|].
  intros _. cbn. lia.
Qed.

Lemma collect_macro_line_consistent line line_num p t :
  macro_pass_consistent p ->
  exists p' t',
    collect_macro_line line line_num p t = Returns p' t'
    /\ macro_pass_consistent p'.
Proof.
  intros Hp. unfold collect_macro_line.
  destruct (actual_first_token (tokens_of_line line)) as [tok|];
    [|eexists _, _; split; [reflexivity | exact Hp]].
  destruct (is_opcode tok "mcro").
  { destruct (fst (get_next_token _)) as [name|];
      [|eexists _, _; split; [reflexivity | exact Hp]].
    destruct ((length name =? 0)%nat || (MAX_LABEL_LENGTH <? Z.of_nat (length name))) eqn:El;
      [eexists _, _; split; [reflexivity | exact Hp]|].
    destruct (is_valid_macro_name name =? 0) eqn:Ev;
      [eexists _, _; split; [reflexivity | exact Hp]|].
    destruct (is_reserved_word name =? 0) eqn:Er; cbn [negb];
      [|eexists _, _; split; [reflexivity | exact Hp]].
    destruct (find_macro_definition (macros p) name) eqn:Ef; cbn [is_some];
      [eexists _, _; split; [reflexivity | exact Hp]|].
    eexists _, _. split; [reflexivity|].
    destruct Hp as (Hw & Hn & _). split; [exact Hw|]. split; [exact Hn|].
    right. split; [reflexivity|]. eexists. split; [reflexivity|]. split.
    - apply orb_false_elim in El as [_ El]. apply Z.ltb_ge in El.
      unfold MAX_LABEL_LENGTH in El. apply Z.eqb_neq in Ev. apply Z.eqb_eq in Er.
      assert (is_valid_macro_name name = 1) as Hv.
      { unfold is_valid_macro_name in *.
        destruct (negb (isalpha (nth_char name 0))); [contradiction|].
        destruct (forallb is_name_char (drop 1 name)); [reflexivity | contradiction]. }
      split; [exact Hv|]. split; [exact Er|]. cbn [m_name m_lines]. split.
      + pose proof (valid_macro_name_not_empty _ Hv). lia.
      + constructor.
    - cbn [m_name]. now apply find_macro_none. }
  destruct (is_opcode tok "mcroend").
  { set (check := match drop_while isspace (current_line_ptr (tokens_of_line line)) with
                  | [] => ret 1
                  | _ :: _ => add_error line_num ": Unexpected text after 'endmcro'."
                  end).
    assert (exists r1 t1, check t = Returns r1 t1) as (r1 & t1 & E1).
    { unfold check. destruct (drop_while isspace _); eexists _, _; reflexivity. }
    unfold bind at 1. rewrite E1.
    destruct Hp as (Hw & Hn & [[Hi Hc]|(Hi & m & Hc & Hm & Hfresh)]).
    - rewrite Hi. eexists _, _. split; [reflexivity|].
      split; [exact Hw|]. split; [exact Hn|]. left. now split.
    - rewrite Hi, Hc. eexists _, _. split; [reflexivity|].
      unfold add_macro_definition. cbn [macros map in_macro_definition current_macro].
      split; [constructor; assumption|]. split.
      + apply NoDup_cons_2; [|exact Hn]. rewrite list_elem_of_In. exact Hfresh.
      + left. now split. }
  destruct Hp as (Hw & Hn & [[Hi Hc]|(Hi & m & Hc & Hm & Hfresh)]).
  - rewrite Hi. eexists _, _. split; [reflexivity|].
    split; [exact Hw|]. split; [exact Hn|]. left. now split.
  - rewrite Hi, Hc. cbn [Z.eqb Pos.eqb].
    pose proof (trim_whitespace_and_comments_cases line) as Ht.
    destruct (trim_whitespace_and_comments line) as [content|].
    + eexists _, _. split; [reflexivity|].
      split; [exact Hw|]. split; [exact Hn|]. right. split; [reflexivity|].
      eexists. split; [reflexivity|]. split; [|exact Hfresh].
      destruct Hm as (M1 & M2 & M3 & M4). unfold add_macro_line.
      split; [exact M1|]. split; [exact M2|]. split; [exact M3|].
      cbn [m_lines]. apply Forall_app. split; [exact M4|].
      constructor; [|constructor]. apply Ht.
    + eexists _, _. split; [reflexivity|].
      split; [exact Hw|]. split; [exact Hn|]. right. split; [exact Hi|].
      exists m. split; [exact Hc|]. split; [exact Hm | exact Hfresh].
Qed.

Lemma collect_macros_consistent fuel s line_num p t :
  macro_pass_consistent p ->
  exists n p' t',
    collect_macros fuel s line_num p t = Returns (n, p') t'
    /\ macro_pass_consistent p'.
Proof.
  revert s line_num p t. induction fuel as [|f IH]; intros s line_num p t Hp.
  - eexists _, _, _. split; [reflexivity | exact Hp].
  - cbn [collect_macros]. destruct (fgets (MAX_LINE_LENGTH + 2) s) as [[line st]|];
      [|eexists _, _, _; split; [reflexivity | exact Hp]].
    destruct (MAX_LINE_LENGTH + 1 <? Z.of_nat (length line)).
    { unfold bind, add_error. apply IH. exact Hp. }
    destruct (blank_or_comment line); [apply IH; exact Hp|].
    destruct (collect_macro_line_consistent line (line_num + 1) p t Hp)
      as (p' & t' & E & Hp').
    unfold bind. rewrite E. apply IH. exact Hp'.
Qed.

(** [pre_assemble] returns, with a table of macros that is consistent;
    when no diagnostic is recorded, the text it returns is what the second
    pass writes with these macros. *)
Lemma pre_assemble_consistent contents t :
  exists ms out t',
    pre_assemble contents t = Returns (ms, out) t'
    /\ Forall well_formed_macro ms
    /\ NoDup (map m_name ms)
    /\ out = (if 0 <? ec t' then None
              else Some (expand_macros (S (length contents)) contents 0 ms [])).
Proof.
  unfold pre_assemble.
  destruct (collect_macros_consistent (S (length contents)) contents 0
              {| in_macro_definition := 0; current_macro := None; macros := [] |} t)
    as (n & p & t1 & E & Hw & Hn & _).
  { split; [constructor|]. split; [constructor|]. left. now split. }
  unfold bind at 1. rewrite E. cbn [fst snd].
  assert (exists r2 t2,
            (if in_macro_definition p =? 1
             then add_error n ": Unclosed macro definition (missing endmcro)."
             else ret 1) t1 = Returns r2 t2) as (r2 & t2 & E2)
    by (destruct (_ =? 1); eexists _, _; reflexivity).
  unfold bind at 1. rewrite E2. unfold bind, get.
  destruct (0 <? ec t2) eqn:Ec; eexists _, _, _; (split; [reflexivity|]);
    (split; [assumption|]); (split; [assumption|]); now rewrite Ec.
Qed.

(** X26 (pre_assembler.c, [pre_assemble], [is_valid_macro_name],
    [find_macro_definition]): the table of macros that [pre_assemble]
    leaves.  Whatever the file holds, the first pass of the pre-assembler
    returns, and every macro it has stored has a name that starts with a
    letter, is made of letters, digits and underscores, has at most 30
    characters and is not a reserved word; no two macros have the same
    name; and every line of a body was stored trimmed, so that trimming it
    again returns it unchanged. *)
Theorem pre_assemble_macro_table contents t :
  exists ms out t',
    pre_assemble contents t = Returns (ms, out) t'
    /\ Forall well_formed_macro ms
    /\ NoDup (map m_name ms).
Proof.
  destruct (pre_assemble_consistent contents t) as (ms & out & t' & E & Hw & Hn & _).
  exists ms, out, t'. auto.
Qed.

Lemma trimmed_line_starts l :
  trim_whitespace_and_comments l = Some l -> isspace (nth_char l 0) = false.
Proof.
  intros H. pose proof (trim_whitespace_and_comments_cases l) as Hc.
  rewrite H in Hc. destruct Hc as (_ & (c & r & -> & Hs) & _). exact Hs.
Qed.

Lemma expand_lines_trimmed ml out :
  Forall (fun l => trim_whitespace_and_comments l = Some l) ml ->
  expand_lines ml out = Expanded (out ++ expansion_text ml).
Proof.
  intros H. revert out. induction H as [|l ml Hl _ IH]; intros out.
  - cbn. now rewrite app_nil_r.
  - cbn [expand_lines]. rewrite Hl, (trimmed_line_starts l Hl), IH.
    unfold expansion_text. cbn [map concat]. now rewrite <- !app_assoc.
Qed.

(** For every line, the label is [NULL] and the first token is the one
    that [get_next_token] returns. *)
Lemma tokens_of_line_no_label l :
  label_name (tokens_of_line l) = None
  /\ actual_first_token (tokens_of_line l) = fst (get_next_token l)
  /\ current_line_ptr (tokens_of_line l) = snd (get_next_token l).
Proof.
  unfold tokens_of_line.
  pose proof (get_next_token_cases l) as H.
  destruct (get_next_token l) as [[tok|] p]; [|now repeat split].
  destruct H as (_ & Hcolon & _).
  assert (existsb (fun c => ascii_eqb c ":") tok = false) as ->.
  { apply not_true_is_false. intros H. apply existsb_exists in H as (c & Hin & Hc).
    apply Ascii.eqb_eq in Hc. subst c. contradiction. }
  now repeat split.
Qed.

Lemma find_macro_stored ms m :
  NoDup (map m_name ms) -> In m ms -> find_macro_definition ms (m_name m) = Some m.
Proof.
  induction ms as [|x ms IH]; cbn [map In find_macro_definition]; [tauto|].
  intros Hn [->|Hin].
  - now rewrite (proj2 (strcmp_eq_true _ _) eq_refl).
  - apply NoDup_cons in Hn as [Hx Hn].
    destruct (strcmp_eq (m_name x) (m_name m)) eqn:E; [|auto].
    apply strcmp_eq_true in E. exfalso. apply Hx. rewrite E.
    apply list_elem_of_In. now apply in_map.
Qed.

Lemma not_reserved tok w :
  is_reserved_word tok = 0 -> In w RESERVED_WORDS -> is_opcode tok w = false.
Proof.
  unfold is_reserved_word, is_opcode. intros H Hin.
  destruct (existsb _ RESERVED_WORDS) eqn:E; [discriminate|].
  apply not_true_is_false. intros Hs.
  assert (existsb (fun w0 => strcmp_eq tok (cstr w0)) RESERVED_WORDS = true) as E'
    by (apply existsb_exists; eauto).
  congruence.
Qed.

(** A line whose first token starts with a letter is neither blank nor a
    comment. *)
Lemma first_token_not_comment line tok :
  fst (get_next_token line) = Some tok ->
  isalpha (nth_char tok 0) = true ->
  blank_or_comment line = false.
Proof.
  unfold get_next_token, blank_or_comment.
  destruct (drop_while isspace line) as [|c start]; [discriminate|].
  intros H Ha.
  assert (tok = take_while is_token_char (c :: start)) as ->.
  { destruct (drop_while is_token_char (c :: start)) as [|e rest];
      [|destruct (ascii_eqb e ":")]; cbn [fst] in H; congruence. }
  cbn [take_while] in Ha. destruct (is_token_char c); [|discriminate Ha].
  cbn in Ha. unfold ascii_eqb. apply Ascii.eqb_neq. intros ->. discriminate Ha.
Qed.

(** X27 (pre_assembler.c, [pre_assemble], [find_macro_definition],
    [trim_whitespace_and_comments]): a call of a macro that the first pass
    has stored is replaced by its body in the second pass.  [pre_assemble]
    returns the macros [ms] of its first pass and, when no diagnostic is
    recorded, the text that its second pass writes with them from the start
    of the file.  Whatever that pass has read and written so far, outside a
    definition, on a line whose first token is the name of a macro of
    [ms], it writes every line of the body of that macro, in order, each
    after a tab and followed by a newline, and goes on with the next line:
    the lines were stored trimmed, so the second trimming returns each of
    them whole, at the address that was allocated, and no line trims to
    nothing. *)
Theorem collected_macros_expand contents t :
  exists ms out t',
    pre_assemble contents t = Returns (ms, out) t'
    /\ (ec t' = 0 ->
        out = Some (expand_macros (S (length contents)) contents 0 ms []))
    /\ forall m f s line st o,
         In m ms ->
         fgets (MAX_LINE_LENGTH + 2) s = Some (line, st) ->
         fst (get_next_token line) = Some (m_name m) ->
         expand_macros (S f) s 0 ms o
         = expand_macros f (unread st) 0 ms (o ++ expansion_text (m_lines m)).
Proof.
  destruct (pre_assemble_consistent contents t) as (ms & out & t' & E & Hw & Hn & Hout).
  exists ms, out, t'. split; [exact E|]. split.
  { intros Hec. rewrite Hout, Hec. reflexivity. }
  intros m f s line st o Hin Hf Htok.
  rewrite Forall_forall in Hw.
  destruct (Hw m (proj2 (list_elem_of_In _ _) Hin)) as (Hv & Hr & _ & Hl).
  assert (isalpha (nth_char (m_name m) 0) = true) as Ha.
  { unfold is_valid_macro_name in Hv.
    destruct (isalpha (nth_char (m_name m) 0)); [reflexivity | discriminate Hv]. }
  cbn [expand_macros]. rewrite Hf.
  rewrite (first_token_not_comment line _ Htok Ha).
  destruct (tokens_of_line_no_label line) as (-> & -> & _). rewrite Htok.
  rewrite (not_reserved _ "mcro" Hr) by (cbn; tauto).
  rewrite (not_reserved _ "mcroend" Hr) by (cbn; tauto).
  change (0 =? 1) with false. cbn iota.
  rewrite (find_macro_stored ms m Hn Hin).
  now rewrite (expand_lines_trimmed _ _ Hl).
Qed.

(** On a sample: the call is replaced by the body, the call after a label
    is copied as it stands. *)
Example pre_assemble_sample :
  exists ms t',
    pre_assemble macro_sample_file initial_tables
    = Returns (ms, Some (Some (TAB :: cstr "inc r1" ++ NEWLINE :: cstr "L: m1" ++ NEWLINE
                                 :: cstr "stop" ++ [NEWLINE]))) t'
    /\ ms = [{| m_name := cstr "m1"; m_lines := [cstr "inc r1"] |}]
    /\ errortable t' = [].
Proof. eexists _, _. split; [vm_compute; reflexivity|]. split; reflexivity. Qed.

(** ** What the pre-assembler never does *)

Lemma fgets_chars_length k s : (length (fst (fgets_chars k s)) <= k)%nat.
Proof.
  revert s. induction k as [|k IH]; intros s; cbn; [lia|].
  destruct s as [|c s]; cbn; [lia|].
  destruct (ascii_eqb c NEWLINE); cbn; [lia|].
  specialize (IH s). destruct (fgets_chars k s). cbn in *. lia.
Qed.

Lemma fgets_length n s line st :
  1 <= n -> fgets n s = Some (line, st) -> Z.of_nat (length line) <= n - 1.
Proof.
  unfold fgets. intros Hn H. destruct s as [|c s]; [discriminate|].
  injection H as H. pose proof (fgets_chars_length (Z.to_nat (n - 1)) (c :: s)) as Hl.
  rewrite H in Hl. cbn [fst] in Hl. lia.
Qed.

#[local] Instance never_reports_preorder msg : PreOrder (never_reports msg).
Proof.
  split.
  - intros t. exists []. split; [now rewrite app_nil_r | constructor].
  - intros t1 t2 t3 (k1 & E1 & F1) (k2 & E2 & F2). exists (k1 ++ k2). split.
    + rewrite E2, E1. now rewrite app_assoc.
    + apply Forall_app. now split.
Qed.

Lemma never_reports_other msg line_num other :
  cstr other <> cstr msg -> keeps (never_reports msg) (add_error line_num other).
Proof.
  intros Hne t r t' H. injection H as _ <-. eexists. split; [reflexivity|].
  constructor; [exact Hne | constructor].
Qed.

Ltac other_message :=
  apply never_reports_other; intros H; vm_compute in H; discriminate H.

Lemma collect_macro_line_never_long line line_num p :
  keeps (never_reports ": Line exceeds the maximum length of 80 characters.")
    (collect_macro_line line line_num p).
Proof.
  unfold collect_macro_line.
  repeat first
    [ apply keeps_ret | apply keeps_undefined
    | apply keeps_bind; [ exact _ | | intros ? ]
    | other_message
    | match goal with
      | |- keeps _ (if ?c then _ else _) => destruct c
      | |- keeps _ (match ?x with _ => _ end) => destruct x
      end ];
    exact _.
Qed.

Lemma collect_macros_never_long fuel s line_num p :
  keeps (never_reports ": Line exceeds the maximum length of 80 characters.")
    (collect_macros fuel s line_num p).
Proof.
  revert s line_num p. induction fuel as [|f IH]; intros s line_num p;
    cbn [collect_macros].
  - apply keeps_ret. exact _.
  - destruct (fgets (MAX_LINE_LENGTH + 2) s) as [[line st]|] eqn:E;
      [|apply keeps_ret; exact _].
    apply fgets_length in E; [|unfold MAX_LINE_LENGTH; lia].
    destruct (MAX_LINE_LENGTH + 1 <? Z.of_nat (length line)) eqn:El.
    { apply Z.ltb_lt in El. lia. }
    destruct (blank_or_comment line); [apply IH|].
    apply keeps_bind; [exact _ | apply collect_macro_line_never_long | intros p'; apply IH].
Qed.

Lemma find_macro_in ms name m :
  find_macro_definition ms name = Some m -> In m ms.
Proof.
  induction ms as [|c ms IH]; cbn [find_macro_definition]; [discriminate|].
  destruct (strcmp_eq (m_name c) name).
  - intros [= ->]. now left.
  - intros H. right. now apply IH.
Qed.

(** With macros that are well formed, the second pass is defined whatever
    the file holds. *)
Lemma expand_macros_defined fuel s d ms out :
  Forall well_formed_macro ms -> expand_macros fuel s d ms out <> None.
Proof.
  intros Hw. revert s d out. induction fuel as [|f IH]; intros s d out;
    cbn [expand_macros]; [discriminate|].
  destruct (fgets (MAX_LINE_LENGTH + 2) s) as [[line st]|]; [|discriminate].
  destruct (blank_or_comment line); [apply IH|].
  destruct (tokens_of_line_no_label line) as (-> & _ & _).
  destruct (actual_first_token (tokens_of_line line)) as [tok|]; [|apply IH].
  destruct (is_opcode tok "mcro"); [apply IH|].
  destruct (is_opcode tok "mcroend"); [apply IH|].
  destruct (d =? 1); [apply IH|].
  destruct (find_macro_definition ms tok) as [m|] eqn:E; [|apply IH].
  apply find_macro_in in E. rewrite Forall_forall in Hw.
  destruct (Hw m (proj2 (list_elem_of_In _ _) E)) as (_ & _ & _ & Hl).
  rewrite (expand_lines_trimmed _ _ Hl). apply IH.
Qed.

Lemma fgets_chars_consumes k s :
  (length (unread (snd (fgets_chars k s))) + length (fst (fgets_chars k s)) = length s)%nat.
Proof.
  revert s. induction k as [|k IH]; intros s; cbn [fgets_chars]; [cbn; lia|].
  destruct s as [|c s]; [reflexivity|].
  destruct (ascii_eqb c NEWLINE); [cbn; lia|].
  specialize (IH s). destruct (fgets_chars k s) as [l st]. cbn in *. lia.
Qed.

Lemma fgets_chars_not_empty k c s : fst (fgets_chars (S k) (c :: s)) <> [].
Proof.
  cbn [fgets_chars]. destruct (ascii_eqb c NEWLINE); [discriminate|].
  destruct (fgets_chars k s). discriminate.
Qed.

Lemma fgets_consumes s line st :
  fgets (MAX_LINE_LENGTH + 2) s = Some (line, st) ->
  (length (unread st) < length s)%nat.
Proof.
  unfold fgets. destruct s as [|c s]; [discriminate|].
  change (Z.to_nat (MAX_LINE_LENGTH + 2 - 1)) with (S 80). generalize 80%nat.
  intros k [= H]. change (fgets_chars (S k) (c :: s) = (line, st)) in H.
  pose proof (fgets_chars_consumes (S k) (c :: s)) as Hc.
  pose proof (fgets_chars_not_empty k c s) as Hl.
  rewrite H in Hc, Hl. cbn [fst snd] in Hc, Hl.
  destruct line; [contradiction|]. cbn [length] in *. lia.
Qed.

Lemma skip_rest_of_line_length s : (length (skip_rest_of_line s) <= length s)%nat.
Proof.
  unfold skip_rest_of_line. rewrite length_drop.
  induction s as [|c s IH]; cbn [drop_while]; [cbn; lia|].
  destruct (negb (ascii_eqb c NEWLINE)); cbn [length]; lia.
Qed.

Lemma after_partial_line_length line st :
  (length (after_partial_line line st) <= length (unread st))%nat.
Proof.
  unfold after_partial_line. destruct (_ && _); [apply skip_rest_of_line_length | lia].
Qed.

(** Every turn of the two passes reads at least one character: the passes
    stop at the end of the file, and the bound on the number of turns is
    never what stops them. *)
Lemma expand_macros_fuel f g s d ms out :
  (length s < f)%nat -> (length s < g)%nat ->
  expand_macros f s d ms out = expand_macros g s d ms out.
Proof.
  revert g s d out. induction f as [|f IH]; intros g s d out Hf Hg; [lia|].
  destruct g as [|g]; [lia|]. cbn [expand_macros].
  destruct (fgets (MAX_LINE_LENGTH + 2) s) as [[line st]|] eqn:E; [|reflexivity].
  pose proof (fgets_consumes _ _ _ E) as Hc.
  pose proof (after_partial_line_length line st) as Ha.
  assert (forall d out, expand_macros f (unread st) d ms out
                        = expand_macros g (unread st) d ms out) as Hu
    by (intros; apply IH; lia).
  assert (forall d out, expand_macros f (after_partial_line line st) d ms out
                        = expand_macros g (after_partial_line line st) d ms out) as Hp
    by (intros; apply IH; lia).
  destruct (blank_or_comment line); [apply Hp|].
  destruct (tokens_of_line_no_label line) as (-> & _ & _).
  destruct (actual_first_token (tokens_of_line line)) as [tok|]; [|apply Hu].
  destruct (is_opcode tok "mcro"); [apply Hu|].
  destruct (is_opcode tok "mcroend"); [apply Hu|].
  destruct (d =? 1); [apply Hu|].
  destruct (find_macro_definition ms tok) as [m|]; [|apply Hu].
  destruct (expand_lines (m_lines m) out); [apply Hu | reflexivity | reflexivity].
Qed.

Lemma collect_macros_fuel f g s line_num p t :
  (length s < f)%nat -> (length s < g)%nat ->
  collect_macros f s line_num p t = collect_macros g s line_num p t.
Proof.
  revert g s line_num p t. induction f as [|f IH]; intros g s line_num p t Hf Hg; [lia|].
  destruct g as [|g]; [lia|]. cbn [collect_macros].
  destruct (fgets (MAX_LINE_LENGTH + 2) s) as [[line st]|] eqn:E; [|reflexivity].
  pose proof (fgets_consumes _ _ _ E) as Hc.
  pose proof (after_partial_line_length line st) as Ha.
  destruct (MAX_LINE_LENGTH + 1 <? Z.of_nat (length line)).
  { unfold bind. destruct (add_error _ _ t); [|reflexivity..]. apply IH; lia. }
  destruct (blank_or_comment line); [apply IH; lia|].
  unfold bind. destruct (collect_macro_line line (line_num + 1) p t); [|reflexivity..].
  apply IH; lia.
Qed.

(** X28 (pre_assembler.c, [pre_assemble]): the pre-assembler never reports
    a line for its length.  Its buffer has 82 bytes, so every line that
    [fgets] returns has at most 81 characters, and the test
    [strlen(line) > MAX_LINE_LENGTH + 1] that guards the diagnostic "Line
    exceeds the maximum length of 80 characters." is never true.  Whatever
    the file holds, the first pass over it returns, [pre_assemble] returns
    with a second pass that is defined, and no diagnostic added has that
    text.  Of a line of more than 81 characters [fgets] returns the first
    81, and leaves the rest to be read as the next line. *)
Theorem pre_assemble_never_reports_long_line :
  (forall s line st,
     fgets (MAX_LINE_LENGTH + 2) s = Some (line, st) ->
     Z.of_nat (length line) <= MAX_LINE_LENGTH + 1)
  /\ (forall contents t,
        exists n p t1,
          collect_macros (S (length contents)) contents 0
            {| in_macro_definition := 0; current_macro := None; macros := [] |} t
          = Returns (n, p) t1
          /\ never_reports ": Line exceeds the maximum length of 80 characters." t t1)
  /\ (forall contents t,
        exists ms out t',
          pre_assemble contents t = Returns (ms, out) t'
          /\ out <> Some None
          /\ never_reports ": Line exceeds the maximum length of 80 characters." t t')
  /\ (forall line tail,
        forallb (fun c => negb (ascii_eqb c NEWLINE)) line = true ->
        (81 < length line)%nat ->
        fgets (MAX_LINE_LENGTH + 2) (line ++ tail)
        = Some (take 81 line, {| unread := drop 81 line ++ tail; at_eof := false |})).
Proof.
  split; [|split; [|split]].
  - intros s line st H. apply fgets_length in H; unfold MAX_LINE_LENGTH in *; lia.
  - intros contents t.
    destruct (collect_macros_consistent (S (length contents)) contents 0
                {| in_macro_definition := 0; current_macro := None; macros := [] |} t)
      as (n & p & t1 & E & _).
    { split; [constructor|]. split; [constructor|]. left. now split. }
    exists n, p, t1. split; [exact E|].
    exact (collect_macros_never_long _ _ _ _ _ _ _ E).
  - intros contents t.
    destruct (pre_assemble_consistent contents t) as (ms & out & t' & E & Hw & _ & Hout).
    exists ms, out, t'. split; [exact E|]. split.
    { rewrite Hout. destruct (0 <? ec t'); [discriminate|].
      intros H.
      apply (expand_macros_defined (S (length contents)) contents 0 ms [] Hw).
      congruence. }
    refine ((_ : keeps (never_reports ": Line exceeds the maximum length of 80 characters.")
                   (pre_assemble contents)) _ _ _ E).
    unfold pre_assemble.
    apply keeps_bind; [exact _ | apply collect_macros_never_long | intros r0].
    apply keeps_bind; [exact _ | | intros ?].
    + destruct (_ =? 1); [other_message | apply keeps_ret; exact _].
    + apply keeps_bind; [exact _ | apply keeps_get; exact _ | intros t0].
      destruct (0 <? ec t0); apply keeps_ret; exact _.
  - intros line tail Hl Hlen. unfold fgets.
    destruct (line ++ tail) as [|c l] eqn:E.
    { destruct line; [cbn in Hlen; lia | discriminate E]. }
    rewrite <- E. change (Z.to_nat (MAX_LINE_LENGTH + 2 - 1)) with 81%nat.
    rewrite fgets_chars_long by (auto; lia). reflexivity.
Qed.

(** ** Labels in the pre-assembler *)



(** ** The lines on which the two passes count the same words *)

Lemma take_while_app_all (p : ascii -> bool) (pre s : cstring) :
  forallb p pre = true -> take_while p (pre ++ s) = pre ++ take_while p s.
Proof.
  induction pre as [|x pre IH]; cbn; [reflexivity|].
  intros H. apply andb_prop in H as [-> H]. now rewrite IH.
Qed.

Lemma drop_while_app_all (p : ascii -> bool) (pre s : cstring) :
  forallb p pre = true -> drop_while p (pre ++ s) = drop_while p s.
Proof.
  induction pre as [|x pre IH]; cbn; [reflexivity|].
  intros H. apply andb_prop in H as [-> H]. auto.
Qed.

Lemma blank_cases b : is_blank b = true -> b = " "%char \/ b = TAB.
Proof.
  unfold is_blank, ascii_eqb. intros H.
  apply orb_prop in H as [H|H]; apply Ascii.eqb_eq in H; auto.
Qed.

Lemma blanks_are_spaces pre : forallb is_blank pre = true -> forallb isspace pre = true.
Proof.
  induction pre as [|x pre IH]; cbn [forallb]; [reflexivity|].
  intros H. apply andb_prop in H as [Hx H].
  rewrite (blank_is_space _ Hx), IH by assumption. reflexivity.
Qed.

Lemma blanks_not_commas pre :
  forallb is_blank pre = true ->
  forallb (fun c => negb (is_delim (cstr ",") c)) pre = true.
Proof.
  induction pre as [|x pre IH]; cbn [forallb]; [reflexivity|].
  intros H. apply andb_prop in H as [Hx H]. rewrite IH by assumption.
  destruct (blank_cases _ Hx); subst x; reflexivity.
Qed.

(** The first field between commas of a string that starts with blanks:
    the blanks are part of the field. *)
Lemma strtok_after_blanks (pre : cstring) c s :
  forallb is_blank pre = true -> is_delim (cstr ",") c = false ->
  token (strtok (pre ++ c :: s) (cstr ","))
  = Some (pre ++ take_while (fun c => negb (is_delim (cstr ",") c)) (c :: s))
  /\ saved (strtok (pre ++ c :: s) (cstr ",")) = saved (strtok (c :: s) (cstr ","))
  /\ token (strtok (c :: s) (cstr ","))
     = Some (take_while (fun c => negb (is_delim (cstr ",") c)) (c :: s)).
Proof.
  intros Hpre Hc.
  assert (Hd : drop_while (is_delim (cstr ",")) (pre ++ c :: s) = pre ++ c :: s).
  { destruct pre as [|b pre]; cbn [app]; apply drop_while_stop; [exact Hc|].
    cbn [forallb] in Hpre. apply andb_prop in Hpre as [Hb _].
    destruct (blank_cases _ Hb); subst b; reflexivity. }
  unfold strtok. cbv zeta. rewrite Hd, (drop_while_stop _ _ _ Hc).
  rewrite (take_while_app_all _ _ _ (blanks_not_commas _ Hpre)).
  rewrite (drop_while_app_all _ _ _ (blanks_not_commas _ Hpre)).
  destruct (pre ++ c :: s) eqn:E; [destruct pre; discriminate|].
  destruct (drop_while _ (c :: s)); cbn; auto.
Qed.

Lemma filter_blanks (x : ascii) (pre : cstring) :
  is_blank x = false -> forallb is_blank pre = true ->
  filter (fun c => ascii_eqb c x = true) pre = [].
Proof.
  intros Hx. induction pre as [|b pre IH]; [reflexivity|].
  cbn [forallb]. intros H. apply andb_prop in H as [Hb H].
  rewrite filter_cons. destruct (decide _) as [E|E]; [|auto].
  unfold ascii_eqb in E. apply Ascii.eqb_eq in E. subst b. congruence.
Qed.

Lemma is_matrix_after_blanks (pre a : cstring) :
  forallb is_blank pre = true -> is_matrix (pre ++ a) = is_matrix a.
Proof.
  intros H. unfold is_matrix.
  rewrite !filter_app, !(filter_blanks _ pre) by (assumption || reflexivity).
  reflexivity.
Qed.

Lemma is_matrix_before_blanks (a post : cstring) :
  forallb is_blank post = true -> is_matrix (a ++ post) = is_matrix a.
Proof.
  intros H. unfold is_matrix.
  rewrite !filter_app, !(filter_blanks _ post) by (assumption || reflexivity).
  rewrite !app_nil_r. reflexivity.
Qed.

(** The mode of an operand does not depend on the blanks before it. *)
Lemma which_type_operand_after_blanks (pre a : cstring) :
  forallb is_blank pre = true ->
  which_type_operand (Some (pre ++ a)) = which_type_operand (Some a).
Proof.
  intros H. unfold which_type_operand, only_spaces_and_tabs, skip_from.
  rewrite (is_matrix_after_blanks _ _ H).
  rewrite forallb_app, (blanks_are_spaces _ H), !drop_0. cbn [andb Nat.add].
  rewrite (take_while_app_all _ _ _ (blanks_are_spaces _ H)), length_app.
  unfold nth_char. rewrite <- Nat.add_assoc, !app_nth2_plus. reflexivity.
Qed.

(** Nor on the blanks after it. *)
Lemma which_type_operand_before_blanks (core tr : cstring) :
  only_spaces_and_tabs core = false -> forallb is_blank tr = true ->
  which_type_operand (Some (core ++ tr)) = which_type_operand (Some core).
Proof.
  intros Hc Htr.
  pose proof (take_drop_while isspace core) as Hsplit.
  destruct (drop_while isspace core) as [|x rest] eqn:Ed.
  { rewrite app_nil_r in Hsplit. unfold only_spaces_and_tabs in Hc.
    rewrite Hsplit, take_while_all in Hc. discriminate. }
  pose proof (drop_while_head _ _ _ _ Ed) as Hx.
  pose proof (take_while_all isspace core) as Hsp.
  clear Ed Hc.
  set (sp := take_while isspace core) in *. clearbody sp. subst core.
  unfold which_type_operand, only_spaces_and_tabs, skip_from.
  rewrite (is_matrix_before_blanks _ _ Htr).
  rewrite !drop_0. cbn [Nat.add].
  rewrite <- app_assoc. cbn [app].
  rewrite !forallb_app. cbn [forallb]. rewrite Hx, Hsp. cbn [andb].
  rewrite !(take_while_app_stop _ sp x _ Hsp Hx).
  unfold nth_char. rewrite !nth_middle, !app_nth2_plus. cbn [nth].
  assert (is_register_digit (nth 0 (rest ++ tr) NUL)
          = is_register_digit (nth 0 rest NUL)) as ->; [|reflexivity].
  destruct rest; [|reflexivity]. destruct tr as [|b tr]; [reflexivity|].
  cbn [forallb] in Htr. apply andb_prop in Htr as [Hb _].
  destruct (blank_cases _ Hb); subst b; reflexivity.
Qed.

(** Cutting the blanks at the end of an operand, as the second pass does,
    leaves its mode as the first pass found it. *)
Lemma which_type_operand_trimmed (a : cstring) :
  which_type_operand (Some (truncate_at a (end_of_string a)))
  = which_type_operand (Some a).
Proof.
  unfold end_of_string, truncate_at.
  destruct (only_spaces_and_tabs a) eqn:E.
  - cbn. unfold which_type_operand. rewrite E. reflexivity.
  - assert (Ha : a = rev (drop_while is_blank (rev a))
                     ++ rev (take_while is_blank (rev a))).
    { rewrite <- rev_app_distr, <- take_drop_while, rev_involutive. reflexivity. }
    assert (Htr : forallb is_blank (rev (take_while is_blank (rev a))) = true)
      by (rewrite forallb_rev; apply take_while_all).
    rewrite Nat2Z.id.
    set (core := rev (drop_while is_blank (rev a))) in *.
    set (tr := rev (take_while is_blank (rev a))) in *.
    clearbody core tr. subst a.
    rewrite take_app_length.
    symmetry. apply which_type_operand_before_blanks; [|exact Htr].
    unfold only_spaces_and_tabs in *. rewrite forallb_app in E.
    rewrite (blanks_are_spaces _ Htr), andb_true_r in E. exact E.
Qed.

Lemma which_type_operand_blank s :
  which_type_operand (Some s) = NO_OPERAND -> only_spaces_and_tabs s = true.
Proof.
  unfold which_type_operand. destruct (only_spaces_and_tabs s); [reflexivity|].
  destruct (ascii_eqb _ "#"); [discriminate|].
  destruct (ascii_eqb _ "r" && _); [discriminate|].
  destruct (is_matrix s =? 0); discriminate.
Qed.

(** For an operand that is not a blank field, the two passes count the
    same words. *)
Lemma words_of_operand (o : option cstring) :
  blank_operand o = false ->
  words_for (which_type_operand o) = words_in_second_pass o.
Proof.
  destruct o as [s|]; [|reflexivity]. cbn [blank_operand]. intros H.
  unfold words_in_second_pass. unfold which_type_operand. rewrite H.
  destruct (ascii_eqb _ "#"); [reflexivity|].
  destruct (ascii_eqb _ "r" && _); [reflexivity|].
  destruct (is_matrix s =? 0); reflexivity.
Qed.

Lemma instruction_name_plain w :
  is_instruction_name w = true ->
  w <> []
  /\ forallb (fun c => negb (is_delim (cstr " ," ++ [TAB]) c)) w = true
  /\ forallb (fun c => negb (is_delim [" "%char; TAB] c)) w = true.
Proof.
  intros H. apply instruction_name_cases in H. cbn [map In] in H.
  repeat (destruct H as [<-|H];
          [split; [intros E; vm_compute in E; discriminate E|split; reflexivity]|]).
  contradiction.
Qed.

Lemma string_without_first_word_after_word (w sep : cstring) c r delims :
  w <> [] -> forallb (fun c => negb (is_delim delims c)) w = true ->
  sep <> [] -> forallb (is_delim delims) sep = true ->
  is_delim delims c = false ->
  string_without_first_word (w ++ sep ++ c :: r) delims = Some (c :: r).
Proof.
  intros Hw Hall Hsep Hds Hc. unfold string_without_first_word.
  destruct w as [|x w]; [contradiction|]. destruct sep as [|d sep]; [contradiction|].
  pose proof Hall as Hall'. cbn [forallb] in Hall, Hds.
  apply andb_prop in Hall as [Hx _]. apply andb_prop in Hds as [Hd Hds].
  apply negb_true_iff in Hx.
  cbn [app]. rewrite (drop_while_stop _ _ _ Hx).
  change (x :: w ++ d :: sep ++ c :: r) with ((x :: w) ++ d :: (sep ++ c :: r)).
  rewrite (drop_while_app_stop _ (x :: w) d _ Hall') by now rewrite Hd.
  cbn [drop_while]. rewrite Hd.
  rewrite (drop_while_app_stop _ sep c r Hds Hc). reflexivity.
Qed.

Lemma blanks_are_delimiters sep delims :
  is_delim delims " " = true -> is_delim delims TAB = true ->
  forallb is_blank sep = true -> forallb (is_delim delims) sep = true.
Proof.
  intros H1 H2. induction sep as [|b sep IH]; cbn [forallb]; [reflexivity|].
  intros H. apply andb_prop in H as [Hb H]. rewrite IH by assumption.
  destruct (blank_cases _ Hb); subst b; [rewrite H1|rewrite H2]; reflexivity.
Qed.

(** The modes that the first pass finds on a line made of the name of an
    instruction, blanks and operands are those of the operands that the
    second pass finds after the name; the first of them is not blank. *)
Lemma operand_modes_of_line w1 sep c ops :
  is_instruction_name w1 = true ->
  sep <> [] -> forallb is_blank sep = true ->
  isspace c = false -> c <> ","%char ->
  operand_modes (w1 ++ sep ++ c :: ops)
  = (which_type_operand (fst (second_pass_operands (c :: ops))),
     which_type_operand (snd (second_pass_operands (c :: ops))))
  /\ (exists s, fst (second_pass_operands (c :: ops)) = Some s)
  /\ which_type_operand (fst (second_pass_operands (c :: ops))) <> NO_OPERAND.
Proof.
  intros Hn Hsep Hb Hc Hcomma.
  destruct (instruction_name_plain w1 Hn) as (Hw & Hall & _).
  destruct sep as [|b sep]; [contradiction|].
  cbn [forallb] in Hb. apply andb_prop in Hb as [Hb Hb'].
  assert (Hcd : is_delim (cstr ",") c = false).
  { cbn. rewrite orb_false_r. apply Ascii.eqb_neq. exact Hcomma. }
  destruct (strtok_after_blanks sep c ops Hb' Hcd) as (Ht & Hs & Ht0).
  assert (Hfirst : strtok (w1 ++ (b :: sep) ++ c :: ops) (cstr " ," ++ [TAB])
                   = {| token := Some w1; saved := sep ++ c :: ops; buffer := w1 |}).
  { cbn [app]. apply strtok_first_token; [exact Hw|exact Hall|].
    destruct (blank_cases _ Hb); subst b; reflexivity. }
  unfold operand_modes, second_pass_operands. cbn [fst snd].
  rewrite Hfirst. cbn [saved]. rewrite Ht, Hs, Ht0. unfold fmap, option_fmap, option_map.
  set (a := take_while (fun c0 => negb (is_delim (cstr ",") c0)) (c :: ops)) in *.
  assert (Ha : only_spaces_and_tabs a = false).
  { unfold a. cbn [take_while]. rewrite Hcd. cbn. now rewrite Hc. }
  rewrite which_type_operand_after_blanks by exact Hb'.
  rewrite which_type_operand_trimmed.
  split; [|split].
  - f_equal.
    destruct (token (strtok (saved (strtok (c :: ops) (cstr ","))) (cstr ","))) as [y|];
      [|reflexivity].
    now rewrite which_type_operand_trimmed.
  - eexists; reflexivity.
  - intros E. apply which_type_operand_blank in E. congruence.
Qed.

(** X30 (code.c, [first_pass]; instruction.c, [instruction];
    second_pass.c, [second_pass], [instruction_uptade_address]): the lines
    on which the two passes stay in step.  On a line without label made of
    the name of an instruction, one or more blanks and operands that do not
    start with a comma, where the second operand, when there is one, is not
    a blank field, the second pass advances its counter IC2 by as many
    words as the first pass advanced IC when it accepted the line without a
    diagnostic. *)
Theorem passes_count_the_same_words w1 sep c ops cl macros t r t' cl2 u r2 u' :
  is_instruction_name w1 = true ->
  sep <> [] -> forallb is_blank sep = true ->
  isspace c = false -> c <> ","%char ->
  blank_operand (snd (second_pass_operands (c :: ops))) = false ->
  first_pass (w1 ++ sep ++ c :: ops) cl macros t = Returns r t' ->
  errortable t' = errortable t ->
  second_pass (w1 ++ sep ++ c :: ops) cl2 u = Returns r2 u' ->
  ic2 u' - ic2 u = ic t' - ic t.
Proof.
  intros Hn Hsep Hb Hc Hcomma Hsecond H1 He H2.
  destruct (operand_modes_of_line w1 sep c ops Hn Hsep Hb Hc Hcomma)
    as (Hmodes & (s & Hs) & Hpresent).
  destruct (instruction_name_plain w1 Hn) as (Hw & Hall & Hall2).
  assert (Hw1 : token (strtok (w1 ++ sep ++ c :: ops) (cstr " ," ++ [TAB])) = Some w1).
  { destruct sep as [|b sep]; [contradiction|].
    cbn [forallb] in Hb. apply andb_prop in Hb as [Hb _].
    cbn [app]. rewrite strtok_first_token; [reflexivity|exact Hw|exact Hall|].
    destruct (blank_cases _ Hb); subst b; reflexivity. }
  assert (Hrest : string_without_first_word (w1 ++ sep ++ c :: ops) [" "%char; TAB]
                  = Some (c :: ops)).
  { apply string_without_first_word_after_word; try assumption.
    - now apply blanks_are_delimiters.
    - cbn. rewrite orb_false_r. apply orb_false_intro; apply Ascii.eqb_neq;
        intros ->; discriminate Hc. }
  set (str := w1 ++ sep ++ c :: ops) in *.
  (* the first pass *)
  assert (Hi : exists r0, instruction str cl t = Returns r0 t').
  { unfold first_pass in H1. cbv zeta in H1.
    destruct (negb _ && _ && _ && _).
    - unfold bind, add_error, ret in H1. injection H1 as _ <-.
      cbn in He. apply (f_equal length) in He. rewrite length_app in He.
      cbn in He. lia.
    - rewrite Hw1 in H1.
      destruct (which_type_instruction w1 cl UPDATE t Hn) as [E1 E2].
      rewrite E2 in H1. change (negb (0 =? 0)) with false in H1. cbn iota in H1.
      unfold bind at 1 in H1. rewrite E1 in H1.
      unfold first_pass_dispatch in H1.
      change (INSTRUCTION =? DIRECTIVE) with false in H1.
      change (INSTRUCTION =? INSTRUCTION) with true in H1. cbn iota in H1.
      apply bind_returns in H1 as (r0 & t1 & H1 & Hret).
      injection Hret as _ <-. eauto. }
  destruct Hi as [r0 Hi].
  destruct (instruction_word_count str cl t r0 t' w1 Hw1 Hn Hi He) as [_ Hic].
  (* the second pass *)
  assert (Hu : exists r3, instruction_uptade_address (c :: ops) cl2 u = Returns r3 u').
  { unfold second_pass in H2. cbv zeta in H2. rewrite Hw1 in H2.
    destruct (which_type_instruction w1 cl2 NOT_UPDATE u Hn) as [E1 E2].
    unfold bind at 1 in H2. rewrite E1 in H2.
    destruct (second_word_type (token (strtok (saved (strtok str (cstr " ," ++ [TAB])))
                                          (cstr " ," ++ [TAB]))) cl2 u) as [r3 E].
    unfold bind at 1 in H2. rewrite E in H2.
    change (INSTRUCTION =? - 1) with false in H2. cbn iota in H2.
    change (INSTRUCTION =? INSTRUCTION) with true in H2. cbn iota in H2.
    rewrite E2 in H2. change (negb (0 =? 0)) with false in H2. cbn iota in H2.
    rewrite Hrest in H2.
    destruct (strcmp_eq (c :: ops) EXIT_C); [discriminate H2|].
    apply bind_returns in H2 as (r4 & u1 & H2 & Hret).
    injection Hret as _ <-. eauto. }
  destruct Hu as [r3 Hu].
  apply instruction_uptade_address_words in Hu.
  rewrite Hmodes in Hic. cbn [fst snd] in Hic.
  assert (Hfirst : blank_operand (fst (second_pass_operands (c :: ops))) = false).
  { rewrite Hs in *. cbn [blank_operand].
    destruct (only_spaces_and_tabs s) eqn:Eb; [|reflexivity].
    exfalso. apply Hpresent. unfold which_type_operand. now rewrite Eb. }
  rewrite (words_of_operand _ Hfirst), (words_of_operand _ Hsecond) in Hic.
  apply Z.eqb_neq in Hpresent. rewrite Hpresent in Hic. lia.
Qed.

Lemma passes_count_the_same_words_witness :
  exists t' u',
    first_pass (cstr "mov M[r1][r2], r3") 4 [] initial_tables = Returns 1 t'
    /\ second_pass (cstr "mov M[r1][r2], r3") 4 initial_tables = Returns 1 u'
    /\ ic2 u' - ic2 initial_tables = ic t' - ic initial_tables.
Proof.
  eexists _, _. split; [vm_compute; reflexivity|]. split; [vm_compute; reflexivity|].
  apply (passes_count_the_same_words (cstr "mov") (cstr " ") "M" (cstr "[r1][r2], r3")
           4 [] initial_tables 1 _ 4 initial_tables 1 _);
    try (vm_compute; reflexivity); discriminate.
Defined.

(** * Lines of [lea] through the first pass *)

(** ** The characters of an operand *)

Lemma name_char_cases c :
  is_name_char c = true ->
  operand_char c = true /\ ascii_eqb c "[" = false /\ ascii_eqb c "]" = false.
Proof.
  intros H. destruct c as [[] [] [] [] [] [] [] []]; vm_compute in H;
    try discriminate H; vm_compute; repeat split; reflexivity.
Qed.

Lemma alpha_cases c :
  isalpha c = true ->
  is_name_char c = true /\ isalnum c = true /\ ascii_eqb c "#" = false
  /\ isspace c = false.
Proof.
  intros H. destruct c as [[] [] [] [] [] [] [] []]; vm_compute in H;
    try discriminate H; vm_compute; repeat split; reflexivity.
Qed.

Lemma register_digit_name d :
  is_register_digit d = true -> is_name_char d = true /\ isalnum d = true.
Proof.
  intros H. destruct d as [[] [] [] [] [] [] [] []]; vm_compute in H;
    try discriminate H; vm_compute; repeat split; reflexivity.
Qed.

Lemma operand_char_cases c :
  operand_char c = true ->
  isspace c = false /\ is_blank c = false
  /\ is_delim (cstr " ," ++ [TAB]) c = false
  /\ is_delim (cstr ",") c = false
  /\ ascii_eqb c ":" = false.
Proof.
  intros H. destruct c as [[] [] [] [] [] [] [] []]; vm_compute in H;
    try discriminate H; vm_compute; repeat split; reflexivity.
Qed.

(** ** The text of a well-formed operand *)

Lemma label_text_cases name :
  label_text name = true ->
  exists c name',
    name = c :: name' /\ isalpha c = true
    /\ forallb is_name_char name' = true
    /\ (ascii_eqb c "r" && is_register_digit (nth_char name' 0)) = false.
Proof.
  unfold label_text. intros H.
  apply andb_prop in H as [H H3]. apply andb_prop in H as [H1 H2].
  destruct name as [|c name']; [discriminate H1|].
  exists c, name'. unfold nth_char in *. cbn [nth forallb] in *.
  apply andb_prop in H2 as [_ H2]. apply negb_true_iff in H3. auto.
Qed.

Lemma text_starts o :
  well_formed_operand o = true ->
  exists c rest, text_of o = c :: rest /\ isalpha c = true.
Proof.
  destruct o as [name|name d1 d2|d]; cbn [well_formed_operand text_of]; intros H.
  - apply label_text_cases in H as (c & name' & -> & Hc & _). eauto.
  - apply andb_prop in H as [H _]. apply andb_prop in H as [H _].
    apply andb_prop in H as [H _].
    apply label_text_cases in H as (c & name' & -> & Hc & _). cbn [app]. eauto.
  - exists "r"%char, [d]. split; reflexivity.
Qed.

Lemma name_chars_operand (s : cstring) :
  forallb is_name_char s = true -> forallb operand_char s = true.
Proof.
  induction s as [|c s IH]; cbn [forallb]; [reflexivity|].
  intros H. apply andb_prop in H as [Hc H].
  rewrite (proj1 (name_char_cases c Hc)), IH by assumption. reflexivity.
Qed.

Lemma alnum_name_chars (s : cstring) :
  forallb isalnum s = true -> forallb is_name_char s = true.
Proof.
  induction s as [|c s IH]; cbn [forallb]; [reflexivity|].
  intros H. apply andb_prop in H as [Hc H]. rewrite IH by assumption.
  unfold is_name_char. rewrite Hc. reflexivity.
Qed.

Lemma register_digit_operand d :
  is_register_digit d = true -> operand_char d = true.
Proof.
  intros H. apply name_char_cases. now apply register_digit_name.
Qed.

Lemma text_chars o :
  well_formed_operand o = true -> forallb operand_char (text_of o) = true.
Proof.
  destruct o as [name|name d1 d2|d]; cbn [well_formed_operand text_of]; intros H.
  - apply label_text_cases in H as (c & name' & -> & Hc & Hn & _).
    apply name_chars_operand. cbn [forallb].
    now rewrite (proj1 (alpha_cases c Hc)), Hn.
  - apply andb_prop in H as [H H2]. apply andb_prop in H as [H H1].
    apply andb_prop in H as [H _].
    apply label_text_cases in H as (c & name' & -> & Hc & Hn & _).
    rewrite forallb_app. cbn [forallb].
    rewrite (name_chars_operand name' Hn).
    rewrite (proj1 (name_char_cases c (proj1 (alpha_cases c Hc)))).
    rewrite (register_digit_operand d1 H1), (register_digit_operand d2 H2).
    reflexivity.
  - cbn [forallb]. now rewrite (register_digit_operand d H).
Qed.

Lemma operand_chars_not (p : ascii -> bool) (s : cstring) :
  (forall c, operand_char c = true -> p c = false) ->
  forallb operand_char s = true -> forallb (fun c => negb (p c)) s = true.
Proof.
  intros Hp. induction s as [|c s IH]; cbn [forallb]; [reflexivity|].
  intros H. apply andb_prop in H as [Hc H].
  rewrite (Hp c Hc), IH by assumption. reflexivity.
Qed.

Lemma filter_absent (x : ascii) (s : cstring) :
  forallb (fun c => negb (ascii_eqb c x)) s = true ->
  filter (fun c => ascii_eqb c x = true) s = [].
Proof.
  induction s as [|b s IH]; [reflexivity|].
  cbn [forallb]. intros H. apply andb_prop in H as [Hb H].
  rewrite filter_cons. destruct (decide _) as [E|E]; [|auto].
  rewrite E in Hb. discriminate Hb.
Qed.

Lemma is_matrix_name (s : cstring) :
  forallb is_name_char s = true -> is_matrix s = 1.
Proof.
  intros H. unfold is_matrix.
  rewrite !filter_absent; [reflexivity| |].
  - apply forallb_forall. intros c Hc. rewrite forallb_forall in H.
    now rewrite (proj2 (proj2 (name_char_cases c (H c Hc)))).
  - apply forallb_forall. intros c Hc. rewrite forallb_forall in H.
    now rewrite (proj1 (proj2 (name_char_cases c (H c Hc)))).
Qed.

Lemma is_matrix_bracket (pre rest : cstring) :
  is_matrix (pre ++ "["%char :: rest) = 0.
Proof.
  unfold is_matrix. rewrite filter_app, filter_cons_True by reflexivity.
  rewrite length_app. cbn [length].
  assert ((0 <? Z.of_nat (length (filter (fun c => ascii_eqb c "[" = true) pre)
                          + S (length (filter (fun c => ascii_eqb c "[" = true) rest))))
          = true) as -> by (apply Z.ltb_lt; lia).
  reflexivity.
Qed.

(** The mode that the classifier finds for a well-formed operand. *)
Lemma text_mode o :
  well_formed_operand o = true ->
  which_type_operand (Some (text_of o)) = mode_of o.
Proof.
  destruct o as [name|name d1 d2|d]; cbn [well_formed_operand text_of mode_of]; intros H.
  - apply label_text_cases in H as (c & name' & -> & Hc & Hn & Hr).
    destruct (alpha_cases c Hc) as (Hcn & _ & Hsharp & Hsp).
    unfold which_type_operand, only_spaces_and_tabs. cbn [forallb].
    rewrite Hsp. cbn [andb]. rewrite skip_from_0, (take_while_none _ _ _ Hsp).
    unfold nth_char in *. cbn [length Nat.add nth]. rewrite Hsharp, Hr.
    rewrite is_matrix_name; [reflexivity|]. cbn [forallb]. now rewrite Hcn, Hn.
  - apply andb_prop in H as [H H2]. apply andb_prop in H as [H H1].
    apply andb_prop in H as [H _].
    apply label_text_cases in H as (c & name' & -> & Hc & Hn & Hr).
    destruct (alpha_cases c Hc) as (Hcn & _ & Hsharp & Hsp).
    unfold which_type_operand, only_spaces_and_tabs. cbn [forallb app].
    rewrite Hsp. cbn [andb]. rewrite skip_from_0, (take_while_none _ _ _ Hsp).
    unfold nth_char in *. cbn [length Nat.add nth]. rewrite Hsharp.
    assert ((ascii_eqb c "r"
             && is_register_digit
                  (nth 0 (name' ++ "["%char :: "r"%char :: d1 :: "]"%char
                                :: "["%char :: "r"%char :: d2 :: "]"%char :: []) NUL))
            = false) as ->.
    { destruct name' as [|x name']; [|exact Hr]. cbn [app nth].
      change (is_register_digit "[") with false. apply andb_false_r. }
    change (c :: name' ++ "["%char :: "r"%char :: d1 :: "]"%char
                   :: "["%char :: "r"%char :: d2 :: "]"%char :: [])
      with ((c :: name') ++ "["%char :: "r"%char :: d1 :: "]"%char
                   :: "["%char :: "r"%char :: d2 :: "]"%char :: []).
    now rewrite is_matrix_bracket.
  - apply (which_type_operand_register_prefix [] d []); [reflexivity | exact H].
Qed.

Lemma text_not_blank o :
  well_formed_operand o = true -> only_spaces_and_tabs (text_of o) = false.
Proof.
  intros H. destruct (text_starts o H) as (c & rest & -> & Hc).
  unfold only_spaces_and_tabs. cbn [forallb].
  now rewrite (proj2 (proj2 (proj2 (alpha_cases c Hc)))).
Qed.

(** The classifier on a well-formed operand between blanks. *)
Lemma text_mode_blanks o (pre post : cstring) :
  well_formed_operand o = true ->
  forallb is_blank pre = true -> forallb is_blank post = true ->
  which_type_operand (Some (pre ++ text_of o ++ post)) = mode_of o.
Proof.
  intros H Hpre Hpost.
  rewrite which_type_operand_after_blanks by exact Hpre.
  rewrite which_type_operand_before_blanks by (auto using text_not_blank).
  now apply text_mode.
Qed.

(** ** Tokens *)

(** The first token of a string: what follows the leading delimiters, up
    to the next delimiter or the end. *)
Lemma strtok_token (lead w rest delims : cstring) :
  forallb (is_delim delims) lead = true ->
  w <> [] ->
  forallb (fun c => negb (is_delim delims c)) w = true ->
  rest = [] \/ (exists d r, rest = d :: r /\ is_delim delims d = true) ->
  token (strtok (lead ++ w ++ rest) delims) = Some w
  /\ saved (strtok (lead ++ w ++ rest) delims) = drop 1 rest.
Proof.
  intros Hlead Hw Hall Hrest. destruct w as [|x w]; [contradiction|].
  pose proof Hall as Hx. cbn [forallb] in Hx. apply andb_prop in Hx as [Hx _].
  apply negb_true_iff in Hx.
  unfold strtok. rewrite (drop_while_app_all _ _ _ Hlead).
  cbn [app]. rewrite (drop_while_stop _ _ _ Hx).
  change (x :: w ++ rest) with ((x :: w) ++ rest).
  destruct Hrest as [->|(d & r & -> & Hd)].
  - rewrite app_nil_r, (drop_while_all _ _ Hall), (take_while_idem _ _ Hall).
    split; reflexivity.
  - rewrite (take_while_app_stop _ (x :: w) d r Hall) by now rewrite Hd.
    rewrite (drop_while_app_stop _ (x :: w) d r Hall) by now rewrite Hd.
    split; reflexivity.
Qed.

(** What follows blanks is the end of the string or a delimiter, for
    delimiters that count the blank and the tab. *)
Lemma blanks_then (delims s rest : cstring) :
  is_delim delims " " = true -> is_delim delims TAB = true ->
  forallb is_blank s = true ->
  rest = [] \/ (exists d r, rest = d :: r /\ is_delim delims d = true) ->
  s ++ rest = [] \/ (exists d r, s ++ rest = d :: r /\ is_delim delims d = true).
Proof.
  intros H1 H2 Hs Hrest. destruct s as [|b s]; [exact Hrest|].
  right. exists b, (s ++ rest). split; [reflexivity|].
  cbn [forallb] in Hs. apply andb_prop in Hs as [Hb _].
  destruct (blank_cases _ Hb); subst b; assumption.
Qed.

Lemma string_without_first_word_lead (lead s delims : cstring) :
  forallb (is_delim delims) lead = true ->
  string_without_first_word (lead ++ s) delims = string_without_first_word s delims.
Proof.
  intros H. unfold string_without_first_word.
  now rewrite (drop_while_app_all _ _ _ H).
Qed.

(** What is left of a string after the white space at its end. *)
Lemma trim_right_pad (s pad : cstring) :
  forallb isspace pad = true -> trim_right (s ++ pad) = trim_right s.
Proof.
  intros H. unfold trim_right. rewrite rev_app_distr.
  rewrite drop_while_app_all by (now rewrite forallb_rev). reflexivity.
Qed.

Lemma trim_right_operand (pre s : cstring) :
  s <> [] -> forallb operand_char s = true -> trim_right (pre ++ s) = pre ++ s.
Proof.
  intros Hs Hall.
  destruct (rev s) as [|e r] eqn:E.
  { apply (f_equal (@length ascii)) in E. rewrite List.length_rev in E.
    destruct s; [contradiction | discriminate E]. }
  apply (trim_right_fixed (pre ++ s) e (r ++ rev pre)).
  - rewrite rev_app_distr, E. reflexivity.
  - rewrite forallb_forall in Hall.
    apply (operand_char_cases e). apply Hall. apply in_rev. rewrite E. now left.
Qed.

(** ** [parse_ops] on two operands *)

Lemma parse_ops_two_operands (s before after d trail : cstring) lc t :
  s <> [] -> forallb operand_char s = true ->
  d <> [] -> forallb operand_char d = true ->
  forallb is_blank before = true -> forallb is_blank after = true ->
  forallb is_blank trail = true ->
  parse_ops (Some (s ++ before ++ ","%char :: after ++ d ++ trail)) lc t = Returns 1 t.
Proof.
  intros Hs Hsc Hd Hdc Hbefore Hafter Htrail.
  assert (Hnc : forall x, forallb operand_char x = true ->
                          forallb (fun c => negb (is_comma c)) x = true).
  { intros x. apply operand_chars_not. intros c Hc. unfold is_comma.
    destruct (operand_char_cases c Hc) as (_ & _ & _ & H & _).
    cbn in H. now rewrite orb_false_r in H. }
  assert (Hbc : forall x, forallb is_blank x = true ->
                          forallb (fun c => negb (is_comma c)) x = true).
  { intros x Hx. apply forallb_forall. intros c Hc. rewrite forallb_forall in Hx.
    destruct (blank_cases _ (Hx c Hc)); subst c; reflexivity. }
  destruct s as [|c s']; [contradiction|].
  pose proof Hsc as Hc. cbn [forallb] in Hc. apply andb_prop in Hc as [Hc _].
  destruct (operand_char_cases c Hc) as (Hcsp & _).
  destruct d as [|e d']; [contradiction|].
  pose proof Hdc as He. cbn [forallb] in He. apply andb_prop in He as [He _].
  destruct (operand_char_cases e He) as (Hesp & _).
  unfold parse_ops. cbv zeta.
  cbn [app]. rewrite (drop_while_stop _ _ _ Hcsp).
  assert (trim_right (c :: s' ++ before ++ ","%char :: after ++ e :: d' ++ trail)
          = ((c :: s') ++ before) ++ ","%char :: after ++ e :: d') as ->.
  { replace (c :: s' ++ before ++ ","%char :: after ++ e :: d' ++ trail)
      with ((((c :: s') ++ before ++ ","%char :: after) ++ e :: d') ++ trail)
      by (rewrite <- !app_assoc; reflexivity).
    rewrite trim_right_pad by now apply blanks_are_spaces.
    rewrite trim_right_operand by (discriminate || assumption).
    rewrite <- !app_assoc. reflexivity. }
  assert (Hop1 : forallb (fun c => negb (is_comma c)) ((c :: s') ++ before) = true)
    by (rewrite forallb_app, (Hnc _ Hsc), (Hbc _ Hbefore); reflexivity).
  rewrite (take_while_app_stop _ _ "," _ Hop1 eq_refl).
  rewrite (drop_while_app_stop _ _ "," _ Hop1 eq_refl).
  assert (existsb is_comma (after ++ e :: d') = false) as ->.
  { apply not_true_is_false. intros H. apply existsb_exists in H as (x & Hin & Hx).
    apply in_app_or in Hin as [Hin|Hin].
    - pose proof (Hbc _ Hafter) as Hg. rewrite forallb_forall in Hg.
      specialize (Hg x Hin). now rewrite Hx in Hg.
    - pose proof (Hnc _ Hdc) as Hd'. rewrite forallb_forall in Hd'.
      specialize (Hd' x Hin). now rewrite Hx in Hd'. }
  cbn [app]. rewrite (drop_while_stop _ _ _ Hcsp).
  change (c :: s' ++ before) with ((c :: s') ++ before).
  rewrite trim_right_pad by now apply blanks_are_spaces.
  rewrite (trim_right_operand [] (c :: s') ltac:(discriminate) Hsc
           : trim_right (c :: s') = c :: s').
  cbn [length Nat.eqb].
  rewrite (drop_while_app_stop _ after e d' (blanks_are_spaces _ Hafter) Hesp).
  reflexivity.
Qed.

(** ** A well-formed matrix operand *)

Lemma is_valid_matrix_accepts (pre name post : cstring) d1 d2 lc t :
  forallb is_blank pre = true -> forallb is_blank post = true ->
  label_text name = true -> forallb isalnum name = true ->
  is_register_digit d1 = true -> is_register_digit d2 = true ->
  is_valid_matrix (pre ++ text_of (Matrix_operand name d1 d2) ++ post) lc t
  = Returns 1 t.
Proof.
  intros Hpre Hpost Hname Hal H1 H2.
  apply label_text_cases in Hname as (c & name' & -> & Hc & _ & _).
  cbn [forallb] in Hal. apply andb_prop in Hal as [_ Hal].
  destruct (alpha_cases c Hc) as (_ & _ & _ & Hcsp).
  destruct (register_digit_cases d1 H1) as (Hd1 & _).
  destruct (register_digit_cases d2 H2) as (Hd2 & _).
  cbn [text_of].
  set (tail := "["%char :: "r"%char :: d1 :: "]"%char
               :: "["%char :: "r"%char :: d2 :: "]"%char :: post).
  set (P := pre ++ c :: name').
  replace (pre ++ ((c :: name') ++ "["%char :: "r"%char :: d1 :: "]"%char
                   :: "["%char :: "r"%char :: d2 :: "]"%char :: []) ++ post)
    with (P ++ tail)
    by (unfold P, tail; rewrite <- !app_assoc; reflexivity).
  assert (Hn : forall k, nth_char (P ++ tail) (length P + k) = nth_char tail k)
    by (intros k; apply nth_char_app_r).
  assert (Hs : forall k, skip_from isspace (P ++ tail) (length P + k)
                         = (length P + skip_from isspace tail k)%nat)
    by (intros k; apply skip_from_app_r).
  assert (Hl : forall k, (k < 8)%nat ->
                         (length (P ++ tail) <=? length P + k)%nat = false).
  { intros k Hk. apply Nat.leb_gt. rewrite length_app. cbn [tail length]. lia. }
  assert (A0 : skip_from isspace (P ++ tail) 0 = length pre).
  { rewrite skip_from_0. unfold P. rewrite <- app_assoc. cbn [app].
    now rewrite (take_while_app_stop _ pre c _ (blanks_are_spaces _ Hpre) Hcsp). }
  assert (A1 : nth_char (P ++ tail) (length pre) = c).
  { unfold P. rewrite <- app_assoc. cbn [app]. apply nth_char_app_middle. }
  assert (A2 : skip_from isalnum (P ++ tail) (length pre + 1) = (length P + 0)%nat).
  { unfold P at 1. rewrite <- app_assoc. rewrite skip_from_app_r.
    unfold skip_from. cbn [app drop]. rewrite drop_0. unfold tail.
    rewrite (take_while_app_stop isalnum name' "[" _ Hal eq_refl).
    unfold P. rewrite length_app. cbn [length]. lia. }
  unfold is_valid_matrix. cbv zeta.
  rewrite A0, A1, Hc. cbn [negb]. rewrite A2.
  rewrite Hl, Hn by lia. change (nth_char tail 0) with "["%char.
  change (ascii_eqb "[" "[") with true. cbn [negb orb].
  replace (length P + 0 + 1)%nat with (length P + 1)%nat by lia.
  rewrite (Hs 1%nat). change (skip_from isspace tail 1) with 1%nat.
  unfold no_register_at.
  replace (length P + 1 + 1)%nat with (length P + 2)%nat by lia.
  rewrite !Hl, !Hn by lia.
  change (nth_char tail 1) with "r"%char. change (nth_char tail 2) with d1.
  rewrite Hd1, H1. change (ascii_eqb "r" "r") with true. cbn [negb orb].
  replace (length P + 1 + 2)%nat with (length P + 3)%nat by lia.
  rewrite (Hs 3%nat). change (skip_from isspace tail 3) with 3%nat.
  rewrite !Hl, !Hn by lia. change (nth_char tail 3) with "]"%char.
  change (ascii_eqb "]" "]") with true. cbn [negb orb].
  replace (length P + 3 + 1)%nat with (length P + 4)%nat by lia.
  rewrite !Hl, !Hn by lia. change (nth_char tail 4) with "["%char.
  change (ascii_eqb "[" "[") with true. cbn [negb orb].
  replace (length P + 4 + 1)%nat with (length P + 5)%nat by lia.
  rewrite (Hs 5%nat). change (skip_from isspace tail 5) with 5%nat.
  replace (length P + 5 + 1)%nat with (length P + 6)%nat by lia.
  rewrite !Hl, !Hn by lia.
  change (nth_char tail 5) with "r"%char. change (nth_char tail 6) with d2.
  rewrite Hd2, H2. change (ascii_eqb "r" "r") with true. cbn [negb orb].
  replace (length P + 5 + 2)%nat with (length P + 7)%nat by lia.
  rewrite (Hs 7%nat). change (skip_from isspace tail 7) with 7%nat.
  rewrite !Hl, !Hn by lia. change (nth_char tail 7) with "]"%char.
  change (ascii_eqb "]" "]") with true. cbn [negb orb].
  replace (length P + 7 + 1)%nat with (length P + 8)%nat by lia.
  rewrite (drop_app_add' P tail (length P) 8 eq_refl).
  change (drop 8 tail) with post.
  assert (forallb (fun c0 => isspace c0 || ascii_eqb c0 ",") post = true) as ->.
  { apply forallb_forall. intros x Hx. rewrite forallb_forall in Hpost.
    destruct (blank_cases _ (Hpost x Hx)); subst x; reflexivity. }
  reflexivity.
Qed.

(** ** The words of an operand *)

Lemma appended_cell w t :
  0 <= ic t < Z.of_nat (length (instable t)) ->
  appended 1 t (set_instable t (<[Z.to_nat (ic t) := w]> (instable t)) (ic t + 1))
  /\ <[Z.to_nat (ic t) := w]> (instable t) !! Z.to_nat (ic t) = Some w.
Proof.
  intros H. split.
  - unfold appended. cbn [ic instable set_instable errortable labeltable datatable
                          extable ic2].
    split; [reflexivity|]. split; [apply length_insert|].
    split; [|repeat split; reflexivity].
    intros i Hi. apply list_lookup_insert_ne. lia.
  - apply list_lookup_insert_eq. lia.
Qed.

Lemma add_ins_appended w t :
  0 <= ic t < Z.of_nat (length (instable t)) ->
  exists t', add_ins w t = Returns 1 t' /\ appended 1 t t'.
Proof.
  intros H. rewrite (add_ins_room w t H). eexists. split; [reflexivity|].
  apply (appended_cell w t H).
Qed.

Lemma appended_trans n m t1 t2 t3 :
  0 <= n -> appended n t1 t2 -> appended m t2 t3 -> appended (n + m) t1 t3.
Proof.
  intros Hn (A1 & A2 & A3 & A4 & A5 & A6 & A7 & A8)
         (B1 & B2 & B3 & B4 & B5 & B6 & B7 & B8).
  unfold appended. repeat split; try congruence; try lia.
  intros i Hi. rewrite B3 by lia. now apply A3.
Qed.

(** [update] on a well-formed operand, with the blanks that the caller
    leaves around it: the words of the operand are appended and nothing is
    reported. *)
Lemma update_well_formed_operand o (pre post : cstring) word2 operand2 lc t :
  well_formed_operand o = true ->
  forallb is_blank pre = true -> forallb is_blank post = true ->
  (mode_of o = REGISTER -> operand2 <> REGISTER) ->
  0 <= ic t -> ic t + 2 <= Z.of_nat (length (instable t)) ->
  exists t',
    update (pre ++ text_of o ++ post) word2 (mode_of o) operand2 lc t = Returns 1 t'
    /\ appended (words_for (mode_of o)) t t'.
Proof.
  intros Hwf Hpre Hpost Hreg Hic Hroom.
  destruct o as [name|name d1 d2|d]; cbn [well_formed_operand mode_of] in *.
  - (* a label *)
    unfold update. cbv zeta.
    change (DIRECT =? IMMEDIATE) with false. change (DIRECT =? DIRECT) with true.
    cbn iota. unfold SET_ADDRESS_AND_TYPE.
    destruct (add_ins_appended
                (RECORD_TYPE_ADDRESS (to_unsigned NO_KNEWN) (to_unsigned NO_KNEWN)) t)
      as (t1 & E & Ha); [lia|].
    unfold bind. rewrite E. exists t1. split; [reflexivity | exact Ha].
  - (* a matrix *)
    apply andb_prop in Hwf as [Hwf H2]. apply andb_prop in Hwf as [Hwf H1].
    apply andb_prop in Hwf as [Hname Hal].
    unfold update. cbv zeta.
    change (MATRIX =? IMMEDIATE) with false. change (MATRIX =? DIRECT) with false.
    change (MATRIX =? MATRIX) with true. cbn iota.
    unfold bind at 1. rewrite is_valid_matrix_accepts by assumption.
    change (1 =? 0) with false. cbn iota. cbn [text_of].
    assert (Hne : name <> []).
    { apply label_text_cases in Hname as (c & name' & -> & _). discriminate. }
    assert (Hnd : forallb (fun x => negb (is_delim (cstr " []" ++ [TAB]) x)) name = true).
    { apply forallb_forall. intros x Hx. rewrite forallb_forall in Hal.
      apply negb_true_iff, alnum_not_delimiter. auto. }
    destruct (register_digit_cases d1 H1) as (_ & _ & Hd1 & _).
    destruct (register_digit_cases d2 H2) as (_ & _ & Hd2 & _).
    rewrite <- (app_assoc name). cbn [app].
    destruct (strtok_token pre name
                ("["%char :: "r"%char :: d1 :: "]"%char
                 :: "["%char :: "r"%char :: d2 :: "]"%char :: post)
                (cstr " []" ++ [TAB])) as [T1 S1];
      [ now apply blanks_are_delimiters | exact Hne | exact Hnd
      | right; eexists _, _; split; reflexivity | ].
    rewrite S1. cbn [drop].
    destruct (strtok_token [] ["r"%char; d1]
                ("]"%char :: "["%char :: "r"%char :: d2 :: "]"%char :: post)
                (cstr " []" ++ [TAB])) as [T2 S2];
      [ reflexivity | discriminate | cbn [forallb]; now rewrite Hd1
      | right; eexists _, _; split; reflexivity | ].
    cbn [app] in T2, S2. rewrite T2, S2. cbn [drop].
    destruct (strtok_token ["["%char] ["r"%char; d2] ("]"%char :: post)
                (cstr " []" ++ [TAB])) as [T3 _];
      [ reflexivity | discriminate | cbn [forallb]; now rewrite Hd2
      | right; eexists _, _; split; reflexivity | ].
    cbn [app] in T3. rewrite T3. cbn [drop].
    unfold SET_ADDRESS_AND_TYPE, SET_REGISTE_AND_TYPE.
    destruct (add_ins_appended
                (RECORD_TYPE_ADDRESS (to_unsigned NO_KNEWN) (to_unsigned NO_KNEWN)) t)
      as (t1 & E1 & A1); [lia|].
    unfold bind at 1. rewrite E1.
    destruct (add_ins_appended
                (RECORD_TYPE_REGISTER (to_unsigned (atoi [d1]))
                   (to_unsigned (atoi [d2]))
                   (to_unsigned ABSOLUTE)) t1)
      as (t2 & E2 & A2).
    { destruct A1 as (I1 & L1 & _). rewrite I1, L1. lia. }
    unfold bind at 1. rewrite E2. exists t2. split; [reflexivity|].
    exact (appended_trans 1 1 t t1 t2 ltac:(lia) A1 A2).
  - (* a register *)
    unfold update. cbv zeta.
    change (REGISTER =? IMMEDIATE) with false. change (REGISTER =? DIRECT) with false.
    change (REGISTER =? MATRIX) with false. change (REGISTER =? REGISTER) with true.
    cbn iota.
    assert ((operand2 =? REGISTER) = false) as -> by (apply Z.eqb_neq; auto).
    cbn [text_of].
    destruct (strtok_token (pre ++ ["r"%char]) [d] post
                [" "%char; TAB; "r"%char; "#"%char]) as [T1 _].
    { rewrite forallb_app. cbn [forallb].
      rewrite (blanks_are_delimiters pre [" "%char; TAB; "r"%char; "#"%char]) by auto.
      reflexivity. }
    { discriminate. }
    { cbn [forallb]. rewrite andb_true_r. apply negb_true_iff.
      clear -Hwf. destruct d as [[] [] [] [] [] [] [] []]; vm_compute in Hwf;
        try discriminate Hwf; reflexivity. }
    { rewrite <- (app_nil_r post). apply blanks_then; auto. }
    rewrite <- app_assoc in T1. cbn [app] in T1. cbn [app]. rewrite T1.
    unfold atoi_ptr, SET_REGISTE_AND_TYPE.
    destruct word2 as [w2|].
    + destruct (add_ins_appended
                  (RECORD_TYPE_REGISTER (to_unsigned (atoi [d])) (to_unsigned 0)
                     (to_unsigned ABSOLUTE)) t) as (t1 & E & Ha); [lia|].
      unfold bind. rewrite E. exists t1. split; [reflexivity | exact Ha].
    + destruct (add_ins_appended
                  (RECORD_TYPE_REGISTER (to_unsigned 0) (to_unsigned (atoi [d]))
                     (to_unsigned ABSOLUTE)) t) as (t1 & E & Ha); [lia|].
      unfold bind. rewrite E. exists t1. split; [reflexivity | exact Ha].
Qed.

(** ** The line *)

Lemma not_exit_with_comma (s : cstring) :
  In ","%char s -> strcmp_eq s EXIT_C = false.
Proof.
  intros H. destruct (strcmp_eq s EXIT_C) eqn:E; [|reflexivity].
  apply strcmp_eq_true in E. subst s. cbn in H.
  repeat (destruct H as [H|H]; [discriminate H|]). contradiction.
Qed.

Lemma mode_of_present o :
  mode_of o <> NO_OPERAND /\ to_unsigned (mode_of o) = mode_of o
  /\ 1 <= words_for (mode_of o) <= 2.
Proof. destruct o; repeat split; discriminate. Qed.

(** [instruction] on a [lea] line with well-formed operands. *)
Lemma lea_line_instruction src dst (lead sep before after trail : cstring) cl t :
  well_formed_operand src = true -> well_formed_operand dst = true ->
  mode_of src <> REGISTER ->
  forallb is_blank lead = true ->
  sep <> [] -> forallb is_blank sep = true ->
  forallb is_blank before = true -> forallb is_blank after = true ->
  forallb is_blank trail = true ->
  0 <= ic t -> ic t + 5 <= Z.of_nat (length (instable t)) ->
  exists t',
    instruction (lea_line lead sep src before after dst trail) cl t = Returns 1 t'
    /\ appended (1 + words_for (mode_of src) + words_for (mode_of dst)) t t'
    /\ instable t' !! Z.to_nat (ic t)
       = Some (RECORD_TYPE_COMMAND LEA (mode_of src) (mode_of dst) ABSOLUTE).
Proof.
  intros Hsrc Hdst Hnr Hlead Hsep Hsepb Hbefore Hafter Htrail Hic Hroom.
  destruct (text_starts src Hsrc) as (cS & S' & ES & HcS).
  destruct (text_starts dst Hdst) as (cD & D' & ED & HcD).
  pose proof (text_chars src Hsrc) as HSc. pose proof (text_chars dst Hdst) as HDc.
  destruct (mode_of_present src) as (Hp1 & Hu1 & Hw1).
  destruct (mode_of_present dst) as (Hp2 & Hu2 & Hw2).
  destruct sep as [|b sep']; [contradiction|].
  cbn [forallb] in Hsepb. apply andb_prop in Hsepb as [Hb Hsepb].
  assert (Hbd : is_delim (cstr " ," ++ [TAB]) b = true)
    by (destruct (blank_cases _ Hb); subst b; reflexivity).
  assert (Hnc : forall o, well_formed_operand o = true ->
                          forallb (fun c => negb (is_delim (cstr ",") c)) (text_of o) = true).
  { intros o Ho. apply operand_chars_not; [|now apply text_chars].
    intros c Hc. apply (operand_char_cases c Hc). }
  set (ops := text_of src ++ before ++ ","%char :: after ++ text_of dst ++ trail).
  (* the tokens *)
  destruct (strtok_token lead (cstr "lea") ((b :: sep') ++ ops) (cstr " ," ++ [TAB]))
    as [T1 S1];
    [ now apply blanks_are_delimiters | discriminate | reflexivity
    | right; eexists _, _; split; [reflexivity | exact Hbd] | ].
  change (drop 1 ((b :: sep') ++ ops)) with (sep' ++ ops) in S1.
  assert (token (strtok (sep' ++ ops) (cstr ",")) = Some (sep' ++ text_of src ++ before)
          /\ saved (strtok (sep' ++ ops) (cstr ",")) = after ++ text_of dst ++ trail)
    as [T2 S2].
  { replace (sep' ++ ops)
      with ([] ++ (sep' ++ text_of src ++ before)
               ++ ","%char :: after ++ text_of dst ++ trail)
      by (unfold ops; cbn [app]; rewrite <- !app_assoc; reflexivity).
    apply strtok_token; [reflexivity | | | right; eexists _, _; split; reflexivity].
    - rewrite ES. destruct sep'; discriminate.
    - rewrite !forallb_app.
      now rewrite (blanks_not_commas _ Hsepb), (Hnc _ Hsrc), (blanks_not_commas _ Hbefore). }
  assert (token (strtok (after ++ text_of dst ++ trail) (cstr ","))
          = Some (after ++ text_of dst ++ trail)
          /\ saved (strtok (after ++ text_of dst ++ trail) (cstr ",")) = []) as [T3 S3].
  { replace (after ++ text_of dst ++ trail)
      with ([] ++ (after ++ text_of dst ++ trail) ++ []) at 1 3
      by (cbn [app]; now rewrite app_nil_r).
    apply strtok_token; [reflexivity | | | now left].
    - rewrite ED. destruct after; discriminate.
    - rewrite !forallb_app.
      now rewrite (blanks_not_commas _ Hafter), (Hnc _ Hdst), (blanks_not_commas _ Htrail). }
  assert (E5 : string_without_first_word (lea_line lead (b :: sep') src before after dst trail)
                 (cstr " ," ++ [TAB])
               = Some ops).
  { unfold lea_line.
    rewrite string_without_first_word_lead by now apply blanks_are_delimiters.
    fold ops. unfold ops. rewrite ES. cbn [app].
    apply (string_without_first_word_after_word (cstr "lea") (b :: sep') cS).
    - discriminate.
    - reflexivity.
    - discriminate.
    - cbn [forallb]. rewrite Hbd. now apply blanks_are_delimiters.
    - apply (operand_char_cases cS). rewrite ES in HSc. cbn [forallb] in HSc.
      now apply andb_prop in HSc as [? _]. }
  unfold instruction. cbv zeta. rewrite E5.
  unfold lea_line. fold ops. rewrite T1, S1, T2, S2, T3, S3.
  cbn [is_some].
  rewrite !text_mode_blanks by assumption.
  rewrite not_exit_with_comma
    by (unfold ops; apply in_or_app; right; apply in_or_app; right; now left).
  change (is_some (token (strtok [] (cstr " ," ++ [TAB])))) with false. cbn iota.
  unfold bind at 1.
  unfold ops at 1.
  rewrite parse_ops_two_operands;
    [ | rewrite ES; discriminate | exact HSc | rewrite ED; discriminate | exact HDc
      | exact Hbefore | exact Hafter | exact Htrail ].
  change (1 =? 0) with false. cbn iota.
  unfold bind at 1.
  rewrite (lea_checks_presence_only _ _ cl t Hp1 Hp2) by lia.
  rewrite Hu1, Hu2.
  change (1 =? 0) with false. cbn iota.
  assert ((mode_of src =? NO_OPERAND) = false) as -> by (apply Z.eqb_neq; exact Hp1).
  assert ((mode_of src =? REGISTER) = false) as -> by (apply Z.eqb_neq; exact Hnr).
  cbn [negb andb].
  set (w := RECORD_TYPE_COMMAND LEA (mode_of src) (mode_of dst) ABSOLUTE).
  destruct (appended_cell w t) as (A0 & Hcell); [lia|].
  set (t1 := set_instable t (<[Z.to_nat (ic t) := w]> (instable t)) (ic t + 1)) in *.
  pose proof A0 as (I0 & L0 & P0 & _).
  destruct (update_well_formed_operand src sep' before
              (Some (after ++ text_of dst ++ trail))
              (mode_of dst) cl t1 Hsrc Hsepb Hbefore) as (t2 & U1 & A1);
    [ intros E; contradiction | rewrite I0; lia | rewrite I0, L0; lia | ].
  unfold bind at 1. rewrite U1.
  pose proof A1 as (I1 & L1 & P1 & _).
  destruct (update_well_formed_operand dst after trail None 0 cl t2 Hdst Hafter Htrail)
    as (t3 & U2 & A2);
    [ intros _; discriminate | rewrite I1, I0; lia | rewrite I1, L1, I0, L0; lia | ].
  unfold bind at 1. rewrite U2. exists t3. split; [reflexivity|].
  pose proof A2 as (I2 & L2 & P2 & _).
  split.
  - replace (1 + words_for (mode_of src) + words_for (mode_of dst))
      with (1 + (words_for (mode_of src) + words_for (mode_of dst))) by lia.
    apply (appended_trans _ _ t t1 t3); [lia | exact A0 |].
    apply (appended_trans _ _ t1 t2 t3); [lia | exact A1 | exact A2].
  - rewrite P2 by (rewrite I1, I0; lia). rewrite P1 by (rewrite I0; lia).
    exact Hcell.
Qed.

Lemma add_label_frame str type ic_ dc_ t :
  exists t',
    add_label str type ic_ dc_ t = Returns 1 t'
    /\ instable t' = instable t /\ ic t' = ic t
    /\ errortable t' = errortable t /\ datatable t' = datatable t.
Proof.
  unfold add_label, bind, search_label.
  destruct (search_label_loop (labeltable t) str type ic_ dc_) as [l found].
  destruct (found =? 0); eexists; (split; [reflexivity|]); repeat split.
Qed.

Lemma lea_line_chars src dst (lead sep before after trail : cstring) :
  well_formed_operand src = true -> well_formed_operand dst = true ->
  forallb is_blank lead = true -> forallb is_blank sep = true ->
  forallb is_blank before = true -> forallb is_blank after = true ->
  forallb is_blank trail = true ->
  forallb (fun c => negb (ascii_eqb c ":")) (lea_line lead sep src before after dst trail)
  = true
  /\ In ","%char (lea_line [] sep src before after dst trail).
Proof.
  intros Hsrc Hdst Hlead Hsep Hbefore Hafter Htrail.
  assert (Hb : forall x, forallb is_blank x = true ->
                         forallb (fun c => negb (ascii_eqb c ":")) x = true).
  { intros x Hx. apply forallb_forall. intros c Hc. rewrite forallb_forall in Hx.
    destruct (blank_cases _ (Hx c Hc)); subst c; reflexivity. }
  assert (Ho : forall o, well_formed_operand o = true ->
                         forallb (fun c => negb (ascii_eqb c ":")) (text_of o) = true).
  { intros o H. apply operand_chars_not; [|now apply text_chars].
    intros c Hc. apply (operand_char_cases c Hc). }
  split.
  - unfold lea_line. rewrite !forallb_app. cbn [forallb]. rewrite !forallb_app.
    rewrite (Hb lead), (Hb sep), (Hb before), (Hb after), (Hb trail), (Ho src), (Ho dst)
      by assumption.
    reflexivity.
  - unfold lea_line. cbn [app]. do 4 (apply in_or_app; right). now left.
Qed.

(** C6.  A [lea] line goes through the first pass when its operands have
    legal modes and are well formed.  The source is a label or a matrix, the
    destination a label, a matrix or a register, each written as the
    language has it (a label that does not start like a register name; a
    matrix as a name of letters and digits followed by two registers r0 to
    r7 between brackets); the line is made of [lea], the source, a comma and
    the destination, with blanks after [lea] and, if any, before it, around
    the comma and at the end.  On such a line [first_pass] returns 1 through
    [instruction]: the Command word with the LEA opcode and the two modes is
    written at IC, the words of the operands follow it, and no diagnostic is
    recorded.  The same holds when the line starts with a label that
    [valid_label] accepts, which is then added to the symbol table, as long
    as that table has a free entry.  (The line needs room for its words,
    five at most, in the cells allocated.) *)
Theorem lea_line_accepted src dst (lead sep before after trail : cstring) cl macros t :
  well_formed_operand src = true -> well_formed_operand dst = true ->
  mode_of src = DIRECT \/ mode_of src = MATRIX ->
  mode_of dst = DIRECT \/ mode_of dst = MATRIX \/ mode_of dst = REGISTER ->
  forallb is_blank lead = true ->
  sep <> [] -> forallb is_blank sep = true ->
  forallb is_blank before = true -> forallb is_blank after = true ->
  forallb is_blank trail = true ->
  0 <= ic t -> ic t + 5 <= Z.of_nat (length (instable t)) ->
  (exists t',
     first_pass (lea_line lead sep src before after dst trail) cl macros t = Returns 1 t'
     /\ instruction (lea_line lead sep src before after dst trail) cl t = Returns 1 t'
     /\ errortable t' = errortable t
     /\ instable t' !! Z.to_nat (ic t)
        = Some (RECORD_TYPE_COMMAND LEA (mode_of src) (mode_of dst) ABSOLUTE)
     /\ ic t' = ic t + 1 + words_for (mode_of src) + words_for (mode_of dst)
     /\ labeltable t' = labeltable t /\ datatable t' = datatable t)
  /\ (forall name,
        label_acceptable name macros (labeltable t) -> lac t < MAX_SIZE_MEMORY ->
        lead <> [] ->
        exists t',
          first_pass (name ++ ":"%char :: lea_line lead sep src before after dst trail)
            cl macros t = Returns 1 t'
          /\ errortable t' = errortable t
          /\ instable t' !! Z.to_nat (ic t)
             = Some (RECORD_TYPE_COMMAND LEA (mode_of src) (mode_of dst) ABSOLUTE)
          /\ ic t' = ic t + 1 + words_for (mode_of src) + words_for (mode_of dst)
          /\ datatable t' = datatable t).
Proof.
  intros Hsrc Hdst Hm1 _ Hlead Hsep Hsepb Hbefore Hafter Htrail Hic Hroom.
  assert (Hnr : mode_of src <> REGISTER) by (destruct Hm1 as [-> | ->]; discriminate).
  destruct (lea_line_chars src dst lead sep before after trail) as [Hcolon Hcomma];
    try assumption.
  assert (Hlea : forall l rest,
            forallb is_blank l = true ->
            token (strtok (l ++ cstr "lea" ++ sep ++ rest) (cstr " ," ++ [TAB]))
            = Some (cstr "lea")).
  { intros l rest Hl. destruct sep as [|b sep']; [contradiction|].
    cbn [forallb] in Hsepb. apply andb_prop in Hsepb as [Hb _].
    apply strtok_token;
      [ now apply blanks_are_delimiters | discriminate | reflexivity | ].
    right. eexists _, _. split; [reflexivity|].
    destruct (blank_cases _ Hb); subst b; reflexivity. }
  split.
  - (* a line without label *)
    destruct (lea_line_instruction src dst lead sep before after trail cl t Hsrc Hdst
                Hnr Hlead Hsep Hsepb Hbefore Hafter Htrail Hic Hroom)
      as (t' & Hi & (I & _ & _ & He & Hl & Hd & _) & Hcell).
    exists t'.
    split; [|split; [exact Hi|]; split; [exact He|]; split; [exact Hcell|];
             split; [lia|]; split; assumption].
    unfold first_pass. cbv zeta.
    rewrite (take_while_idem _ _ Hcolon), Nat.eqb_refl. cbn [negb andb].
    rewrite (Hlea lead _ Hlead
             : token (strtok (lea_line lead sep src before after dst trail)
                        (cstr " ," ++ [TAB])) = Some (cstr "lea")).
    change (is_label (Some (cstr "lea"))) with 0.
    change (negb (0 =? 0)) with false. cbn iota.
    unfold bind at 1.
    change (which_type (Some (cstr "lea")) cl UPDATE t) with (Returns INSTRUCTION t).
    unfold first_pass_dispatch.
    change (INSTRUCTION =? DIRECTIVE) with false.
    change (INSTRUCTION =? INSTRUCTION) with true. cbn iota.
    unfold bind. rewrite Hi. reflexivity.
  - (* a line with a label *)
    intros name Hacc _ Hne.
    pose proof Hacc as (Hname & _).
    destruct lead as [|b lead']; [contradiction|].
    cbn [forallb] in Hlead. apply andb_prop in Hlead as [Hb Hlead].
    set (rest := cstr "lea" ++ sep ++ text_of src ++ before
                      ++ ","%char :: after ++ text_of dst ++ trail).
    assert (Hline : lea_line (b :: lead') sep src before after dst trail
                    = b :: lead' ++ rest) by reflexivity.
    rewrite Hline.
    assert (Hnd : forallb (fun c => negb (is_delim (cstr " ," ++ [TAB]) c))
                    (name ++ [":"%char]) = true).
    { rewrite forallb_app. apply andb_true_intro. split; [|reflexivity].
      apply operand_chars_not; [|now apply name_chars_operand].
      intros c Hc. apply (operand_char_cases c Hc). }
    assert (Hnc : forallb (fun c => negb (ascii_eqb c ":")) name = true).
    { apply operand_chars_not; [|now apply name_chars_operand].
      intros c Hc. apply (operand_char_cases c Hc). }
    assert (Hbd : is_delim (cstr " ," ++ [TAB]) b = true)
      by (destruct (blank_cases _ Hb); subst b; reflexivity).
    destruct (strtok_token [] (name ++ [":"%char]) (b :: lead' ++ rest)
                (cstr " ," ++ [TAB])) as [T1 S1];
      [ reflexivity | destruct name; discriminate | exact Hnd
      | right; eexists _, _; split; [reflexivity | exact Hbd] | ].
    cbn [app] in T1, S1. rewrite <- app_assoc in T1, S1. cbn [app] in T1, S1.
    change (drop 1 (b :: lead' ++ rest)) with (lead' ++ rest) in S1.
    destruct (add_label_frame name INSTRUCTION (ic t) (dc t) t)
      as (tl & El & Li & Lc & Le & Ld).
    destruct (lea_line_instruction src dst [] sep before after trail cl tl Hsrc Hdst
                Hnr eq_refl Hsep Hsepb Hbefore Hafter Htrail)
      as (t' & Hi & (I & _ & _ & He & _ & Hd & _) & Hcell);
      [ rewrite Lc; exact Hic | rewrite Lc, Li; exact Hroom | ].
    exists t'.
    split; [|split; [congruence|]; split; [rewrite <- Lc, <- Hcell; reflexivity|];
             split; [rewrite I, Lc; lia | congruence]].
    unfold first_pass. cbv zeta.
    rewrite (take_while_app_stop _ name ":" _ Hnc eq_refl).
    assert ((length (name ++ ":"%char :: b :: lead' ++ rest) =? length name)%nat = false)
      as -> by (apply Nat.eqb_neq; rewrite length_app; cbn [length]; lia).
    rewrite nth_char_app_middle.
    assert (nth_char (name ++ ":"%char :: b :: lead' ++ rest) (length name + 1) = b) as ->.
    { change (name ++ ":"%char :: b :: lead' ++ rest)
        with (name ++ [":"%char; b] ++ lead' ++ rest).
      rewrite nth_char_app_r. reflexivity. }
    assert ((negb (ascii_eqb b " ") && negb (ascii_eqb b TAB)) = false) as Hblank.
    { destruct (blank_cases _ Hb); subst b; reflexivity. }
    change (ascii_eqb ":" ":") with true. cbn [negb andb].
    rewrite Hblank.
    rewrite T1, S1.
    assert (is_label (Some (name ++ [":"%char])) = 1) as ->.
    { unfold is_label. rewrite length_app. cbn [length].
      replace (length name + 1 - 1)%nat with (length name) by lia.
      now rewrite nth_char_app_middle. }
    change (negb (1 =? 0)) with true. cbn iota.
    rewrite (Hlea lead' _ Hlead
             : token (strtok (lead' ++ rest) (cstr " ," ++ [TAB])) = Some (cstr "lea")).
    unfold bind at 1.
    change (which_type (Some (cstr "lea")) cl UPDATE t) with (Returns INSTRUCTION t).
    rewrite length_app. cbn [length].
    replace (length name + 1 - 1)%nat with (length name) by lia.
    rewrite take_app_length.
    destruct (valid_label_returns name cl macros t) as (r & tv & Ev & Hv).
    destruct Hv as [(-> & -> & _) | (_ & _ & Hno)]; [|contradiction].
    unfold bind at 1. rewrite Ev.
    change ((1 =? 0) || (INSTRUCTION =? - 1)) with false. cbn iota.
    change (negb (INSTRUCTION =? EXTERN) && negb (INSTRUCTION =? ENTRY)) with true.
    cbn iota.
    unfold bind at 1. unfold bind at 1. unfold get at 1. rewrite El.
    unfold bind at 1.
    change (which_type (Some (cstr "lea")) cl UPDATE tl) with (Returns INSTRUCTION tl).
    assert (string_without_first_word (name ++ ":"%char :: b :: lead' ++ rest)
              (cstr " ," ++ [TAB])
            = Some (lea_line [] sep src before after dst trail)) as ->.
    { replace (name ++ ":"%char :: b :: lead' ++ rest)
        with ((name ++ [":"%char]) ++ (b :: lead') ++ "l"%char
                :: (cstr "ea" ++ sep ++ text_of src ++ before
                    ++ ","%char :: after ++ text_of dst ++ trail))
        by (rewrite <- !app_assoc; reflexivity).
      apply string_without_first_word_after_word;
        [ destruct name; discriminate | exact Hnd | discriminate | | reflexivity ].
      cbn [forallb]. rewrite Hbd. now apply blanks_are_delimiters. }
    rewrite (not_exit_with_comma _ Hcomma).
    unfold first_pass_dispatch.
    change (INSTRUCTION =? DIRECTIVE) with false.
    change (INSTRUCTION =? INSTRUCTION) with true. cbn iota.
    unfold bind. rewrite Hi. reflexivity.
Qed.

Lemma lea_line_accepted_witness :
  (exists t',
     first_pass (cstr " lea M[r1][r2] , r6") 7 [] initial_tables = Returns 1 t'
     /\ instruction (cstr " lea M[r1][r2] , r6") 7 initial_tables = Returns 1 t'
     /\ errortable t' = errortable initial_tables
     /\ instable t' !! Z.to_nat (ic initial_tables)
        = Some (RECORD_TYPE_COMMAND LEA MATRIX REGISTER ABSOLUTE)
     /\ ic t' = ic initial_tables + 1 + words_for MATRIX + words_for REGISTER
     /\ labeltable t' = labeltable initial_tables
     /\ datatable t' = datatable initial_tables)
  /\ (exists t',
        first_pass (cstr "LOOP: lea M[r1][r2] , r6") 7 [] initial_tables = Returns 1 t'
        /\ errortable t' = errortable initial_tables
        /\ instable t' !! Z.to_nat (ic initial_tables)
           = Some (RECORD_TYPE_COMMAND LEA MATRIX REGISTER ABSOLUTE)
        /\ ic t' = ic initial_tables + 1 + words_for MATRIX + words_for REGISTER
        /\ datatable t' = datatable initial_tables).
Proof.
  destruct (lea_line_accepted (Matrix_operand (cstr "M") "1" "2") (Register_operand "6")
              (cstr " ") (cstr " ") (cstr " ") (cstr " ") [] 7 [] initial_tables)
    as [H1 H2].
  - reflexivity.
  - reflexivity.
  - right. reflexivity.
  - right. right. reflexivity.
  - reflexivity.
  - discriminate.
  - reflexivity.
  - reflexivity.
  - reflexivity.
  - reflexivity.
  - vm_compute. discriminate.
  - vm_compute. discriminate.
  - split; [exact H1|]. apply (H2 (cstr "LOOP")); [|reflexivity|discriminate].
    repeat split; try reflexivity; try discriminate.
    + cbn. lia.
    + constructor.
Defined.

(** C6 as stated fails: in [lea M[r8][r1], r2] the source has the mode
    Matrix and the destination the mode Register, both legal for [lea], and
    the first pass records a diagnostic for the line: r8 is not a
    register. *)
Lemma lea_legal_modes_reported :
  operand_modes (cstr "lea M[r8][r1], r2") = (MATRIX, REGISTER)
  /\ exists t',
       first_pass (cstr "lea M[r8][r1], r2") 0 [] initial_tables = Returns 1 t'
       /\ errortable t'
          = [{| e_error := cstr ": error! Invalid matrix a valid register must appear";
                e_line := 0 |}].
Proof.
  split; [reflexivity|]. eexists. split; [vm_compute; reflexivity | reflexivity].
Qed.
